(** * FSAL_MEM object handles

    A shallow embedding of [src/FSAL/FSAL_MEM/mem_handle.c]: the in-memory
    object store of NFS-Ganesha (object allocation, the per-directory name
    and index trees, release, open/read/write, the wire handle codec), and
    the properties of it stated by the specification.

    Objects live in a heap addressed by pointers; every function of the C
    file is a function on that heap, written in a small state-and-fault
    monad: [None] is a memory fault (a dereference of a pointer that is not
    allocated, a failed [assert]) or exhausted recursion fuel. *)

From stdpp Require Import base gmap list strings sorting.
From Stdlib Require Import ZArith Lia.
From Stdlib Require Import Init.Byte Strings.Byte.

Open Scope Z_scope.

(** ** Machine integers and bytes *)

Definition wrap (w z : Z) : Z := z mod 2 ^ w.
Definition u64 : Z → Z := wrap 64.
Definition u32 : Z → Z := wrap 32.
Definition u16 : Z → Z := wrap 16.

#[global] Instance byte_eq_dec : EqDecision byte := Byte.byte_eq_dec.

Definition byte_of_Z (z : Z) : byte :=
  default x00 (Byte.of_N (Z.to_N (z mod 256))).

(** The object representation of a [w]-byte unsigned integer, as [memcpy]
    sees it (least significant byte first). *)
Fixpoint le_bytes (w : nat) (z : Z) : list byte :=
  match w with
  | O => []
  | S w' => byte_of_Z z :: le_bytes w' (z / 256)
  end.

Definition bytes_of_string (s : string) : list byte :=
  String.list_byte_of_string s.

(** [memset(_, 'a', n)] *)
Definition filler : byte := x61.

Definition MIN (a b : Z) : Z := if a <? b then a else b.

(** ** FSAL types *)

Definition ptr := positive.

Inductive object_file_type_t :=
  | NO_FILE_TYPE | REGULAR_FILE | CHARACTER_FILE | BLOCK_FILE
  | SYMBOLIC_LINK | SOCKET_FILE | FIFO_FILE | DIRECTORY | EXTENDED_ATTR.

Inductive fsal_errors_t :=
  | ERR_FSAL_NO_ERROR | ERR_FSAL_NOENT | ERR_FSAL_EXIST | ERR_FSAL_NOTDIR
  | ERR_FSAL_NOTEMPTY | ERR_FSAL_FILE_OPEN | ERR_FSAL_STALE
  | ERR_FSAL_BADHANDLE | ERR_FSAL_TOOSMALL | ERR_FSAL_NOTSUPP
  | ERR_FSAL_NOMEM | ERR_FSAL_INVAL | ERR_FSAL_SHARE_DENIED
  | ERR_FSAL_NOT_OPENED | ERR_FSAL_SERVERFAULT.

#[global] Instance object_file_type_eq_dec : EqDecision object_file_type_t.
Proof. solve_decision. Defined.

#[global] Instance fsal_errors_eq_dec : EqDecision fsal_errors_t.
Proof. solve_decision. Defined.

Record fsal_status_t := fsalstat { major : fsal_errors_t; minor : Z }.

Definition FSAL_IS_ERROR (st : fsal_status_t) : bool :=
  negb (bool_decide (major st = ERR_FSAL_NO_ERROR)).

Definition EEXIST : Z := 17.
Definition ESTALE : Z := 116.
Definition EINVAL : Z := 22.

Inductive fsal_create_mode :=
  | FSAL_NO_CREATE | FSAL_UNCHECKED | FSAL_GUARDED | FSAL_EXCLUSIVE
  | FSAL_EXCLUSIVE_41 | FSAL_EXCLUSIVE_9P.

Definition create_mode_rank (m : fsal_create_mode) : Z :=
  match m with
  | FSAL_NO_CREATE => 0 | FSAL_UNCHECKED => 1 | FSAL_GUARDED => 2
  | FSAL_EXCLUSIVE => 3 | FSAL_EXCLUSIVE_41 => 4 | FSAL_EXCLUSIVE_9P => 5
  end.

#[global] Instance fsal_create_mode_eq_dec : EqDecision fsal_create_mode.
Proof. solve_decision. Defined.

Inductive fsal_dir_result := DIR_CONTINUE | DIR_READAHEAD | DIR_TERMINATE.

(** The digest a caller of [mem_handle_to_wire] asks for. The enumeration
    is declared in a header of the server; the function only tells the two
    NFS digests from all the others, for which [FSAL_DIGEST_OTHER]
    stands. *)
Inductive fsal_digesttype_t :=
  | FSAL_DIGEST_NFSV3 | FSAL_DIGEST_NFSV4 | FSAL_DIGEST_OTHER.

Definition dir_result_rank (r : fsal_dir_result) : Z :=
  match r with DIR_CONTINUE => 0 | DIR_READAHEAD => 1 | DIR_TERMINATE => 2 end.

Record timespec := { tv_sec : Z; tv_nsec : Z }.

Definition timespec_to_nsecs (t : timespec) : Z :=
  u64 (tv_sec t * 1000000000 + tv_nsec t).

(** Open flags and attribute mask bits are bit masks on [Z]. *)
Definition FSAL_O_CLOSED : Z := 0.
Definition FSAL_O_READ : Z := 1.
Definition FSAL_O_WRITE : Z := 2.
Definition FSAL_O_RDWR : Z := 3.
Definition FSAL_O_ANY : Z := 32.
Definition FSAL_O_TRUNC : Z := 64.
Definition FSAL_O_DENY_READ : Z := 256.
Definition FSAL_O_DENY_WRITE : Z := 512.
Definition FSAL_O_DENY_WRITE_MAND : Z := 1024.

Definition ATTR_TYPE : Z := 2.
Definition ATTR_SIZE : Z := 4.
Definition ATTR_FSID : Z := 8.
Definition ATTR_FILEID : Z := 64.
Definition ATTR_MODE : Z := 128.
Definition ATTR_NUMLINKS : Z := 256.
Definition ATTR_OWNER : Z := 512.
Definition ATTR_GROUP : Z := 1024.
Definition ATTR_RAWDEV : Z := 2048.
Definition ATTR_ATIME : Z := 4096.
Definition ATTR_CREATION : Z := 8192.
Definition ATTR_CTIME : Z := 16384.
Definition ATTR_MTIME : Z := 32768.
Definition ATTR_SPACEUSED : Z := 65536.
Definition ATTR_RDATTR_ERR : Z := 2 ^ 63.
Definition ATTRS_POSIX : Z :=
  Eval cbv in
    fold_right Z.lor 0
      [ATTR_TYPE; ATTR_SIZE; ATTR_FSID; ATTR_FILEID; ATTR_MODE; ATTR_NUMLINKS;
       ATTR_OWNER; ATTR_GROUP; ATTR_ATIME; ATTR_RAWDEV; ATTR_CTIME; ATTR_MTIME;
       ATTR_SPACEUSED].
Definition S_IFMT : Z := 61440.

Definition test_mask (mask bit : Z) : bool := negb (Z.land mask bit =? 0).

Record fsal_dev_t := { dev_major : Z; dev_minor : Z }.

Record attrlist := {
  request_mask : Z;
  valid_mask : Z;
  supported : Z;
  a_type : object_file_type_t;
  filesize : Z;
  fileid : Z;
  mode : Z;
  numlinks : Z;
  owner : Z;
  group : Z;
  rawdev : fsal_dev_t;
  atime : timespec;
  creation : timespec;
  ctime : timespec;
  mtime : timespec;
  chgtime : timespec;
  spaceused : Z;
  change : Z
}.

Record fsal_share := {
  share_access_read : Z;
  share_access_write : Z;
  share_deny_read : Z;
  share_deny_write : Z;
  share_deny_write_mand : Z
}.

Record mem_fd := { openflags : Z; fd_offset : Z }.

Record display_buffer := { b_size : Z; b_text : list byte }.

Definition display_buffer_len (b : display_buffer) : Z :=
  Z.of_nat (length (b_text b)).

(** ** What the file takes from the rest of the server

    Constants, the path display buffer, the hash, the share-reservation
    helpers and the create verifier helpers are declared in headers and
    defined in files of the server that are not part of [mem_handle.c]. The
    embedding takes them as an environment. *)

Class fsal_env := {
  V4_FH_OPAQUE_SIZE : Z;
  MAXPATHLEN : Z;
  MEM_inode_size : Z;
  CityHash64 : list byte → Z;
  display_start : display_buffer → Z;
  display_cat : display_buffer → string → display_buffer * Z;
  check_share_conflict : fsal_share → Z → bool → fsal_status_t;
  update_share_counters : fsal_share → Z → Z → fsal_share;
  open_correct : Z → Z → bool;
  set_common_verifier : attrlist → list byte → attrlist;
  check_verifier_attrlist : attrlist → list byte → bool
}.

(** The caller's context [op_ctx], and the clock read by [now()]. *)
Record op_context := {
  caller_uid : Z;
  caller_gid : Z;
  export_id : Z;
  fs_umask : Z;
  export_path : string;
  clock : timespec
}.

(** ** AVL trees

    An [avltree] is an ordered set of nodes; each node is embedded in an
    object, so a tree is modelled by the list of (key, object) pairs in
    increasing key order. The operations below are the ones the file uses:
    insertion (a node whose key is already present is not inserted),
    removal of a given node, lookup by key, first node, in-order
    traversal. *)

Section avltree.
Context {K : Type} (cmpf : K → K → comparison).

Fixpoint avltree_insert (k : K) (p : ptr) (t : list (K * ptr))
  : list (K * ptr) :=
  match t with
  | [] => [(k, p)]
  | (k', p') :: t' =>
      match cmpf k k' with
      | Lt => (k, p) :: t
      | Eq => t
      | Gt => (k', p') :: avltree_insert k p t'
      end
  end.

Fixpoint avltree_remove (p : ptr) (t : list (K * ptr)) : list (K * ptr) :=
  match t with
  | [] => []
  | (k', p') :: t' =>
      if bool_decide (p' = p) then avltree_remove p t'
      else (k', p') :: avltree_remove p t'
  end.

Fixpoint avltree_lookup (k : K) (t : list (K * ptr)) : option ptr :=
  match t with
  | [] => None
  | (k', p') :: t' =>
      match cmpf k k' with
      | Eq => Some p'
      | _ => avltree_lookup k t'
      end
  end.

Definition avltree_first (t : list (K * ptr)) : option ptr :=
  match t with
  | [] => None
  | (_, p) :: _ => Some p
  end.
End avltree.

(** [mem_n_cmpf]: nodes of the name tree compare by [strcmp] of [m_name]. *)
Definition mem_n_cmpf (l r : string) : comparison := String.compare l r.

(** [mem_i_cmpf]: nodes of the index tree compare by [index]. *)
Definition mem_i_cmpf (l r : Z) : comparison :=
  if l <? r then Lt else if l =? r then Eq else Gt.

(** ** Object handles and the store *)

Record mem_dir := {
  avl_name : list (string * ptr);
  avl_index : list (Z * ptr);
  dir_numlinks : Z
}.

Record mem_file := {
  share : fsal_share;
  fd : mem_fd;
  file_length : Z
}.

(** [struct mem_fsal_obj_handle]. The members [mh_dir], [mh_file] and
    [mh_symlink] share storage in C; an object only uses the member of its
    type, and the embedding keeps them apart. [data] is the fixed buffer of
    [datasize] bytes allocated behind a regular file. *)
Record mem_fsal_obj_handle := {
  obj_type : object_file_type_t;
  obj_fileid : Z;
  attrs : attrlist;
  handle : list byte;
  parent : option ptr;
  mh_dir : mem_dir;
  mh_file : mem_file;
  link_contents : option string;
  m_name : string;
  index : Z;
  next_i : Z;
  datasize : Z;
  inavl : bool;
  data : list byte
}.

(** Teardown events, in the order they happen. *)
Inductive free_event :=
  | Free_link (p : ptr)
  | Free_handle (p : ptr).

#[global] Instance free_event_eq_dec : EqDecision free_event.
Proof. solve_decision. Defined.

Record store := {
  heap : gmap ptr mem_fsal_obj_handle;
  fsal_handles : list ptr;
  mfe_objs : list ptr;
  mem_inode_number : Z;
  root_handle : option ptr;
  freed : list free_event
}.

(** ** Field updates *)

Definition set_request_mask (v : _) (r : attrlist) : attrlist :=
  {| request_mask := v; valid_mask := valid_mask r; supported := supported r; a_type := a_type r; filesize := filesize r; fileid := fileid r; mode := mode r; numlinks := numlinks r; owner := owner r; group := group r; rawdev := rawdev r; atime := atime r; creation := creation r; ctime := ctime r; mtime := mtime r; chgtime := chgtime r; spaceused := spaceused r; change := change r |}.

Definition set_valid_mask (v : _) (r : attrlist) : attrlist :=
  {| request_mask := request_mask r; valid_mask := v; supported := supported r; a_type := a_type r; filesize := filesize r; fileid := fileid r; mode := mode r; numlinks := numlinks r; owner := owner r; group := group r; rawdev := rawdev r; atime := atime r; creation := creation r; ctime := ctime r; mtime := mtime r; chgtime := chgtime r; spaceused := spaceused r; change := change r |}.

Definition set_supported (v : _) (r : attrlist) : attrlist :=
  {| request_mask := request_mask r; valid_mask := valid_mask r; supported := v; a_type := a_type r; filesize := filesize r; fileid := fileid r; mode := mode r; numlinks := numlinks r; owner := owner r; group := group r; rawdev := rawdev r; atime := atime r; creation := creation r; ctime := ctime r; mtime := mtime r; chgtime := chgtime r; spaceused := spaceused r; change := change r |}.

Definition set_a_type (v : _) (r : attrlist) : attrlist :=
  {| request_mask := request_mask r; valid_mask := valid_mask r; supported := supported r; a_type := v; filesize := filesize r; fileid := fileid r; mode := mode r; numlinks := numlinks r; owner := owner r; group := group r; rawdev := rawdev r; atime := atime r; creation := creation r; ctime := ctime r; mtime := mtime r; chgtime := chgtime r; spaceused := spaceused r; change := change r |}.

Definition set_filesize (v : _) (r : attrlist) : attrlist :=
  {| request_mask := request_mask r; valid_mask := valid_mask r; supported := supported r; a_type := a_type r; filesize := v; fileid := fileid r; mode := mode r; numlinks := numlinks r; owner := owner r; group := group r; rawdev := rawdev r; atime := atime r; creation := creation r; ctime := ctime r; mtime := mtime r; chgtime := chgtime r; spaceused := spaceused r; change := change r |}.

Definition set_fileid (v : _) (r : attrlist) : attrlist :=
  {| request_mask := request_mask r; valid_mask := valid_mask r; supported := supported r; a_type := a_type r; filesize := filesize r; fileid := v; mode := mode r; numlinks := numlinks r; owner := owner r; group := group r; rawdev := rawdev r; atime := atime r; creation := creation r; ctime := ctime r; mtime := mtime r; chgtime := chgtime r; spaceused := spaceused r; change := change r |}.

Definition set_mode (v : _) (r : attrlist) : attrlist :=
  {| request_mask := request_mask r; valid_mask := valid_mask r; supported := supported r; a_type := a_type r; filesize := filesize r; fileid := fileid r; mode := v; numlinks := numlinks r; owner := owner r; group := group r; rawdev := rawdev r; atime := atime r; creation := creation r; ctime := ctime r; mtime := mtime r; chgtime := chgtime r; spaceused := spaceused r; change := change r |}.

Definition set_numlinks (v : _) (r : attrlist) : attrlist :=
  {| request_mask := request_mask r; valid_mask := valid_mask r; supported := supported r; a_type := a_type r; filesize := filesize r; fileid := fileid r; mode := mode r; numlinks := v; owner := owner r; group := group r; rawdev := rawdev r; atime := atime r; creation := creation r; ctime := ctime r; mtime := mtime r; chgtime := chgtime r; spaceused := spaceused r; change := change r |}.

Definition set_owner (v : _) (r : attrlist) : attrlist :=
  {| request_mask := request_mask r; valid_mask := valid_mask r; supported := supported r; a_type := a_type r; filesize := filesize r; fileid := fileid r; mode := mode r; numlinks := numlinks r; owner := v; group := group r; rawdev := rawdev r; atime := atime r; creation := creation r; ctime := ctime r; mtime := mtime r; chgtime := chgtime r; spaceused := spaceused r; change := change r |}.

Definition set_group (v : _) (r : attrlist) : attrlist :=
  {| request_mask := request_mask r; valid_mask := valid_mask r; supported := supported r; a_type := a_type r; filesize := filesize r; fileid := fileid r; mode := mode r; numlinks := numlinks r; owner := owner r; group := v; rawdev := rawdev r; atime := atime r; creation := creation r; ctime := ctime r; mtime := mtime r; chgtime := chgtime r; spaceused := spaceused r; change := change r |}.

Definition set_rawdev (v : _) (r : attrlist) : attrlist :=
  {| request_mask := request_mask r; valid_mask := valid_mask r; supported := supported r; a_type := a_type r; filesize := filesize r; fileid := fileid r; mode := mode r; numlinks := numlinks r; owner := owner r; group := group r; rawdev := v; atime := atime r; creation := creation r; ctime := ctime r; mtime := mtime r; chgtime := chgtime r; spaceused := spaceused r; change := change r |}.

Definition set_atime (v : _) (r : attrlist) : attrlist :=
  {| request_mask := request_mask r; valid_mask := valid_mask r; supported := supported r; a_type := a_type r; filesize := filesize r; fileid := fileid r; mode := mode r; numlinks := numlinks r; owner := owner r; group := group r; rawdev := rawdev r; atime := v; creation := creation r; ctime := ctime r; mtime := mtime r; chgtime := chgtime r; spaceused := spaceused r; change := change r |}.

Definition set_creation (v : _) (r : attrlist) : attrlist :=
  {| request_mask := request_mask r; valid_mask := valid_mask r; supported := supported r; a_type := a_type r; filesize := filesize r; fileid := fileid r; mode := mode r; numlinks := numlinks r; owner := owner r; group := group r; rawdev := rawdev r; atime := atime r; creation := v; ctime := ctime r; mtime := mtime r; chgtime := chgtime r; spaceused := spaceused r; change := change r |}.

Definition set_ctime (v : _) (r : attrlist) : attrlist :=
  {| request_mask := request_mask r; valid_mask := valid_mask r; supported := supported r; a_type := a_type r; filesize := filesize r; fileid := fileid r; mode := mode r; numlinks := numlinks r; owner := owner r; group := group r; rawdev := rawdev r; atime := atime r; creation := creation r; ctime := v; mtime := mtime r; chgtime := chgtime r; spaceused := spaceused r; change := change r |}.

Definition set_mtime (v : _) (r : attrlist) : attrlist :=
  {| request_mask := request_mask r; valid_mask := valid_mask r; supported := supported r; a_type := a_type r; filesize := filesize r; fileid := fileid r; mode := mode r; numlinks := numlinks r; owner := owner r; group := group r; rawdev := rawdev r; atime := atime r; creation := creation r; ctime := ctime r; mtime := v; chgtime := chgtime r; spaceused := spaceused r; change := change r |}.

Definition set_chgtime (v : _) (r : attrlist) : attrlist :=
  {| request_mask := request_mask r; valid_mask := valid_mask r; supported := supported r; a_type := a_type r; filesize := filesize r; fileid := fileid r; mode := mode r; numlinks := numlinks r; owner := owner r; group := group r; rawdev := rawdev r; atime := atime r; creation := creation r; ctime := ctime r; mtime := mtime r; chgtime := v; spaceused := spaceused r; change := change r |}.

Definition set_spaceused (v : _) (r : attrlist) : attrlist :=
  {| request_mask := request_mask r; valid_mask := valid_mask r; supported := supported r; a_type := a_type r; filesize := filesize r; fileid := fileid r; mode := mode r; numlinks := numlinks r; owner := owner r; group := group r; rawdev := rawdev r; atime := atime r; creation := creation r; ctime := ctime r; mtime := mtime r; chgtime := chgtime r; spaceused := v; change := change r |}.

Definition set_change (v : _) (r : attrlist) : attrlist :=
  {| request_mask := request_mask r; valid_mask := valid_mask r; supported := supported r; a_type := a_type r; filesize := filesize r; fileid := fileid r; mode := mode r; numlinks := numlinks r; owner := owner r; group := group r; rawdev := rawdev r; atime := atime r; creation := creation r; ctime := ctime r; mtime := mtime r; chgtime := chgtime r; spaceused := spaceused r; change := v |}.

Definition set_avl_name (v : _) (r : mem_dir) : mem_dir :=
  {| avl_name := v; avl_index := avl_index r; dir_numlinks := dir_numlinks r |}.

Definition set_avl_index (v : _) (r : mem_dir) : mem_dir :=
  {| avl_name := avl_name r; avl_index := v; dir_numlinks := dir_numlinks r |}.

Definition set_dir_numlinks (v : _) (r : mem_dir) : mem_dir :=
  {| avl_name := avl_name r; avl_index := avl_index r; dir_numlinks := v |}.

Definition set_share (v : _) (r : mem_file) : mem_file :=
  {| share := v; fd := fd r; file_length := file_length r |}.

Definition set_fd (v : _) (r : mem_file) : mem_file :=
  {| share := share r; fd := v; file_length := file_length r |}.

Definition set_file_length (v : _) (r : mem_file) : mem_file :=
  {| share := share r; fd := fd r; file_length := v |}.

Definition set_obj_type (v : _) (r : mem_fsal_obj_handle) : mem_fsal_obj_handle :=
  {| obj_type := v; obj_fileid := obj_fileid r; attrs := attrs r; handle := handle r; parent := parent r; mh_dir := mh_dir r; mh_file := mh_file r; link_contents := link_contents r; m_name := m_name r; index := index r; next_i := next_i r; datasize := datasize r; inavl := inavl r; data := data r |}.

Definition set_obj_fileid (v : _) (r : mem_fsal_obj_handle) : mem_fsal_obj_handle :=
  {| obj_type := obj_type r; obj_fileid := v; attrs := attrs r; handle := handle r; parent := parent r; mh_dir := mh_dir r; mh_file := mh_file r; link_contents := link_contents r; m_name := m_name r; index := index r; next_i := next_i r; datasize := datasize r; inavl := inavl r; data := data r |}.

Definition set_attrs (v : _) (r : mem_fsal_obj_handle) : mem_fsal_obj_handle :=
  {| obj_type := obj_type r; obj_fileid := obj_fileid r; attrs := v; handle := handle r; parent := parent r; mh_dir := mh_dir r; mh_file := mh_file r; link_contents := link_contents r; m_name := m_name r; index := index r; next_i := next_i r; datasize := datasize r; inavl := inavl r; data := data r |}.

Definition set_handle (v : _) (r : mem_fsal_obj_handle) : mem_fsal_obj_handle :=
  {| obj_type := obj_type r; obj_fileid := obj_fileid r; attrs := attrs r; handle := v; parent := parent r; mh_dir := mh_dir r; mh_file := mh_file r; link_contents := link_contents r; m_name := m_name r; index := index r; next_i := next_i r; datasize := datasize r; inavl := inavl r; data := data r |}.

Definition set_parent (v : _) (r : mem_fsal_obj_handle) : mem_fsal_obj_handle :=
  {| obj_type := obj_type r; obj_fileid := obj_fileid r; attrs := attrs r; handle := handle r; parent := v; mh_dir := mh_dir r; mh_file := mh_file r; link_contents := link_contents r; m_name := m_name r; index := index r; next_i := next_i r; datasize := datasize r; inavl := inavl r; data := data r |}.

Definition set_mh_dir (v : _) (r : mem_fsal_obj_handle) : mem_fsal_obj_handle :=
  {| obj_type := obj_type r; obj_fileid := obj_fileid r; attrs := attrs r; handle := handle r; parent := parent r; mh_dir := v; mh_file := mh_file r; link_contents := link_contents r; m_name := m_name r; index := index r; next_i := next_i r; datasize := datasize r; inavl := inavl r; data := data r |}.

Definition set_mh_file (v : _) (r : mem_fsal_obj_handle) : mem_fsal_obj_handle :=
  {| obj_type := obj_type r; obj_fileid := obj_fileid r; attrs := attrs r; handle := handle r; parent := parent r; mh_dir := mh_dir r; mh_file := v; link_contents := link_contents r; m_name := m_name r; index := index r; next_i := next_i r; datasize := datasize r; inavl := inavl r; data := data r |}.

Definition set_link_contents (v : _) (r : mem_fsal_obj_handle) : mem_fsal_obj_handle :=
  {| obj_type := obj_type r; obj_fileid := obj_fileid r; attrs := attrs r; handle := handle r; parent := parent r; mh_dir := mh_dir r; mh_file := mh_file r; link_contents := v; m_name := m_name r; index := index r; next_i := next_i r; datasize := datasize r; inavl := inavl r; data := data r |}.

Definition set_m_name (v : _) (r : mem_fsal_obj_handle) : mem_fsal_obj_handle :=
  {| obj_type := obj_type r; obj_fileid := obj_fileid r; attrs := attrs r; handle := handle r; parent := parent r; mh_dir := mh_dir r; mh_file := mh_file r; link_contents := link_contents r; m_name := v; index := index r; next_i := next_i r; datasize := datasize r; inavl := inavl r; data := data r |}.

Definition set_index (v : _) (r : mem_fsal_obj_handle) : mem_fsal_obj_handle :=
  {| obj_type := obj_type r; obj_fileid := obj_fileid r; attrs := attrs r; handle := handle r; parent := parent r; mh_dir := mh_dir r; mh_file := mh_file r; link_contents := link_contents r; m_name := m_name r; index := v; next_i := next_i r; datasize := datasize r; inavl := inavl r; data := data r |}.

Definition set_next_i (v : _) (r : mem_fsal_obj_handle) : mem_fsal_obj_handle :=
  {| obj_type := obj_type r; obj_fileid := obj_fileid r; attrs := attrs r; handle := handle r; parent := parent r; mh_dir := mh_dir r; mh_file := mh_file r; link_contents := link_contents r; m_name := m_name r; index := index r; next_i := v; datasize := datasize r; inavl := inavl r; data := data r |}.

Definition set_datasize (v : _) (r : mem_fsal_obj_handle) : mem_fsal_obj_handle :=
  {| obj_type := obj_type r; obj_fileid := obj_fileid r; attrs := attrs r; handle := handle r; parent := parent r; mh_dir := mh_dir r; mh_file := mh_file r; link_contents := link_contents r; m_name := m_name r; index := index r; next_i := next_i r; datasize := v; inavl := inavl r; data := data r |}.

Definition set_inavl (v : _) (r : mem_fsal_obj_handle) : mem_fsal_obj_handle :=
  {| obj_type := obj_type r; obj_fileid := obj_fileid r; attrs := attrs r; handle := handle r; parent := parent r; mh_dir := mh_dir r; mh_file := mh_file r; link_contents := link_contents r; m_name := m_name r; index := index r; next_i := next_i r; datasize := datasize r; inavl := v; data := data r |}.

Definition set_data (v : _) (r : mem_fsal_obj_handle) : mem_fsal_obj_handle :=
  {| obj_type := obj_type r; obj_fileid := obj_fileid r; attrs := attrs r; handle := handle r; parent := parent r; mh_dir := mh_dir r; mh_file := mh_file r; link_contents := link_contents r; m_name := m_name r; index := index r; next_i := next_i r; datasize := datasize r; inavl := inavl r; data := v |}.

Definition set_heap (v : _) (r : store) : store :=
  {| heap := v; fsal_handles := fsal_handles r; mfe_objs := mfe_objs r; mem_inode_number := mem_inode_number r; root_handle := root_handle r; freed := freed r |}.

Definition set_fsal_handles (v : _) (r : store) : store :=
  {| heap := heap r; fsal_handles := v; mfe_objs := mfe_objs r; mem_inode_number := mem_inode_number r; root_handle := root_handle r; freed := freed r |}.

Definition set_mfe_objs (v : _) (r : store) : store :=
  {| heap := heap r; fsal_handles := fsal_handles r; mfe_objs := v; mem_inode_number := mem_inode_number r; root_handle := root_handle r; freed := freed r |}.

Definition set_mem_inode_number (v : _) (r : store) : store :=
  {| heap := heap r; fsal_handles := fsal_handles r; mfe_objs := mfe_objs r; mem_inode_number := v; root_handle := root_handle r; freed := freed r |}.

Definition set_root_handle (v : _) (r : store) : store :=
  {| heap := heap r; fsal_handles := fsal_handles r; mfe_objs := mfe_objs r; mem_inode_number := mem_inode_number r; root_handle := v; freed := freed r |}.

Definition set_freed (v : _) (r : store) : store :=
  {| heap := heap r; fsal_handles := fsal_handles r; mfe_objs := mfe_objs r; mem_inode_number := mem_inode_number r; root_handle := root_handle r; freed := v |}.

(** ** The state-and-fault monad *)

Definition M (A : Type) : Type := store → option (A * store).

#[global] Instance M_ret : MRet M := λ A a s, Some (a, s).
#[global] Instance M_bind : MBind M := λ A B f m s,
  match m s with
  | Some (a, s') => f a s'
  | None => None
  end.

Definition fault {A} : M A := λ _, None.
Definition get_store : M store := λ s, Some (s, s).
Definition put_store (s' : store) : M unit := λ _, Some (tt, s').

(** Pointer dereference: a pointer that is not allocated faults. *)
Definition load (p : ptr) : M mem_fsal_obj_handle := λ s,
  match heap s !! p with
  | Some o => Some (o, s)
  | None => None
  end.

Definition store_obj (p : ptr) (o : mem_fsal_obj_handle) : M unit := λ s,
  match heap s !! p with
  | Some _ => Some (tt, set_heap (<[p := o]> (heap s)) s)
  | None => None
  end.

Definition modify (p : ptr) (f : mem_fsal_obj_handle → mem_fsal_obj_handle)
  : M unit :=
  o ← load p; store_obj p (f o).

Definition modify_store (f : store → store) : M unit := λ s, Some (tt, f s).

Definition zero_timespec : timespec := {| tv_sec := 0; tv_nsec := 0 |}.

Definition zero_attrlist : attrlist :=
  {| request_mask := 0; valid_mask := 0; supported := 0;
     a_type := NO_FILE_TYPE; filesize := 0; fileid := 0; mode := 0;
     numlinks := 0; owner := 0; group := 0;
     rawdev := {| dev_major := 0; dev_minor := 0 |};
     atime := zero_timespec; creation := zero_timespec;
     ctime := zero_timespec; mtime := zero_timespec;
     chgtime := zero_timespec; spaceused := 0; change := 0 |}.

Definition zero_share : fsal_share :=
  {| share_access_read := 0; share_access_write := 0; share_deny_read := 0;
     share_deny_write := 0; share_deny_write_mand := 0 |}.

(** ** The functions of mem_handle.c *)

Section mem_handle.
Context {E : fsal_env}.
Variable op_ctx : op_context.

(** [gsh_calloc(1, isize)]: a fresh object, all bytes zero; [isize]
    includes [MEM.inode_size] bytes of data for a regular file. *)
Definition calloc_handle (type : object_file_type_t) : mem_fsal_obj_handle :=
  {| obj_type := NO_FILE_TYPE; obj_fileid := 0; attrs := zero_attrlist;
     handle := replicate (Z.to_nat V4_FH_OPAQUE_SIZE) x00;
     parent := None;
     mh_dir := {| avl_name := []; avl_index := []; dir_numlinks := 0 |};
     mh_file := {| share := zero_share;
                   fd := {| openflags := 0; fd_offset := 0 |};
                   file_length := 0 |};
     link_contents := None; m_name := ""; index := 0; next_i := 0;
     datasize := 0; inavl := false;
     data := if bool_decide (type = REGULAR_FILE)
             then replicate (Z.to_nat MEM_inode_size) x00 else [] |}.

Definition gsh_calloc (type : object_file_type_t) : M ptr := λ s,
  let p := fresh (dom (heap s)) in
  Some (p, set_heap (<[p := calloc_handle type]> (heap s)) s).

(** [gsh_free(hdl)] *)
Definition gsh_free_handle (p : ptr) : M unit := λ s,
  match heap s !! p with
  | Some _ =>
      Some (tt, set_heap (delete p (heap s))
                  (set_freed (freed s ++ [Free_handle p]) s))
  | None => None
  end.

Definition package_mem_handle (pathbuf : display_buffer) : list byte :=
  let len := u16 (display_buffer_len pathbuf) in
  let hashkey := CityHash64 (b_text pathbuf) in
  let opaque_bytes_used := 8 + 2 in
  let pathlen := MIN (V4_FH_OPAQUE_SIZE - opaque_bytes_used) len in
  let opaque_bytes_used' := opaque_bytes_used + pathlen in
  le_bytes 8 hashkey ++ le_bytes 2 len
    ++ take (Z.to_nat pathlen) (b_text pathbuf)
    ++ (if opaque_bytes_used' <? V4_FH_OPAQUE_SIZE
        then replicate (Z.to_nat (V4_FH_OPAQUE_SIZE - opaque_bytes_used')) x00
        else []).

(** [fullpath] recurses along the [parent] pointers; [fuel] bounds the
    depth. *)
Fixpoint fullpath (fuel : nat) (h : gmap ptr mem_fsal_obj_handle)
    (pathbuf : display_buffer) (this_node : mem_fsal_obj_handle)
  : option (display_buffer * Z) :=
  match fuel with
  | O => None
  | S fuel' =>
      r ← match parent this_node with
          | Some pp => par ← h !! pp; fullpath fuel' h pathbuf par
          | None => Some (pathbuf, display_start pathbuf)
          end;
      let r1 :=
        if (0 <? r.2) && bool_decide (parent this_node ≠ None)
        then display_cat r.1 "/" else r in
      let r2 :=
        if 0 <? r1.2 then display_cat r1.1 (m_name this_node) else r1 in
      Some r2
  end.

Definition mem_insert_obj (parent child : ptr) : M unit :=
  c ← load child;
  if inavl c then fault
  else
    modify parent (λ p, set_mh_dir
      (set_avl_name (avltree_insert mem_n_cmpf (m_name c) child
                       (avl_name (mh_dir p))) (mh_dir p)) p);;
    p ← load parent;
    modify child (set_index (next_i p));;
    modify parent (set_next_i (u32 (next_i p + 1)));;
    c ← load child;
    modify parent (λ p, set_mh_dir
      (set_avl_index (avltree_insert mem_i_cmpf (index c) child
                        (avl_index (mh_dir p))) (mh_dir p)) p);;
    modify child (set_inavl true);;
    modify parent (λ p, set_mh_dir
      (set_dir_numlinks (u32 (dir_numlinks (mh_dir p) + 1)) (mh_dir p)) p).

(** [release_fn] is [mem_release], declared before and defined after. *)
Definition mem_remove_obj_locked (release_fn : ptr → M unit)
    (parent child : ptr) (release : bool) : M unit :=
  c ← load child;
  if negb (inavl c) then mret tt
  else
    modify parent (λ p, set_mh_dir
      (set_avl_name (avltree_remove child (avl_name (mh_dir p)))
         (mh_dir p)) p);;
    modify parent (λ p, set_mh_dir
      (set_avl_index (avltree_remove child (avl_index (mh_dir p)))
         (mh_dir p)) p);;
    modify child (set_inavl false);;
    modify parent (λ p, set_mh_dir
      (set_dir_numlinks (u32 (dir_numlinks (mh_dir p) - 1)) (mh_dir p)) p);;
    if release then release_fn child else mret tt.

Definition mem_remove_obj (parent child : ptr) : M unit :=
  mem_remove_obj_locked (λ _, mret tt) parent child false.

(** The [while] loop of [mem_clean_dir_tree]; one unit of fuel per
    iteration. *)
Fixpoint mem_clean_dir_tree_loop (fuel : nat) (release_fn : ptr → M unit)
    (parent : ptr) : M unit :=
  match fuel with
  | O => fault
  | S fuel' =>
      p ← load parent;
      match avltree_first (avl_name (mh_dir p)) with
      | None => mret tt
      | Some child =>
          mem_remove_obj_locked release_fn parent child true;;
          mem_clean_dir_tree_loop fuel' release_fn parent
      end
  end.

(** Modelled from the spec: [fsal_obj_handle_fini] is defined in the
    server's common library, not in this file; "finalizes common object
    teardown": the object leaves the list that handle resolution scans. *)
Definition fsal_obj_handle_fini (p : ptr) : M unit :=
  modify_store (λ s,
    set_fsal_handles (filter (λ q, q ≠ p) (fsal_handles s)) s).

(** Modelled from the spec: [fsal_obj_handle_init] is defined in the
    server's common library; it sets the type and "appends the object to
    the [...] global object list (used later for handle resolution)". *)
Definition fsal_obj_handle_init (p : ptr) (type : object_file_type_t)
  : M unit :=
  modify p (set_obj_type type);;
  modify_store (λ s, set_fsal_handles (fsal_handles s ++ [p]) s).

(** Modelled from the spec: [mem_free_handle] is an inline function of
    [mem_int.h]; "finally frees the object's memory": the object leaves
    the export's list and its storage is returned. *)
Definition mem_free_handle (p : ptr) : M unit :=
  modify_store (λ s, set_mfe_objs (filter (λ q, q ≠ p) (mfe_objs s)) s);;
  gsh_free_handle p.

(** [gsh_free(myself->mh_symlink.link_contents)] *)
Definition free_link_contents (p : ptr) : M unit :=
  modify p (set_link_contents None);;
  modify_store (λ s, set_freed (freed s ++ [Free_link p]) s).

Fixpoint mem_release (fuel : nat) (obj_hdl : ptr) : M unit :=
  match fuel with
  | O => fault
  | S fuel' =>
      myself ← load obj_hdl;
      if bool_decide (parent myself = None) || inavl myself then mret tt
      else
        fsal_obj_handle_fini obj_hdl;;
        match obj_type myself with
        | DIRECTORY =>
            mem_clean_dir_tree_loop fuel' (mem_release fuel') obj_hdl
        | SYMBOLIC_LINK => free_link_contents obj_hdl
        | _ => mret tt
        end;;
        mem_free_handle obj_hdl
  end.

Definition mem_clean_dir_tree (fuel : nat) (parent : ptr) : M unit :=
  mem_clean_dir_tree_loop fuel (mem_release fuel) parent.

Definition has_attr (attrs : option attrlist) (bit : Z) : bool :=
  match attrs with
  | Some a => test_mask (valid_mask a) bit
  | None => false
  end.

Definition attr_or {A} (attrs : option attrlist) (bit : Z)
    (f : attrlist → A) (d : A) : A :=
  match attrs with
  | Some a => if test_mask (valid_mask a) bit then f a else d
  | None => d
  end.

(** [attrs->mode & (~S_IFMT & 0xFFFF) & ~fs_umask(export)] *)
Definition masked_mode (m : Z) : Z :=
  Z.land (Z.land m (Z.land (Z.lnot S_IFMT) 65535))
         (Z.lnot (fs_umask op_ctx)).

(** The attribute block filled in by [_mem_alloc_handle]. *)
Definition alloc_attrs (type : object_file_type_t) (inode : Z)
    (attrs : option attrlist) : attrlist :=
  let ct := clock op_ctx in
  let is_dev := bool_decide (type = BLOCK_FILE)
                || bool_decide (type = CHARACTER_FILE) in
  let size :=
    if bool_decide (type = REGULAR_FILE)
    then attr_or attrs ATTR_SIZE filesize 0 else 0 in
  {| request_mask := 0;
     valid_mask := ATTRS_POSIX;
     supported := ATTRS_POSIX;
     a_type := type;
     filesize := size;
     fileid := inode;
     mode := attr_or attrs ATTR_MODE (λ a, masked_mode (mode a)) 384;
     numlinks := if bool_decide (type = DIRECTORY) then 2 else 1;
     owner := attr_or attrs ATTR_OWNER owner (caller_uid op_ctx);
     group := attr_or attrs ATTR_GROUP group (caller_gid op_ctx);
     rawdev := if is_dev
               then attr_or attrs ATTR_RAWDEV rawdev
                      {| dev_major := 0; dev_minor := 0 |}
               else {| dev_major := 0; dev_minor := 0 |};
     atime := attr_or attrs ATTR_ATIME atime ct;
     creation := zero_timespec;
     ctime := ct;
     mtime := attr_or attrs ATTR_MTIME mtime ct;
     chgtime := ct;
     spaceused := size;
     change := timespec_to_nsecs ct |}.

Definition _mem_alloc_handle (parent : option ptr) (name : string)
    (type : object_file_type_t) (attrs_in : option attrlist)
  : M (option ptr) :=
  hdl ← gsh_calloc type;
  modify hdl (λ o,
    set_datasize MEM_inode_size (set_parent parent (set_m_name name o)));;
  s ← get_store;
  o ← load hdl;
  match fullpath (S (size (heap s))) (heap s)
          {| b_size := MAXPATHLEN; b_text := [] |} o with
  | None => fault
  | Some (pathbuf, rc) =>
      if rc <? 0 then gsh_free_handle hdl;; mret None
      else
        modify_store (λ s, set_mfe_objs (mfe_objs s ++ [hdl]) s);;
        modify hdl (set_handle (package_mem_handle pathbuf));;
        modify hdl (set_obj_type type);;
        s ← get_store;
        let inode := mem_inode_number s in
        modify_store (set_mem_inode_number (u64 (inode + 1)));;
        modify hdl (λ o,
          set_attrs (alloc_attrs type inode attrs_in) (set_obj_fileid inode o));;
        match type with
        | REGULAR_FILE =>
            modify hdl (λ o,
              set_mh_file (set_file_length (filesize (attrs o)) (mh_file o)) o)
        | DIRECTORY =>
            modify hdl (λ o,
              set_next_i 2
                (set_mh_dir {| avl_name := []; avl_index := [];
                               dir_numlinks := 2 |} o))
        | _ => mret tt
        end;;
        fsal_obj_handle_init hdl type;;
        match parent with
        | Some pp => mem_insert_obj pp hdl
        | None => mret tt
        end;;
        mret (Some hdl)
  end.

Definition mem_int_lookup (dir : ptr) (path : string)
  : M (fsal_status_t * option ptr) :=
  d ← load dir;
  if bool_decide (path = "..") then
    match parent d with
    | None => mret (fsalstat ERR_FSAL_NOENT 0, None)
    | Some pp => mret (fsalstat ERR_FSAL_NO_ERROR 0, Some pp)
    end
  else if bool_decide (path = ".") then
    mret (fsalstat ERR_FSAL_NO_ERROR 0, Some dir)
  else
    match avltree_lookup mem_n_cmpf path (avl_name (mh_dir d)) with
    | None => mret (fsalstat ERR_FSAL_NOENT 0, None)
    | Some node => mret (fsalstat ERR_FSAL_NO_ERROR 0, Some node)
    end.

(** Modelled from the spec: [fsal_copy_attrs] and [fsal_prepare_attrs]
    are inline helpers of the FSAL API header; attributes are
    "snapshotted into a caller-supplied scratch record", which keeps its
    own request mask. *)
Definition fsal_copy_attrs (dest src : attrlist) : attrlist :=
  set_request_mask (request_mask dest) src.

Definition fsal_prepare_attrs (attrmask : Z) : attrlist :=
  set_request_mask attrmask zero_attrlist.

(** [attrs_out], when the caller passes one, is returned filled in. *)
Definition copy_out (attrs_out : option attrlist) (src : attrlist)
  : option attrlist :=
  (λ d, fsal_copy_attrs d src) <$> attrs_out.

Definition mem_create_obj (parent : ptr) (type : object_file_type_t)
    (name : string) (attrs_in attrs_out : option attrlist)
  : M (fsal_status_t * option ptr * option attrlist) :=
  p ← load parent;
  if negb (bool_decide (obj_type p = DIRECTORY)) then
    mret (fsalstat ERR_FSAL_NOTDIR 0, None, attrs_out)
  else
    r ← mem_int_lookup parent name;
    if negb (FSAL_IS_ERROR r.1) then
      mret (fsalstat ERR_FSAL_EXIST 0, None, attrs_out)
    else if negb (bool_decide (major r.1 = ERR_FSAL_NOENT)) then
      mret (r.1, None, attrs_out)
    else
      hdl ← _mem_alloc_handle (Some parent) name type attrs_in;
      match hdl with
      | None => mret (fsalstat ERR_FSAL_NOMEM 0, None, attrs_out)
      | Some h =>
          o ← load h;
          mret (fsalstat ERR_FSAL_NO_ERROR 0, Some h,
                copy_out attrs_out (attrs o))
      end.

Definition mem_lookup (parent : ptr) (path : string)
    (attrs_out : option attrlist)
  : M (fsal_status_t * option ptr * option attrlist) :=
  r ← mem_int_lookup parent path;
  if FSAL_IS_ERROR r.1 then mret (r.1, None, attrs_out)
  else
    match r.2 with
    | Some hdl =>
        o ← load hdl; mret (r.1, Some hdl, copy_out attrs_out (attrs o))
    | None => fault
    end.

(** The body of the [for] loop of [mem_readdir] over the index tree, in
    order. The callback [cb] receives the entry's name, object,
    attributes, the caller's [dir_state] and the cookie [index + 1]. *)
Fixpoint mem_readdir_loop {S : Type}
    (cb : string → ptr → attrlist → S → Z → S * fsal_dir_result)
    (attrmask seekloc : Z) (nodes : list (Z * ptr)) (dir_state : S)
  : M (S * bool) :=
  match nodes with
  | [] => mret (dir_state, true)
  | (_, node) :: rest =>
      hdl ← load node;
      if index hdl <? seekloc then
        mem_readdir_loop cb attrmask seekloc rest dir_state
      else
        let a := fsal_copy_attrs (fsal_prepare_attrs attrmask) (attrs hdl) in
        let r := cb (m_name hdl) node a dir_state (u32 (index hdl + 1)) in
        if dir_result_rank DIR_TERMINATE <=? dir_result_rank r.2
        then mret (r.1, false)
        else mem_readdir_loop cb attrmask seekloc rest r.1
  end.

Definition mem_readdir {S : Type} (dir_hdl : ptr) (whence : option Z)
    (dir_state : S)
    (cb : string → ptr → attrlist → S → Z → S * fsal_dir_result)
    (attrmask : Z) : M (fsal_status_t * S * bool) :=
  myself ← load dir_hdl;
  let seekloc := default 2 whence in
  r ← mem_readdir_loop cb attrmask seekloc (avl_index (mh_dir myself))
        dir_state;
  mret (fsalstat ERR_FSAL_NO_ERROR 0, r.1, r.2).

Definition mem_create (dir_hdl : ptr) (name : string)
    (attrs_in attrs_out : option attrlist) :=
  mem_create_obj dir_hdl REGULAR_FILE name attrs_in attrs_out.

Definition mem_mkdir (dir_hdl : ptr) (name : string)
    (attrs_in attrs_out : option attrlist) :=
  mem_create_obj dir_hdl DIRECTORY name attrs_in attrs_out.

Definition mem_symlink (dir_hdl : ptr) (name link_path : string)
    (attrs_in attrs_out : option attrlist)
  : M (fsal_status_t * option ptr * option attrlist) :=
  r ← mem_create_obj dir_hdl SYMBOLIC_LINK name attrs_in attrs_out;
  if FSAL_IS_ERROR r.1.1 then mret r
  else
    match r.1.2 with
    | Some hdl =>
        modify hdl (set_link_contents (Some link_path));;
        mret (fsalstat ERR_FSAL_NO_ERROR 0, Some hdl, r.2)
    | None => fault
    end.

(** [mh_dir.numlinks] is read whatever the type of the object. *)
Definition mem_getattrs (obj_hdl : ptr) (outattrs : attrlist)
  : M (fsal_status_t * attrlist) :=
  myself ← load obj_hdl;
  if bool_decide (parent myself ≠ None) && negb (inavl myself) then
    mret (fsalstat ERR_FSAL_STALE ESTALE, outattrs)
  else
    modify obj_hdl (λ o,
      set_attrs (set_numlinks (dir_numlinks (mh_dir o)) (attrs o)) o);;
    o ← load obj_hdl;
    mret (fsalstat ERR_FSAL_NO_ERROR 0, fsal_copy_attrs outattrs (attrs o)).

Definition mem_unlink (dir_hdl obj_hdl : ptr) (name : string)
  : M fsal_status_t :=
  _ ← load dir_hdl;
  myself ← load obj_hdl;
  let remove :=
    mem_remove_obj_locked (λ _, mret tt) dir_hdl obj_hdl false;;
    mret (fsalstat ERR_FSAL_NO_ERROR 0) in
  match obj_type myself with
  | DIRECTORY =>
      if 2 <? dir_numlinks (mh_dir myself)
      then mret (fsalstat ERR_FSAL_NOTEMPTY 0)
      else remove
  | REGULAR_FILE =>
      if negb (openflags (fd (mh_file myself)) =? FSAL_O_CLOSED)
      then mret (fsalstat ERR_FSAL_FILE_OPEN 0)
      else remove
  | _ => remove
  end.

Definition mem_close_my_fd (my_fd : mem_fd) : mem_fd :=
  {| openflags := FSAL_O_CLOSED; fd_offset := fd_offset my_fd |}.

Definition mem_close (obj_hdl : ptr) : M fsal_status_t :=
  myself ← load obj_hdl;
  if negb (bool_decide (obj_type myself = REGULAR_FILE)) then fault
  else
    modify obj_hdl (λ o,
      set_mh_file (set_fd (mem_close_my_fd (fd (mh_file o))) (mh_file o)) o);;
    mret (fsalstat ERR_FSAL_NO_ERROR 0).

Definition mem_rename (obj_hdl olddir_hdl : ptr) (old_name : string)
    (newdir_hdl : ptr) (new_name : string) : M fsal_status_t :=
  r ← mem_int_lookup newdir_hdl new_name;
  let rename :=
    mem_remove_obj olddir_hdl obj_hdl;;
    modify obj_hdl (set_m_name new_name);;
    mem_insert_obj newdir_hdl obj_hdl;;
    mret (fsalstat ERR_FSAL_NO_ERROR 0) in
  if FSAL_IS_ERROR r.1 then rename
  else
    match r.2 with
    | None => fault
    | Some mem_lookup_dst =>
        if bool_decide (obj_hdl = mem_lookup_dst) then mret r.1
        else
          mem_obj ← load obj_hdl;
          dst ← load mem_lookup_dst;
          let src_dir := bool_decide (obj_type mem_obj = DIRECTORY) in
          let dst_dir := bool_decide (obj_type dst = DIRECTORY) in
          if (src_dir && negb dst_dir) || (negb src_dir && dst_dir) then
            mret (fsalstat ERR_FSAL_EXIST 0)
          else if dst_dir && (2 <? dir_numlinks (mh_dir dst)) then
            mret (fsalstat ERR_FSAL_EXIST 0)
          else
            status ← mem_unlink newdir_hdl mem_lookup_dst new_name;
            if FSAL_IS_ERROR status then mret status else rename
    end.

Definition mem_copy_attrs_mask (attrs_in attrs_out : attrlist) : attrlist :=
  let ct := clock op_ctx in
  let has := test_mask (valid_mask attrs_in) in
  {| request_mask := request_mask attrs_out;
     valid_mask := valid_mask attrs_out;
     supported := supported attrs_out;
     a_type := a_type attrs_out;
     filesize := if has ATTR_SIZE then filesize attrs_in
                 else filesize attrs_out;
     fileid := fileid attrs_out;
     mode := if has ATTR_MODE then masked_mode (mode attrs_in)
             else mode attrs_out;
     numlinks := numlinks attrs_out;
     owner := if has ATTR_OWNER then owner attrs_in else owner attrs_out;
     group := if has ATTR_GROUP then group attrs_in else group attrs_out;
     rawdev := rawdev attrs_out;
     atime := if has ATTR_ATIME then atime attrs_in else ct;
     creation := if has ATTR_CREATION then creation attrs_in
                 else creation attrs_out;
     ctime := ct;
     mtime := if has ATTR_MTIME then mtime attrs_in else ct;
     chgtime := ct;
     spaceused := if has ATTR_SPACEUSED then spaceused attrs_in
                  else spaceused attrs_out;
     change := timespec_to_nsecs ct |}.

(** ** Open, read, write *)

(** [my_fd] points either into the caller's state or at the global
    descriptor [&hdl->mh_file.fd] of an object pointer [hdl], which is
    [None] when the pointer is [NULL]. *)
Inductive fd_ref :=
  | Fd_of_state
  | Fd_of_obj (hdl : option ptr).

Definition update_fd (r : fd_ref) (f : mem_fd → mem_fd)
    (state : option mem_fd) : M (option mem_fd) :=
  match r with
  | Fd_of_state =>
      match state with
      | Some my_fd => mret (Some (f my_fd))
      | None => fault
      end
  | Fd_of_obj (Some p) =>
      modify p (λ o, set_mh_file (set_fd (f (fd (mh_file o))) (mh_file o)) o);;
      mret state
  | Fd_of_obj None => fault
  end.

(** [my_fd->openflags = openflags; if (my_fd->openflags & FSAL_O_WRITE)
    my_fd->openflags |= FSAL_O_READ;] *)
Definition opened_flags (openflags : Z) : Z :=
  if test_mask openflags FSAL_O_WRITE then Z.lor openflags FSAL_O_READ
  else openflags.

Definition update_share (p : ptr) (old_flags new_flags : Z) : M unit :=
  modify p (λ o,
    set_mh_file
      (set_share (update_share_counters (share (mh_file o)) old_flags
                    new_flags) (mh_file o)) o).

Definition truncate_attrs (p : ptr) : M unit :=
  modify p (λ o, set_attrs (set_filesize 0 (set_spaceused 0 (attrs o))) o).

(** The result of [mem_open2]: the status, the caller's state as the call
    leaves it, and the out parameters. *)
Record open2_result := {
  o2_status : fsal_status_t;
  o2_state : option mem_fd;
  o2_new_obj : option ptr;
  o2_attrs_out : option attrlist;
  o2_caller_perm_check : option bool
}.

(** The open-by-handle branch ([name == NULL]). The local [hdl] is still
    [NULL] there. *)
Definition mem_open2_by_handle (obj_hdl : ptr) (state : option mem_fd)
    (openflags : Z) (createmode : fsal_create_mode) (verifier : list byte)
    (attrs_out : option attrlist) (hdl : option ptr) : M open2_result :=
  let result st fd := {| o2_status := st; o2_state := fd; o2_new_obj := None;
                         o2_attrs_out := attrs_out;
                         o2_caller_perm_check := None |} in
  let truncated := test_mask openflags FSAL_O_TRUNC in
  myself ← load obj_hdl;
  let conflict :=
    match state with
    | Some _ => check_share_conflict (share (mh_file myself)) openflags false
    | None => fsalstat ERR_FSAL_NO_ERROR 0
    end in
  if FSAL_IS_ERROR conflict then mret (result conflict state)
  else
    my_fd ← match state with
            | Some _ =>
                update_share obj_hdl FSAL_O_CLOSED openflags;;
                mret Fd_of_state
            | None => mret (Fd_of_obj hdl)
            end;
    state1 ← update_fd my_fd
               (λ _, {| openflags := opened_flags openflags; fd_offset := 0 |})
               state;
    (if truncated then truncate_attrs obj_hdl else mret tt);;
    myself ← load obj_hdl;
    let status :=
      if (create_mode_rank FSAL_EXCLUSIVE <=? create_mode_rank createmode)
         && negb (bool_decide (createmode = FSAL_EXCLUSIVE_9P))
         && negb (check_verifier_attrlist (attrs myself) verifier)
      then fsalstat ERR_FSAL_EXIST EEXIST
      else fsalstat ERR_FSAL_NO_ERROR 0 in
    match state with
    | None => mret (result status state1)
    | Some _ =>
        if negb (FSAL_IS_ERROR status) then mret (result status state1)
        else
          state2 ← update_fd my_fd mem_close_my_fd state1;
          update_share obj_hdl openflags FSAL_O_CLOSED;;
          mret (result status state2)
    end.

(** The open-by-name branch. *)
Definition mem_open2_by_name (obj_hdl : ptr) (state : option mem_fd)
    (openflags : Z) (name : string) (setattrs : bool)
    (attrs_set : option attrlist) (attrs_out : option attrlist)
  : M open2_result :=
  let result st fd new out perm :=
    {| o2_status := st; o2_state := fd; o2_new_obj := new;
       o2_attrs_out := out; o2_caller_perm_check := perm |} in
  r ← mem_int_lookup obj_hdl name;
  found ←
    (if FSAL_IS_ERROR r.1 then
       if negb (bool_decide (major r.1 = ERR_FSAL_NOENT)) then
         mret (inl (r.1, attrs_out))
       else
         c ← mem_create_obj obj_hdl REGULAR_FILE name attrs_set attrs_out;
         if FSAL_IS_ERROR c.1.1 then mret (inl (c.1.1, c.2))
         else match c.1.2 with
              | Some h => mret (inr (h, true, c.2))
              | None => fault
              end
     else match r.2 with
          | Some h => mret (inr (h, false, attrs_out))
          | None => fault
          end);
  match found with
  | inl (status, out) => mret (result status state None out None)
  | inr (hdl, created, out) =>
      let perm := Some (negb created) in
      let my_fd := match state with
                   | Some _ => Fd_of_state
                   | None => Fd_of_obj (Some hdl)
                   end in
      state1 ← update_fd my_fd
                 (λ f, {| openflags := opened_flags openflags;
                          fd_offset := fd_offset f |}) state;
      got ←
        (if created then mret (inr out)
         else
           (match attrs_set with
            | Some a =>
                if setattrs && negb (valid_mask a =? 0) then
                  modify hdl (λ o, set_attrs (mem_copy_attrs_mask a (attrs o)) o)
                else mret tt
            | None => mret tt
            end);;
           match out with
           | Some a =>
               g ← mem_getattrs hdl a;
               if FSAL_IS_ERROR g.1
                  && negb (test_mask (request_mask a) ATTR_RDATTR_ERR)
               then mret (inl (g.1, Some g.2))
               else mret (inr (Some g.2))
           | None => mret (inr None)
           end);
      match got with
      | inl (status, out') => mret (result status state1 (Some hdl) out' perm)
      | inr out' =>
          match state with
          | Some _ => update_share hdl FSAL_O_CLOSED openflags
          | None => mret tt
          end;;
          mret (result (fsalstat ERR_FSAL_NO_ERROR 0) state1 (Some hdl)
                  out' perm)
      end
  end.

Definition mem_open2 (obj_hdl : ptr) (state : option mem_fd) (openflags : Z)
    (createmode : fsal_create_mode) (name : option string)
    (attrs_set : option attrlist) (verifier : list byte)
    (attrs_out : option attrlist) : M open2_result :=
  let hdl : option ptr := None in
  let setattrs := bool_decide (attrs_set ≠ None) in
  let attrs_set :=
    if create_mode_rank FSAL_EXCLUSIVE <=? create_mode_rank createmode
    then Some (set_common_verifier (default zero_attrlist attrs_set) verifier)
    else attrs_set in
  match name with
  | None =>
      mem_open2_by_handle obj_hdl state openflags createmode verifier
        attrs_out hdl
  | Some name =>
      mem_open2_by_name obj_hdl state openflags name setattrs attrs_set
        attrs_out
  end.

(** What [mem_read2] hands back on success: the bytes put in the caller's
    buffer, [*read_amount] and [*end_of_file]. *)
Record read_result := {
  rd_bytes : list byte;
  read_amount : Z;
  end_of_file : bool
}.

(** The clamp of the requested size against the logical length. *)
Definition read_size (file_len offset buffer_size : Z) : Z :=
  if file_len <? offset then 0
  else if file_len <? u64 (offset + buffer_size) then u64 (file_len - offset)
  else buffer_size.

(** The [memcpy]/[memset] block of [mem_read2]; reading outside of [data]
    faults. *)
Definition read_data (myself : mem_fsal_obj_handle) (offset buffer_size : Z)
  : option (list byte) :=
  if offset <? datasize myself then
    let readsize := MIN buffer_size (u64 (datasize myself - offset)) in
    if Z.of_nat (length (data myself)) <? offset + readsize then None
    else
      Some (take (Z.to_nat readsize) (drop (Z.to_nat offset) (data myself))
            ++ (if readsize <? buffer_size
                then replicate (Z.to_nat (buffer_size - readsize)) filler
                else []))
  else Some (replicate (Z.to_nat buffer_size) filler).

Definition mem_read2 (obj_hdl : ptr) (bypass : bool) (state : option mem_fd)
    (offset buffer_size : Z) (info : bool)
  : M (fsal_status_t * option read_result) :=
  if info then mret (fsalstat ERR_FSAL_NOTSUPP 0, None)
  else if match state with
          | Some my_fd => negb (open_correct (openflags my_fd) FSAL_O_READ)
          | None => false
          end
  then mret (fsalstat ERR_FSAL_NOT_OPENED 0, None)
  else
    myself ← load obj_hdl;
    let status :=
      check_share_conflict (share (mh_file myself)) FSAL_O_READ bypass in
    if FSAL_IS_ERROR status then mret (status, None)
    else
      let buffer_size :=
        read_size (file_length (mh_file myself)) offset buffer_size in
      match read_data myself offset buffer_size with
      | None => fault
      | Some bytes =>
          modify obj_hdl (λ o,
            set_attrs (set_atime (clock op_ctx) (attrs o)) o);;
          mret (fsalstat ERR_FSAL_NO_ERROR 0,
                Some {| rd_bytes := bytes; read_amount := buffer_size;
                        end_of_file := buffer_size =? 0 |})
      end.

(** The [memcpy] of [mem_write2] into [data]; writing outside of it
    faults. *)
Definition write_data (myself : mem_fsal_obj_handle) (offset : Z)
    (buffer : list byte) : option (list byte) :=
  let buffer_size := Z.of_nat (length buffer) in
  if offset <? datasize myself then
    let writesize := MIN buffer_size (u64 (datasize myself - offset)) in
    if Z.of_nat (length (data myself)) <? offset + writesize then None
    else
      Some (take (Z.to_nat offset) (data myself)
            ++ take (Z.to_nat writesize) buffer
            ++ drop (Z.to_nat (offset + writesize)) (data myself))
  else Some (data myself).

Definition mem_write2 (obj_hdl : ptr) (bypass : bool) (state : option mem_fd)
    (offset : Z) (buffer : list byte) (info : bool)
  : M (fsal_status_t * option Z) :=
  let buffer_size := Z.of_nat (length buffer) in
  if info then mret (fsalstat ERR_FSAL_NOTSUPP 0, None)
  else if match state with
          | Some my_fd => negb (open_correct (openflags my_fd) FSAL_O_WRITE)
          | None => false
          end
  then mret (fsalstat ERR_FSAL_NOT_OPENED 0, None)
  else
    myself ← load obj_hdl;
    let status :=
      match state with
      | Some _ => fsalstat ERR_FSAL_NO_ERROR 0
      | None =>
          check_share_conflict (share (mh_file myself)) FSAL_O_WRITE bypass
      end in
    if FSAL_IS_ERROR status then mret (status, None)
    else
      (if file_length (mh_file myself) <? u64 (offset + buffer_size) then
         modify obj_hdl (λ o,
           set_attrs (set_filesize (u64 (offset + buffer_size)) (attrs o))
             (set_mh_file
                (set_file_length (u64 (offset + buffer_size)) (mh_file o)) o))
       else mret tt);;
      match write_data myself offset buffer with
      | None => fault
      | Some d =>
          modify obj_hdl (λ o,
            let t := clock op_ctx in
            set_data d
              (set_attrs
                 (set_change (timespec_to_nsecs t)
                    (set_chgtime t (set_mtime t (attrs o)))) o));;
          mret (fsalstat ERR_FSAL_NO_ERROR 0, Some buffer_size)
      end.

(** ** Export methods *)

Definition mem_lookup_path (path : string) (attrs_out : option attrlist)
  : M (fsal_status_t * option ptr * option attrlist) :=
  if negb (bool_decide (path = export_path op_ctx)) then
    mret (fsalstat ERR_FSAL_NOENT 2, None, attrs_out)
  else
    s ← get_store;
    root ← match root_handle s with
           | Some r => mret r
           | None =>
               h ← _mem_alloc_handle None (export_path op_ctx) DIRECTORY
                     (Some (set_mode 493 (set_valid_mask ATTR_MODE
                                            zero_attrlist)));
               modify_store (set_root_handle h);;
               match h with
               | Some r => mret r
               | None => fault
               end
           end;
    o ← load root;
    mret (fsalstat ERR_FSAL_NO_ERROR 0, Some root,
          copy_out attrs_out (attrs o)).

(** The scan of [mem_create_handle] over the list of object handles:
    [memcmp] over [V4_FH_OPAQUE_SIZE] bytes. *)
Fixpoint mem_create_handle_scan (hdl_desc : list byte) (l : list ptr)
  : M (option ptr) :=
  match l with
  | [] => mret None
  | hdl :: rest =>
      my_hdl ← load hdl;
      if bool_decide (take (Z.to_nat V4_FH_OPAQUE_SIZE) (handle my_hdl)
                      = take (Z.to_nat V4_FH_OPAQUE_SIZE) hdl_desc)
      then mret (Some hdl)
      else mem_create_handle_scan hdl_desc rest
  end.

Definition mem_create_handle (hdl_desc : list byte)
    (attrs_out : option attrlist)
  : M (fsal_status_t * option ptr * option attrlist) :=
  if negb (Z.of_nat (length hdl_desc) =? V4_FH_OPAQUE_SIZE) then
    mret (fsalstat ERR_FSAL_BADHANDLE 0, None, attrs_out)
  else
    s ← get_store;
    found ← mem_create_handle_scan hdl_desc (fsal_handles s);
    match found with
    | Some hdl =>
        o ← load hdl;
        mret (fsalstat ERR_FSAL_NO_ERROR 0, Some hdl,
              copy_out attrs_out (attrs o))
    | None => mret (fsalstat ERR_FSAL_STALE ESTALE, None, attrs_out)
    end.

(** [mem_handle_to_wire]: [len] is the size of the caller's buffer
    ([fh_desc->len] on entry). For the two NFS digests the stored handle
    bytes are copied out if the buffer can hold them; the object is only
    read by that [memcpy]. Any other digest is refused. *)
Definition mem_handle_to_wire (obj_hdl : ptr)
    (output_type : fsal_digesttype_t) (len : Z)
  : M (fsal_status_t * option (list byte)) :=
  match output_type with
  | FSAL_DIGEST_NFSV3 | FSAL_DIGEST_NFSV4 =>
      if len <? V4_FH_OPAQUE_SIZE then
        mret (fsalstat ERR_FSAL_TOOSMALL 0, None)
      else
        myself ← load obj_hdl;
        mret (fsalstat ERR_FSAL_NO_ERROR 0,
              Some (take (Z.to_nat V4_FH_OPAQUE_SIZE) (handle myself)))
  | FSAL_DIGEST_OTHER => mret (fsalstat ERR_FSAL_SERVERFAULT 0, None)
  end.
End mem_handle.

(** ** A concrete environment

    Used to run the embedding on examples. The helpers follow the
    specification's description of the share reservation counters and of
    the create verifier; the hash only has to be a function of the path. *)

Definition bumped (on : bool) (delta n : Z) : Z := if on then n + delta else n.

Definition share_apply (delta flags : Z) (sh : fsal_share) : fsal_share :=
  {| share_access_read :=
       bumped (test_mask flags FSAL_O_READ) delta (share_access_read sh);
     share_access_write :=
       bumped (test_mask flags FSAL_O_WRITE) delta (share_access_write sh);
     share_deny_read :=
       bumped (test_mask flags FSAL_O_DENY_READ) delta (share_deny_read sh);
     share_deny_write :=
       bumped (test_mask flags FSAL_O_DENY_WRITE) delta (share_deny_write sh);
     share_deny_write_mand :=
       bumped (test_mask flags FSAL_O_DENY_WRITE_MAND) delta
         (share_deny_write_mand sh) |}.

(** Modelled from the spec: the share helpers of the common library;
    "computes whether requested_mode/deny_mode conflicts with the aggregate
    of all other currently-held deny/access counters; conflict yields
    ShareConflict unless bypass is set", a mandatory deny-write excepted. *)
Definition model_check_share_conflict (sh : fsal_share) (flags : Z)
    (bypass : bool) : fsal_status_t :=
  if (test_mask flags FSAL_O_READ && (0 <? share_deny_read sh)
        && negb bypass)
     || (test_mask flags FSAL_O_WRITE
           && ((0 <? share_deny_write_mand sh)
               || (negb bypass && (0 <? share_deny_write sh))))
     || (test_mask flags FSAL_O_DENY_READ && (0 <? share_access_read sh))
     || ((test_mask flags FSAL_O_DENY_WRITE
            || test_mask flags FSAL_O_DENY_WRITE_MAND)
           && (0 <? share_access_write sh))
  then fsalstat ERR_FSAL_SHARE_DENIED 0
  else fsalstat ERR_FSAL_NO_ERROR 0.

Definition model_update_share_counters (sh : fsal_share)
    (old_flags new_flags : Z) : fsal_share :=
  share_apply 1 new_flags (share_apply (-1) old_flags sh).

(** Modelled from the spec: [open_correct] of the FSAL API header; a
    descriptor is "open-for-read, open-for-write, open-for-read-write
    (derived from a per-descriptor flag set)": it is open for an access
    mode when its flags hold the read/write bits of that mode. *)
Definition model_open_correct (fd_openflags to_openflags : Z) : bool :=
  if to_openflags =? FSAL_O_ANY then negb (fd_openflags =? FSAL_O_CLOSED)
  else Z.land (Z.land fd_openflags to_openflags) FSAL_O_RDWR
       =? Z.land to_openflags FSAL_O_RDWR.

Definition verifier_word (v : list byte) : Z :=
  fold_right (λ b acc, Z.of_N (Byte.to_N b) + 256 * acc) 0 v.

(** Modelled from the spec: the verifier helpers of the common library;
    "a verifier value is stamped into the object's timestamp-attributes":
    its two halves go to the seconds of the access and modify times. *)
Definition model_set_common_verifier (a : attrlist) (verifier : list byte)
  : attrlist :=
  set_valid_mask (Z.lor (valid_mask a) (Z.lor ATTR_ATIME ATTR_MTIME))
    (set_atime {| tv_sec := verifier_word (take 4 verifier);
                  tv_nsec := tv_nsec (atime a) |}
       (set_mtime {| tv_sec := verifier_word (take 4 (drop 4 verifier));
                     tv_nsec := tv_nsec (mtime a) |} a)).

Definition model_check_verifier_attrlist (a : attrlist) (verifier : list byte)
  : bool :=
  (tv_sec (atime a) =? verifier_word (take 4 verifier))
  && (tv_sec (mtime a) =? verifier_word (take 4 (drop 4 verifier))).

(** Modelled from the spec: the display buffer of [display.h]; the full
    path is the "concatenation of ancestor names with / separators", cut
    at the size of the buffer. The result is the room left. *)
Definition model_display_start (b : display_buffer) : Z :=
  b_size b - display_buffer_len b.

Definition model_display_cat (b : display_buffer) (str : string)
  : display_buffer * Z :=
  let b_left := model_display_start b in
  if b_left <=? 0 then (b, b_left)
  else
    let bytes := bytes_of_string str in
    let len := Z.of_nat (length bytes) in
    if b_left <=? len then
      ({| b_size := b_size b;
          b_text := b_text b ++ take (Z.to_nat (b_left - 1)) bytes |}, 0)
    else ({| b_size := b_size b; b_text := b_text b ++ bytes |}, b_left - len).

(** A stand-in for [CityHash64]: a 64-bit polynomial hash of the bytes. *)
Definition model_hash (l : list byte) : Z :=
  fold_left (λ acc b, u64 (acc * 1099511628211 + Z.of_N (Byte.to_N b))) l
    14695981039346656037.

Definition model_env : fsal_env :=
  {| V4_FH_OPAQUE_SIZE := 32;
     MAXPATHLEN := 4096;
     MEM_inode_size := 8;
     CityHash64 := model_hash;
     display_start := model_display_start;
     display_cat := model_display_cat;
     check_share_conflict := model_check_share_conflict;
     update_share_counters := model_update_share_counters;
     open_correct := model_open_correct;
     set_common_verifier := model_set_common_verifier;
     check_verifier_attrlist := model_check_verifier_attrlist |}.

Definition model_ctx : op_context :=
  {| caller_uid := 1000; caller_gid := 1000; export_id := 1; fs_umask := 0;
     export_path := "/export"; clock := {| tv_sec := 100; tv_nsec := 7 |} |}.

Definition empty_store : store :=
  {| heap := ∅; fsal_handles := []; mfe_objs := []; mem_inode_number := 1;
     root_handle := None; freed := [] |}.

(** ** The other methods of the object handle

    Constants of the attribute mask and of [<sys/stat.h>] that
    [mem_setattr2] uses; they are declared in headers of the server. *)

Class fsal_time_env := {
  ATTR_ATIME_SERVER : Z;
  ATTR_MTIME_SERVER : Z;
  ATTRS_SET_TIME : Z;
  UTIME_NOW : Z
}.

(** The kind of a [state_t]; [mem_close2] tells the three share kinds from
    all the others. *)
Inductive state_type_t :=
  | STATE_TYPE_SHARE | STATE_TYPE_NLM_SHARE | STATE_TYPE_9P_FID
  | STATE_TYPE_OTHER.

#[global] Instance state_type_eq_dec : EqDecision state_type_t.
Proof. solve_decision. Defined.

Section mem_handle_methods.
Context {E : fsal_env} {T : fsal_time_env}.
Variable op_ctx : op_context.

(** [mem_readlink]: the length handed back counts the terminating zero. *)
Definition mem_readlink (obj_hdl : ptr) (refresh : bool)
  : M (fsal_status_t * option (Z * string)) :=
  myself ← load obj_hdl;
  if negb (bool_decide (obj_type myself = SYMBOLIC_LINK)) then
    mret (fsalstat ERR_FSAL_INVAL 0, None)
  else
    match link_contents myself with
    | None => fault
    | Some l =>
        mret (fsalstat ERR_FSAL_NO_ERROR 0,
              Some (Z.of_nat (String.length l) + 1, l))
    end.

(** [mem_setattr2]. [attrs_set] is an in/out argument (its mode is masked
    in place), so it is handed back. The object is only dereferenced where
    the C code does: by the type test under [ATTR_SIZE] and by each
    assignment. *)
Definition mem_setattr2 (obj_hdl : ptr) (bypass : bool)
    (state : option mem_fd) (attrs_set : attrlist)
  : M (fsal_status_t * attrlist) :=
  let has := test_mask (valid_mask attrs_set) in
  let attrs_set :=
    if has ATTR_MODE
    then set_mode (Z.land (mode attrs_set) (Z.lnot (fs_umask op_ctx)))
           attrs_set
    else attrs_set in
  let on (b : bool) (f : attrlist → attrlist) : M unit :=
    if b then modify obj_hdl (λ o, set_attrs (f (attrs o)) o) else mret tt in
  let type_test : M bool :=
    if has ATTR_SIZE then
      myself ← load obj_hdl;
      mret (negb (bool_decide (obj_type myself = REGULAR_FILE)))
    else mret false in
  wrong_type ← type_test;
  if (wrong_type : bool) then
    mret (fsalstat ERR_FSAL_INVAL EINVAL, attrs_set)
  else
    on (has ATTR_SIZE) (set_filesize (filesize attrs_set));;
    on (has ATTR_MODE) (set_mode (mode attrs_set));;
    on (has ATTR_OWNER) (set_owner (owner attrs_set));;
    on (has ATTR_GROUP) (set_group (group attrs_set));;
    (if has ATTRS_SET_TIME then
       (if has ATTR_ATIME_SERVER then
          on true (set_atime {| tv_sec := 0; tv_nsec := UTIME_NOW |})
        else on (has ATTR_ATIME) (set_atime (atime attrs_set)));;
       (if has ATTR_MTIME_SERVER then
          on true (set_mtime {| tv_sec := 0; tv_nsec := UTIME_NOW |})
        else on (has ATTR_MTIME) (set_mtime (mtime attrs_set)))
     else mret tt);;
    mret (fsalstat ERR_FSAL_NO_ERROR EINVAL, attrs_set).

(** [mem_reopen2]: [my_fd] is the descriptor behind the caller's state, so
    a [NULL] state faults at [my_fd->openflags]. The flags are stored as
    given. *)
Definition mem_reopen2 (obj_hdl : ptr) (state : option mem_fd)
    (openflags : Z) : M (fsal_status_t * option mem_fd) :=
  match state with
  | None => fault
  | Some (Build_mem_fd old_openflags _) =>
      myself ← load obj_hdl;
      let status :=
        check_share_conflict (share (mh_file myself)) openflags false in
      if FSAL_IS_ERROR status then mret (status, state)
      else
        update_share obj_hdl old_openflags openflags;;
        (if test_mask openflags FSAL_O_TRUNC then truncate_attrs obj_hdl
         else mret tt);;
        mret (status, Some (Build_mem_fd openflags 0))
  end.

(** [mem_commit2] and [mem_lock_op2] do nothing. *)
Definition mem_commit2 (obj_hdl : ptr) (offset len : Z) : M fsal_status_t :=
  mret (fsalstat ERR_FSAL_NO_ERROR 0).

Definition mem_lock_op2 (obj_hdl : ptr) (state : option mem_fd)
  : M fsal_status_t :=
  mret (fsalstat ERR_FSAL_NO_ERROR 0).

(** [mem_close2]: the share counters are given back with the flags of the
    descriptor behind the state; the descriptor that is closed is the
    global one of the object. *)
Definition mem_close2 (obj_hdl : ptr) (state : option (state_type_t * mem_fd))
  : M fsal_status_t :=
  match state with
  | None => fault
  | Some (state_type, my_fd) =>
      (if bool_decide (state_type = STATE_TYPE_SHARE)
          || bool_decide (state_type = STATE_TYPE_NLM_SHARE)
          || bool_decide (state_type = STATE_TYPE_9P_FID)
       then update_share obj_hdl (openflags my_fd) FSAL_O_CLOSED
       else mret tt);;
      modify obj_hdl (λ o,
        set_mh_file (set_fd (mem_close_my_fd (fd (mh_file o))) (mh_file o)) o);;
      mret (fsalstat ERR_FSAL_NO_ERROR 0)
  end.

(** [mem_handle_to_key]: the key is the stored handle itself. *)
Definition mem_handle_to_key (obj_hdl : ptr) : M (list byte * Z) :=
  myself ← load obj_hdl;
  mret (handle myself, V4_FH_OPAQUE_SIZE).
End mem_handle_methods.

(** ** Predicates and example data used in the statements *)

(** The admission tests of [mem_read2] and [mem_write2]: the caller's
    descriptor is open for the access, and no share reservation
    conflicts. *)
Definition read_admitted `{fsal_env} (o : mem_fsal_obj_handle) (bypass : bool)
    (state : option mem_fd) : Prop :=
  (∀ my_fd, state = Some my_fd →
     open_correct (openflags my_fd) FSAL_O_READ = true) ∧
  FSAL_IS_ERROR
    (check_share_conflict (share (mh_file o)) FSAL_O_READ bypass) = false.

Definition write_admitted `{fsal_env} (o : mem_fsal_obj_handle)
    (bypass : bool) (state : option mem_fd) : Prop :=
  match state with
  | Some my_fd => open_correct (openflags my_fd) FSAL_O_WRITE = true
  | None =>
      FSAL_IS_ERROR
        (check_share_conflict (share (mh_file o)) FSAL_O_WRITE bypass) = false
  end.

(** The data buffer of a regular file has [datasize] bytes. *)
Definition data_ok (o : mem_fsal_obj_handle) : Prop :=
  0 ≤ datasize o < 2 ^ 32 ∧ Z.of_nat (length (data o)) = datasize o.

(** Modelled from the spec: the error surface of the interface, "a small
    closed set of conditions (not-found, already-exists, not-a-directory,
    not-empty, file-open, stale-handle, too-small-buffer, not-supported,
    invalid-argument, out-of-memory, no-error)". *)
Definition spec_error_surface : list fsal_errors_t :=
  [ERR_FSAL_NOENT; ERR_FSAL_EXIST; ERR_FSAL_NOTDIR; ERR_FSAL_NOTEMPTY;
   ERR_FSAL_FILE_OPEN; ERR_FSAL_STALE; ERR_FSAL_TOOSMALL; ERR_FSAL_NOTSUPP;
   ERR_FSAL_INVAL; ERR_FSAL_NOMEM; ERR_FSAL_NO_ERROR].

(** A regular file of logical length [len] whose eight data bytes are
    1..8, alone in a store. *)
Definition demo_file (len : Z) : mem_fsal_obj_handle :=
  set_mh_file {| share := zero_share;
                 fd := {| openflags := FSAL_O_CLOSED; fd_offset := 0 |};
                 file_length := len |}
    (set_data [x01; x02; x03; x04; x05; x06; x07; x08]
       (set_datasize 8
          (set_obj_type REGULAR_FILE
             (set_m_name "f.txt" (calloc_handle (E := model_env) REGULAR_FILE))))).

Definition demo_store (len : Z) : store :=
  set_heap {[ 1%positive := demo_file len ]} empty_store.

(** The directory part of an object after [child] has been taken out of
    its trees, and after [child] has been put in under [name] with index
    [next_i]. *)
Definition dir_removed (child : ptr) (p : mem_fsal_obj_handle)
  : mem_fsal_obj_handle :=
  set_mh_dir
    {| avl_name := avltree_remove child (avl_name (mh_dir p));
       avl_index := avltree_remove child (avl_index (mh_dir p));
       dir_numlinks := u32 (dir_numlinks (mh_dir p) - 1) |} p.

Definition dir_inserted (child : ptr) (name : string) (p : mem_fsal_obj_handle)
  : mem_fsal_obj_handle :=
  set_next_i (u32 (next_i p + 1))
    (set_mh_dir
       {| avl_name := avltree_insert mem_n_cmpf name child
                        (avl_name (mh_dir p));
          avl_index := avltree_insert mem_i_cmpf (next_i p) child
                         (avl_index (mh_dir p));
          dir_numlinks := u32 (dir_numlinks (mh_dir p) + 1) |} p).

(** The heap after [mem_remove_obj_locked] took an indexed [child] out of
    [parent], and after [mem_insert_obj] put [child] into [parent]. *)
Definition heap_removed (parent child : ptr) (p c : mem_fsal_obj_handle)
    (h : gmap ptr mem_fsal_obj_handle) : gmap ptr mem_fsal_obj_handle :=
  <[parent := dir_removed child
                (if decide (parent = child) then set_inavl false c else p)]>
    (<[child := set_inavl false c]> h).

Definition heap_inserted (parent child : ptr) (p c : mem_fsal_obj_handle)
    (h : gmap ptr mem_fsal_obj_handle) : gmap ptr mem_fsal_obj_handle :=
  let c' := set_inavl true (set_index (next_i p) c) in
  <[parent := dir_inserted child (m_name c)
                (if decide (parent = child) then c' else p)]>
    (<[child := c']> h).

(** What [mem_readdir] hands to the callback for one entry. *)
Record dirent := {
  d_name : string;
  d_obj : ptr;
  d_attrs : attrlist;
  d_cookie : Z
}.

(** The entries of an index tree from [seekloc] on, in tree order. *)
Definition listing (h : gmap ptr mem_fsal_obj_handle) (attrmask seekloc : Z)
    (nodes : list (Z * ptr)) : list dirent :=
  omap (λ n : Z * ptr,
          o ← h !! n.2;
          if index o <? seekloc then None
          else Some {| d_name := m_name o; d_obj := n.2;
                       d_attrs := fsal_copy_attrs (fsal_prepare_attrs attrmask)
                                    (attrs o);
                       d_cookie := u32 (index o + 1) |}) nodes.

(** Handing entries to a callback until it asks to stop. *)
Fixpoint feed {S : Type}
    (cb : string → ptr → attrlist → S → Z → S * fsal_dir_result)
    (l : list dirent) (st : S) : S * bool :=
  match l with
  | [] => (st, true)
  | e :: l' =>
      let r := cb (d_name e) (d_obj e) (d_attrs e) st (d_cookie e) in
      if dir_result_rank DIR_TERMINATE <=? dir_result_rank r.2
      then (r.1, false)
      else feed cb l' r.1
  end.

(** The index tree of a directory is in increasing index order, below the
    next-index counter, and each node is an indexed object carrying its
    key as index. *)
Definition dir_index_ok (h : gmap ptr mem_fsal_obj_handle)
    (p : mem_fsal_obj_handle) : Prop :=
  0 ≤ next_i p < 2 ^ 32 ∧
  StronglySorted (λ a b : Z * ptr, a.1 < b.1) (avl_index (mh_dir p)) ∧
  ∀ k c, (k, c) ∈ avl_index (mh_dir p) →
    0 ≤ k < next_i p ∧
    ∃ o, h !! c = Some o ∧ index o = k ∧ inavl o = true.

(** Insertions into and removals from one directory, and the indices the
    insertions hand out. *)
Inductive dir_op :=
  | Op_insert (child : ptr)
  | Op_remove (child : ptr).

Fixpoint run_dir_ops (parent : ptr) (ops : list dir_op) : M (list Z) :=
  match ops with
  | [] => mret []
  | Op_insert child :: ops' =>
      mem_insert_obj parent child;;
      c ← load child;
      rest ← run_dir_ops parent ops';
      mret (index c :: rest)
  | Op_remove child :: ops' =>
      mem_remove_obj parent child;;
      run_dir_ops parent ops'
  end.

(** The name tree of a directory holds each name once, and its nodes are
    indexed objects. *)
Definition dir_names_ok (h : gmap ptr mem_fsal_obj_handle)
    (d : mem_fsal_obj_handle) : Prop :=
  NoDup (avl_name (mh_dir d)).*1 ∧
  ∀ k c, (k, c) ∈ avl_name (mh_dir d) →
    ∃ oc, h !! c = Some oc ∧ inavl oc = true.

(** What identifies an object to its callers: type, inode number,
    attributes and wire handle. *)
Definition same_ident (o o' : mem_fsal_obj_handle) : Prop :=
  handle o' = handle o ∧ obj_fileid o' = obj_fileid o ∧
  attrs o' = attrs o ∧ obj_type o' = obj_type o.

(** An object exists for its callers while it is the root of an export or
    is indexed in a parent. *)
Definition live (s : store) (p : ptr) : Prop :=
  ∃ o, heap s !! p = Some o ∧ (parent o = None ∨ inavl o = true).

(** The list scanned by handle resolution holds the allocated objects, and
    each stored handle fills the opaque part of a file handle. *)
Definition store_ok `{fsal_env} (s : store) : Prop :=
  (∀ q, q ∈ fsal_handles s ↔ is_Some (heap s !! q)) ∧
  ∀ q oq, heap s !! q = Some oq →
    Z.of_nat (length (handle oq)) = V4_FH_OPAQUE_SIZE.

(** File "a" is created in the export root, renamed to "b", and a new file
    "a" is created. *)
Definition collide_scenario : M (ptr * ptr * ptr) :=
  r ← mem_lookup_path (E := model_env) model_ctx "/export" None;
  match r.1.2 with
  | None => fault
  | Some root =>
      a ← mem_create (E := model_env) model_ctx root "a" None None;
      match a.1.2 with
      | None => fault
      | Some first =>
          mem_rename first root "a" root "b";;
          b ← mem_create (E := model_env) model_ctx root "a" None None;
          match b.1.2 with
          | None => fault
          | Some second => mret (root, first, second)
          end
      end
  end.

Definition collide_store : store :=
  match collide_scenario empty_store with
  | Some (_, s) => s
  | None => empty_store
  end.

(** Two create verifiers. *)
Definition verifier_1 : list byte := [x01; x00; x00; x00; x02; x00; x00; x00].
Definition verifier_2 : list byte := [x03; x00; x00; x00; x04; x00; x00; x00].

(** File "f" is created exclusively with [verifier_1]; it is then opened
    again exclusively with [verifier_2], once by name and once by handle
    with a state. The result holds the three statuses, and whether each
    verifier matches the attributes of the file at the end. *)
Definition exclusive_scenario
  : M (fsal_status_t * fsal_status_t * fsal_status_t * bool * bool) :=
  r ← mem_lookup_path (E := model_env) model_ctx "/export" None;
  match r.1.2 with
  | None => fault
  | Some root =>
      c ← mem_open2 (E := model_env) model_ctx root None FSAL_O_RDWR
            FSAL_EXCLUSIVE (Some "f") None verifier_1 None;
      match o2_new_obj c with
      | None => fault
      | Some f =>
          mem_close f;;
          n ← mem_open2 (E := model_env) model_ctx root None FSAL_O_RDWR
                FSAL_EXCLUSIVE (Some "f") None verifier_2 None;
          mem_close f;;
          h ← mem_open2 (E := model_env) model_ctx f
                (Some {| openflags := FSAL_O_CLOSED; fd_offset := 0 |})
                FSAL_O_RDWR FSAL_EXCLUSIVE None None verifier_2 None;
          o ← load f;
          mret (o2_status c, o2_status n, o2_status h,
                model_check_verifier_attrlist (attrs o) verifier_1,
                model_check_verifier_attrlist (attrs o) verifier_2)
      end
  end.

(** The objects below a removed object form a tree in the heap:
    [subtree n h p F] says that, down to depth [n], the objects reached
    from [p] through the name trees are the set [F], that each child is an
    indexed object with a parent, and that the children's subtrees do not
    overlap. *)
Fixpoint kids_ok (sub : ptr → gset ptr → Prop)
    (h : gmap ptr mem_fsal_obj_handle) (l : list (string * ptr))
    (F : gset ptr) : Prop :=
  match l with
  | [] => F = ∅
  | e :: l' =>
      ∃ Fc F', F = Fc ∪ F' ∧ (Fc ## F') ∧
               (∃ oc, h !! e.2 = Some oc ∧ inavl oc = true
                      ∧ parent oc ≠ None) ∧
               sub e.2 Fc ∧ kids_ok sub h l' F'
  end.

Fixpoint subtree (n : nat) (h : gmap ptr mem_fsal_obj_handle) (p : ptr)
    (F : gset ptr) : Prop :=
  match n with
  | O => False
  | S n' =>
      ∃ o, h !! p = Some o ∧
           if bool_decide (obj_type o = DIRECTORY)
           then ∃ Fk, F = {[p]} ∪ Fk ∧ (p ∉ Fk) ∧
                      kids_ok (subtree n' h) h (avl_name (mh_dir o)) Fk
           else F = {[p]}
  end.

(** [torn_down F s s']: [s'] is [s] with the objects of [F] freed, taken
    off the object lists and logged as freed, symlinks with their target;
    nothing else has changed. *)
Definition torn_down (F : gset ptr) (s s' : store) : Prop :=
  (∀ q, q ∈ F → heap s' !! q = None) ∧
  (∀ q, q ∉ F → heap s' !! q = heap s !! q) ∧
  fsal_handles s' = filter (λ q, q ∉ F) (fsal_handles s) ∧
  mfe_objs s' = filter (λ q, q ∉ F) (mfe_objs s) ∧
  (∀ q, q ∈ F → Free_handle q ∈ freed s') ∧
  (∀ q o, q ∈ F → heap s !! q = Some o → obj_type o = SYMBOLIC_LINK →
     Free_link q ∈ freed s') ∧
  (∀ e, e ∈ freed s → e ∈ freed s') ∧
  mem_inode_number s' = mem_inode_number s ∧
  root_handle s' = root_handle s.

(** [mem_clean_dir_tree] has emptied directory [p]: the objects of [F]
    are torn down, [p] itself is still allocated with an empty name
    tree. *)
Definition cleaned (p : ptr) (F : gset ptr) (s s' : store) : Prop :=
  (∀ q, q ∈ F → heap s' !! q = None) ∧
  (∀ q, q ∉ F → q ≠ p → heap s' !! q = heap s !! q) ∧
  (∃ o o', heap s !! p = Some o ∧ heap s' !! p = Some o' ∧
           avl_name (mh_dir o') = [] ∧ obj_type o' = obj_type o) ∧
  fsal_handles s' = filter (λ q, q ∉ F) (fsal_handles s) ∧
  mfe_objs s' = filter (λ q, q ∉ F) (mfe_objs s) ∧
  (∀ q, q ∈ F → Free_handle q ∈ freed s') ∧
  (∀ q o, q ∈ F → heap s !! q = Some o → obj_type o = SYMBOLIC_LINK →
     Free_link q ∈ freed s') ∧
  (∀ e, e ∈ freed s → e ∈ freed s') ∧
  mem_inode_number s' = mem_inode_number s ∧
  root_handle s' = root_handle s.

(** The store after the release of a removed object [p] that is not a
    directory. *)
Definition leaf_released (p : ptr) (o : mem_fsal_obj_handle) (s : store)
  : store :=
  {| heap := delete p (heap s);
     fsal_handles := filter (λ q, q ≠ p) (fsal_handles s);
     mfe_objs := filter (λ q, q ≠ p) (mfe_objs s);
     mem_inode_number := mem_inode_number s;
     root_handle := root_handle s;
     freed := freed s
              ++ (if bool_decide (obj_type o = SYMBOLIC_LINK)
                  then [Free_link p] else [])
              ++ [Free_handle p] |}.

(** A small tree: the export root holds directory "d", which holds file
    "f", symlink "l" and directory "e", which holds file "g". *)
Definition tree_scenario : M unit :=
  r ← mem_lookup_path (E := model_env) model_ctx "/export" None;
  match r.1.2 with
  | None => fault
  | Some root =>
      d ← mem_mkdir (E := model_env) model_ctx root "d" None None;
      match d.1.2 with
      | None => fault
      | Some d =>
          mem_create (E := model_env) model_ctx d "f" None None;;
          mem_symlink (E := model_env) model_ctx d "l" "target" None None;;
          e ← mem_mkdir (E := model_env) model_ctx d "e" None None;
          match e.1.2 with
          | None => fault
          | Some e =>
              mem_create (E := model_env) model_ctx e "g" None None;;
              mret tt
          end
      end
  end.

Definition final_store (m : M unit) (s : store) : store :=
  match m s with
  | Some (_, s') => s'
  | None => s
  end.

Definition tree_store : store := final_store tree_scenario empty_store.

(** The object at an address of a store (a zeroed object if there is
    none). *)
Definition obj_at (s : store) (p : ptr) : mem_fsal_obj_handle :=
  default (calloc_handle (E := model_env) NO_FILE_TYPE) (heap s !! p).

(** The example tree after "f" has been unlinked from "d", and after "d"
    has been taken out of the root without being released. *)
Definition tree_store_unlinked : store :=
  final_store (mem_unlink 2%positive 3%positive "f";; mret tt) tree_store.

Definition tree_store_removed : store :=
  final_store (mem_remove_obj 1%positive 2%positive) tree_store.

(** The entries of "d" in the example tree, from the start. *)
Definition tree_listing : list dirent :=
  listing (heap tree_store) 0 2
    (avl_index (mh_dir (obj_at tree_store 2%positive))).

Definition zero_dirent : dirent :=
  {| d_name := ""; d_obj := 1%positive; d_attrs := zero_attrlist;
     d_cookie := 0 |}.

(** ** Invariants of the store *)

(** [store_ok] with the objects of [P] allocated but not (or no longer)
    on the list: the state between [gsh_calloc] and
    [fsal_obj_handle_init], and between [fsal_obj_handle_fini] and
    [mem_free_handle]. *)
Definition ok_pending `{fsal_env} (P : gset ptr) (s : store) : Prop :=
  (∀ q, q ∈ fsal_handles s ↔ is_Some (heap s !! q) ∧ q ∉ P) ∧
  ∀ q oq, heap s !! q = Some oq →
    Z.of_nat (length (handle oq)) = V4_FH_OPAQUE_SIZE.

(** Two stores with the same objects allocated, the same list of object
    handles, and handles of the same size. *)
Definition same_objects (s s' : store) : Prop :=
  fsal_handles s' = fsal_handles s ∧
  (∀ q, is_Some (heap s' !! q) ↔ is_Some (heap s !! q)) ∧
  ∀ q o o', heap s !! q = Some o → heap s' !! q = Some o' →
    length (handle o') = length (handle o).

(** Hoare triples for the monad: partial correctness of a run that does
    not fault. *)
Definition triple {A} (P : store → Prop) (m : M A) (Q : A → store → Prop)
  : Prop :=
  ∀ s r s', P s → m s = Some (r, s') → Q r s'.

Definition keeps {A} (m : M A) : Prop :=
  ∀ s r s', m s = Some (r, s') → same_objects s s'.

(** The calls of the interface that change the store. *)
Inductive call :=
  | Call_lookup_path (path : string)
  | Call_create (dir : ptr) (type : object_file_type_t) (name : string)
      (attrs_in : option attrlist)
  | Call_symlink (dir : ptr) (name link_path : string)
      (attrs_in : option attrlist)
  | Call_getattrs (obj : ptr)
  | Call_unlink (dir obj : ptr) (name : string)
  | Call_rename (obj olddir : ptr) (old_name : string) (newdir : ptr)
      (new_name : string)
  | Call_open2 (obj : ptr) (state : option mem_fd) (flags : Z)
      (createmode : fsal_create_mode) (name : option string)
      (attrs_set : option attrlist) (verifier : list byte)
      (attrs_out : option attrlist)
  | Call_close (obj : ptr)
  | Call_read2 (obj : ptr) (bypass : bool) (state : option mem_fd)
      (offset size : Z)
  | Call_write2 (obj : ptr) (bypass : bool) (state : option mem_fd)
      (offset : Z) (buffer : list byte)
  | Call_release (fuel : nat) (obj : ptr)
  | Call_clean_dir_tree (fuel : nat) (dir : ptr).

Definition run {A} (m : M A) (s : store) : option store := snd <$> m s.

Definition exec `{fsal_env} (op_ctx : op_context) (c : call) (s : store)
  : option store :=
  match c with
  | Call_lookup_path path => run (mem_lookup_path op_ctx path None) s
  | Call_create dir type name a =>
      run (mem_create_obj op_ctx dir type name a None) s
  | Call_symlink dir name link a =>
      run (mem_symlink op_ctx dir name link a None) s
  | Call_getattrs obj => run (mem_getattrs obj zero_attrlist) s
  | Call_unlink dir obj name => run (mem_unlink dir obj name) s
  | Call_rename obj olddir old_name newdir new_name =>
      run (mem_rename obj olddir old_name newdir new_name) s
  | Call_open2 obj state flags mode name a v out =>
      run (mem_open2 op_ctx obj state flags mode name a v out) s
  | Call_close obj => run (mem_close obj) s
  | Call_read2 obj bypass state offset size =>
      run (mem_read2 op_ctx obj bypass state offset size false) s
  | Call_write2 obj bypass state offset buffer =>
      run (mem_write2 op_ctx obj bypass state offset buffer false) s
  | Call_release fuel obj => run (mem_release fuel obj) s
  | Call_clean_dir_tree fuel dir => run (mem_clean_dir_tree fuel dir) s
  end.

(** The stores the interface can produce from the empty one. *)
Inductive reachable `{fsal_env} : store → Prop :=
  | reachable_empty : reachable empty_store
  | reachable_step op_ctx c s s' :
      reachable s → exec op_ctx c s = Some s' → reachable s'.

(** The example tree is built by six calls of the interface. *)
Definition tree_calls : list call :=
  [ Call_lookup_path "/export";
    Call_create 1%positive DIRECTORY "d" None;
    Call_create 2%positive REGULAR_FILE "f" None;
    Call_symlink 2%positive "l" "target" None;
    Call_create 2%positive DIRECTORY "e" None;
    Call_create 5%positive REGULAR_FILE "g" None ].

(** The example tree with the next-index counter of "d" at its last value
    before the 32-bit wrap. *)
Definition tree_store_wrapping : store :=
  set_heap (<[2%positive := set_next_i (2 ^ 32 - 1)
                              (obj_at tree_store 2%positive)]>
              (heap tree_store)) tree_store.

(** Four files created in "d"; the result is the index of each of them and
    of "f", and the names and cookies an iteration from cookie 0 hands
    over afterwards. *)
Definition wrap_scenario : M (list Z * list (string * Z)) :=
  mem_create (E := model_env) model_ctx 2%positive "a" None None;;
  mem_create (E := model_env) model_ctx 2%positive "b" None None;;
  mem_create (E := model_env) model_ctx 2%positive "c" None None;;
  mem_create (E := model_env) model_ctx 2%positive "h" None None;;
  s ← get_store;
  r ← mem_readdir 2%positive (Some 0) []
         (λ name obj a (st : list (string * Z)) c,
            (st ++ [(name, c)], DIR_CONTINUE)) 0;
  mret ((λ q, index (obj_at s q))
          <$> [7%positive; 8%positive; 9%positive; 10%positive; 3%positive],
        r.1.2).

(** ** Predicates used in the statements about the other methods *)

(** The store [s] with the attributes of object [p] (which is [o] in [s])
    replaced by [A]. *)
Definition with_attrs (s : store) (p : ptr) (o : mem_fsal_obj_handle)
    (A : attrlist) : store :=
  set_heap (<[p := set_attrs A o]> (heap s)) s.

(** [m] does nothing but rewrite the attributes of [p] by [g]. *)
Definition attr_steps (s : store) (p : ptr) (o : mem_fsal_obj_handle)
    (m : M unit) (g : attrlist → attrlist) : Prop :=
  ∀ A, m (with_attrs s p o A) = Some (tt, with_attrs s p o (g A)).

(** The object [_mem_alloc_handle] has built when it returns it, before it
    is attached to its parent. *)
Definition new_object `{fsal_env} (op_ctx : op_context) (parent : option ptr)
    (name : string) (type : object_file_type_t) (attrs_in : option attrlist)
    (inode : Z) (pathbuf : display_buffer) : mem_fsal_obj_handle :=
  let a := alloc_attrs op_ctx type inode attrs_in in
  let is_dir := bool_decide (type = DIRECTORY) in
  let is_file := bool_decide (type = REGULAR_FILE) in
  {| obj_type := type; obj_fileid := inode; attrs := a;
     handle := package_mem_handle pathbuf; parent := parent;
     mh_dir := {| avl_name := []; avl_index := [];
                  dir_numlinks := if is_dir then 2 else 0 |};
     mh_file := {| share := zero_share;
                   fd := {| openflags := 0; fd_offset := 0 |};
                   file_length := if is_file then filesize a else 0 |};
     link_contents := None; m_name := name; index := 0;
     next_i := if is_dir then 2 else 0;
     datasize := MEM_inode_size; inavl := false;
     data := if is_file then replicate (Z.to_nat MEM_inode_size) x00
             else [] |}.

(** The store with a new object [o] at [hdl]: on both object lists, with
    the inode counter advanced. *)
Definition alloc_store (s : store) (hdl : ptr) (o : mem_fsal_obj_handle)
  : store :=
  {| heap := <[hdl := o]> (heap s);
     fsal_handles := fsal_handles s ++ [hdl];
     mfe_objs := mfe_objs s ++ [hdl];
     mem_inode_number := u64 (mem_inode_number s + 1);
     root_handle := root_handle s;
     freed := freed s |}.

(** The path [_mem_alloc_handle] computes for the object it allocates at
    [hdl]: the result of [fullpath] on the zeroed object with its name and
    parent set. *)
Definition new_path `{fsal_env} (s : store) (hdl : ptr) (parent : option ptr)
    (name : string) (type : object_file_type_t)
  : option (display_buffer * Z) :=
  let o := set_datasize MEM_inode_size
             (set_parent parent (set_m_name name (calloc_handle type))) in
  let h := <[hdl := o]> (heap s) in
  fullpath (S (size h)) h {| b_size := MAXPATHLEN; b_text := [] |} o.

(** The store after [mem_create_obj] has created [name] in directory [dir]
    (which is [d] in [s]): the new object sits at the first free address,
    indexed in [dir]. *)
Definition created_store `{fsal_env} (op_ctx : op_context) (s : store)
    (dir : ptr) (d : mem_fsal_obj_handle) (type : object_file_type_t)
    (name : string) (attrs_in : option attrlist) (pathbuf : display_buffer)
  : store :=
  let hdl := fresh (dom (heap s)) in
  let o := new_object op_ctx (Some dir) name type attrs_in
             (mem_inode_number s) pathbuf in
  let s0 := alloc_store s hdl o in
  set_heap (<[dir := dir_inserted hdl name d]>
              (<[hdl := set_inavl true (set_index (next_i d) o)]> (heap s0)))
    s0.

(** [name] can be created in directory [d]: lookup of it gives
    [ERR_FSAL_NOENT]. *)
Definition name_free (d : mem_fsal_obj_handle) (name : string) : Prop :=
  name ≠ "." ∧ (name = ".." → parent d = None) ∧
  (name ≠ ".." →
   avltree_lookup mem_n_cmpf name (avl_name (mh_dir d)) = None).

(** ** Identity of objects across calls *)

(** What an object keeps for as long as it is allocated: type, inode
    number (also as attribute), wire handle, parent pointer and data
    capacity. *)
Definition ident_eq (o o' : mem_fsal_obj_handle) : Prop :=
  obj_type o' = obj_type o ∧ obj_fileid o' = obj_fileid o ∧
  handle o' = handle o ∧ parent o' = parent o ∧
  datasize o' = datasize o ∧ fileid (attrs o') = fileid (attrs o) ∧
  a_type (attrs o') = a_type (attrs o).

Definition idents_kept (s s' : store) : Prop :=
  ∀ q o o', heap s !! q = Some o → heap s' !! q = Some o' → ident_eq o o'.

(** The same objects, with their identities; the inode counter and the
    export root have not moved. *)
Definition same_identities (s s' : store) : Prop :=
  mem_inode_number s' = mem_inode_number s ∧
  root_handle s' = root_handle s ∧
  (∀ q, is_Some (heap s' !! q) ↔ is_Some (heap s !! q)) ∧
  idents_kept s s'.

(** One object has been allocated, at [hdl], with the inode counter of
    [s] as inode number; the export root is as before, or it was not set
    and is now [hdl], which has no parent. *)
Definition allocated_one (s s' : store) (hdl : ptr) : Prop :=
  heap s !! hdl = None ∧
  (∃ o, heap s' !! hdl = Some o ∧ obj_fileid o = mem_inode_number s ∧
        (root_handle s' = root_handle s
         ∨ root_handle s = None ∧ root_handle s' = Some hdl
           ∧ parent o = None)) ∧
  mem_inode_number s' = u64 (mem_inode_number s + 1) ∧
  (∀ q, q ≠ hdl → is_Some (heap s' !! q) ↔ is_Some (heap s !! q)) ∧
  idents_kept s s'.

(** Objects may have been freed, none that has no parent; the others keep
    their identities. *)
Definition shrinks (s s' : store) : Prop :=
  mem_inode_number s' = mem_inode_number s ∧
  root_handle s' = root_handle s ∧
  (∀ q, is_Some (heap s' !! q) → is_Some (heap s !! q)) ∧
  (∀ q o, heap s !! q = Some o → parent o = None → is_Some (heap s' !! q)) ∧
  idents_kept s s'.

Definition keeps_ident {A} (m : M A) : Prop :=
  ∀ s r s', m s = Some (r, s') → same_identities s s'.

Definition may_alloc {A} (m : M A) : Prop :=
  ∀ s r s', m s = Some (r, s') →
    same_identities s s' ∨ ∃ hdl, allocated_one s s' hdl.

Definition may_free {A} (m : M A) : Prop :=
  ∀ s r s', m s = Some (r, s') → shrinks s s'.

(** The calls that change the store: those of [call], and the three
    other methods that write. *)
Inductive method :=
  | Method_call (c : call)
  | Method_setattr2 (obj : ptr) (bypass : bool) (state : option mem_fd)
      (attrs_set : attrlist)
  | Method_reopen2 (obj : ptr) (state : option mem_fd) (openflags : Z)
  | Method_close2 (obj : ptr) (state : option (state_type_t * mem_fd)).

Definition run_method `{fsal_env} `{fsal_time_env} (op_ctx : op_context)
    (c : method) (s : store) : option store :=
  match c with
  | Method_call c => exec op_ctx c s
  | Method_setattr2 obj bypass state attrs_set =>
      run (mem_setattr2 op_ctx obj bypass state attrs_set) s
  | Method_reopen2 obj state openflags =>
      run (mem_reopen2 obj state openflags) s
  | Method_close2 obj state => run (mem_close2 obj state) s
  end.

Fixpoint run_methods `{fsal_env} `{fsal_time_env} (op_ctx : op_context)
    (cs : list method) (s : store) : option store :=
  match cs with
  | [] => Some s
  | c :: cs' => s1 ← run_method op_ctx c s; run_methods op_ctx cs' s1
  end.

(** Inode numbers are below the counter and belong to one object each. *)
Definition ids_ok (s : store) : Prop :=
  0 < mem_inode_number s ∧
  (∀ q o, heap s !! q = Some o → 0 < obj_fileid o < mem_inode_number s) ∧
  ∀ q q' o o', heap s !! q = Some o → heap s !! q' = Some o' →
    obj_fileid o = obj_fileid o' → q = q'.

(** The export root, once set, is an allocated object without parent. *)
Definition root_ok (s : store) : Prop :=
  ∀ r, root_handle s = Some r →
    ∃ o, heap s !! r = Some o ∧ parent o = None.

(** A call that hands back the store it was given. *)
Definition reads_only {A} (m : M A) : Prop :=
  ∀ s r s', m s = Some (r, s') → s' = s.

(** What the callback of [mem_readdir] makes of its state at one entry. *)
Definition cb_state {S : Type}
    (cb : string → ptr → attrlist → S → Z → S * fsal_dir_result)
    (st : S) (e : dirent) : S :=
  (cb (d_name e) (d_obj e) (d_attrs e) st (d_cookie e)).1.

Definition cb_stops {S : Type}
    (cb : string → ptr → attrlist → S → Z → S * fsal_dir_result)
    (st : S) (e : dirent) : bool :=
  dir_result_rank DIR_TERMINATE
  <=? dir_result_rank (cb (d_name e) (d_obj e) (d_attrs e) st (d_cookie e)).2.

(** ** Example data for the other methods *)

(** An instance of the constants of [mem_setattr2]. *)
Definition model_time_env : fsal_time_env :=
  {| ATTR_ATIME_SERVER := 2097152;
     ATTR_MTIME_SERVER := 4194304;
     ATTRS_SET_TIME :=
       Z.lor (Z.lor ATTR_ATIME ATTR_MTIME) (Z.lor 2097152 4194304);
     UTIME_NOW := 1073741823 |}.

(** Attributes that only set the size. *)
Definition size_attrs (size : Z) : attrlist :=
  set_filesize size (set_valid_mask ATTR_SIZE zero_attrlist).

(** The result of a run, or the given store if the run fails. *)
Definition store_after {A} (m : M A) (s : store) : store :=
  default s (run m s).

(** The path and the room left that [_mem_alloc_handle] computes for a
    new name in the example tree. *)
Definition example_path (dir : ptr) (name : string)
    (type : object_file_type_t) : display_buffer * Z :=
  default ({| b_size := 0; b_text := [] |}, -1)
    (new_path (H := model_env) tree_store (fresh (dom (heap tree_store)))
       (Some dir) name type).

(** The path and the room left computed for the export root of the
    example, when it is allocated in the empty store. *)
Definition root_path : display_buffer * Z :=
  default ({| b_size := 0; b_text := [] |}, -1)
    (new_path (H := model_env) empty_store (fresh (dom (heap empty_store)))
       None "/export" DIRECTORY).

(** An environment whose path buffer reports an error: the display
    functions return a negative count. *)
Definition failing_display_env : fsal_env :=
  {| V4_FH_OPAQUE_SIZE := 32;
     MAXPATHLEN := 4096;
     MEM_inode_size := 8;
     CityHash64 := model_hash;
     display_start := λ _, -1;
     display_cat := λ b _, (b, -1);
     check_share_conflict := model_check_share_conflict;
     update_share_counters := model_update_share_counters;
     open_correct := model_open_correct;
     set_common_verifier := model_set_common_verifier;
     check_verifier_attrlist := model_check_verifier_attrlist |}.

(** A name that is longer than the path buffer. *)
Definition long_name : string :=
  Nat.iter 5000 (String.append "a") "".

(** A callback that collects the cookies and stops at a given one. *)
Definition stop_at (cookie : Z) (name : string) (obj : ptr) (a : attrlist)
    (st : list Z) (c : Z) : list Z * fsal_dir_result :=
  (st ++ [c], if c =? cookie then DIR_TERMINATE else DIR_CONTINUE).

(** The example tree built through [method]s. *)
Definition tree_methods : list method := Method_call <$> tree_calls.

(** * Properties *)

(** ** Reasoning in the monad *)

Lemma bind_run {A B} (m : M A) (f : A → M B) s a s1 :
  m s = Some (a, s1) → (m ≫= f) s = f a s1.
Proof. intros H. unfold mbind, M_bind. by rewrite H. Qed.

Lemma bind_inv {A B} (m : M A) (f : A → M B) s r :
  (m ≫= f) s = Some r → ∃ a s1, m s = Some (a, s1) ∧ f a s1 = Some r.
Proof.
  unfold mbind, M_bind. destruct (m s) as [[a s1]|]; [eauto | discriminate].
Qed.

Lemma bind_ret {A B} (a : A) (f : A → M B) s :
  (@mret M _ A a ≫= f) s = f a s.
Proof. reflexivity. Qed.

Lemma bind_get {B} (f : store → M B) s : (get_store ≫= f) s = f s s.
Proof. reflexivity. Qed.

Lemma bind_modify_store {B} (g : store → store) (f : unit → M B) s :
  (modify_store g ≫= f) s = f tt (g s).
Proof. reflexivity. Qed.

Lemma load_run s p o : heap s !! p = Some o → load p s = Some (o, s).
Proof. intros H. unfold load. by rewrite H. Qed.

Lemma load_inv s p o s1 :
  load p s = Some (o, s1) → heap s !! p = Some o ∧ s1 = s.
Proof. unfold load. destruct (heap s !! p); naive_solver. Qed.

Lemma modify_run s p o f :
  heap s !! p = Some o →
  modify p f s = Some (tt, set_heap (<[p := f o]> (heap s)) s).
Proof.
  intros H. unfold modify. rewrite (bind_run _ _ _ _ _ (load_run _ _ _ H)).
  unfold store_obj. by rewrite H.
Qed.

Lemma modify_inv s p f u s1 :
  modify p f s = Some (u, s1) →
  ∃ o, heap s !! p = Some o ∧ s1 = set_heap (<[p := f o]> (heap s)) s.
Proof.
  intros H. apply bind_inv in H as (o & s0 & Hl & Hs).
  apply load_inv in Hl as [Hl ->]. exists o. split; [done|].
  unfold store_obj in Hs. rewrite Hl in Hs. by inversion Hs.
Qed.

Section read_write.
Context {E : fsal_env}.
Variable op_ctx : op_context.

Lemma u64_small z : 0 ≤ z < 2 ^ 64 → u64 z = z.
Proof. intros. unfold u64, wrap. by apply Z.mod_small. Qed.

Lemma read_size_clamp len offset size :
  0 ≤ len → 0 ≤ offset → 0 ≤ size → offset + size < 2 ^ 64 →
  read_size len offset size = Z.max 0 (Z.min size (len - offset)).
Proof.
  intros. unfold read_size.
  destruct (Z.ltb_spec len offset); [lia|].
  rewrite u64_small by lia.
  destruct (Z.ltb_spec len (offset + size)); [rewrite u64_small|]; lia.
Qed.

Lemma read_data_bytes o offset size l :
  0 ≤ offset → 0 ≤ size → 0 ≤ datasize o < 2 ^ 64 →
  read_data o offset size = Some l →
  Z.of_nat (length l) = size ∧
  ∀ i : nat, Z.of_nat i < size →
    l !! i = if offset + Z.of_nat i <? datasize o
             then data o !! Z.to_nat (offset + Z.of_nat i)
             else Some filler.
Proof.
  intros Hoff Hsz Hds. unfold read_data.
  destruct (Z.ltb_spec offset (datasize o)) as [Hlt|Hge].
  - rewrite u64_small by lia. unfold MIN.
    destruct (Z.ltb_spec size (datasize o - offset)) as [Hm|Hm].
    + destruct (Z.ltb_spec (Z.of_nat (length (data o))) (offset + size));
        [discriminate|].
      rewrite Z.ltb_irrefl, app_nil_r. intros [= <-]. split.
      * rewrite length_take, length_drop. lia.
      * intros i Hi. destruct (Z.ltb_spec (offset + Z.of_nat i) (datasize o));
          [|lia].
        rewrite lookup_take_lt by lia. rewrite lookup_drop. f_equal. lia.
    + destruct (Z.ltb_spec (Z.of_nat (length (data o)))
                  (offset + (datasize o - offset))); [discriminate|].
      intros [= <-]. split.
      * destruct (Z.ltb_spec (datasize o - offset) size).
        -- rewrite length_app, length_take, length_drop, length_replicate. lia.
        -- rewrite app_nil_r, length_take, length_drop. lia.
      * intros i Hi.
        destruct (Z.ltb_spec (offset + Z.of_nat i) (datasize o)).
        -- rewrite lookup_app_l by (rewrite length_take, length_drop; lia).
           rewrite lookup_take_lt by lia. rewrite lookup_drop. f_equal. lia.
        -- destruct (Z.ltb_spec (datasize o - offset) size); [|lia].
           rewrite lookup_app_r by (rewrite length_take, length_drop; lia).
           apply lookup_replicate_2.
           rewrite length_take, length_drop. lia.
  - intros [= <-]. split.
    + rewrite length_replicate. lia.
    + intros i Hi. destruct (Z.ltb_spec (offset + Z.of_nat i) (datasize o));
        [lia|]. apply lookup_replicate_2. lia.
Qed.

Lemma read_data_total o offset size :
  0 ≤ offset → 0 ≤ size → 0 ≤ datasize o < 2 ^ 64 →
  Z.of_nat (length (data o)) = datasize o →
  is_Some (read_data o offset size).
Proof.
  intros Hoff Hsz Hds Hlen. unfold read_data.
  destruct (Z.ltb_spec offset (datasize o)); [|eauto].
  rewrite u64_small by lia. unfold MIN.
  destruct (Z.ltb_spec size (datasize o - offset));
    match goal with |- context [if ?a <? ?b then _ else _] =>
      destruct (Z.ltb_spec a b); [lia | eauto] end.
Qed.

Lemma write_data_bytes o offset buffer d :
  0 ≤ offset → 0 ≤ datasize o < 2 ^ 64 →
  Z.of_nat (length (data o)) = datasize o →
  write_data o offset buffer = Some d →
  length d = length (data o) ∧
  (datasize o ≤ offset → d = data o) ∧
  ∀ i : nat,
    d !! i = if (offset <=? Z.of_nat i)
                && (Z.of_nat i <? offset + Z.of_nat (length buffer))
                && (Z.of_nat i <? datasize o)
             then buffer !! Z.to_nat (Z.of_nat i - offset)
             else data o !! i.
Proof.
  intros Hoff Hds Hlen. unfold write_data.
  destruct (Z.ltb_spec offset (datasize o)) as [Hlt|Hge].
  - rewrite u64_small by lia.
    set (w := MIN (Z.of_nat (length buffer)) (datasize o - offset)).
    assert (Hw : w = Z.min (Z.of_nat (length buffer)) (datasize o - offset)).
    { unfold w, MIN. destruct (Z.ltb_spec (Z.of_nat (length buffer))
                                 (datasize o - offset)); lia. }
    destruct (Z.ltb_spec (Z.of_nat (length (data o))) (offset + w));
      [discriminate|].
    intros [= <-]. split; [|split].
    + rewrite !length_app, !length_take, length_drop. lia.
    + lia.
    + intros i.
      destruct (Z.leb_spec offset (Z.of_nat i)) as [H1|H1]; simpl.
      * rewrite lookup_app_r by (rewrite length_take; lia).
        rewrite length_take, Nat.min_l by lia.
        destruct (Z.ltb_spec (Z.of_nat i)
                    (offset + Z.of_nat (length buffer))) as [H2|H2]; simpl.
        -- destruct (Z.ltb_spec (Z.of_nat i) (datasize o)) as [H3|H3].
           ++ rewrite lookup_app_l by (rewrite length_take; lia).
              rewrite lookup_take_lt by lia. f_equal. lia.
           ++ rewrite lookup_app_r by (rewrite length_take; lia).
              rewrite length_take, lookup_drop.
              rewrite !lookup_ge_None_2; [done| lia | lia].
        -- rewrite lookup_app_r by (rewrite length_take; lia).
           rewrite length_take, lookup_drop. f_equal. lia.
      * rewrite lookup_app_l by (rewrite length_take; lia).
        by rewrite lookup_take_lt by lia.
  - intros [= <-]. split; [done|]. split; [done|]. intros i.
    destruct (Z.ltb_spec (Z.of_nat i) (datasize o)); [|by rewrite !andb_false_r].
    destruct (Z.leb_spec offset (Z.of_nat i)); [lia | done].
Qed.

Lemma write_data_total o offset buffer :
  0 ≤ offset → 0 ≤ datasize o < 2 ^ 64 →
  Z.of_nat (length (data o)) = datasize o →
  is_Some (write_data o offset buffer).
Proof.
  intros Hoff Hds Hlen. unfold write_data.
  destruct (Z.ltb_spec offset (datasize o)); [|eauto].
  rewrite u64_small by lia. unfold MIN.
  destruct (Z.ltb_spec (Z.of_nat (length buffer)) (datasize o - offset));
    match goal with |- context [if ?a <? ?b then _ else _] =>
      destruct (Z.ltb_spec a b); [lia | eauto] end.
Qed.

Lemma mem_read2_run s obj o bypass state offset size :
  heap s !! obj = Some o →
  0 ≤ offset → 0 ≤ size → offset + size < 2 ^ 64 →
  0 ≤ file_length (mh_file o) →
  data_ok o →
  read_admitted o bypass state →
  ∃ r,
    mem_read2 op_ctx obj bypass state offset size false s
    = Some ((fsalstat ERR_FSAL_NO_ERROR 0, Some r),
            set_heap (<[obj := set_attrs (set_atime (clock op_ctx) (attrs o)) o]>
                        (heap s)) s) ∧
    read_amount r = Z.max 0 (Z.min size (file_length (mh_file o) - offset)) ∧
    end_of_file r = (read_amount r =? 0) ∧
    Z.of_nat (length (rd_bytes r)) = read_amount r ∧
    ∀ i : nat, Z.of_nat i < read_amount r →
      rd_bytes r !! i = if offset + Z.of_nat i <? datasize o
                        then data o !! Z.to_nat (offset + Z.of_nat i)
                        else Some filler.
Proof.
  intros Hobj Hoff Hsz Hsum Hlen [Hds Hdata] [Hst Hsh].
  unfold mem_read2.
  assert (Hfd : match state with
                  | Some my_fd =>
                      negb (open_correct (openflags my_fd) FSAL_O_READ)
                  | None => false
                  end = false).
  { destruct state as [my_fd|]; [|done]. by rewrite (Hst my_fd). }
  rewrite Hfd. rewrite (bind_run _ _ _ _ _ (load_run _ _ _ Hobj)).
  rewrite Hsh.
  set (n := read_size (file_length (mh_file o)) offset size).
  assert (Hn : n = Z.max 0 (Z.min size (file_length (mh_file o) - offset)))
    by (by apply read_size_clamp).
  destruct (read_data_total o offset n) as [l Hl]; [lia..|done|].
  rewrite Hl.
  rewrite (bind_run _ _ _ _ _ (modify_run _ _ _ _ Hobj)).
  eexists. split; [reflexivity|]. simpl.
  destruct (read_data_bytes o offset n l) as [H1 H2]; [lia..|done|].
  repeat split; try done.
Qed.

Lemma mem_write2_run s obj o bypass state offset buffer :
  heap s !! obj = Some o →
  0 ≤ offset → offset + Z.of_nat (length buffer) < 2 ^ 64 →
  0 ≤ file_length (mh_file o) →
  data_ok o →
  write_admitted o bypass state →
  ∃ s1 o1,
    mem_write2 op_ctx obj bypass state offset buffer false s
    = Some ((fsalstat ERR_FSAL_NO_ERROR 0,
             Some (Z.of_nat (length buffer))), s1) ∧
    heap s1 !! obj = Some o1 ∧
    file_length (mh_file o1)
    = Z.max (file_length (mh_file o)) (offset + Z.of_nat (length buffer)) ∧
    filesize (attrs o1)
    = (if file_length (mh_file o) <? offset + Z.of_nat (length buffer)
       then offset + Z.of_nat (length buffer) else filesize (attrs o)) ∧
    datasize o1 = datasize o ∧
    share (mh_file o1) = share (mh_file o) ∧
    write_data o offset buffer = Some (data o1).
Proof.
  intros Hobj Hoff Hsum Hlen [Hds Hdata] Hadm.
  unfold mem_write2.
  assert (Hfd : match state with
                  | Some my_fd =>
                      negb (open_correct (openflags my_fd) FSAL_O_WRITE)
                  | None => false
                  end = false).
  { destruct state as [my_fd|]; [|done]. simpl in Hadm. by rewrite Hadm. }
  rewrite Hfd. rewrite (bind_run _ _ _ _ _ (load_run _ _ _ Hobj)).
  assert (Hst : FSAL_IS_ERROR
                  match state with
                  | Some _ => fsalstat ERR_FSAL_NO_ERROR 0
                  | None => check_share_conflict (share (mh_file o))
                              FSAL_O_WRITE bypass
                  end = false).
  { destruct state; [done | exact Hadm]. }
  rewrite Hst.
  destruct (write_data_total o offset buffer) as [d Hd]; [lia..|done|].
  rewrite Hd. rewrite u64_small by lia.
  destruct (Z.ltb_spec (file_length (mh_file o))
              (offset + Z.of_nat (length buffer))) as [Hext|Hext].
  - rewrite (bind_run _ _ _ _ _ (modify_run _ _ _ _ Hobj)).
    erewrite bind_run; [|apply modify_run; simpl; apply lookup_insert_eq].
    eexists _, _. split; [reflexivity|]. simpl.
    rewrite lookup_insert_eq. split; [reflexivity|]. simpl.
    repeat split; try done. lia.
  - rewrite bind_ret.
    rewrite (bind_run _ _ _ _ _ (modify_run _ _ _ _ Hobj)).
    eexists _, _. split; [reflexivity|]. simpl.
    rewrite lookup_insert_eq. split; [reflexivity|]. simpl.
    repeat split; try done. lia.
Qed.

(** What [mem_read2] returns. A read on a regular file returns the
    requested size clamped at [logical length - offset] (zero at or past
    the end); the bytes of the clamped range below the data capacity come
    from the backing buffer and the others are the filler byte. The
    end-of-file flag is computed as [buffer_size == 0] after the clamp, so
    it is set only when the clamped size is zero, although the comment of
    the function describes it as true if the end of file has been
    reached. *)
Theorem mem_read2_clamps_and_fills s obj o bypass state offset size :
  heap s !! obj = Some o →
  0 ≤ offset → 0 ≤ size → offset + size < 2 ^ 64 →
  0 ≤ file_length (mh_file o) →
  data_ok o →
  read_admitted o bypass state →
  ∃ r s',
    mem_read2 op_ctx obj bypass state offset size false s
    = Some ((fsalstat ERR_FSAL_NO_ERROR 0, Some r), s') ∧
    read_amount r = Z.max 0 (Z.min size (file_length (mh_file o) - offset)) ∧
    end_of_file r = (read_amount r =? 0) ∧
    Z.of_nat (length (rd_bytes r)) = read_amount r ∧
    ∀ i : nat, Z.of_nat i < read_amount r →
      rd_bytes r !! i = if offset + Z.of_nat i <? datasize o
                        then data o !! Z.to_nat (offset + Z.of_nat i)
                        else Some filler.
Proof.
  intros. destruct (mem_read2_run s obj o bypass state offset size)
    as (r & Hr); eauto.
Qed.

(** C7 (as amended). A write reports the full byte count, stores only the
    part that falls inside the data capacity (nothing when the offset is at
    or beyond it), and leaves the logical length at the larger of the old
    length and [offset + len]; the file size attribute becomes
    [offset + len] when the file grows and is left as it was otherwise.
    Reading the full logical range afterwards gives the stored bytes below
    the capacity and the filler byte from the capacity on. *)
Theorem mem_write2_then_read_full s obj o bypass state offset buffer :
  heap s !! obj = Some o →
  0 ≤ offset → offset + Z.of_nat (length buffer) < 2 ^ 64 →
  0 ≤ file_length (mh_file o) < 2 ^ 64 →
  data_ok o →
  write_admitted o bypass state →
  read_admitted o bypass state →
  ∃ s1 o1 r s2,
    mem_write2 op_ctx obj bypass state offset buffer false s
    = Some ((fsalstat ERR_FSAL_NO_ERROR 0,
             Some (Z.of_nat (length buffer))), s1) ∧
    heap s1 !! obj = Some o1 ∧
    file_length (mh_file o1)
    = Z.max (file_length (mh_file o)) (offset + Z.of_nat (length buffer)) ∧
    filesize (attrs o1)
    = (if file_length (mh_file o) <? offset + Z.of_nat (length buffer)
       then offset + Z.of_nat (length buffer) else filesize (attrs o)) ∧
    (datasize o ≤ offset → data o1 = data o) ∧
    (∀ i : nat,
       data o1 !! i = if (offset <=? Z.of_nat i)
                         && (Z.of_nat i <? offset + Z.of_nat (length buffer))
                         && (Z.of_nat i <? datasize o)
                      then buffer !! Z.to_nat (Z.of_nat i - offset)
                      else data o !! i) ∧
    mem_read2 op_ctx obj bypass state 0 (file_length (mh_file o1)) false s1
    = Some ((fsalstat ERR_FSAL_NO_ERROR 0, Some r), s2) ∧
    read_amount r = file_length (mh_file o1) ∧
    ∀ i : nat, Z.of_nat i < file_length (mh_file o1) →
      rd_bytes r !! i = if Z.of_nat i <? datasize o
                        then data o1 !! i else Some filler.
Proof.
  intros Hobj Hoff Hsum Hlen Hdata Hw [Hr1 Hr2].
  destruct (mem_write2_run s obj o bypass state offset buffer)
    as (s1 & o1 & Hrun & Ho1 & Hl1 & Hfs & Hds & Hsh & Hwd); try done; [lia|].
  destruct Hdata as [Hd1 Hd2].
  destruct (write_data_bytes o offset buffer (data o1))
    as (Hdl & Hbeyond & Hbytes); try done; [lia|].
  destruct (mem_read2_run s1 obj o1 bypass state 0 (file_length (mh_file o1)))
    as (r & Hrd & Hamt & _ & _ & Hrb); try done; try lia.
  { split; [lia | congruence]. }
  { split; [done | by rewrite Hsh]. }
  exists s1, o1, r. eexists. split; [done|]. split; [done|].
  split; [done|]. split; [exact Hfs|].
  split; [done|]. split; [done|]. split; [exact Hrd|].
  assert (Hfull : read_amount r = file_length (mh_file o1)) by lia.
  split; [done|]. intros i Hi. rewrite Hrb by lia. rewrite Hds.
  replace (0 + Z.of_nat i) with (Z.of_nat i) by lia.
  by rewrite Nat2Z.id.
Qed.

(** C10. With a caller-supplied state whose descriptor is not open for
    the access, a read or a write returns [ERR_FSAL_NOT_OPENED], an error
    that is not in the specification's error surface, and touches nothing;
    a descriptor open for the access lets the call through. Without a
    state, the only test is the share reservation check, whatever the
    flags of the global descriptor are. *)
Theorem io_with_state_requires_open_mode s obj o bypass offset size buffer :
  heap s !! obj = Some o →
  0 ≤ offset → 0 ≤ size → offset + size < 2 ^ 64 →
  offset + Z.of_nat (length buffer) < 2 ^ 64 →
  0 ≤ file_length (mh_file o) →
  data_ok o →
  (∀ my_fd,
     (open_correct (openflags my_fd) FSAL_O_READ = false →
      mem_read2 op_ctx obj bypass (Some my_fd) offset size false s
      = Some ((fsalstat ERR_FSAL_NOT_OPENED 0, None), s)) ∧
     (open_correct (openflags my_fd) FSAL_O_WRITE = false →
      mem_write2 op_ctx obj bypass (Some my_fd) offset buffer false s
      = Some ((fsalstat ERR_FSAL_NOT_OPENED 0, None), s)) ∧
     (open_correct (openflags my_fd) FSAL_O_READ = true →
      FSAL_IS_ERROR (check_share_conflict (share (mh_file o)) FSAL_O_READ
                       bypass) = false →
      ∃ r s', mem_read2 op_ctx obj bypass (Some my_fd) offset size false s
              = Some ((fsalstat ERR_FSAL_NO_ERROR 0, Some r), s')) ∧
     (open_correct (openflags my_fd) FSAL_O_WRITE = true →
      ∃ s', mem_write2 op_ctx obj bypass (Some my_fd) offset buffer false s
            = Some ((fsalstat ERR_FSAL_NO_ERROR 0,
                     Some (Z.of_nat (length buffer))), s'))) ∧
  (ERR_FSAL_NOT_OPENED ∉ spec_error_surface) ∧
  (let st := check_share_conflict (share (mh_file o)) FSAL_O_READ bypass in
   if FSAL_IS_ERROR st
   then mem_read2 op_ctx obj bypass None offset size false s
        = Some ((st, None), s)
   else ∃ r s', mem_read2 op_ctx obj bypass None offset size false s
                = Some ((fsalstat ERR_FSAL_NO_ERROR 0, Some r), s')) ∧
  (let st := check_share_conflict (share (mh_file o)) FSAL_O_WRITE bypass in
   if FSAL_IS_ERROR st
   then mem_write2 op_ctx obj bypass None offset buffer false s
        = Some ((st, None), s)
   else ∃ s', mem_write2 op_ctx obj bypass None offset buffer false s
              = Some ((fsalstat ERR_FSAL_NO_ERROR 0,
                       Some (Z.of_nat (length buffer))), s')).
Proof.
  intros Hobj Hoff Hsz Hsum Hsumw Hlen Hdata. split; [|split; [|split]].
  - intros my_fd. split; [|split; [|split]].
    + intros Hc. unfold mem_read2. by rewrite Hc.
    + intros Hc. unfold mem_write2. by rewrite Hc.
    + intros Hc Hsh.
      destruct (mem_read2_run s obj o bypass (Some my_fd) offset size)
        as (r & Hr & _); try done.
      { split; [by intros ? [= <-] | done]. }
      eauto.
    + intros Hc.
      destruct (mem_write2_run s obj o bypass (Some my_fd) offset buffer)
        as (s1 & o1 & Hr & _); try done. eauto.
  - unfold spec_error_surface. rewrite !not_elem_of_cons.
    repeat split; try discriminate. apply not_elem_of_nil.
  - simpl. destruct (FSAL_IS_ERROR _) eqn:Herr.
    + unfold mem_read2. rewrite (bind_run _ _ _ _ _ (load_run _ _ _ Hobj)).
      by rewrite Herr.
    + destruct (mem_read2_run s obj o bypass None offset size)
        as (r & Hr & _); try done; eauto.
  - simpl. destruct (FSAL_IS_ERROR _) eqn:Herr.
    + unfold mem_write2. rewrite (bind_run _ _ _ _ _ (load_run _ _ _ Hobj)).
      by rewrite Herr.
    + destruct (mem_write2_run s obj o bypass None offset buffer)
        as (s1 & o1 & Hr & _); try done. eauto.
Qed.
End read_write.

(** ** The trees *)

Section avltree_facts.
Context {K : Type} (cmpf : K → K → comparison).
Implicit Types (t : list (K * ptr)) (k : K) (p q : ptr).

Lemma avltree_remove_elem p t k q :
  (k, q) ∈ avltree_remove p t ↔ (k, q) ∈ t ∧ q ≠ p.
Proof.
  induction t as [|[k' p'] t IH]; simpl.
  - split; [intros H; inversion H | intros [H _]; inversion H].
  - case_bool_decide as Hp.
    + rewrite IH, elem_of_cons. split.
      * intros [H1 H2]. auto.
      * intros [[H|H] Hne]; [|auto]. inversion H; subst. done.
    + rewrite !elem_of_cons, IH. split.
      * intros [H|[H1 H2]]; [|auto]. inversion H; subst. auto.
      * intros [[H|H] Hne]; auto.
Qed.


Lemma avltree_remove_id p t : p ∉ t.*2 → avltree_remove p t = t.
Proof.
  induction t as [|[k' p'] t IH]; simpl; [done|].
  rewrite not_elem_of_cons. intros [H1 H2].
  case_bool_decide; [by subst|]. by rewrite IH.
Qed.

Lemma avltree_insert_elem k p t k' q :
  (k', q) ∈ avltree_insert cmpf k p t → (k', q) = (k, p) ∨ (k', q) ∈ t.
Proof.
  induction t as [|[k0 p0] t IH]; simpl.
  - rewrite list_elem_of_singleton. auto.
  - destruct (cmpf k k0); rewrite ?elem_of_cons; [auto | tauto |].
    intros [H|H]; [auto|]. destruct (IH H); auto.
Qed.

Lemma avltree_insert_keeps k p t e : e ∈ t → e ∈ avltree_insert cmpf k p t.
Proof.
  induction t as [|[k0 p0] t IH]; simpl; [intros H; inversion H|].
  destruct (cmpf k k0); rewrite ?elem_of_cons; tauto.
Qed.

Lemma avltree_lookup_elem k t q :
  avltree_lookup cmpf k t = Some q → ∃ k', (k', q) ∈ t ∧ cmpf k k' = Eq.
Proof.
  induction t as [|[k0 p0] t IH]; simpl; [done|].
  destruct (cmpf k k0) eqn:Hc.
  - intros [= ->]. exists k0. split; [left | done].
  - intros H. destruct (IH H) as (k' & ? & ?). exists k'. split; [by right|done].
  - intros H. destruct (IH H) as (k' & ? & ?). exists k'. split; [by right|done].
Qed.

Lemma avltree_lookup_None k t :
  avltree_lookup cmpf k t = None ↔ ∀ k' q, (k', q) ∈ t → cmpf k k' ≠ Eq.
Proof.
  induction t as [|[k0 p0] t IH]; simpl.
  - split; [intros _ ? ? H; inversion H | done].
  - destruct (cmpf k k0) eqn:Hc.
    + split; [done|]. intros H. destruct (H k0 p0); [left | done].
    + rewrite IH. split.
      * intros H k' q. rewrite elem_of_cons. intros [Heq|?]; [|eauto].
        inversion Heq; subst. congruence.
      * intros H k' q Hin. apply (H k' q). by right.
    + rewrite IH. split.
      * intros H k' q. rewrite elem_of_cons. intros [Heq|?]; [|eauto].
        inversion Heq; subst. congruence.
      * intros H k' q Hin. apply (H k' q). by right.
Qed.

(** Looking up a key that has just been inserted and was not there. *)
Lemma avltree_lookup_insert k p t :
  cmpf k k = Eq →
  avltree_lookup cmpf k t = None →
  avltree_lookup cmpf k (avltree_insert cmpf k p t) = Some p.
Proof.
  intros Hrefl. induction t as [|[k0 p0] t IH]; simpl.
  - by rewrite Hrefl.
  - destruct (cmpf k k0) eqn:Hc; [done| |]; simpl.
    + by rewrite Hrefl.
    + rewrite Hc. exact IH.
Qed.

Lemma avltree_lookup_remove_None k p t :
  avltree_lookup cmpf k t = None →
  avltree_lookup cmpf k (avltree_remove p t) = None.
Proof.
  rewrite !avltree_lookup_None. intros H k' q Hin.
  apply avltree_remove_elem in Hin as [Hin _]. eauto.
Qed.
End avltree_facts.

(** ** Insertion into and removal from a directory *)

Ltac heap_lookup :=
  simpl;
  repeat first
    [ rewrite lookup_insert_eq
    | rewrite lookup_insert_ne by congruence ];
  first [ eassumption | reflexivity ].

Tactic Notation "run_load" constr(H) :=
  rewrite (bind_run _ _ _ _ _ (load_run _ _ _ H)).
Tactic Notation "run_load" constr(H) "in" hyp(Hr) :=
  rewrite (bind_run _ _ _ _ _ (load_run _ _ _ H)) in Hr.
Ltac run_modify := erewrite bind_run by (apply modify_run; heap_lookup).

Lemma store_eq_heap s h h' : h = h' → set_heap h s = set_heap h' s.
Proof. by intros ->. Qed.

Lemma mem_remove_obj_locked_release rel s parent child p c b :
  heap s !! parent = Some p → heap s !! child = Some c → inavl c = true →
  mem_remove_obj_locked rel parent child b s
  = (if b then rel child else mret tt)
      (set_heap (heap_removed parent child p c (heap s)) s).
Proof.
  intros Hp Hc Hin. unfold mem_remove_obj_locked.
  run_load Hc. rewrite Hin. change (negb true) with false. cbv iota.
  assert (Hs : ∀ h, h = heap_removed parent child p c (heap s) →
            (if b then rel child else mret ()) (set_heap h s)
            = (if b then rel child else mret ())
                (set_heap (heap_removed parent child p c (heap s)) s))
    by (by intros h ->).
  unfold heap_removed in *. destruct (decide (parent = child)) as [->|Hne].
  - assert (p = c) as -> by congruence.
    do 3 run_modify.
    erewrite bind_run by (apply modify_run; heap_lookup).
    simpl. apply Hs. by rewrite !insert_insert_eq.
  - do 3 run_modify.
    erewrite bind_run by (apply modify_run; heap_lookup).
    simpl. apply Hs.
    apply map_eq. intros i. rewrite !lookup_insert.
    repeat case_decide; subst; try done.
Qed.

Lemma mem_remove_obj_locked_run rel s parent child p c :
  heap s !! parent = Some p → heap s !! child = Some c → inavl c = true →
  mem_remove_obj_locked rel parent child false s
  = Some (tt, set_heap (heap_removed parent child p c (heap s)) s).
Proof. apply mem_remove_obj_locked_release. Qed.

Lemma mem_remove_obj_locked_skip rel s parent child c b :
  heap s !! child = Some c → inavl c = false →
  mem_remove_obj_locked rel parent child b s = Some (tt, s).
Proof.
  intros Hc Hin. unfold mem_remove_obj_locked. run_load Hc. by rewrite Hin.
Qed.

Lemma mem_insert_obj_run s parent child p c :
  heap s !! parent = Some p → heap s !! child = Some c → inavl c = false →
  mem_insert_obj parent child s
  = Some (tt, set_heap (heap_inserted parent child p c (heap s)) s).
Proof.
  intros Hp Hc Hin. unfold mem_insert_obj.
  run_load Hc. rewrite Hin.
  unfold heap_inserted. destruct (decide (parent = child)) as [->|Hne].
  - assert (p = c) as -> by congruence.
    run_modify. erewrite bind_run by (apply load_run; heap_lookup).
    do 2 run_modify. erewrite bind_run by (apply load_run; heap_lookup).
    do 2 run_modify.
    erewrite modify_run by heap_lookup.
    simpl. do 2 f_equal. unfold set_heap. simpl. f_equal.
    by rewrite !insert_insert_eq.
  - run_modify. erewrite bind_run by (apply load_run; heap_lookup).
    do 2 run_modify. erewrite bind_run by (apply load_run; heap_lookup).
    do 2 run_modify.
    erewrite modify_run by heap_lookup.
    simpl. do 2 f_equal. unfold set_heap. simpl. f_equal.
    apply map_eq. intros i. rewrite !lookup_insert.
    repeat case_decide; subst; try done.
Qed.

(** ** Unlink *)

Lemma mem_unlink_removes s dir_hdl obj_hdl name d o :
  heap s !! dir_hdl = Some d →
  heap s !! obj_hdl = Some o →
  ¬ (obj_type o = DIRECTORY ∧ 2 < dir_numlinks (mh_dir o)) →
  ¬ (obj_type o = REGULAR_FILE ∧ openflags (fd (mh_file o)) ≠ FSAL_O_CLOSED) →
  mem_unlink dir_hdl obj_hdl name s
  = Some (fsalstat ERR_FSAL_NO_ERROR 0,
          if inavl o
          then set_heap (heap_removed dir_hdl obj_hdl d o (heap s)) s
          else s).
Proof.
  intros Hd Ho Hdir Hfile. unfold mem_unlink. run_load Hd. run_load Ho.
  assert (Hrm :
    (mem_remove_obj_locked (λ _, mret ()) dir_hdl obj_hdl false
       ≫= λ _, mret (fsalstat ERR_FSAL_NO_ERROR 0)) s
    = Some (fsalstat ERR_FSAL_NO_ERROR 0,
            if inavl o
            then set_heap (heap_removed dir_hdl obj_hdl d o (heap s)) s
            else s)).
  { destruct (inavl o) eqn:Hin.
    - by rewrite (bind_run _ _ _ _ _
                    (mem_remove_obj_locked_run _ _ _ _ _ _ Hd Ho Hin)).
    - by rewrite (bind_run _ _ _ _ _
                    (mem_remove_obj_locked_skip _ _ _ _ _ _ Ho Hin)). }
  destruct (obj_type o) eqn:Ht; try exact Hrm.
  - destruct (Z.eqb_spec (openflags (fd (mh_file o))) FSAL_O_CLOSED) as [Hc|Hc];
      [exact Hrm | tauto].
  - destruct (Z.ltb_spec 2 (dir_numlinks (mh_dir o))); [tauto | exact Hrm].
Qed.


(** ** Directory iteration *)

Lemma listing_cons h attrmask w k c nodes o :
  h !! c = Some o →
  listing h attrmask w ((k, c) :: nodes)
  = (if index o <? w then []
     else [{| d_name := m_name o; d_obj := c;
              d_attrs := fsal_copy_attrs (fsal_prepare_attrs attrmask) (attrs o);
              d_cookie := u32 (index o + 1) |}])
    ++ listing h attrmask w nodes.
Proof.
  intros Ho. unfold listing. simpl. rewrite Ho. simpl.
  by destruct (index o <? w).
Qed.

Lemma mem_readdir_loop_feed {S : Type}
    (cb : string → ptr → attrlist → S → Z → S * fsal_dir_result)
    attrmask seekloc nodes st s :
  (∀ n, n ∈ nodes → is_Some (heap s !! n.2)) →
  mem_readdir_loop cb attrmask seekloc nodes st s
  = Some (feed cb (listing (heap s) attrmask seekloc nodes) st, s).
Proof.
  revert st. induction nodes as [|[k c] nodes IH]; intros st Hall; [done|].
  destruct (Hall (k, c)) as [o Ho]; [left|]. simpl in Ho.
  rewrite (listing_cons _ _ _ _ _ _ _ Ho). cbn [mem_readdir_loop].
  run_load Ho. destruct (index o <? seekloc).
  - apply IH. intros n Hn. apply Hall. by right.
  - simpl. destruct (_ <=? _); [done|].
    apply IH. intros n Hn. apply Hall. by right.
Qed.

Lemma mem_readdir_feed {S : Type}
    (cb : string → ptr → attrlist → S → Z → S * fsal_dir_result)
    attrmask whence st s dir_hdl d :
  heap s !! dir_hdl = Some d →
  (∀ n, n ∈ avl_index (mh_dir d) → is_Some (heap s !! n.2)) →
  mem_readdir dir_hdl whence st cb attrmask s
  = let r := feed cb (listing (heap s) attrmask (default 2 whence)
                        (avl_index (mh_dir d))) st in
    Some ((fsalstat ERR_FSAL_NO_ERROR 0, r.1, r.2), s).
Proof.
  intros Hd Hall. unfold mem_readdir. run_load Hd.
  by rewrite (bind_run _ _ _ _ _ (mem_readdir_loop_feed _ _ _ _ _ _ Hall)).
Qed.

Lemma listing_elem h attrmask w nodes e :
  e ∈ listing h attrmask w nodes ↔
  ∃ k o, (k, d_obj e) ∈ nodes ∧ h !! d_obj e = Some o ∧ w ≤ index o ∧
         e = {| d_name := m_name o; d_obj := d_obj e;
                d_attrs := fsal_copy_attrs (fsal_prepare_attrs attrmask)
                             (attrs o);
                d_cookie := u32 (index o + 1) |}.
Proof.
  unfold listing. rewrite list_elem_of_omap. split.
  - intros ([k c] & Hin & Hsome). simpl in Hsome.
    destruct (h !! c) as [o|] eqn:Ho; [|done]. simpl in Hsome.
    destruct (Z.ltb_spec (index o) w); [done|].
    inversion Hsome; subst; simpl. exists k, o. done.
  - intros (k & o & Hin & Ho & Hw & He). exists (k, d_obj e). split; [done|].
    simpl. rewrite Ho. simpl.
    destruct (Z.ltb_spec (index o) w); [lia|]. by rewrite He.
Qed.

(** When every key is at or above both cookies, they list the same. *)
Lemma listing_above h attrmask w w' nodes :
  (∀ k c, (k, c) ∈ nodes → ∃ o, h !! c = Some o ∧ index o = k) →
  (∀ k c, (k, c) ∈ nodes → w ≤ k ∧ w' ≤ k) →
  listing h attrmask w nodes = listing h attrmask w' nodes.
Proof.
  induction nodes as [|[k c] nodes IH]; intros Hobj Hk; [done|].
  destruct (Hobj k c) as (o & Ho & Hi); [left|].
  destruct (Hk k c) as [H1 H2]; [left|].
  rewrite !(listing_cons _ _ _ _ _ _ _ Ho).
  destruct (Z.ltb_spec (index o) w); [lia|].
  destruct (Z.ltb_spec (index o) w'); [lia|].
  simpl. f_equal. apply IH.
  - intros k' c' Hin. apply Hobj. by right.
  - intros k' c' Hin. apply (Hk k' c'). by right.
Qed.

Lemma u32_small z : 0 ≤ z < 2 ^ 32 → u32 z = z.
Proof. intros. unfold u32, wrap. by apply Z.mod_small. Qed.

(** Resuming from the cookie of an entry lists the entries after it. *)
Lemma listing_resume h attrmask nodes w pre e rest :
  StronglySorted (λ a b : Z * ptr, a.1 < b.1) nodes →
  (∀ k c, (k, c) ∈ nodes →
     0 ≤ k ∧ k + 1 < 2 ^ 32 ∧ ∃ o, h !! c = Some o ∧ index o = k) →
  listing h attrmask w nodes = pre ++ e :: rest →
  listing h attrmask (d_cookie e) nodes = rest.
Proof.
  revert pre. induction nodes as [|[k c] nodes IH]; intros pre Hs Hobj Hl.
  { by destruct pre. }
  apply StronglySorted_inv in Hs as [Hs Hhd].
  destruct (Hobj k c) as (Hk0 & Hk1 & o & Ho & Hi); [left|].
  assert (Hobj' : ∀ k' c', (k', c') ∈ nodes →
            0 ≤ k' ∧ k' + 1 < 2 ^ 32 ∧ ∃ o, h !! c' = Some o ∧ index o = k').
  { intros k' c' Hin. apply Hobj. by right. }
  assert (Hlater : ∀ e', e' ∈ listing h attrmask w nodes → k < d_cookie e').
  { intros e' He'. apply listing_elem in He' as (k' & o' & Hin & Ho' & _ & ->).
    simpl. destruct (Hobj' _ _ Hin) as (? & ? & o'' & Ho'' & Hi'').
    assert (o'' = o') as -> by congruence.
    rewrite Forall_forall in Hhd. specialize (Hhd _ Hin). simpl in Hhd.
    rewrite u32_small by lia. lia. }
  rewrite (listing_cons _ _ _ _ _ _ _ Ho) in Hl.
  rewrite (listing_cons _ _ _ _ _ _ _ Ho).
  destruct (Z.ltb_spec (index o) w) as [Hlt|Hge].
  - simpl in Hl.
    assert (He : e ∈ listing h attrmask w nodes).
    { rewrite Hl. apply elem_of_app. right. left. }
    specialize (Hlater _ He).
    destruct (Z.ltb_spec (index o) (d_cookie e)); [|lia].
    by apply (IH pre).
  - simpl in Hl. destruct pre as [|e0 pre]; simpl in Hl.
    + inversion Hl as [[He Hrest]]. simpl.
      rewrite u32_small by lia.
      destruct (Z.ltb_spec (index o) (index o + 1)); [|lia].
      apply listing_above.
      * intros k' c' Hin. destruct (Hobj' _ _ Hin) as (_ & _ & Hx). exact Hx.
      * intros k' c' Hin. rewrite Forall_forall in Hhd.
        specialize (Hhd _ Hin). simpl in Hhd. lia.
    + inversion Hl as [[He0 Hrest]].
      assert (He : e ∈ listing h attrmask w nodes).
      { rewrite Hrest. apply elem_of_app. right. left. }
      specialize (Hlater _ He).
      destruct (Z.ltb_spec (index o) (d_cookie e)); [|lia].
      by apply (IH pre).
Qed.

(** An object other than the one taken out keeps its name, index,
    attributes and indexed flag. *)
Lemma heap_removed_other_obj h dir x p ox q o :
  h !! dir = Some p → h !! x = Some ox → h !! q = Some o → q ≠ x →
  ∃ o', heap_removed dir x p ox h !! q = Some o' ∧
        m_name o' = m_name o ∧ index o' = index o ∧ attrs o' = attrs o ∧
        inavl o' = inavl o ∧ next_i o' = next_i o.
Proof.
  intros Hp Hx Hq Hne. unfold heap_removed.
  destruct (decide (q = dir)) as [->|Hqd].
  - rewrite lookup_insert_eq. eexists; split; [reflexivity|].
    assert (o = p) as -> by congruence.
    destruct (decide (dir = x)); [by subst|]. by repeat split.
  - rewrite !lookup_insert_ne by done. exists o. by repeat split.
Qed.

Lemma heap_inserted_other_obj h dir x p c q o :
  h !! dir = Some p → h !! x = Some c → h !! q = Some o → q ≠ x →
  ∃ o', heap_inserted dir x p c h !! q = Some o' ∧
        m_name o' = m_name o ∧ index o' = index o ∧ attrs o' = attrs o ∧
        inavl o' = inavl o.
Proof.
  intros Hp Hx Hq Hne. unfold heap_inserted.
  destruct (decide (q = dir)) as [->|Hqd].
  - rewrite lookup_insert_eq. eexists; split; [reflexivity|].
    assert (o = p) as -> by congruence.
    destruct (decide (dir = x)); [by subst|]. by repeat split.
  - rewrite !lookup_insert_ne by done. exists o. by repeat split.
Qed.

Lemma heap_inserted_child h dir x p c :
  ∃ c', heap_inserted dir x p c h !! x = Some c' ∧
        index c' = next_i p ∧ inavl c' = true ∧ m_name c' = m_name c ∧
        handle c' = handle c ∧ obj_fileid c' = obj_fileid c ∧
        attrs c' = attrs c.
Proof.
  unfold heap_inserted. destruct (decide (dir = x)) as [->|Hne].
  - rewrite lookup_insert_eq. eexists; split; [reflexivity|].
    by repeat split.
  - rewrite lookup_insert_ne, lookup_insert_eq by done.
    eexists; split; [reflexivity|]. by repeat split.
Qed.

(** Removing an entry below the cookie does not change what a resumed
    iteration lists. *)
Lemma listing_removed h dir x p ox attrmask w nodes :
  h !! dir = Some p → h !! x = Some ox → index ox < w →
  (∀ n, n ∈ nodes → is_Some (h !! n.2)) →
  listing (heap_removed dir x p ox h) attrmask w (avltree_remove x nodes)
  = listing h attrmask w nodes.
Proof.
  intros Hp Hx Hw. induction nodes as [|[k c] nodes IH]; intros Hall; [done|].
  destruct (Hall (k, c)) as [o Ho]; [left|]. simpl in Ho.
  assert (IH' := IH (λ n Hn, Hall n (list_elem_of_further _ _ _ Hn))).
  cbn [avltree_remove]. rewrite (listing_cons _ _ _ _ _ _ _ Ho).
  case_bool_decide as Hc.
  - subst c. assert (o = ox) as -> by congruence.
    destruct (Z.ltb_spec (index ox) w); [|lia]. exact IH'.
  - destruct (heap_removed_other_obj h dir x p ox c o)
      as (o' & Ho' & Hn & Hi & Ha & _); try done.
    rewrite (listing_cons _ _ _ _ _ _ _ Ho'). rewrite Hn, Hi, Ha.
    by rewrite IH'.
Qed.

Lemma avltree_remove_sorted {K} (R : K * ptr → K * ptr → Prop) x
    (t : list (K * ptr)) :
  StronglySorted R t → StronglySorted R (avltree_remove x t).
Proof.
  induction 1 as [|[k c] t Hs IH Hhd]; simpl; [constructor|].
  case_bool_decide; [done|]. constructor; [done|].
  rewrite Forall_forall in Hhd |- *. intros [k' c'] Hin.
  apply avltree_remove_elem in Hin as [Hin _]. by apply Hhd.
Qed.

Lemma avltree_insert_last k c (t : list (Z * ptr)) :
  Forall (λ a, a.1 < k) t →
  avltree_insert mem_i_cmpf k c t = t ++ [(k, c)].
Proof.
  induction 1 as [|[k' c'] t Hlt Hall IH]; simpl; [done|].
  simpl in Hlt. unfold mem_i_cmpf at 1.
  destruct (Z.ltb_spec k k'); [lia|]. destruct (Z.eqb_spec k k'); [lia|].
  by rewrite IH.
Qed.

Lemma sorted_snoc k c (t : list (Z * ptr)) :
  StronglySorted (λ a b : Z * ptr, a.1 < b.1) t →
  Forall (λ a, a.1 < k) t →
  StronglySorted (λ a b : Z * ptr, a.1 < b.1) (t ++ [(k, c)]).
Proof.
  induction 1 as [|a t Hs IH Hhd]; intros Hall; simpl.
  - repeat constructor.
  - apply Forall_cons in Hall as [Ha Hall]. constructor; [by apply IH|].
    apply Forall_app. split; [done|]. by constructor.
Qed.

Lemma dir_index_ok_removed h dir x p ox :
  h !! dir = Some p → h !! x = Some ox → dir_index_ok h p →
  dir_index_ok (heap_removed dir x p ox h)
    (dir_removed x (if decide (dir = x) then set_inavl false ox else p)).
Proof.
  intros Hp Hx (Hn & Hs & Hobj).
  assert (Hp' : ∀ q : mem_fsal_obj_handle,
            (if decide (dir = x) then set_inavl false ox else p) = q →
            next_i q = next_i p ∧ avl_index (mh_dir q) = avl_index (mh_dir p)).
  { intros q <-. destruct (decide (dir = x)); [|done]. subst.
    assert (p = ox) as -> by congruence. done. }
  destruct (Hp' _ eq_refl) as [Hni Hai].
  split; [|split]; simpl.
  - by rewrite Hni.
  - rewrite Hai. by apply avltree_remove_sorted.
  - intros k c Hin. rewrite Hai in Hin.
    apply avltree_remove_elem in Hin as [Hin Hne].
    destruct (Hobj k c Hin) as (Hk & o & Ho & Hi & Hv).
    rewrite Hni. split; [done|].
    destruct (heap_removed_other_obj h dir x p ox c o)
      as (o' & Ho' & _ & Hi' & _ & Hv' & _); try done.
    exists o'. split; [done|]. split; congruence.
Qed.

Lemma dir_index_ok_inserted h dir x p c :
  h !! dir = Some p → h !! x = Some c → inavl c = false →
  next_i p + 1 < 2 ^ 32 → dir_index_ok h p →
  dir_index_ok (heap_inserted dir x p c h)
    (dir_inserted x (m_name c)
       (if decide (dir = x) then set_inavl true (set_index (next_i p) c)
        else p)).
Proof.
  intros Hp Hx Hc Hni (Hn & Hs & Hobj).
  assert (Hp' : ∀ q : mem_fsal_obj_handle,
            (if decide (dir = x) then set_inavl true (set_index (next_i p) c)
             else p) = q →
            next_i q = next_i p ∧ avl_index (mh_dir q) = avl_index (mh_dir p)).
  { intros q <-. destruct (decide (dir = x)); [|done]. subst.
    assert (p = c) as -> by congruence. done. }
  destruct (Hp' _ eq_refl) as [Hq1 Hq2].
  assert (Hbelow : Forall (λ a : Z * ptr, a.1 < next_i p) (avl_index (mh_dir p))).
  { rewrite Forall_forall. intros [k q] Hin. simpl.
    destruct (Hobj k q Hin) as (Hk & _). lia. }
  split; [|split]; simpl; rewrite Hq1, ?Hq2.
  - rewrite u32_small by lia. lia.
  - rewrite avltree_insert_last by done. by apply sorted_snoc.
  - intros k q Hin. rewrite u32_small by lia.
    rewrite avltree_insert_last in Hin by done.
    apply elem_of_app in Hin as [Hin|Hin].
    + destruct (Hobj k q Hin) as (Hk & o & Ho & Hi & Hv).
      split; [lia|].
      assert (q ≠ x) by (intros ->; congruence).
      destruct (heap_inserted_other_obj h dir x p c q o)
        as (o' & Ho' & _ & Hi' & _ & Hv'); try done.
      exists o'. split; [done|]. split; congruence.
    + apply list_elem_of_singleton in Hin. inversion Hin; subst.
      split; [lia|].
      destruct (heap_inserted_child h dir x p c) as (c' & Hc' & Hi & Hv & _).
      exists c'. done.
Qed.

Lemma listing_sorted h attrmask w nodes :
  StronglySorted (λ a b : Z * ptr, a.1 < b.1) nodes →
  (∀ k c, (k, c) ∈ nodes →
     0 ≤ k ∧ k + 1 < 2 ^ 32 ∧ ∃ o, h !! c = Some o ∧ index o = k) →
  StronglySorted (λ a b, d_cookie a < d_cookie b) (listing h attrmask w nodes).
Proof.
  induction 1 as [|[k c] nodes Hs IH Hhd]; intros Hobj; [constructor|].
  destruct (Hobj k c) as (Hk0 & Hk1 & o & Ho & Hi); [left|].
  assert (Hobj' : ∀ k' c', (k', c') ∈ nodes →
            0 ≤ k' ∧ k' + 1 < 2 ^ 32 ∧ ∃ o, h !! c' = Some o ∧ index o = k').
  { intros k' c' Hin. apply Hobj. by right. }
  rewrite (listing_cons _ _ _ _ _ _ _ Ho).
  destruct (index o <? w); simpl; [by apply IH|].
  constructor; [by apply IH|]. rewrite Forall_forall. intros e He.
  apply listing_elem in He as (k' & o' & Hin & Ho' & _ & ->). simpl.
  destruct (Hobj' _ _ Hin) as (? & ? & o'' & Ho'' & Hi'').
  assert (o'' = o') as -> by congruence.
  rewrite Forall_forall in Hhd. specialize (Hhd _ Hin). simpl in Hhd.
  rewrite !u32_small by lia. lia.
Qed.

Lemma dir_index_ok_nodes h p :
  dir_index_ok h p →
  ∀ k c, (k, c) ∈ avl_index (mh_dir p) →
    0 ≤ k ∧ k + 1 < 2 ^ 32 ∧ ∃ o, h !! c = Some o ∧ index o = k.
Proof.
  intros (Hn & _ & Hobj) k c Hin.
  destruct (Hobj k c Hin) as (Hk & o & Ho & Hi & _).
  split; [lia|]. split; [lia|]. eauto.
Qed.

Lemma dir_index_ok_alloc h p n :
  dir_index_ok h p → n ∈ avl_index (mh_dir p) → is_Some (h !! n.2).
Proof.
  intros (_ & _ & Hobj) Hin. destruct n as [k c].
  destruct (Hobj k c Hin) as (_ & o & Ho & _). by exists o.
Qed.

(** What a successful [mem_insert_obj] and [mem_remove_obj] do to the
    counter of the parent. *)
Lemma mem_insert_obj_counter s parent child p s1 :
  heap s !! parent = Some p →
  mem_insert_obj parent child s = Some (tt, s1) →
  ∃ p1 c1, heap s1 !! parent = Some p1 ∧ next_i p1 = u32 (next_i p + 1) ∧
           heap s1 !! child = Some c1 ∧ index c1 = next_i p.
Proof.
  intros Hp Hrun.
  destruct (heap s !! child) as [c|] eqn:Hc.
  2:{ unfold mem_insert_obj, mbind, M_bind, load in Hrun.
      by rewrite Hc in Hrun. }
  destruct (inavl c) eqn:Hin.
  { unfold mem_insert_obj in Hrun. rewrite (bind_run _ _ _ _ _
      (load_run _ _ _ Hc)) in Hrun. by rewrite Hin in Hrun. }
  rewrite (mem_insert_obj_run _ _ _ _ _ Hp Hc Hin) in Hrun.
  inversion Hrun; subst; clear Hrun. simpl.
  destruct (heap_inserted_child (heap s) parent child p c)
    as (c' & Hc' & Hi & _).
  unfold heap_inserted in *. rewrite lookup_insert_eq.
  eexists _, c'. split; [reflexivity|]. simpl.
  split; [|done]. destruct (decide (parent = child)); [|done].
  subst. assert (p = c) as -> by congruence. done.
Qed.

Lemma mem_remove_obj_counter s parent child p s1 :
  heap s !! parent = Some p →
  mem_remove_obj parent child s = Some (tt, s1) →
  ∃ p1, heap s1 !! parent = Some p1 ∧ next_i p1 = next_i p.
Proof.
  intros Hp Hrun. unfold mem_remove_obj in Hrun.
  destruct (heap s !! child) as [c|] eqn:Hc.
  2:{ unfold mem_remove_obj_locked, mbind, M_bind, load in Hrun.
      by rewrite Hc in Hrun. }
  destruct (inavl c) eqn:Hin.
  - rewrite (mem_remove_obj_locked_run _ _ _ _ _ _ Hp Hc Hin) in Hrun.
    inversion Hrun; subst; clear Hrun. simpl. unfold heap_removed.
    rewrite lookup_insert_eq. eexists. split; [reflexivity|]. simpl.
    destruct (decide (parent = child)); [|done].
    subst. assert (p = c) as -> by congruence. done.
  - rewrite (mem_remove_obj_locked_skip _ _ _ _ _ _ Hc Hin) in Hrun.
    inversion Hrun; subst. eauto.
Qed.

(** The indices handed out by a run of insertions and removals on one
    directory are consecutive from the counter: they increase in insertion
    order and none is handed out twice, whatever was removed in between. *)
Lemma run_dir_ops_indices parent ops : ∀ s p idxs s1,
  heap s !! parent = Some p →
  0 ≤ next_i p → next_i p + Z.of_nat (length ops) < 2 ^ 32 →
  run_dir_ops parent ops s = Some (idxs, s1) →
  idxs = (λ i : nat, next_i p + Z.of_nat i) <$> seq 0 (length idxs) ∧
  (length idxs ≤ length ops)%nat ∧
  ∃ p1, heap s1 !! parent = Some p1 ∧
        next_i p1 = next_i p + Z.of_nat (length idxs).
Proof.
  induction ops as [|[child|child] ops IH]; intros s p idxs s1 Hp H0 Hb Hrun.
  - inversion Hrun; subst. simpl. split; [done|]. split; [done|].
    exists p. split; [done | lia].
  - simpl in Hrun, Hb.
    apply bind_inv in Hrun as ([] & s2 & Hins & Hrun).
    destruct (mem_insert_obj_counter _ _ _ _ _ Hp Hins)
      as (p1 & c1 & Hp1 & Hn1 & Hc1 & Hi1).
    rewrite u32_small in Hn1 by lia.
    rewrite (bind_run _ _ _ _ _ (load_run _ _ _ Hc1)) in Hrun.
    apply bind_inv in Hrun as (rest & s3 & Hrest & Hret).
    inversion Hret; subst; clear Hret.
    destruct (IH s2 p1 rest s1 Hp1) as (Hidx & Hlen & p2 & Hp2 & Hn2);
      [lia | lia | done |].
    split; [|split].
    + simpl. rewrite Hi1. f_equal; [lia|].
      rewrite Hidx at 1. rewrite <- fmap_S_seq, <- list_fmap_compose.
      apply list_fmap_ext. intros i x _. simpl. lia.
    + simpl. lia.
    + exists p2. split; [done|]. simpl length. lia.
  - simpl in Hrun, Hb.
    apply bind_inv in Hrun as ([] & s2 & Hrem & Hrun).
    destruct (mem_remove_obj_counter _ _ _ _ _ Hp Hrem) as (p1 & Hp1 & Hn1).
    destruct (IH s2 p1 idxs s1 Hp1) as (Hidx & Hlen & p2 & Hp2 & Hn2);
      [lia | lia | done |].
    rewrite Hn1 in Hidx, Hn2. split; [done|]. split; [simpl; lia|].
    exists p2. done.
Qed.

(** [mem_unlink] returning success took the object out, if it was
    indexed. *)
Lemma mem_unlink_success s dir_hdl obj_hdl name d o s1 :
  heap s !! dir_hdl = Some d →
  heap s !! obj_hdl = Some o →
  mem_unlink dir_hdl obj_hdl name s
  = Some (fsalstat ERR_FSAL_NO_ERROR 0, s1) →
  s1 = if inavl o
       then set_heap (heap_removed dir_hdl obj_hdl d o (heap s)) s
       else s.
Proof.
  intros Hd Ho Hrun.
  destruct (decide (obj_type o = DIRECTORY ∧ 2 < dir_numlinks (mh_dir o)))
    as [[Ht Hn]|Hdir].
  { exfalso. revert Hrun. unfold mem_unlink. run_load Hd. run_load Ho.
    rewrite Ht. destruct (Z.ltb_spec 2 (dir_numlinks (mh_dir o))); [|lia].
    discriminate. }
  destruct (decide (obj_type o = REGULAR_FILE
                    ∧ openflags (fd (mh_file o)) ≠ FSAL_O_CLOSED))
    as [[Ht Hn]|Hfile].
  { exfalso. revert Hrun. unfold mem_unlink. run_load Hd. run_load Ho.
    rewrite Ht.
    destruct (Z.eqb_spec (openflags (fd (mh_file o))) FSAL_O_CLOSED); [done|].
    discriminate. }
  rewrite (mem_unlink_removes s dir_hdl obj_hdl name d o) in Hrun by done.
  by inversion Hrun.
Qed.

(** C4 (as amended). In one parent directory whose index tree is in index
    order, with every index below the next-index counter and every node an
    indexed object (which insertion and removal keep so), and as long as
    the 32-bit counter does not wrap: [mem_insert_obj] gives the child the
    parent's next-index counter as index and then increments the counter;
    removal leaves the counter alone, so the indices handed out increase in
    insertion order and are never handed out again. [mem_readdir] from a
    cookie hands to the callback the children whose index is at or above
    the cookie, in index order, each with cookie [index + 1]. Resuming from
    the cookie of an entry, after an entry already listed was unlinked,
    lists the entries that remained to be listed. *)
Theorem directory_indices_and_cookies s dir_hdl p :
  heap s !! dir_hdl = Some p →
  dir_index_ok (heap s) p →
  (∀ child c,
     heap s !! child = Some c → inavl c = false → next_i p + 1 < 2 ^ 32 →
     ∃ s1 p1 c1,
       mem_insert_obj dir_hdl child s = Some (tt, s1) ∧
       heap s1 !! dir_hdl = Some p1 ∧ heap s1 !! child = Some c1 ∧
       index c1 = next_i p ∧ next_i p1 = next_i p + 1 ∧
       (∀ k q, (k, q) ∈ avl_index (mh_dir p) → k < index c1) ∧
       avl_index (mh_dir p1) = avl_index (mh_dir p) ++ [(index c1, child)] ∧
       dir_index_ok (heap s1) p1) ∧
  (∀ child s1,
     mem_remove_obj dir_hdl child s = Some (tt, s1) →
     ∃ p1, heap s1 !! dir_hdl = Some p1 ∧ next_i p1 = next_i p ∧
           dir_index_ok (heap s1) p1) ∧
  (∀ ops idxs s1,
     run_dir_ops dir_hdl ops s = Some (idxs, s1) →
     next_i p + Z.of_nat (length ops) < 2 ^ 32 →
     idxs = (λ i : nat, next_i p + Z.of_nat i) <$> seq 0 (length idxs)) ∧
  (∀ (S : Type) (cb : string → ptr → attrlist → S → Z → S * fsal_dir_result)
     attrmask whence (st : S),
     mem_readdir dir_hdl whence st cb attrmask s
     = let r := feed cb (listing (heap s) attrmask (default 2 whence)
                           (avl_index (mh_dir p))) st in
       Some ((fsalstat ERR_FSAL_NO_ERROR 0, r.1, r.2), s)) ∧
  (∀ attrmask w e,
     e ∈ listing (heap s) attrmask w (avl_index (mh_dir p)) ↔
     ∃ o, (index o, d_obj e) ∈ avl_index (mh_dir p) ∧
          heap s !! d_obj e = Some o ∧ w ≤ index o ∧
          e = {| d_name := m_name o; d_obj := d_obj e;
                 d_attrs := fsal_copy_attrs (fsal_prepare_attrs attrmask)
                              (attrs o);
                 d_cookie := index o + 1 |}) ∧
  (∀ attrmask w,
     StronglySorted (λ a b, d_cookie a < d_cookie b)
       (listing (heap s) attrmask w (avl_index (mh_dir p)))) ∧
  (∀ attrmask w pre e rest x name s1,
     listing (heap s) attrmask w (avl_index (mh_dir p)) = pre ++ e :: rest →
     x ∈ d_obj <$> (pre ++ [e]) →
     mem_unlink dir_hdl x name s = Some (fsalstat ERR_FSAL_NO_ERROR 0, s1) →
     listing (heap s) attrmask (d_cookie e) (avl_index (mh_dir p)) = rest ∧
     ∃ p1, heap s1 !! dir_hdl = Some p1 ∧
           listing (heap s1) attrmask (d_cookie e) (avl_index (mh_dir p1))
           = rest).
Proof.
  intros Hp Hok.
  pose proof (dir_index_ok_nodes _ _ Hok) as Hnodes.
  destruct Hok as (Hn & Hs & Hobj).
  assert (Hok : dir_index_ok (heap s) p) by done.
  split; [|split; [|split; [|split; [|split; [|split]]]]].
  - intros child c Hc Hin Hroom.
    rewrite (mem_insert_obj_run _ _ _ _ _ Hp Hc Hin).
    destruct (heap_inserted_child (heap s) dir_hdl child p c)
      as (c1 & Hc1 & Hi1 & _).
    pose proof (dir_index_ok_inserted _ _ _ _ _ Hp Hc Hin Hroom Hok) as Hok1.
    eexists _, _, c1. split; [reflexivity|]. simpl.
    split; [unfold heap_inserted; apply lookup_insert_eq|].
    split; [exact Hc1|]. split; [exact Hi1|].
    assert (Hq : ∀ q : mem_fsal_obj_handle,
              (if decide (dir_hdl = child)
               then set_inavl true (set_index (next_i p) c) else p) = q →
              next_i q = next_i p
              ∧ avl_index (mh_dir q) = avl_index (mh_dir p)).
    { intros q <-. destruct (decide (dir_hdl = child)); [|done]. subst.
      assert (p = c) as -> by congruence. done. }
    destruct (Hq _ eq_refl) as [Hq1 Hq2].
    assert (Hbelow : Forall (λ a : Z * ptr, a.1 < next_i p)
                       (avl_index (mh_dir p))).
    { rewrite Forall_forall. intros [k q] Hkq. simpl.
      destruct (Hobj k q Hkq) as (Hk & _). lia. }
    split; [simpl; rewrite Hq1; apply u32_small; lia|].
    split; [intros k q Hkq; rewrite Hi1; destruct (Hobj k q Hkq); lia|].
    split; [|exact Hok1].
    simpl. rewrite Hq1, Hq2, Hi1. by apply avltree_insert_last.
  - intros child s1 Hrun. unfold mem_remove_obj in Hrun.
    destruct (heap s !! child) as [c|] eqn:Hc.
    2:{ unfold mem_remove_obj_locked, mbind, M_bind, load in Hrun.
        by rewrite Hc in Hrun. }
    destruct (inavl c) eqn:Hin.
    + rewrite (mem_remove_obj_locked_run _ _ _ _ _ _ Hp Hc Hin) in Hrun.
      inversion Hrun; subst; clear Hrun. simpl.
      pose proof (dir_index_ok_removed _ _ _ _ _ Hp Hc Hok) as Hok1.
      eexists. split; [unfold heap_removed; apply lookup_insert_eq|].
      split; [|exact Hok1]. simpl.
      destruct (decide (dir_hdl = child)); [|done].
      subst. assert (p = c) as -> by congruence. done.
    + rewrite (mem_remove_obj_locked_skip _ _ _ _ _ _ Hc Hin) in Hrun.
      inversion Hrun; subst. eauto.
  - intros ops idxs s1 Hrun Hroom.
    by destruct (run_dir_ops_indices dir_hdl ops s p idxs s1) as [? _];
      [|lia|..].
  - intros S cb attrmask whence st.
    apply mem_readdir_feed; [done|]. intros n Hin.
    by apply (dir_index_ok_alloc _ p).
  - intros attrmask w e. rewrite listing_elem. split.
    + intros (k & o & Hin & Ho & Hw & He).
      destruct (Hnodes k _ Hin) as (Hk0 & Hk1 & o' & Ho' & Hi').
      assert (o' = o) as -> by congruence. exists o.
      rewrite u32_small in He by lia. subst k. by repeat split.
    + intros (o & Hin & Ho & Hw & He). exists (index o), o.
      destruct (Hnodes _ _ Hin) as (Hk0 & Hk1 & _).
      rewrite u32_small by lia. by repeat split.
  - intros attrmask w. by apply listing_sorted.
  - intros attrmask w pre e rest x name s1 Hl Hx Hrun.
    pose proof (listing_resume _ _ _ _ _ _ _ Hs Hnodes Hl) as Hrest.
    split; [exact Hrest|].
    apply list_elem_of_fmap in Hx as (e' & -> & He').
    assert (Hin' : e' ∈ listing (heap s) attrmask w (avl_index (mh_dir p))).
    { rewrite Hl. apply elem_of_app in He' as [He'|He'].
      - apply elem_of_app. by left.
      - apply list_elem_of_singleton in He' as ->. apply elem_of_app.
        right. left. }
    apply listing_elem in Hin' as (k & ox & Hkx & Hox & _ & Hex).
    destruct (Hobj k _ Hkx) as (Hk & ox' & Hox' & Hix & Hvx).
    assert (ox' = ox) as -> by congruence.
    assert (Hbefore : d_cookie e' ≤ d_cookie e).
    { pose proof (listing_sorted (heap s) attrmask w _ Hs Hnodes) as Hsorted.
      rewrite Hl in Hsorted.
      apply elem_of_app in He' as [He'|He'].
      - assert (Hall : Forall (λ a, ∀ b, b ∈ e :: rest → d_cookie a < d_cookie b)
                         pre).
        { clear -Hsorted. induction pre as [|a pre IH]; [constructor|].
          simpl in Hsorted. apply StronglySorted_inv in Hsorted as [Hs Hhd].
          constructor; [|by apply IH].
          intros b Hb. rewrite Forall_forall in Hhd. apply Hhd.
          apply elem_of_app. by right. }
        rewrite Forall_forall in Hall.
        specialize (Hall _ He' e (list_elem_of_here _ _)). lia.
      - apply list_elem_of_singleton in He' as ->. lia. }
    assert (Hidx : index ox < d_cookie e).
    { rewrite Hex in Hbefore. simpl in Hbefore.
      rewrite u32_small in Hbefore by lia. lia. }
    rewrite (mem_unlink_success _ _ _ _ _ _ _ Hp Hox Hrun), Hvx.
    eexists. split; [unfold heap_removed; apply lookup_insert_eq|]. simpl.
    assert (Hq : avl_index
                   (mh_dir (if decide (dir_hdl = d_obj e')
                            then set_inavl false ox else p))
                 = avl_index (mh_dir p)).
    { destruct (decide (dir_hdl = d_obj e')) as [Heq|]; [|done].
      rewrite <- Heq in Hox. assert (p = ox) as -> by congruence. done. }
    rewrite Hq, listing_removed; try done.
    intros n Hmem. by apply (dir_index_ok_alloc _ p).
Qed.

(** ** Rename *)

Lemma mem_n_cmpf_refl k : mem_n_cmpf k k = Eq.
Proof.
  unfold mem_n_cmpf. induction k as [|a k IH]; simpl; [done|].
  unfold Ascii.compare. by rewrite N.compare_refl.
Qed.

Lemma mem_n_cmpf_eq k k' : mem_n_cmpf k k' = Eq → k = k'.
Proof. apply String.compare_eq_iff. Qed.

(** Once the node found under a name is taken out, the name is free. *)
Lemma avltree_lookup_remove_found k dst (t : list (string * ptr)) :
  NoDup t.*1 →
  avltree_lookup mem_n_cmpf k t = Some dst →
  avltree_lookup mem_n_cmpf k (avltree_remove dst t) = None.
Proof.
  intros Hnd Hl. apply avltree_lookup_None. intros k' q Hin Heq.
  apply mem_n_cmpf_eq in Heq as <-.
  apply avltree_remove_elem in Hin as [Hin Hne].
  apply avltree_lookup_elem in Hl as (k' & Hin' & Heq).
  apply mem_n_cmpf_eq in Heq as <-.
  apply Hne. clear Hne.
  induction t as [|[k0 c0] t IH]; [inversion Hin|].
  simpl in Hnd. apply NoDup_cons in Hnd as [Hk0 Hnd].
  apply elem_of_cons in Hin as [Hin|Hin];
    apply elem_of_cons in Hin' as [Hin'|Hin'].
  - congruence.
  - inversion Hin; subst. exfalso. apply Hk0.
    apply list_elem_of_fmap. by exists (k0, dst).
  - inversion Hin'; subst. exfalso. apply Hk0.
    apply list_elem_of_fmap. by exists (k0, q).
  - by apply IH.
Qed.

Lemma heap_removed_lookup h dir x p ox q oq :
  h !! dir = Some p → h !! x = Some ox → h !! q = Some oq →
  ∃ oq', heap_removed dir x p ox h !! q = Some oq' ∧
         same_ident oq oq' ∧ m_name oq' = m_name oq ∧
         inavl oq' = (if decide (q = x) then false else inavl oq) ∧
         avl_name (mh_dir oq')
         = if decide (q = dir) then avltree_remove x (avl_name (mh_dir oq))
           else avl_name (mh_dir oq).
Proof.
  intros Hp Hx Hq. unfold heap_removed.
  destruct (decide (q = dir)) as [->|Hqd].
  - rewrite lookup_insert_eq. eexists; split; [reflexivity|].
    assert (oq = p) as -> by congruence.
    destruct (decide (dir = x)) as [->|Hne].
    + assert (p = ox) as -> by congruence. by repeat split.
    + by repeat split.
  - rewrite lookup_insert_ne by done.
    destruct (decide (q = x)) as [->|Hqx].
    + rewrite lookup_insert_eq. eexists; split; [reflexivity|].
      assert (oq = ox) as -> by congruence. by repeat split.
    + rewrite lookup_insert_ne by done. exists oq. by repeat split.
Qed.

Lemma heap_inserted_parent h dir x p c :
  h !! dir = Some p → h !! x = Some c →
  ∃ p', heap_inserted dir x p c h !! dir = Some p' ∧
        avl_name (mh_dir p')
        = avltree_insert mem_n_cmpf (m_name c) x (avl_name (mh_dir p)) ∧
        same_ident p p'.
Proof.
  intros Hp Hx. unfold heap_inserted. rewrite lookup_insert_eq.
  eexists; split; [reflexivity|].
  destruct (decide (dir = x)) as [->|Hne].
  - assert (p = c) as -> by congruence. by repeat split.
  - by repeat split.
Qed.

(** The tail of [mem_rename], run on a store where the new name is free
    in the new directory. *)
Lemma mem_rename_moves s obj_hdl olddir_hdl newdir_hdl new_name o d st s1 :
  heap s !! obj_hdl = Some o →
  heap s !! newdir_hdl = Some d →
  avltree_lookup mem_n_cmpf new_name (avl_name (mh_dir d)) = None →
  (mem_remove_obj olddir_hdl obj_hdl;;
   modify obj_hdl (set_m_name new_name);;
   mem_insert_obj newdir_hdl obj_hdl;;
   mret (fsalstat ERR_FSAL_NO_ERROR 0)) s = Some (st, s1) →
  ∃ o1 d1, heap s1 !! obj_hdl = Some o1 ∧ same_ident o o1 ∧
           m_name o1 = new_name ∧ inavl o1 = true ∧
           heap s1 !! newdir_hdl = Some d1 ∧
           avltree_lookup mem_n_cmpf new_name (avl_name (mh_dir d1))
           = Some obj_hdl.
Proof.
  intros Ho Hd Hfree Hrun.
  apply bind_inv in Hrun as ([] & s2 & Hrem & Hrun).
  (* after the removal from the old directory *)
  assert (H2 : ∃ o2 d2, heap s2 !! obj_hdl = Some o2 ∧ same_ident o o2 ∧
                 inavl o2 = false ∧ heap s2 !! newdir_hdl = Some d2 ∧
                 avltree_lookup mem_n_cmpf new_name (avl_name (mh_dir d2))
                 = None).
  { unfold mem_remove_obj in Hrem. destruct (inavl o) eqn:Hin.
    - destruct (heap s !! olddir_hdl) as [p|] eqn:Hp.
      2:{ exfalso. revert Hrem. unfold mem_remove_obj_locked.
          run_load Ho. rewrite Hin. simpl.
          unfold modify, mbind, M_bind, load. by rewrite Hp. }
      rewrite (mem_remove_obj_locked_run _ _ _ _ _ _ Hp Ho Hin) in Hrem.
      inversion Hrem; subst; clear Hrem. simpl.
      destruct (heap_removed_lookup _ _ _ _ _ _ _ Hp Ho Ho)
        as (o2 & Ho2 & Hid & _ & Hv & _).
      destruct (heap_removed_lookup _ _ _ _ _ _ _ Hp Ho Hd)
        as (d2 & Hd2 & _ & _ & _ & Ht).
      exists o2, d2. split; [done|]. split; [done|].
      split; [by rewrite Hv, decide_True|]. split; [done|].
      rewrite Ht. destruct (decide (newdir_hdl = olddir_hdl)); [|done].
      by apply avltree_lookup_remove_None.
    - rewrite (mem_remove_obj_locked_skip _ _ _ _ _ _ Ho Hin) in Hrem.
      inversion Hrem; subst. exists o, d. by repeat split. }
  destruct H2 as (o2 & d2 & Ho2 & Hid2 & Hv2 & Hd2 & Hfree2).
  rewrite (bind_run _ _ _ _ _ (modify_run _ _ _ _ Ho2)) in Hrun.
  set (s3 := set_heap (<[obj_hdl := set_m_name new_name o2]> (heap s2)) s2)
    in Hrun.
  assert (Ho3 : heap s3 !! obj_hdl = Some (set_m_name new_name o2)).
  { unfold s3. simpl. apply lookup_insert_eq. }
  assert (Hd3 : ∃ d3, heap s3 !! newdir_hdl = Some d3 ∧
                  avl_name (mh_dir d3) = avl_name (mh_dir d2)).
  { unfold s3. simpl. destruct (decide (newdir_hdl = obj_hdl)) as [->|Hne].
    - rewrite lookup_insert_eq. eexists; split; [reflexivity|].
      assert (d2 = o2) as -> by congruence. done.
    - rewrite lookup_insert_ne by done. eauto. }
  destruct Hd3 as (d3 & Hd3 & Ht3).
  rewrite (bind_run _ _ _ _ _
             (mem_insert_obj_run _ _ _ _ _ Hd3 Ho3 Hv2)) in Hrun.
  inversion Hrun; subst; clear Hrun. simpl.
  destruct (heap_inserted_child (heap s3) newdir_hdl obj_hdl d3
              (set_m_name new_name o2))
    as (o1 & Ho1 & _ & Hv1 & Hn1 & Hh1 & Hf1 & Ha1).
  destruct (heap_inserted_parent _ _ _ _ _ Hd3 Ho3)
    as (d1 & Hd1 & Ht1 & _).
  exists o1, d1. split; [done|]. split.
  { destruct Hid2 as (? & ? & ? & ?). unfold same_ident.
    unfold heap_inserted in Ho1.
    assert (obj_type o1 = obj_type o2).
    { destruct (decide (newdir_hdl = obj_hdl)) as [->|Hne].
      - rewrite lookup_insert_eq in Ho1. by inversion Ho1.
      - rewrite lookup_insert_ne, lookup_insert_eq in Ho1 by done.
        by inversion Ho1. }
    simpl in *. repeat split; congruence. }
  split; [done|]. split; [done|]. split; [done|].
  rewrite Ht1. simpl. apply avltree_lookup_insert; [apply mem_n_cmpf_refl|].
  by rewrite Ht3.
Qed.

Lemma mem_unlink_cases s dir_hdl obj_hdl name d o :
  heap s !! dir_hdl = Some d →
  heap s !! obj_hdl = Some o →
  ∃ st s', mem_unlink dir_hdl obj_hdl name s = Some (st, s') ∧
    (FSAL_IS_ERROR st = true
     ∨ s' = if inavl o
            then set_heap (heap_removed dir_hdl obj_hdl d o (heap s)) s
            else s).
Proof.
  intros Hd Ho.
  destruct (decide (obj_type o = DIRECTORY ∧ 2 < dir_numlinks (mh_dir o)))
    as [[Ht Hn]|Hdir].
  { exists (fsalstat ERR_FSAL_NOTEMPTY 0), s. split; [|by left].
    unfold mem_unlink. run_load Hd. run_load Ho. rewrite Ht.
    by destruct (Z.ltb_spec 2 (dir_numlinks (mh_dir o))); [|lia]. }
  destruct (decide (obj_type o = REGULAR_FILE
                    ∧ openflags (fd (mh_file o)) ≠ FSAL_O_CLOSED))
    as [[Ht Hn]|Hfile].
  { exists (fsalstat ERR_FSAL_FILE_OPEN 0), s. split; [|by left].
    unfold mem_unlink. run_load Hd. run_load Ho. rewrite Ht.
    by destruct (Z.eqb_spec (openflags (fd (mh_file o))) FSAL_O_CLOSED). }
  eexists _, _. split; [by apply mem_unlink_removes|]. by right.
Qed.

Lemma mem_int_lookup_name s dir d path :
  heap s !! dir = Some d → path ≠ "." → path ≠ ".." →
  mem_int_lookup dir path s
  = Some (match avltree_lookup mem_n_cmpf path (avl_name (mh_dir d)) with
          | None => (fsalstat ERR_FSAL_NOENT 0, None)
          | Some node => (fsalstat ERR_FSAL_NO_ERROR 0, Some node)
          end, s).
Proof.
  intros Hd H1 H2. unfold mem_int_lookup. run_load Hd.
  rewrite !bool_decide_eq_false_2 by done.
  by destruct (avltree_lookup _ _ _).
Qed.

(** A rename to a name that is not a dot name, into a directory whose name
    tree is in order: when the new name is free the rename succeeds, and
    after a rename that succeeds lookup of the new name in the new
    directory finds the object, which has kept its inode number and its
    handle. *)
Lemma mem_rename_then_lookup s obj_hdl olddir_hdl old_name newdir_hdl
    new_name o p d :
  heap s !! obj_hdl = Some o →
  heap s !! olddir_hdl = Some p →
  heap s !! newdir_hdl = Some d →
  dir_names_ok (heap s) d →
  new_name ≠ "." → new_name ≠ ".." →
  (avltree_lookup mem_n_cmpf new_name (avl_name (mh_dir d)) = None →
   ∃ s1, mem_rename obj_hdl olddir_hdl old_name newdir_hdl new_name s
         = Some (fsalstat ERR_FSAL_NO_ERROR 0, s1)) ∧
  ∀ st s1,
    mem_rename obj_hdl olddir_hdl old_name newdir_hdl new_name s
    = Some (st, s1) →
    FSAL_IS_ERROR st = false →
    ∃ o1, heap s1 !! obj_hdl = Some o1 ∧
          obj_fileid o1 = obj_fileid o ∧
          fileid (attrs o1) = fileid (attrs o) ∧
          handle o1 = handle o ∧
          mem_int_lookup newdir_hdl new_name s1
          = Some ((fsalstat ERR_FSAL_NO_ERROR 0, Some obj_hdl), s1).
Proof.
  intros Ho Hp Hd [Hnd Hnodes] Hdot Hdotdot.
  assert (Hfinish : ∀ s0 o0 d0 st s1,
    heap s0 !! obj_hdl = Some o0 → same_ident o o0 →
    heap s0 !! newdir_hdl = Some d0 →
    avltree_lookup mem_n_cmpf new_name (avl_name (mh_dir d0)) = None →
    (mem_remove_obj olddir_hdl obj_hdl;;
     modify obj_hdl (set_m_name new_name);;
     mem_insert_obj newdir_hdl obj_hdl;;
     mret (fsalstat ERR_FSAL_NO_ERROR 0)) s0 = Some (st, s1) →
    ∃ o1, heap s1 !! obj_hdl = Some o1 ∧
          obj_fileid o1 = obj_fileid o ∧
          fileid (attrs o1) = fileid (attrs o) ∧
          handle o1 = handle o ∧
          mem_int_lookup newdir_hdl new_name s1
          = Some ((fsalstat ERR_FSAL_NO_ERROR 0, Some obj_hdl), s1)).
  { intros s0 o0 d0 st s1 Ho0 (Hh0 & Hf0 & Ha0 & _) Hd0 Hfree Hrun.
    destruct (mem_rename_moves _ _ _ _ _ _ _ _ _ Ho0 Hd0 Hfree Hrun)
      as (o1 & d1 & Ho1 & (Hh1 & Hf1 & Ha1 & _) & _ & _ & Hd1 & Hl1).
    exists o1. split; [done|]. split; [congruence|]. split; [congruence|].
    split; [congruence|].
    by rewrite (mem_int_lookup_name _ _ _ _ Hd1 Hdot Hdotdot), Hl1. }
  split.
  - intros Hfree. unfold mem_rename.
    rewrite (bind_run _ _ _ _ _ (mem_int_lookup_name _ _ _ _ Hd Hdot Hdotdot)).
    rewrite Hfree. simpl.
    assert (Hrem : ∃ s2 o2, mem_remove_obj olddir_hdl obj_hdl s = Some (tt, s2)
                     ∧ heap s2 !! obj_hdl = Some o2 ∧ inavl o2 = false
                     ∧ is_Some (heap s2 !! newdir_hdl)).
    { unfold mem_remove_obj. destruct (inavl o) eqn:Hin.
      - rewrite (mem_remove_obj_locked_run _ _ _ _ _ _ Hp Ho Hin).
        destruct (heap_removed_lookup _ _ _ _ _ _ _ Hp Ho Ho)
          as (o2 & Ho2 & _ & _ & Hv & _).
        destruct (heap_removed_lookup _ _ _ _ _ _ _ Hp Ho Hd)
          as (d2 & Hd2 & _).
        eexists _, o2. split; [reflexivity|]. simpl.
        split; [done|]. split; [by rewrite Hv, decide_True | by exists d2].
      - rewrite (mem_remove_obj_locked_skip _ _ _ _ _ _ Ho Hin).
        eexists _, o. by repeat split. }
    destruct Hrem as (s2 & o2 & Hrem & Ho2 & Hv2 & Hd2).
    rewrite (bind_run _ _ _ _ _ Hrem).
    rewrite (bind_run _ _ _ _ _ (modify_run _ _ _ _ Ho2)).
    assert (Hd3 : is_Some
                    (heap (set_heap (<[obj_hdl := set_m_name new_name o2]>
                                       (heap s2)) s2) !! newdir_hdl)).
    { simpl. destruct (decide (newdir_hdl = obj_hdl)) as [->|Hne].
      - rewrite lookup_insert_eq. eauto.
      - by rewrite lookup_insert_ne. }
    destruct Hd3 as [d3 Hd3].
    erewrite bind_run;
      [|apply (mem_insert_obj_run _ _ _ d3 (set_m_name new_name o2));
        [done | simpl; apply lookup_insert_eq | done]].
    eauto.
  - intros st s1 Hrun Hok. unfold mem_rename in Hrun.
    rewrite (bind_run _ _ _ _ _ (mem_int_lookup_name _ _ _ _ Hd Hdot Hdotdot))
      in Hrun.
    destruct (avltree_lookup mem_n_cmpf new_name (avl_name (mh_dir d)))
      as [dst|] eqn:Hl; simpl in Hrun.
    2:{ apply (Hfinish s o d st s1); try done; by repeat split. }
    case_bool_decide as Hsame.
    { inversion Hrun; subst. exists o. repeat split; try done.
      by rewrite (mem_int_lookup_name _ _ _ _ Hd Hdot Hdotdot), Hl. }
    run_load Ho in Hrun.
    apply avltree_lookup_elem in Hl as Hin. destruct Hin as (k' & Hin & Heq).
    destruct (Hnodes _ _ Hin) as (od & Hod & Hvd).
    run_load Hod in Hrun.
    destruct (_ || _) eqn:Hcompat in Hrun.
    { inversion Hrun; subst. done. }
    destruct (_ && _) eqn:Hfull in Hrun.
    { inversion Hrun; subst. done. }
    destruct (mem_unlink_cases s newdir_hdl dst new_name d od Hd Hod)
      as (ust & s2 & Hun & Hcase).
    rewrite (bind_run _ _ _ _ _ Hun) in Hrun.
    destruct Hcase as [Herr| ->].
    { rewrite Herr in Hrun. inversion Hrun; subst. congruence. }
    destruct (FSAL_IS_ERROR ust) eqn:Hust;
      [inversion Hrun; subst; congruence|].
    rewrite Hvd in Hrun.
    destruct (heap_removed_lookup _ _ _ _ _ _ _ Hd Hod Ho)
      as (o2 & Ho2 & Hid2 & _).
    destruct (heap_removed_lookup _ _ _ _ _ _ _ Hd Hod Hd)
      as (d2 & Hd2 & _ & _ & _ & Ht2).
    rewrite decide_True in Ht2 by done.
    apply (Hfinish (set_heap (heap_removed newdir_hdl dst d od (heap s)) s)
             o2 d2 st s1); try done.
    rewrite Ht2. by apply avltree_lookup_remove_found.
Qed.

(** ** Handle resolution *)

Example collide_scenario_runs :
  fst <$> collide_scenario empty_store
  = Some (1%positive, 2%positive, 3%positive).
Proof. vm_compute. reflexivity. Qed.

Section resolve.
Context {E : fsal_env}.

(** The scan stops at the first object of the list that carries the
    handle. *)
Lemma mem_create_handle_scan_first s hdl_desc l p o :
  (∀ q, q ∈ l → is_Some (heap s !! q)) →
  p ∈ l → heap s !! p = Some o →
  take (Z.to_nat V4_FH_OPAQUE_SIZE) (handle o)
  = take (Z.to_nat V4_FH_OPAQUE_SIZE) hdl_desc →
  (∀ q oq, q ∈ l → heap s !! q = Some oq →
     take (Z.to_nat V4_FH_OPAQUE_SIZE) (handle oq)
     = take (Z.to_nat V4_FH_OPAQUE_SIZE) hdl_desc → q = p) →
  mem_create_handle_scan hdl_desc l s = Some (Some p, s).
Proof.
  intros Hall Hin Ho Hmatch Huniq.
  induction l as [|q l IH]; [inversion Hin|].
  destruct (Hall q) as [oq Hoq]; [left|].
  simpl. run_load Hoq. case_bool_decide as Hq.
  - by rewrite (Huniq q oq (list_elem_of_here _ _) Hoq Hq).
  - apply elem_of_cons in Hin as [->|Hin]; [congruence|].
    apply IH; [|done|].
    + intros q' Hq'. apply Hall. by right.
    + intros q' oq' Hq'. apply Huniq. by right.
Qed.

(** C1 (as amended). Resolving the wire handle stored in an object
    returns that object, as long as no other object on the list carries
    the same handle bytes. *)
Theorem mem_create_handle_round_trip s p o attrs_out :
  store_ok s →
  heap s !! p = Some o →
  (∀ q oq, heap s !! q = Some oq → handle oq = handle o → q = p) →
  mem_create_handle (handle o) attrs_out s
  = Some ((fsalstat ERR_FSAL_NO_ERROR 0, Some p,
           copy_out attrs_out (attrs o)), s).
Proof.
  intros [Hlist Hlen] Ho Huniq. unfold mem_create_handle.
  rewrite (Hlen p o Ho), Z.eqb_refl. simpl.
  assert (Hfull : ∀ q oq, heap s !! q = Some oq →
            take (Z.to_nat V4_FH_OPAQUE_SIZE) (handle oq) = handle oq).
  { intros q oq Hoq. apply take_ge. specialize (Hlen q oq Hoq). lia. }
  rewrite bind_get.
  erewrite bind_run.
  2:{ apply (mem_create_handle_scan_first s (handle o) (fsal_handles s) p o);
        try done.
      - intros q Hq. by apply Hlist.
      - apply Hlist. by exists o.
      - intros q oq _ Hoq Heq. apply (Huniq q oq Hoq).
        by rewrite <- (Hfull q oq Hoq), <- (Hfull p o Ho). }
  simpl. by run_load Ho.
Qed.
End resolve.

(** C1, the claim as stated fails: after "a" is renamed to "b" and a new
    "a" is created in the same directory, both files are indexed in the
    root and carry the same handle bytes, so resolution cannot return each
    of them for its own handle. *)
Lemma mem_create_handle_collision :
  ¬ (∀ p o, heap collide_store !! p = Some o →
            parent o = None ∨ inavl o = true →
            ∃ a, mem_create_handle (E := model_env) (handle o) None
                   collide_store
                 = Some ((fsalstat ERR_FSAL_NO_ERROR 0, Some p, a),
                         collide_store)).
Proof.
  intros H.
  destruct (heap collide_store !! 2%positive) as [o2|] eqn:H2;
    [|by vm_compute in H2].
  destruct (heap collide_store !! 3%positive) as [o3|] eqn:H3;
    [|by vm_compute in H3].
  assert (Hh : handle o2 = handle o3).
  { vm_compute in H2, H3. inversion H2; inversion H3. reflexivity. }
  assert (Hv2 : inavl o2 = true).
  { vm_compute in H2. by inversion H2. }
  assert (Hv3 : inavl o3 = true).
  { vm_compute in H3. by inversion H3. }
  destruct (H _ _ H2 (or_intror Hv2)) as [a2 Ha2].
  destruct (H _ _ H3 (or_intror Hv3)) as [a3 Ha3].
  rewrite Hh in Ha2. rewrite Ha2 in Ha3. discriminate.
Qed.

(** ** Open *)

(** C6, the code at the failing input: an open by handle without a state
    takes the global descriptor through the local [hdl], which is still
    [NULL] on that path, and faults. No open flags are recorded. *)
Theorem mem_open2_by_handle_without_state_faults {E : fsal_env} op_ctx s
    obj_hdl openflags createmode attrs_set verifier attrs_out :
  mem_open2 op_ctx obj_hdl None openflags createmode None attrs_set verifier
    attrs_out s = None.
Proof.
  unfold mem_open2, mem_open2_by_handle.
  destruct (heap s !! obj_hdl) as [o|] eqn:Ho.
  - run_load Ho. simpl. by rewrite bind_ret.
  - unfold mbind, M_bind, load. by rewrite Ho.
Qed.

(** The same branch run with the descriptor of the object being opened
    records the flags there, write implying read. *)
Lemma mem_open2_by_handle_global_fd {E : fsal_env} s obj_hdl o flags
    attrs_out :
  heap s !! obj_hdl = Some o →
  test_mask flags FSAL_O_TRUNC = false →
  ∃ s' o',
    mem_open2_by_handle obj_hdl None flags FSAL_NO_CREATE [] attrs_out
      (Some obj_hdl) s
    = Some ({| o2_status := fsalstat ERR_FSAL_NO_ERROR 0; o2_state := None;
               o2_new_obj := None; o2_attrs_out := attrs_out;
               o2_caller_perm_check := None |}, s') ∧
    heap s' !! obj_hdl = Some o' ∧
    openflags (fd (mh_file o')) = opened_flags flags.
Proof.
  intros Ho Ht. unfold mem_open2_by_handle. run_load Ho. simpl.
  rewrite bind_ret. unfold update_fd.
  rewrite Ht.
  erewrite bind_run; [|erewrite bind_run by (apply modify_run; heap_lookup);
                        reflexivity].
  rewrite bind_ret.
  erewrite bind_run by (apply load_run; heap_lookup).
  simpl. eexists _, _. split; [reflexivity|]. simpl.
  rewrite lookup_insert_eq. split; [reflexivity|]. reflexivity.
Qed.

(** C5, the code at the failing input: file "f" exists, created
    exclusively with [verifier_1]; an exclusive open by name with
    [verifier_2], which does not match the stamped attributes, returns
    success instead of [ERR_FSAL_EXIST]. The open by handle with a state
    does compare the verifier and returns [ERR_FSAL_EXIST]. *)
Theorem mem_open2_by_name_skips_verifier :
  fst <$> exclusive_scenario empty_store
  = Some (fsalstat ERR_FSAL_NO_ERROR 0, fsalstat ERR_FSAL_NO_ERROR 0,
          fsalstat ERR_FSAL_EXIST EEXIST, true, false).
Proof. vm_compute. reflexivity. Qed.

(** ** Release *)

Lemma kids_ok_elem sub h l F e :
  (∀ c Fc, sub c Fc → c ∈ Fc) →
  kids_ok sub h l F → e ∈ l → e.2 ∈ F.
Proof.
  intros Hsub. revert F. induction l as [|e0 l IH]; intros F Hk Hin;
    [inversion Hin|].
  destruct Hk as (Fc & F' & -> & _ & _ & Hc & Hl).
  apply elem_of_cons in Hin as [->|Hin].
  - apply elem_of_union_l. by apply Hsub.
  - apply elem_of_union_r. by apply IH.
Qed.

Lemma subtree_root n h p F : subtree n h p F → p ∈ F.
Proof.
  destruct n as [|n]; [done|]. intros (o & _ & H).
  destruct (bool_decide _).
  - destruct H as (Fk & -> & _). set_solver.
  - subst. set_solver.
Qed.

Lemma kids_ok_agree sub sub' h h' l F :
  (∀ c Fc, sub c Fc → c ∈ Fc) →
  (∀ c Fc, Fc ⊆ F → sub c Fc → sub' c Fc) →
  (∀ q, q ∈ F → h' !! q = h !! q) →
  kids_ok sub h l F → kids_ok sub' h' l F.
Proof.
  intros Hroot. revert F. induction l as [|e l IH]; intros F Hsub Hagree Hk;
    [done|].
  destruct Hk as (Fc & F' & -> & Hdisj & (oc & Hoc & Hv & Hpar) & Hc & Hl).
  exists Fc, F'. split; [done|]. split; [done|]. split; [|split].
  - exists oc. rewrite Hagree; [done|]. apply elem_of_union_l. by apply Hroot.
  - apply Hsub; [set_solver | done].
  - apply IH; [| |done].
    + intros c Fc' Hsubset. apply Hsub. set_solver.
    + intros q Hq. apply Hagree. set_solver.
Qed.

Lemma subtree_agree n : ∀ h h' p F,
  (∀ q, q ∈ F → h' !! q = h !! q) →
  subtree n h p F → subtree n h' p F.
Proof.
  induction n as [|n IH]; intros h h' p F Hagree; [done|].
  intros (o & Ho & H). exists o. split.
  { rewrite Hagree; [done|]. apply (subtree_root (S n) h). by exists o. }
  destruct (bool_decide _); [|done].
  destruct H as (Fk & -> & Hp & Hk). exists Fk. split; [done|]. split; [done|].
  apply (kids_ok_agree (subtree n h) _ h); [apply subtree_root| | |done].
  - intros c Fc Hsub. apply IH. intros q Hq. apply Hagree. set_solver.
  - intros q Hq. apply Hagree. set_solver.
Qed.

(** The tree below an object does not depend on the object's own flags. *)
Lemma subtree_root_changed n h h' p F o o' :
  subtree n h p F →
  h !! p = Some o → h' !! p = Some o' →
  obj_type o' = obj_type o →
  avl_name (mh_dir o') = avl_name (mh_dir o) →
  (∀ q, q ∈ F → q ≠ p → h' !! q = h !! q) →
  subtree n h' p F.
Proof.
  destruct n as [|n]; [done|]. intros (o0 & Ho0 & H) Ho Ho' Ht Ha Hagree.
  assert (o0 = o) as -> by congruence.
  exists o'. split; [done|]. rewrite Ht, Ha.
  destruct (bool_decide _); [|done].
  destruct H as (Fk & -> & Hp & Hk). exists Fk. split; [done|]. split; [done|].
  apply (kids_ok_agree (subtree n h) _ h); [apply subtree_root| | |done].
  - intros c Fc Hsub. apply subtree_agree. intros q Hq. apply Hagree.
    + set_solver.
    + intros ->. set_solver.
  - intros q Hq. apply Hagree; [set_solver|]. intros ->. done.
Qed.

Lemma filter_not_in_union (F F1 F2 : gset ptr) (l : list ptr) :
  F = F1 ∪ F2 →
  filter (λ q, q ∉ F2) (filter (λ q, q ∉ F1) l) = filter (λ q, q ∉ F) l.
Proof.
  intros ->. rewrite list_filter_filter. apply list_filter_iff. intros q.
  rewrite not_elem_of_union. tauto.
Qed.

Lemma filter_not_in_singleton (F : gset ptr) (p : ptr) (l : list ptr) :
  F = {[p]} → filter (λ q, q ≠ p) l = filter (λ q, q ∉ F) l.
Proof.
  intros ->. apply list_filter_iff. intros q. by rewrite not_elem_of_singleton.
Qed.

Lemma filter_not_in_empty (F : gset ptr) (l : list ptr) :
  F = ∅ → filter (λ q, q ∉ F) l = l.
Proof.
  intros ->. induction l as [|q l IH]; [done|].
  rewrite filter_cons_True by apply not_elem_of_empty. by rewrite IH.
Qed.

Lemma heap_removed_parent_ne h dir x p ox :
  dir ≠ x → heap_removed dir x p ox h !! dir = Some (dir_removed x p).
Proof.
  intros Hne. unfold heap_removed. rewrite lookup_insert_eq.
  by rewrite decide_False.
Qed.

Lemma heap_removed_child_ne h dir x p ox :
  dir ≠ x → heap_removed dir x p ox h !! x = Some (set_inavl false ox).
Proof.
  intros Hne. unfold heap_removed.
  by rewrite lookup_insert_ne, lookup_insert_eq.
Qed.

Lemma heap_removed_frame h dir x p ox q :
  q ≠ dir → q ≠ x → heap_removed dir x p ox h !! q = h !! q.
Proof. intros H1 H2. unfold heap_removed. by rewrite !lookup_insert_ne. Qed.

(** The loop of [mem_clean_dir_tree], given that release tears down each
    child's subtree. *)
Lemma mem_clean_dir_tree_loop_cleans n
    (IHn : ∀ s c Fc oc,
       subtree n (heap s) c Fc → heap s !! c = Some oc →
       parent oc ≠ None → inavl oc = false →
       ∃ fuel0 s', torn_down Fc s s' ∧
         ∀ fuel, (fuel0 ≤ fuel)%nat → mem_release fuel c s = Some (tt, s')) :
  ∀ l s p o Fk,
    heap s !! p = Some o → avl_name (mh_dir o) = l →
    kids_ok (subtree n (heap s)) (heap s) l Fk → p ∉ Fk →
    ∃ fuelR0 fuelL0 s', cleaned p Fk s s' ∧
      ∀ fuelR fuelL, (fuelR0 ≤ fuelR)%nat → (fuelL0 ≤ fuelL)%nat →
        mem_clean_dir_tree_loop fuelL (mem_release fuelR) p s = Some (tt, s').
Proof.
  induction l as [|[k c] l IHl]; intros s p o Fk Hp Hl Hk HpF.
  - simpl in Hk. subst Fk. exists O, 1%nat, s. split.
    + split; [set_solver|]. split; [done|]. split; [by exists o, o|].
      rewrite !(filter_not_in_empty ∅) by done.
      repeat split; try done; set_solver.
    + intros fuelR [|fuelL] _ HL; [lia|]. simpl. run_load Hp. by rewrite Hl.
  - destruct Hk as (Fc & F' & -> & Hdisj & (oc & Hoc & Hv & Hpar) & Hsub & Hk).
    simpl in Hoc, Hsub.
    assert (Hc : c ∈ Fc) by (by apply (subtree_root n (heap s))).
    assert (Hpc : p ≠ c) by (intros ->; set_solver).
    assert (HpFc : p ∉ Fc) by set_solver.
    assert (HpF' : p ∉ F') by set_solver.
    assert (HcF' : c ∉ F') by set_solver.
    set (s1 := set_heap (heap_removed p c o oc (heap s)) s).
    assert (Hs1p : heap s1 !! p = Some (dir_removed c o))
      by (by apply heap_removed_parent_ne).
    assert (Hs1c : heap s1 !! c = Some (set_inavl false oc))
      by (by apply heap_removed_child_ne).
    assert (Hs1q : ∀ q, q ≠ p → q ≠ c → heap s1 !! q = heap s !! q)
      by (intros; by apply heap_removed_frame).
    assert (Hsub1 : subtree n (heap s1) c Fc).
    { apply (subtree_root_changed n (heap s) _ c Fc oc (set_inavl false oc));
        try done.
      intros q Hq Hqc. apply Hs1q; [|done]. intros ->. done. }
    destruct (IHn s1 c Fc (set_inavl false oc) Hsub1 Hs1c Hpar eq_refl)
      as (fuelc & s2 & Htd & Hrunc).
    destruct Htd as (Hgone & Hkeep & Hfh & Hmo & Hfr & Hsl & Hmon & Hino & Hrt).
    assert (Hs2p : heap s2 !! p = Some (dir_removed c o))
      by (by rewrite Hkeep).
    assert (Hnotin : c ∉ l.*2).
    { intros Hin. apply list_elem_of_fmap in Hin as ([k' c'] & Heq & Hin).
      simpl in Heq. subst c'. apply HcF'.
      apply (kids_ok_elem _ _ _ _ (k', c) (subtree_root n (heap s)) Hk Hin). }
    assert (Hl2 : avl_name (mh_dir (dir_removed c o)) = l).
    { simpl. rewrite Hl. simpl. rewrite bool_decide_eq_true_2 by done.
      by apply avltree_remove_id. }
    assert (Hagree2 : ∀ q, q ∈ F' → heap s2 !! q = heap s !! q).
    { intros q Hq. rewrite Hkeep by set_solver. apply Hs1q; intros ->; done. }
    assert (Hk2 : kids_ok (subtree n (heap s2)) (heap s2) l F').
    { apply (kids_ok_agree (subtree n (heap s)) _ (heap s));
        [apply subtree_root| |done|done].
      intros c' Fc' Hsubset. apply subtree_agree.
      intros q Hq. apply Hagree2. set_solver. }
    destruct (IHl s2 p (dir_removed c o) F' Hs2p Hl2 Hk2 HpF')
      as (fuelR' & fuelL' & s3 & Hcl & Hrunl).
    destruct Hcl as (Hgone3 & Hkeep3 & (o2 & o3 & Ho2 & Ho3 & Ha3 & Ht3)
                     & Hfh3 & Hmo3 & Hfr3 & Hsl3 & Hmon3 & Hino3 & Hrt3).
    exists (fuelc `max` fuelR')%nat, (S fuelL'), s3. split.
    + split; [|split; [|split; [|split; [|split; [|split; [|split; [|split;
        [|split]]]]]]]].
      * intros q Hq. destruct (decide (q ∈ F')) as [HqF|HqF]; [by apply Hgone3|].
        rewrite Hkeep3; [|done|by intros ->; set_solver].
        apply Hgone. set_solver.
      * intros q Hq Hqp. rewrite Hkeep3; [|set_solver|done].
        rewrite Hkeep by set_solver. apply Hs1q; [done|]. intros ->. set_solver.
      * exists o, o3. split; [done|]. split; [done|]. split; [done|].
        rewrite Ht3. assert (o2 = dir_removed c o) as -> by congruence. done.
      * rewrite Hfh3, Hfh. by apply filter_not_in_union.
      * rewrite Hmo3, Hmo. by apply filter_not_in_union.
      * intros q Hq. apply elem_of_union in Hq as [Hq|Hq]; [|by apply Hfr3].
        apply Hmon3. by apply Hfr.
      * intros q oq Hq Hoq Hty. apply elem_of_union in Hq as [Hq|Hq].
        -- apply Hmon3. destruct (decide (q = c)) as [->|Hqc].
           ++ apply (Hsl c (set_inavl false oc)); try done.
              assert (oq = oc) as -> by congruence. done.
           ++ apply (Hsl q oq); try done. rewrite Hs1q; [done| |done].
              intros ->. done.
        -- apply (Hsl3 q oq); try done. by rewrite Hagree2.
      * intros e He. apply Hmon3. by apply Hmon.
      * by rewrite Hino3, Hino.
      * by rewrite Hrt3, Hrt.
    + intros fuelR [|fuelL] HR HL; [lia|]. simpl. run_load Hp.
      rewrite Hl. simpl.
      rewrite (bind_run _ _ _ tt s2).
      * apply Hrunl; lia.
      * rewrite (mem_remove_obj_locked_release _ _ _ _ _ _ _ Hp Hoc Hv).
        apply Hrunc. lia.
Qed.

Lemma mem_free_handle_run s p o :
  heap s !! p = Some o →
  mem_free_handle p s
  = Some (tt, set_heap (delete p (heap s))
                (set_freed (freed s ++ [Free_handle p])
                   (set_mfe_objs (filter (λ q, q ≠ p) (mfe_objs s)) s))).
Proof.
  intros Hp. unfold mem_free_handle. rewrite bind_modify_store.
  unfold gsh_free_handle. simpl. by rewrite Hp.
Qed.

(** Release of a removed object other than a directory. *)
Lemma mem_release_leaf s p o fuel :
  heap s !! p = Some o → parent o ≠ None → inavl o = false →
  obj_type o ≠ DIRECTORY →
  mem_release (S fuel) p s = Some (tt, leaf_released p o s).
Proof.
  intros Hp Hpar Hv Ht. simpl. run_load Hp.
  rewrite bool_decide_eq_false_2 by done. rewrite Hv. simpl.
  unfold fsal_obj_handle_fini. rewrite bind_modify_store.
  unfold leaf_released.
  destruct (obj_type o) eqn:Hty; try done;
    try (rewrite bind_ret; erewrite mem_free_handle_run by (simpl; exact Hp);
         rewrite bool_decide_eq_false_2 by done; reflexivity).
  unfold free_link_contents.
  erewrite bind_run.
  2:{ erewrite bind_run by (apply modify_run; simpl; exact Hp). reflexivity. }
  erewrite mem_free_handle_run by (simpl; apply lookup_insert_eq).
  rewrite bool_decide_eq_true_2 by done.
  simpl. rewrite delete_insert_eq. by rewrite <- app_assoc.
Qed.

Lemma leaf_released_torn_down s p o :
  heap s !! p = Some o → torn_down {[p]} s (leaf_released p o s).
Proof.
  intros Hp.
  split; [|split; [|split; [|split; [|split; [|split; [|split; [|split]]]]]]];
    simpl.
  - intros q Hq. apply elem_of_singleton in Hq as ->. apply lookup_delete_eq.
  - intros q Hq. apply lookup_delete_ne.
    intros ->. apply Hq. by apply elem_of_singleton.
  - by apply filter_not_in_singleton.
  - by apply filter_not_in_singleton.
  - intros q Hq. apply elem_of_singleton in Hq as ->.
    rewrite !elem_of_app. right. right. left.
  - intros q oq Hq Hoq Hty. apply elem_of_singleton in Hq as ->.
    assert (oq = o) as -> by congruence.
    rewrite bool_decide_eq_true_2 by done.
    rewrite !elem_of_app. right. left. left.
  - intros e He. apply elem_of_app. by left.
  - done.
  - done.
Qed.

(** Release of a removed object tears down everything below it. *)
Lemma mem_release_tears_down n : ∀ s p F o,
  subtree n (heap s) p F → heap s !! p = Some o →
  parent o ≠ None → inavl o = false →
  ∃ fuel0 s', torn_down F s s' ∧
    ∀ fuel, (fuel0 ≤ fuel)%nat → mem_release fuel p s = Some (tt, s').
Proof.
  induction n as [|n IHn]; intros s p F o Hsub Hp Hpar Hv; [done|].
  destruct Hsub as (o0 & Ho0 & Hsub).
  assert (o0 = o) as -> by congruence.
  case_bool_decide as Ht.
  2:{ subst F. exists 1%nat, (leaf_released p o s).
      split; [by apply leaf_released_torn_down|].
      intros [|fuel] Hf; [lia|]. by apply mem_release_leaf. }
  destruct Hsub as (Fk & -> & HpF & Hk).
  set (s0 := set_fsal_handles (filter (λ q, q ≠ p) (fsal_handles s)) s).
  destruct (mem_clean_dir_tree_loop_cleans n IHn (avl_name (mh_dir o)) s0 p o Fk)
    as (fuelR & fuelL & s2 & Hcl & Hrun); try done.
  destruct Hcl as (Hgone & Hkeep & (o1 & o2 & Ho1 & Ho2 & Ha2 & Ht2)
                   & Hfh & Hmo & Hfr & Hsl & Hmon & Hino & Hrt).
  simpl in Ho1, Hkeep, Hfh, Hmo, Hsl, Hmon, Hino, Hrt.
  eexists (S (fuelR `max` fuelL))%nat, _. split.
  2:{ intros [|fuel] Hf; [lia|]. simpl. run_load Hp.
      rewrite bool_decide_eq_false_2 by done. rewrite Hv. simpl.
      unfold fsal_obj_handle_fini. rewrite bind_modify_store. fold s0.
      rewrite Ht.
      rewrite (bind_run _ _ _ tt s2) by (apply Hrun; lia).
      apply (mem_free_handle_run _ _ _ Ho2). }
  split; [|split; [|split; [|split; [|split; [|split; [|split; [|split]]]]]]];
    simpl.
  - intros q Hq. destruct (decide (q = p)) as [->|Hqp].
    + apply lookup_delete_eq.
    + rewrite lookup_delete_ne by done. apply Hgone. set_solver.
  - intros q Hq. rewrite lookup_delete_ne by (intros ->; set_solver).
    apply Hkeep; [set_solver|]. intros ->. set_solver.
  - rewrite Hfh. rewrite (filter_not_in_singleton {[p]}) by done.
    by apply filter_not_in_union.
  - rewrite Hmo.
    rewrite (filter_not_in_singleton {[p]} p (filter _ _)) by done.
    rewrite (filter_not_in_union ({[p]} ∪ Fk) Fk {[p]}); [done|].
    apply set_eq. intros q. rewrite !elem_of_union. tauto.
  - intros q Hq. apply elem_of_app.
    apply elem_of_union in Hq as [Hq|Hq]; [|left; by apply Hfr].
    right. apply elem_of_singleton in Hq as ->. left.
  - intros q oq Hq Hoq Hty. apply elem_of_app. left.
    apply elem_of_union in Hq as [Hq|Hq].
    + apply elem_of_singleton in Hq as ->.
      assert (oq = o) as -> by congruence. congruence.
    + by apply (Hsl q oq).
  - intros e He. apply elem_of_app. left. by apply Hmon.
  - done.
  - done.
Qed.

(** C9. Release of the export root or of an object still indexed in a
    parent changes nothing. Release of a removed object that has a parent
    tears it down: a symlink's target is freed, a directory is emptied by
    [mem_clean_dir_tree], which removes the first child of the name tree
    and releases it until the tree is empty, so that the whole tree below
    is torn down, and the object itself is freed and leaves the object
    lists. *)
Theorem mem_release_live_or_teardown s p o :
  heap s !! p = Some o →
  (parent o = None ∨ inavl o = true →
   ∀ fuel, mem_release (S fuel) p s = Some (tt, s)) ∧
  (parent o ≠ None → inavl o = false → obj_type o ≠ DIRECTORY →
   torn_down {[p]} s (leaf_released p o s) ∧
   ∀ fuel, mem_release (S fuel) p s = Some (tt, leaf_released p o s)) ∧
  (parent o ≠ None → inavl o = false →
   ∀ n F, subtree n (heap s) p F →
     ∃ fuel0 s', torn_down F s s' ∧
       ∀ fuel, (fuel0 ≤ fuel)%nat → mem_release fuel p s = Some (tt, s')) ∧
  (∀ n Fk,
     kids_ok (subtree n (heap s)) (heap s) (avl_name (mh_dir o)) Fk →
     p ∉ Fk →
     ∃ fuel0 s', cleaned p Fk s s' ∧
       ∀ fuel, (fuel0 ≤ fuel)%nat →
         mem_clean_dir_tree fuel p s = Some (tt, s')).
Proof.
  intros Hp. split; [|split; [|split]].
  - intros Hlive fuel. simpl. run_load Hp.
    destruct Hlive as [Hroot|Hin].
    + by rewrite bool_decide_eq_true_2.
    + rewrite Hin. by rewrite orb_true_r.
  - intros Hpar Hv Ht. split; [by apply leaf_released_torn_down|].
    intros fuel. by apply mem_release_leaf.
  - intros Hpar Hv n F Hsub. by apply (mem_release_tears_down n s p F o).
  - intros n Fk Hk HpF.
    destruct (mem_clean_dir_tree_loop_cleans n (mem_release_tears_down n)
                (avl_name (mh_dir o)) s p o Fk)
      as (fuelR & fuelL & s' & Hcl & Hrun); try done.
    exists (fuelR `max` fuelL)%nat, s'. split; [done|].
    intros fuel Hf. unfold mem_clean_dir_tree. apply Hrun; lia.
Qed.

(** ** The object list as an invariant *)

Lemma same_objects_refl s : same_objects s s.
Proof.
  split; [done|]. split; [done|]. intros q o o' H1 H2. congruence.
Qed.

Lemma same_objects_trans s1 s2 s3 :
  same_objects s1 s2 → same_objects s2 s3 → same_objects s1 s3.
Proof.
  intros (Ha & Hb & Hc) (Ha' & Hb' & Hc'). split; [congruence|]. split.
  - intros q. by rewrite Hb', Hb.
  - intros q o o' H1 H3.
    destruct (proj2 (Hb q) (ex_intro _ o H1)) as [o2 H2].
    rewrite (Hc' q o2 o' H2 H3). by apply (Hc q).
Qed.

Lemma triple_bind {A B} P (m : M A) (f : A → M B) Q R :
  triple P m Q → (∀ a, triple (Q a) (f a) R) → triple P (m ≫= f) R.
Proof.
  intros Hm Hf s r s' HP Hrun.
  apply bind_inv in Hrun as (a & s1 & H1 & H2).
  apply (Hf a s1 r s'); [|done]. by apply (Hm s a s1).
Qed.

Lemma triple_ret {A} (P : store → Prop) (a : A) : triple P (mret a) (λ _, P).
Proof. intros s r s' HP Hrun. by inversion Hrun; subst. Qed.

Lemma triple_weaken {A} (P P' : store → Prop) (m : M A)
    (Q Q' : A → store → Prop) :
  (∀ s, P' s → P s) → (∀ a s, Q a s → Q' a s) →
  triple P m Q → triple P' m Q'.
Proof. intros HP HQ Hm s r s' Hs Hrun. apply HQ, (Hm s); auto. Qed.

Lemma keeps_ret {A} (a : A) : keeps (mret a).
Proof. intros s r s' H. inversion H; subst. apply same_objects_refl. Qed.

Lemma keeps_fault {A} : keeps (@fault A).
Proof. intros s r s' H. discriminate. Qed.

Lemma keeps_bind {A B} (m : M A) (f : A → M B) :
  keeps m → (∀ a, keeps (f a)) → keeps (m ≫= f).
Proof.
  intros Hm Hf s r s' Hrun. apply bind_inv in Hrun as (a & s1 & H1 & H2).
  eapply same_objects_trans; [by eapply Hm | by eapply Hf].
Qed.

Lemma keeps_load p : keeps (load p).
Proof.
  intros s r s' H. apply load_inv in H as [_ ->]. apply same_objects_refl.
Qed.

Lemma keeps_get_store : keeps get_store.
Proof. intros s r s' H. inversion H; subst. apply same_objects_refl. Qed.

Lemma keeps_modify p f :
  (∀ o, length (handle (f o)) = length (handle o)) → keeps (modify p f).
Proof.
  intros Hf s r s' H. apply modify_inv in H as (o & Ho & ->).
  split; [done|]. split; simpl.
  - intros q. destruct (decide (q = p)) as [->|Hne].
    + rewrite lookup_insert_eq, Ho. split; eauto.
    + by rewrite lookup_insert_ne.
  - intros q o1 o2 H1. destruct (decide (q = p)) as [->|Hne].
    + rewrite lookup_insert_eq. intros [= <-].
      assert (o1 = o) as -> by congruence. apply Hf.
    + rewrite lookup_insert_ne by done. congruence.
Qed.

Lemma keeps_modify_store g :
  (∀ s, heap (g s) = heap s ∧ fsal_handles (g s) = fsal_handles s) →
  keeps (modify_store g).
Proof.
  intros Hg s r s' H. inversion H; subst. destruct (Hg s) as [Hh Hl].
  split; [done|]. rewrite Hh. split; [done|]. intros q o o' H1 H2. congruence.
Qed.

Create HintDb keeps.

Ltac keeps_go :=
  repeat first
    [ solve [auto with keeps]
    | apply keeps_ret | apply keeps_fault | apply keeps_load
    | apply keeps_get_store
    | apply keeps_modify; intros; reflexivity
    | apply keeps_modify_store; intros; split; reflexivity
    | apply keeps_bind; [|intros ?]
    | match goal with
      | |- keeps (if ?b then _ else _) => destruct b
      | |- keeps (match ?x with _ => _ end) => destruct x
      end ].

Lemma keeps_mem_insert_obj parent child : keeps (mem_insert_obj parent child).
Proof. unfold mem_insert_obj. keeps_go. Qed.

Lemma keeps_mem_remove_obj_locked rel parent child b :
  (∀ c, keeps (rel c)) → keeps (mem_remove_obj_locked rel parent child b).
Proof. intros Hrel. unfold mem_remove_obj_locked. keeps_go. Qed.

Lemma keeps_mem_remove_obj parent child : keeps (mem_remove_obj parent child).
Proof.
  apply keeps_mem_remove_obj_locked. intros c. apply keeps_ret.
Qed.

Lemma keeps_mem_int_lookup dir path : keeps (mem_int_lookup dir path).
Proof. unfold mem_int_lookup. keeps_go. Qed.

#[local] Hint Resolve keeps_mem_insert_obj keeps_mem_remove_obj
  keeps_mem_int_lookup : keeps.

Lemma keeps_mem_getattrs obj out : keeps (mem_getattrs obj out).
Proof. unfold mem_getattrs. keeps_go. Qed.

Lemma keeps_mem_unlink dir obj name : keeps (mem_unlink dir obj name).
Proof.
  unfold mem_unlink. cbv zeta. keeps_go;
    apply keeps_mem_remove_obj_locked; intros; apply keeps_ret.
Qed.

#[local] Hint Resolve keeps_mem_getattrs keeps_mem_unlink : keeps.

Lemma keeps_mem_close obj : keeps (mem_close obj).
Proof. unfold mem_close. keeps_go. Qed.

Lemma keeps_mem_rename obj olddir old_name newdir new_name :
  keeps (mem_rename obj olddir old_name newdir new_name).
Proof. unfold mem_rename. cbv zeta. keeps_go. Qed.

Section keeps_env.
Context {E : fsal_env}.
Variable op_ctx : op_context.

Lemma keeps_update_fd r f state : keeps (update_fd r f state).
Proof. unfold update_fd. keeps_go. Qed.

Lemma keeps_update_share p a b : keeps (update_share p a b).
Proof. unfold update_share. keeps_go. Qed.

Lemma keeps_truncate_attrs p : keeps (truncate_attrs p).
Proof. unfold truncate_attrs. keeps_go. Qed.

Hint Resolve keeps_update_fd keeps_update_share keeps_truncate_attrs : keeps.

Lemma keeps_mem_open2_by_handle obj state flags mode verifier out hdl :
  keeps (mem_open2_by_handle obj state flags mode verifier out hdl).
Proof. unfold mem_open2_by_handle. cbv zeta. keeps_go. Qed.

Lemma keeps_mem_read2 obj bypass state offset size info :
  keeps (mem_read2 op_ctx obj bypass state offset size info).
Proof. unfold mem_read2. cbv zeta. keeps_go. Qed.

Lemma keeps_mem_write2 obj bypass state offset buffer info :
  keeps (mem_write2 op_ctx obj bypass state offset buffer info).
Proof. unfold mem_write2. cbv zeta. keeps_go. Qed.
End keeps_env.

#[local] Hint Resolve keeps_update_fd keeps_update_share
  keeps_truncate_attrs : keeps.

Section store_invariant.
Context {E : fsal_env}.
Hypothesis opaque_size_min : 10 ≤ V4_FH_OPAQUE_SIZE.

Lemma ok_pending_same_objects P s s' :
  ok_pending P s → same_objects s s' → ok_pending P s'.
Proof.
  intros [Hl Hh] (Hfh & Hdom & Hlen). split.
  - intros q. by rewrite Hfh, Hl, Hdom.
  - intros q o' Ho'.
    destruct (proj1 (Hdom q) (ex_intro _ o' Ho')) as [o Ho].
    rewrite (Hlen q o o' Ho Ho'). by apply (Hh q).
Qed.

Lemma keeps_ok_pending {A} P (m : M A) :
  keeps m → triple (ok_pending P) m (λ _, ok_pending P).
Proof.
  intros Hm s r s' Hok Hrun.
  apply (ok_pending_same_objects P s); [done | by eapply Hm].
Qed.

Lemma store_ok_pending s : store_ok s ↔ ok_pending ∅ s.
Proof.
  unfold store_ok, ok_pending. split; intros [Hl Hh]; (split; [|done]).
  - intros q. rewrite Hl. split; [|tauto]. intros H. split; [done|].
    apply not_elem_of_empty.
  - intros q. rewrite Hl. split; [tauto|]. intros H. split; [done|].
    apply not_elem_of_empty.
Qed.

Lemma le_bytes_length w z : length (le_bytes w z) = w.
Proof. revert z. induction w as [|w IH]; intros z; simpl; [done|]. by rewrite IH. Qed.

(** The packaged handle fills the opaque part exactly. *)
Lemma package_mem_handle_length pathbuf :
  Z.of_nat (length (package_mem_handle pathbuf)) = V4_FH_OPAQUE_SIZE.
Proof.
  unfold package_mem_handle.
  set (len := u16 (display_buffer_len pathbuf)).
  assert (Hlen : 0 ≤ len ≤ Z.of_nat (length (b_text pathbuf))).
  { unfold len, u16, wrap, display_buffer_len.
    pose proof (Z.mod_pos_bound (Z.of_nat (length (b_text pathbuf)))
                  (2 ^ 16) ltac:(lia)).
    split; [lia|]. apply Z.mod_le; lia. }
  set (pathlen := MIN (V4_FH_OPAQUE_SIZE - (8 + 2)) len).
  assert (Hpl : 0 ≤ pathlen ≤ len ∧ pathlen ≤ V4_FH_OPAQUE_SIZE - 10).
  { unfold pathlen, MIN.
    destruct (Z.ltb_spec (V4_FH_OPAQUE_SIZE - (8 + 2)) len); lia. }
  rewrite !length_app, !le_bytes_length, length_take.
  destruct (Z.ltb_spec (8 + 2 + pathlen) V4_FH_OPAQUE_SIZE).
  - rewrite length_replicate. lia.
  - simpl. lia.
Qed.

Lemma triple_gsh_calloc type :
  triple store_ok (gsh_calloc type) (λ hdl, ok_pending {[hdl]}).
Proof.
  intros s r s' [Hl Hh] Hrun. unfold gsh_calloc in Hrun.
  inversion Hrun; subst; clear Hrun.
  set (p := fresh (dom (heap s))).
  assert (Hfresh : heap s !! p = None).
  { apply not_elem_of_dom. apply is_fresh. }
  split; simpl.
  - intros q. rewrite Hl. destruct (decide (q = p)) as [->|Hne].
    + rewrite Hfresh. split; [intros [? ?]; done|].
      intros [_ Hn]. exfalso. apply Hn. by apply elem_of_singleton.
    + rewrite lookup_insert_ne by done. split; [|tauto].
      intros H. split; [done|]. by rewrite not_elem_of_singleton.
  - intros q oq. destruct (decide (q = p)) as [->|Hne].
    + rewrite lookup_insert_eq. intros [= <-]. simpl.
      rewrite length_replicate. lia.
    + rewrite lookup_insert_ne by done. apply Hh.
Qed.

Lemma triple_set_handle P hdl h :
  Z.of_nat (length h) = V4_FH_OPAQUE_SIZE →
  triple (ok_pending P) (modify hdl (set_handle h)) (λ _, ok_pending P).
Proof.
  intros Hlen s r s' [Hl Hh] Hrun. apply modify_inv in Hrun as (o & Ho & ->).
  split; simpl.
  - intros q. rewrite Hl. destruct (decide (q = hdl)) as [->|Hne].
    + rewrite lookup_insert_eq, Ho. split; intros [? ?]; eauto.
    + by rewrite lookup_insert_ne.
  - intros q oq. destruct (decide (q = hdl)) as [->|Hne].
    + rewrite lookup_insert_eq. by intros [= <-].
    + rewrite lookup_insert_ne by done. apply Hh.
Qed.

Lemma triple_gsh_free_handle P p :
  triple (ok_pending (P ∪ {[p]})) (gsh_free_handle p) (λ _, ok_pending P).
Proof.
  intros s r s' [Hl Hh] Hrun. unfold gsh_free_handle in Hrun.
  destruct (heap s !! p) as [o|] eqn:Ho; [|done].
  inversion Hrun; subst; clear Hrun. split; simpl.
  - intros q. rewrite Hl, not_elem_of_union, not_elem_of_singleton.
    destruct (decide (q = p)) as [->|Hne].
    + rewrite lookup_delete_eq. split; [tauto|]. intros [[? ?] _]. done.
    + rewrite lookup_delete_ne by done. tauto.
  - intros q oq Hq. apply (Hh q). destruct (decide (q = p)) as [->|Hne].
    + by rewrite lookup_delete_eq in Hq.
    + by rewrite lookup_delete_ne in Hq.
Qed.

Lemma triple_fsal_obj_handle_init hdl type :
  triple (ok_pending {[hdl]}) (fsal_obj_handle_init hdl type)
    (λ _, store_ok).
Proof.
  intros s r s' [Hl Hh] Hrun. unfold fsal_obj_handle_init in Hrun.
  apply bind_inv in Hrun as ([] & s1 & H1 & H2).
  apply modify_inv in H1 as (o & Ho & ->).
  inversion H2; subst; clear H2. split; simpl.
  - intros q. rewrite elem_of_app, Hl, list_elem_of_singleton,
      not_elem_of_singleton.
    destruct (decide (q = hdl)) as [->|Hne].
    + rewrite lookup_insert_eq. split; eauto.
    + rewrite lookup_insert_ne by done. tauto.
  - intros q oq. destruct (decide (q = hdl)) as [->|Hne].
    + rewrite lookup_insert_eq. intros [= <-]. exact (Hh hdl o Ho).
    + rewrite lookup_insert_ne by done. apply Hh.
Qed.

Lemma store_ok_same_objects s s' :
  store_ok s → same_objects s s' → store_ok s'.
Proof.
  rewrite !store_ok_pending. apply ok_pending_same_objects.
Qed.

Lemma keeps_store_ok {A} (m : M A) :
  keeps m → triple store_ok m (λ _, store_ok).
Proof.
  intros Hm s r s' Hok Hrun.
  apply (store_ok_same_objects s); [done | by eapply Hm].
Qed.

Variable op_ctx : op_context.

Lemma triple_mem_alloc_handle parent name type attrs_in :
  triple store_ok (_mem_alloc_handle op_ctx parent name type attrs_in)
    (λ _, store_ok).
Proof.
  unfold _mem_alloc_handle.
  eapply triple_bind; [apply triple_gsh_calloc|]. intros hdl.
  eapply triple_bind; [apply keeps_ok_pending; keeps_go|]. intros [].
  eapply triple_bind; [apply keeps_ok_pending; keeps_go|]. intros s0.
  eapply triple_bind; [apply keeps_ok_pending; keeps_go|]. intros o.
  destruct (fullpath _ _ _ _) as [[pathbuf rc]|];
    [|intros s r s' _ Hrun; discriminate].
  destruct (rc <? 0).
  - eapply triple_bind; [|intros; apply triple_ret].
    eapply triple_weaken; [| |apply (triple_gsh_free_handle ∅)].
    + intros s Hs. eapply (ok_pending_same_objects _ s s);
        [|apply same_objects_refl]. destruct Hs as [Hl Hh]. split; [|done].
      intros q. rewrite Hl. by rewrite union_empty_l_L.
    + intros a s Hs. by apply store_ok_pending.
  - eapply triple_bind; [apply keeps_ok_pending; keeps_go|]. intros [].
    eapply triple_bind;
      [apply triple_set_handle, package_mem_handle_length|]. intros [].
    eapply triple_bind; [apply keeps_ok_pending; keeps_go|]. intros [].
    eapply triple_bind; [apply keeps_ok_pending; keeps_go|]. intros s1.
    eapply triple_bind; [apply keeps_ok_pending; keeps_go|]. intros [].
    eapply triple_bind; [apply keeps_ok_pending; keeps_go|]. intros [].
    eapply triple_bind; [apply keeps_ok_pending; keeps_go|]. intros [].
    eapply triple_bind; [apply triple_fsal_obj_handle_init|]. intros [].
    apply keeps_store_ok. keeps_go.
Qed.

Lemma pres_bind {A B} (I : store → Prop) (m : M A) (f : A → M B) :
  triple I m (λ _, I) → (∀ a, triple I (f a) (λ _, I)) →
  triple I (m ≫= f) (λ _, I).
Proof. intros Hm Hf. by eapply triple_bind. Qed.

Lemma pres_fault {A} (I : store → Prop) : triple I (@fault A) (λ _, I).
Proof. intros s r s' _ H. discriminate. Qed.

Ltac pres_go :=
  repeat first
    [ assumption
    | apply triple_mem_alloc_handle
    | apply keeps_store_ok; solve [keeps_go]
    | apply keeps_ok_pending; solve [keeps_go]
    | apply triple_ret
    | apply pres_fault
    | apply pres_bind; [|intros ?]
    | match goal with
      | |- triple _ (if ?b then _ else _) _ => destruct b
      | |- triple _ (match ?x with _ => _ end) _ => destruct x
      end ].

Lemma triple_mem_create_obj parent type name attrs_in attrs_out :
  triple store_ok (mem_create_obj op_ctx parent type name attrs_in attrs_out)
    (λ _, store_ok).
Proof. unfold mem_create_obj. pres_go. Qed.

Lemma triple_mem_symlink dir name link a out :
  triple store_ok (mem_symlink op_ctx dir name link a out) (λ _, store_ok).
Proof.
  unfold mem_symlink. apply pres_bind; [apply triple_mem_create_obj|].
  intros r. pres_go.
Qed.

Lemma triple_mem_lookup_path path out :
  triple store_ok (mem_lookup_path op_ctx path out) (λ _, store_ok).
Proof. unfold mem_lookup_path. pres_go. Qed.

Lemma triple_mem_open2 obj state flags mode name a v out :
  triple store_ok (mem_open2 op_ctx obj state flags mode name a v out)
    (λ _, store_ok).
Proof.
  unfold mem_open2. cbv zeta. destruct name as [name|].
  2:{ apply keeps_store_ok. apply keeps_mem_open2_by_handle. }
  unfold mem_open2_by_name. cbv zeta.
  apply pres_bind; [apply keeps_store_ok; keeps_go|]. intros r.
  apply pres_bind.
  { destruct (FSAL_IS_ERROR r.1).
    - destruct (negb _); [apply triple_ret|].
      apply pres_bind; [apply triple_mem_create_obj|]. intros c. pres_go.
    - pres_go. }
  intros found. pres_go.
Qed.

(** Release, started with the objects of [P] already taken off the
    list. *)
Lemma triple_mem_clean_dir_tree_loop rel :
  (∀ P c, triple (ok_pending P) (rel c) (λ _, ok_pending P)) →
  ∀ fuel P parent,
    triple (ok_pending P) (mem_clean_dir_tree_loop fuel rel parent)
      (λ _, ok_pending P).
Proof.
  intros Hrel. induction fuel as [|fuel IH]; intros P parent; simpl.
  { apply pres_fault. }
  apply pres_bind; [apply keeps_ok_pending; keeps_go|]. intros p.
  destruct (avltree_first _); [|apply triple_ret].
  apply pres_bind; [|intros; apply IH].
  unfold mem_remove_obj_locked.
  apply pres_bind; [apply keeps_ok_pending; keeps_go|]. intros c.
  destruct (negb _); [apply triple_ret|].
  repeat (apply pres_bind; [apply keeps_ok_pending; keeps_go|]; intros []).
  apply Hrel.
Qed.

Lemma triple_fsal_obj_handle_fini P p :
  triple (ok_pending P) (fsal_obj_handle_fini p)
    (λ _, ok_pending (P ∪ {[p]})).
Proof.
  intros s r s' [Hl Hh] Hrun. inversion Hrun; subst; clear Hrun.
  split; simpl; [|done]. intros q.
  rewrite list_elem_of_filter, Hl, not_elem_of_union, not_elem_of_singleton.
  tauto.
Qed.

Lemma triple_mem_release fuel : ∀ P p,
  triple (ok_pending P) (mem_release fuel p) (λ _, ok_pending P).
Proof.
  induction fuel as [|fuel IH]; intros P p; simpl; [apply pres_fault|].
  apply pres_bind; [apply keeps_ok_pending; keeps_go|]. intros myself.
  destruct (_ || _); [apply triple_ret|].
  eapply triple_bind; [apply triple_fsal_obj_handle_fini|]. intros [].
  eapply triple_bind.
  { instantiate (1 := λ _, ok_pending (P ∪ {[p]})).
    destruct (obj_type myself);
      try apply triple_ret.
    - unfold free_link_contents. apply keeps_ok_pending. keeps_go.
    - apply triple_mem_clean_dir_tree_loop. intros P' c. apply IH. }
  intros []. unfold mem_free_handle.
  eapply triple_bind; [apply keeps_ok_pending; keeps_go|]. intros [].
  apply triple_gsh_free_handle.
Qed.

Lemma triple_mem_clean_dir_tree fuel P parent :
  triple (ok_pending P) (mem_clean_dir_tree fuel parent) (λ _, ok_pending P).
Proof.
  unfold mem_clean_dir_tree. apply triple_mem_clean_dir_tree_loop.
  intros P' c. apply triple_mem_release.
Qed.

Lemma triple_pending_store_ok {A} (m : M A) :
  triple (ok_pending ∅) m (λ _, ok_pending ∅) →
  triple store_ok m (λ _, store_ok).
Proof.
  intros Hm s r s' Hok Hrun. apply store_ok_pending.
  apply (Hm s r s'); [by apply store_ok_pending | done].
Qed.

Lemma exec_store_ok c s s' :
  store_ok s → exec op_ctx c s = Some s' → store_ok s'.
Proof.
  intros Hok Hrun.
  assert (Hgo : ∀ A (m : M A), triple store_ok m (λ _, store_ok) →
            run m s = Some s' → store_ok s').
  { intros A m Hm Hr. unfold run in Hr.
    destruct (m s) as [[r s1]|] eqn:Hms; [|done].
    inversion Hr; subst. by apply (Hm s r s'). }
  destruct c; unfold exec in Hrun; eapply Hgo; try exact Hrun.
  - apply triple_mem_lookup_path.
  - apply triple_mem_create_obj.
  - apply triple_mem_symlink.
  - apply keeps_store_ok, keeps_mem_getattrs.
  - apply keeps_store_ok, keeps_mem_unlink.
  - apply keeps_store_ok, keeps_mem_rename.
  - apply triple_mem_open2.
  - apply keeps_store_ok, keeps_mem_close.
  - apply keeps_store_ok, keeps_mem_read2.
  - apply keeps_store_ok, keeps_mem_write2.
  - apply triple_pending_store_ok, triple_mem_release.
  - apply triple_pending_store_ok, triple_mem_clean_dir_tree.
Qed.
End store_invariant.

Lemma empty_store_ok {E : fsal_env} : store_ok empty_store.
Proof.
  split.
  - intros q. simpl. rewrite lookup_empty. split; [intros H; inversion H|].
    intros [? ?]. done.
  - intros q oq. simpl. by rewrite lookup_empty.
Qed.

(** Every store the interface can produce keeps its allocated objects on
    the list scanned by handle resolution, each with a full-size handle. *)
Lemma reachable_store_ok {E : fsal_env} s :
  10 ≤ V4_FH_OPAQUE_SIZE → reachable s → store_ok s.
Proof.
  intros Hmin. induction 1 as [|op_ctx c s s' _ IH Hexec].
  - apply empty_store_ok.
  - by apply (exec_store_ok Hmin op_ctx c s s').
Qed.

(** ** Instances on the example file *)

Lemma demo_data_ok len : data_ok (demo_file len).
Proof. split; [simpl; lia | reflexivity]. Qed.

Lemma demo_read_admitted len :
  read_admitted (H := model_env) (demo_file len) false None.
Proof. split; [intros ? [=] | reflexivity]. Qed.

Lemma mem_read2_clamps_and_fills_witness :
  ∃ r s',
    mem_read2 (E := model_env) model_ctx 1%positive false None 0 20 false
      (demo_store 10)
    = Some ((fsalstat ERR_FSAL_NO_ERROR 0, Some r), s') ∧
    read_amount r = 10 ∧ end_of_file r = (read_amount r =? 0).
Proof.
  destruct (mem_read2_clamps_and_fills (E := model_env) model_ctx
              (demo_store 10) 1%positive (demo_file 10) false None 0 20)
    as (r & s' & H1 & H2 & H3 & _);
    [reflexivity | lia | lia | lia | simpl; lia | apply demo_data_ok
    | apply demo_read_admitted |].
  exists r, s'. split; [exact H1|]. split; [exact H2 | exact H3].
Defined.

(** C2. The end-of-file flag of a shortened read: a read of 20 bytes at
    offset 0 of a regular file of logical length 10 is cut to 10 bytes,
    which reaches the end of the file, and yet reports end-of-file =
    false. [mem_read2] sets the flag from [buffer_size == 0] after the
    clamp, against its own description of the flag ("true if the end of
    file has been reached"). *)
Lemma mem_read2_short_read_no_eof :
  ∃ r s',
    mem_read2 (E := model_env) model_ctx 1%positive false None 0 20 false
      (demo_store 10)
    = Some ((fsalstat ERR_FSAL_NO_ERROR 0, Some r), s') ∧
    read_amount r = 10 ∧ read_amount r < 20 ∧ end_of_file r ≠ true.
Proof.
  destruct (mem_read2_run (E := model_env) model_ctx
              (demo_store 10) 1%positive (demo_file 10) false None 0 20)
    as (r & H1 & H2 & H3 & _);
    [reflexivity | lia | lia | lia | simpl; lia | apply demo_data_ok
    | apply demo_read_admitted |].
  exists r. eexists. split; [exact H1|].
  assert (Hr : read_amount r = 10) by (rewrite H2; reflexivity).
  split; [exact Hr|]. split; [lia|]. rewrite H3, Hr. discriminate.
Qed.

Lemma mem_write2_then_read_full_witness :
  ∃ s1 o1 r s2,
    mem_write2 (E := model_env) model_ctx 1%positive false None 9
      [x41; x42; x43] false (demo_store 10)
    = Some ((fsalstat ERR_FSAL_NO_ERROR 0, Some 3), s1) ∧
    heap s1 !! 1%positive = Some o1 ∧
    file_length (mh_file o1) = 12 ∧
    filesize (attrs o1) = 12 ∧
    data o1 = data (demo_file 10) ∧
    mem_read2 (E := model_env) model_ctx 1%positive false None 0
      (file_length (mh_file o1)) false s1
    = Some ((fsalstat ERR_FSAL_NO_ERROR 0, Some r), s2) ∧
    read_amount r = 12.
Proof.
  destruct (mem_write2_then_read_full (E := model_env) model_ctx
              (demo_store 10) 1%positive (demo_file 10) false None 9
              [x41; x42; x43])
    as (s1 & o1 & r & s2 & H1 & H2 & H3 & H4 & H5 & _ & H7 & H8 & _);
    [reflexivity | lia | simpl; lia | simpl; lia | apply demo_data_ok
    | reflexivity | apply demo_read_admitted |].
  exists s1, o1, r, s2. split; [exact H1|]. split; [exact H2|].
  split; [exact H3|]. split; [exact H4|]. split; [apply H5; simpl; lia|].
  split; [exact H7|]. rewrite H8. exact H3.
Defined.

(** C7, the claim as stated fails: one byte written at offset 9 (beyond
    the capacity of 8) of a file of logical length 12 leaves the logical
    length at 12, not at offset + len = 10. *)
Lemma mem_write2_keeps_longer_length :
  ∃ s1 o1,
    mem_write2 (E := model_env) model_ctx 1%positive false None 9 [x41] false
      (demo_store 12)
    = Some ((fsalstat ERR_FSAL_NO_ERROR 0, Some 1), s1) ∧
    heap s1 !! 1%positive = Some o1 ∧
    file_length (mh_file o1) = 12 ∧
    file_length (mh_file o1) ≠ 9 + 1.
Proof.
  destruct (mem_write2_run (E := model_env) model_ctx
              (demo_store 12) 1%positive (demo_file 12) false None 9 [x41])
    as (s1 & o1 & H1 & H2 & H3 & _);
    [reflexivity | lia | simpl; lia | simpl; lia | apply demo_data_ok
    | reflexivity |].
  exists s1, o1. split; [exact H1|]. split; [exact H2|].
  assert (Hl : file_length (mh_file o1) = 12) by (rewrite H3; reflexivity).
  split; [exact Hl | lia].
Qed.

Lemma io_with_state_requires_open_mode_witness :
  mem_read2 (E := model_env) model_ctx 1%positive false
    (Some {| openflags := FSAL_O_CLOSED; fd_offset := 0 |}) 0 4 false
    (demo_store 10)
  = Some ((fsalstat ERR_FSAL_NOT_OPENED 0, None), demo_store 10) ∧
  mem_write2 (E := model_env) model_ctx 1%positive false
    (Some {| openflags := FSAL_O_READ; fd_offset := 0 |}) 0 [x41] false
    (demo_store 10)
  = Some ((fsalstat ERR_FSAL_NOT_OPENED 0, None), demo_store 10).
Proof.
  destruct (io_with_state_requires_open_mode (E := model_env) model_ctx
              (demo_store 10) 1%positive (demo_file 10) false 0 4 [x41])
    as (H & _);
    [reflexivity | lia | lia | lia | simpl; lia | simpl; lia
    | apply demo_data_ok |].
  split.
  - destruct (H {| openflags := FSAL_O_CLOSED; fd_offset := 0 |})
      as (Hr & _). apply Hr. reflexivity.
  - destruct (H {| openflags := FSAL_O_READ; fd_offset := 0 |})
      as (_ & Hw & _). apply Hw. reflexivity.
Defined.

(** ** Instances on the example tree *)

Example tree_store_objects :
  fsal_handles tree_store
  = [1%positive; 2%positive; 3%positive; 4%positive; 5%positive; 6%positive]
  ∧ m_name <$> (heap tree_store !! 4%positive) = Some "l"
  ∧ avl_index (mh_dir (obj_at tree_store 2%positive))
    = [(2, 3%positive); (3, 4%positive); (4, 5%positive)]
  ∧ avl_name (mh_dir (obj_at tree_store 2%positive))
    = [("e", 5%positive); ("f", 3%positive); ("l", 4%positive)]
  ∧ next_i (obj_at tree_store 2%positive) = 5
  ∧ dir_numlinks (mh_dir (obj_at tree_store 2%positive)) = 5.
Proof. vm_compute. repeat split. Qed.


Lemma tree_dir_index_ok : dir_index_ok (heap tree_store) (obj_at tree_store 2%positive).
Proof.
  split; [vm_compute; split; [discriminate | reflexivity]|]. split.
  - replace (avl_index (mh_dir (obj_at tree_store 2%positive)))
      with [(2, 3%positive); (3, 4%positive); (4, 5%positive)]
      by (vm_compute; reflexivity).
    repeat constructor; simpl; lia.
  - intros k c Hin.
    replace (avl_index (mh_dir (obj_at tree_store 2%positive)))
      with [(2, 3%positive); (3, 4%positive); (4, 5%positive)] in Hin
      by (vm_compute; reflexivity).
    replace (next_i (obj_at tree_store 2%positive)) with 5 by (vm_compute; reflexivity).
    repeat (apply elem_of_cons in Hin as [Heq|Hin];
            [inversion Heq; subst; split; [lia|];
             eexists; split; [vm_compute; reflexivity|];
             split; reflexivity|]).
    inversion Hin.
Qed.

Lemma directory_indices_and_cookies_witness :
  ∃ p1, heap tree_store_unlinked !! 2%positive = Some p1 ∧
        listing (heap tree_store_unlinked) 0 3 (avl_index (mh_dir p1))
        = tail tree_listing.
Proof.
  destruct (directory_indices_and_cookies tree_store 2%positive
              (obj_at tree_store 2%positive))
    as (_ & _ & _ & _ & _ & _ & Hresume);
    [vm_compute; reflexivity | apply tree_dir_index_ok |].
  destruct (Hresume 0 2 [] (default zero_dirent (head tree_listing))
              (tail tree_listing) 3%positive "f" tree_store_unlinked)
    as (_ & p1 & Hp1 & Hl);
    [vm_compute; reflexivity | vm_compute; left
    | vm_compute; reflexivity |].
  exists p1. split; [exact Hp1 | exact Hl].
Defined.

(** C4, the claim as stated fails once the 32-bit counter wraps. In the
    example tree with the next-index counter of "d" at [2^32 - 1] (where
    that many insertions less five leave it), four files created in "d"
    get the indices [2^32 - 1], 0, 1 and 2: they do not increase, and 2 is
    the index that "f", still in the directory, already has. The fourth
    file is then missing from the iteration, whose index tree keeps one
    node per index, and the first file is listed with cookie 0, not with
    [index + 1]. *)
Lemma directory_index_reused_after_wrap :
  fst <$> wrap_scenario tree_store_wrapping
  = Some ([4294967295; 0; 1; 2; 2],
          [("b", 1); ("c", 2); ("f", 3); ("l", 4); ("e", 5); ("a", 0)]).
Proof. vm_compute. reflexivity. Qed.

Lemma tree_dir_names_ok : dir_names_ok (heap tree_store) (obj_at tree_store 5%positive).
Proof.
  replace (obj_at tree_store 5%positive)
    with (set_mh_dir {| avl_name := [("g", 6%positive)];
                        avl_index := avl_index (mh_dir (obj_at tree_store 5%positive));
                        dir_numlinks :=
                          dir_numlinks (mh_dir (obj_at tree_store 5%positive)) |}
            (obj_at tree_store 5%positive))
    by (vm_compute; reflexivity).
  split; simpl.
  - apply NoDup_singleton.
  - intros k c Hin. apply list_elem_of_singleton in Hin. inversion Hin; subst.
    eexists. split; [vm_compute; reflexivity | reflexivity].
Qed.

Example tree_listing_objects :
  (λ e, (d_name e, d_obj e, d_cookie e)) <$> tree_listing
  = [("f", 3%positive, 3); ("l", 4%positive, 4); ("e", 5%positive, 5)].
Proof. vm_compute. reflexivity. Qed.

(** Releasing the removed directory "d" frees "g" and "e", then "f", then
    "l" with its target, then "d"; only the root is left. *)
Example tree_release_runs :
  (λ r, (freed r.2, fsal_handles r.2, dom (heap r.2)))
    <$> mem_release 5 2%positive tree_store_removed
  = Some ([Free_handle 6%positive; Free_handle 5%positive;
           Free_handle 3%positive; Free_link 4%positive;
           Free_handle 4%positive; Free_handle 2%positive],
          [1%positive], {[1%positive]}).
Proof. vm_compute. reflexivity. Qed.

(** The shape of the removed directory "d" (object 2), stated on any heap
    that holds it. *)
Lemma tree_shape_subtree (h : gmap ptr mem_fsal_obj_handle) o2 o3 o4 o5 o6 :
  h !! 2%positive = Some o2 → h !! 3%positive = Some o3 →
  h !! 4%positive = Some o4 → h !! 5%positive = Some o5 →
  h !! 6%positive = Some o6 →
  obj_type o2 = DIRECTORY → obj_type o5 = DIRECTORY →
  obj_type o3 = REGULAR_FILE → obj_type o4 = SYMBOLIC_LINK →
  obj_type o6 = REGULAR_FILE →
  avl_name (mh_dir o2)
  = [("e", 5%positive); ("f", 3%positive); ("l", 4%positive)] →
  avl_name (mh_dir o5) = [("g", 6%positive)] →
  (∀ o, o ∈ [o3; o4; o5; o6] → inavl o = true ∧ parent o ≠ None) →
  subtree 3 h 2%positive
    ({[2%positive]}
     ∪ (({[5%positive]} ∪ ({[6%positive]} ∪ ∅))
        ∪ ({[3%positive]} ∪ ({[4%positive]} ∪ ∅)))).
Proof.
  intros H2 H3 H4 H5 H6 T2 T5 T3 T4 T6 N2 N5 Hin.
  assert (Hleaf : ∀ n p o, h !! p = Some o → obj_type o ≠ DIRECTORY →
            subtree (S n) h p {[p]}).
  { intros n p o Ho Ht. exists o. split; [done|].
    by rewrite bool_decide_eq_false_2. }
  assert (Hkid : ∀ p o, h !! p = Some o → o ∈ [o3; o4; o5; o6] →
            ∃ oc, h !! p = Some oc ∧ inavl oc = true ∧ parent oc ≠ None).
  { intros p o Ho Hel. exists o. split; [done|]. by apply Hin. }
  exists o2. split; [done|]. rewrite bool_decide_eq_true_2 by done.
  eexists. split; [reflexivity|]. split; [set_solver|]. rewrite N2.
  eexists _, _. split; [reflexivity|]. split; [set_solver|].
  split; [apply (Hkid _ o5 H5); set_solver|]. split.
  { exists o5. split; [done|]. rewrite bool_decide_eq_true_2 by done.
    eexists. split; [reflexivity|]. split; [set_solver|]. rewrite N5.
    eexists _, _. split; [reflexivity|]. split; [set_solver|].
    split; [apply (Hkid _ o6 H6); set_solver|].
    split; [|reflexivity]. apply (Hleaf _ _ o6 H6). by rewrite T6. }
  eexists _, _. split; [reflexivity|]. split; [set_solver|].
  split; [apply (Hkid _ o3 H3); set_solver|].
  split; [apply (Hleaf _ _ o3 H3); by rewrite T3|].
  eexists _, _. split; [reflexivity|]. split; [set_solver|].
  split; [apply (Hkid _ o4 H4); set_solver|].
  split; [apply (Hleaf _ _ o4 H4); by rewrite T4|]. reflexivity.
Qed.

Lemma tree_removed_subtree :
  subtree 3 (heap tree_store_removed) 2%positive
    ({[2%positive]}
     ∪ (({[5%positive]} ∪ ({[6%positive]} ∪ ∅))
        ∪ ({[3%positive]} ∪ ({[4%positive]} ∪ ∅)))).
Proof.
  apply (tree_shape_subtree _
           (obj_at tree_store_removed 2%positive)
           (obj_at tree_store_removed 3%positive)
           (obj_at tree_store_removed 4%positive)
           (obj_at tree_store_removed 5%positive)
           (obj_at tree_store_removed 6%positive));
    try (vm_compute; reflexivity).
  intros o Ho.
  repeat (apply elem_of_cons in Ho as [->|Ho];
          [split; [vm_compute; reflexivity | vm_compute; discriminate]|]).
  inversion Ho.
Qed.

Lemma mem_release_live_or_teardown_witness :
  mem_release 1 5%positive tree_store_removed = Some (tt, tree_store_removed)
  ∧ ∃ fuel0 s',
      torn_down ({[2%positive]}
                 ∪ (({[5%positive]} ∪ ({[6%positive]} ∪ ∅))
                    ∪ ({[3%positive]} ∪ ({[4%positive]} ∪ ∅))))
        tree_store_removed s' ∧
      ∀ fuel, (fuel0 ≤ fuel)%nat →
        mem_release fuel 2%positive tree_store_removed = Some (tt, s').
Proof.
  split.
  - destruct (mem_release_live_or_teardown tree_store_removed 5%positive
                (obj_at tree_store_removed 5%positive))
      as (Hlive & _); [vm_compute; reflexivity|].
    apply Hlive. right. vm_compute. reflexivity.
  - destruct (mem_release_live_or_teardown tree_store_removed 2%positive
                (obj_at tree_store_removed 2%positive))
      as (_ & _ & Htear & _); [vm_compute; reflexivity|].
    apply (Htear ltac:(vm_compute; discriminate)
             ltac:(vm_compute; reflexivity) 3%nat).
    apply tree_removed_subtree.
Defined.

Lemma foldl_exec_reachable (cs : list call) : ∀ s s',
  reachable (H := model_env) s →
  foldl (λ r c, r ≫= exec (H := model_env) model_ctx c) (Some s) cs = Some s' →
  reachable (H := model_env) s'.
Proof.
  induction cs as [|c cs IH]; intros s s' Hs Hrun; simpl in Hrun.
  - by inversion Hrun; subst.
  - destruct (exec model_ctx c s) as [s1|] eqn:Hc.
    + apply (IH s1 s'); [|exact Hrun]. by apply (reachable_step model_ctx c s).
    + exfalso. clear -Hrun. induction cs as [|c' cs IH']; [done|].
      by apply IH'.
Qed.

Lemma tree_store_reachable : reachable (H := model_env) tree_store.
Proof.
  apply (foldl_exec_reachable tree_calls empty_store);
    [apply reachable_empty | vm_compute; reflexivity].
Qed.

Lemma tree_store_ok : store_ok (H := model_env) tree_store.
Proof.
  apply reachable_store_ok; [vm_compute; discriminate|].
  apply tree_store_reachable.
Qed.

Lemma mem_create_handle_round_trip_witness :
  mem_create_handle (E := model_env)
    (handle (obj_at tree_store 3%positive)) None tree_store
  = Some ((fsalstat ERR_FSAL_NO_ERROR 0, Some 3%positive,
           copy_out None (attrs (obj_at tree_store 3%positive))),
          tree_store).
Proof.
  apply (mem_create_handle_round_trip (E := model_env) tree_store 3%positive
           (obj_at tree_store 3%positive) None tree_store_ok);
    [vm_compute; reflexivity|].
  intros q oq Hq Hh.
  assert (Hin : q ∈ fsal_handles tree_store).
  { apply tree_store_ok. by exists oq. }
  vm_compute in Hin.
  repeat (apply elem_of_cons in Hin as [->|Hin];
          [vm_compute in Hq; inversion Hq; subst oq; vm_compute in Hh;
           first [reflexivity | discriminate]|]).
  inversion Hin.
Defined.

(** * The other methods, and more about the ones above *)

(** ** Attributes, re-open and close *)

Section methods.
Context {E : fsal_env} {T : fsal_time_env}.
Variable op_ctx : op_context.

Lemma set_heap_same s p o :
  heap s !! p = Some o → set_heap (<[p := o]> (heap s)) s = s.
Proof. intros H. rewrite insert_id by done. by destruct s. Qed.

Lemma set_attrs_same o : set_attrs (attrs o) o = o.
Proof. by destruct o. Qed.

Lemma with_attrs_same s p o :
  heap s !! p = Some o → with_attrs s p o (attrs o) = s.
Proof. intros H. unfold with_attrs. by rewrite set_attrs_same, set_heap_same. Qed.

Lemma attr_steps_modify s p o f :
  attr_steps s p o (modify p (λ o, set_attrs (f (attrs o)) o)) f.
Proof.
  intros A. unfold with_attrs.
  erewrite modify_run by (simpl; apply lookup_insert_eq).
  simpl. by rewrite insert_insert_eq.
Qed.

Lemma attr_steps_ret s p o : attr_steps s p o (mret tt) id.
Proof. by intros A. Qed.

Lemma attr_steps_if s p o (b : bool) m1 m2 g1 g2 :
  attr_steps s p o m1 g1 → attr_steps s p o m2 g2 →
  attr_steps s p o (if b then m1 else m2) (if b then g1 else g2).
Proof. by destruct b. Qed.

Lemma attr_steps_seq s p o m1 m2 g1 g2 :
  attr_steps s p o m1 g1 → attr_steps s p o m2 g2 →
  attr_steps s p o (m1 ;; m2) (g2 ∘ g1).
Proof.
  intros H1 H2 A. by rewrite (bind_run _ _ _ _ _ (H1 A)), H2.
Qed.

Lemma attr_steps_run {B} s p o m g (k : unit → M B) A :
  attr_steps s p o m g →
  (m ≫= k) (with_attrs s p o A) = k tt (with_attrs s p o (g A)).
Proof. intros H. by rewrite (bind_run _ _ _ _ _ (H A)). Qed.

(** [mem_setattr2] touches nothing but the attributes of the object. *)
Lemma mem_setattr2_frame s obj o bypass state a r s1 :
  heap s !! obj = Some o →
  mem_setattr2 op_ctx obj bypass state a s = Some (r, s1) →
  ∃ A, s1 = with_attrs s obj o A.
Proof.
  intros Ho. unfold mem_setattr2. cbv zeta. intros Hrun.
  apply bind_inv in Hrun as (wrong & s0 & Htest & Hrun).
  assert (s0 = s) as ->.
  { destruct (test_mask _ ATTR_SIZE); [|by inversion Htest].
    run_load Ho in Htest. by inversion Htest. }
  destruct wrong.
  { exists (attrs o). rewrite with_attrs_same by done. by inversion Hrun. }
  rewrite <- (with_attrs_same s obj o Ho) in Hrun at 1.
  repeat (erewrite attr_steps_run in Hrun;
    [|repeat first [ apply attr_steps_modify | apply attr_steps_ret
                   | apply attr_steps_if | apply attr_steps_seq ]]).
  eexists. by inversion Hrun.
Qed.

(** X1. [mem_setattr2] refuses to set the size of an object that is not a
    regular file, with [ERR_FSAL_INVAL]/[EINVAL], and then changes nothing.
    Otherwise it succeeds, with the status [ERR_FSAL_NO_ERROR] carrying
    the minor code [EINVAL], and writes exactly the attributes named in
    the mask: size, mode (with the export's umask taken off), owner,
    group, access and modify time (a server-time bit stores
    [0, UTIME_NOW]); change time, change counter and space used are left
    alone. *)
Theorem mem_setattr2_sets_named_attributes s obj o bypass state a :
  heap s !! obj = Some o →
  let has := test_mask (valid_mask a) in
  let a' := if has ATTR_MODE
            then set_mode (Z.land (mode a) (Z.lnot (fs_umask op_ctx))) a
            else a in
  (has ATTR_SIZE = true → obj_type o ≠ REGULAR_FILE →
   mem_setattr2 op_ctx obj bypass state a s
   = Some ((fsalstat ERR_FSAL_INVAL EINVAL, a'), s)) ∧
  (has ATTR_SIZE = false ∨ obj_type o = REGULAR_FILE →
   ∃ A,
     mem_setattr2 op_ctx obj bypass state a s
     = Some ((fsalstat ERR_FSAL_NO_ERROR EINVAL, a'), with_attrs s obj o A) ∧
     filesize A = (if has ATTR_SIZE then filesize a else filesize (attrs o)) ∧
     mode A = (if has ATTR_MODE then mode a' else mode (attrs o)) ∧
     owner A = (if has ATTR_OWNER then owner a else owner (attrs o)) ∧
     group A = (if has ATTR_GROUP then group a else group (attrs o)) ∧
     atime A = (if has ATTRS_SET_TIME
                then if has ATTR_ATIME_SERVER
                     then {| tv_sec := 0; tv_nsec := UTIME_NOW |}
                     else if has ATTR_ATIME then atime a else atime (attrs o)
                else atime (attrs o)) ∧
     mtime A = (if has ATTRS_SET_TIME
                then if has ATTR_MTIME_SERVER
                     then {| tv_sec := 0; tv_nsec := UTIME_NOW |}
                     else if has ATTR_MTIME then mtime a else mtime (attrs o)
                else mtime (attrs o)) ∧
     (λ x, (request_mask x, valid_mask x, supported x, a_type x, fileid x,
            numlinks x, rawdev x, creation x, ctime x, chgtime x,
            spaceused x, change x)) A
     = (λ x, (request_mask x, valid_mask x, supported x, a_type x, fileid x,
              numlinks x, rawdev x, creation x, ctime x, chgtime x,
              spaceused x, change x)) (attrs o)).
Proof.
  intros Ho has a'. split.
  - intros Hsize Htype. unfold mem_setattr2. cbv zeta. fold has. fold a'.
    rewrite Hsize.
    rewrite (bind_run _ _ s true s); [reflexivity|]. run_load Ho.
    by rewrite bool_decide_eq_false_2.
  - intros Hok. unfold mem_setattr2. cbv zeta. fold has. fold a'.
    assert (Htest :
      (if has ATTR_SIZE
       then load obj ≫= λ myself,
              mret (negb (bool_decide (obj_type myself = REGULAR_FILE)))
       else mret false) s = Some (false, s)).
    { destruct (has ATTR_SIZE); [|done]. run_load Ho.
      destruct Hok as [|Ht]; [done|]. by rewrite bool_decide_eq_true_2. }
    rewrite (bind_run _ _ _ _ _ Htest). cbv iota.
    eexists. split.
    { rewrite <- (with_attrs_same s obj o Ho) at 1.
      repeat (erewrite attr_steps_run;
        [|repeat first [ apply attr_steps_modify | apply attr_steps_ret
                       | apply attr_steps_if | apply attr_steps_seq ]]).
      reflexivity. }
    clear Htest Hok. subst a'. clearbody has. clear Ho.
    destruct (has ATTR_SIZE), (has ATTR_MODE), (has ATTR_OWNER),
      (has ATTR_GROUP), (has ATTRS_SET_TIME), (has ATTR_ATIME_SERVER),
      (has ATTR_MTIME_SERVER), (has ATTR_ATIME), (has ATTR_MTIME);
      repeat split.
Qed.

(** Reading through [mem_read2] does not look at the attributes. *)
Lemma mem_read2_with_attrs s obj o A bypass state offset size info :
  heap s !! obj = Some o →
  fst <$> mem_read2 op_ctx obj bypass state offset size info
            (with_attrs s obj o A)
  = fst <$> mem_read2 op_ctx obj bypass state offset size info s.
Proof.
  intros Ho. unfold mem_read2. destruct info; [done|].
  destruct (match state with Some _ => _ | None => _ end); [done|].
  assert (Ho' : heap (with_attrs s obj o A) !! obj = Some (set_attrs A o))
    by apply lookup_insert_eq.
  run_load Ho. run_load Ho'. simpl.
  destruct (FSAL_IS_ERROR _); [done|].
  unfold read_data. simpl.
  destruct (offset <? datasize o).
  - destruct (_ <? _); [done|].
    erewrite !bind_run by (apply modify_run; eassumption). done.
  - erewrite !bind_run by (apply modify_run; eassumption). done.
Qed.

(** X2. Setting the size through [mem_setattr2] only writes the file size
    attribute: the logical length, the data capacity and the data of the
    file are untouched, so that [mem_read2] returns afterwards what it
    returned before, whatever size was set. *)
Theorem mem_setattr2_size_keeps_data s obj o bypass state a r s1 :
  heap s !! obj = Some o →
  mem_setattr2 op_ctx obj bypass state a s = Some (r, s1) →
  ∃ o1, heap s1 !! obj = Some o1 ∧
        mh_file o1 = mh_file o ∧ datasize o1 = datasize o ∧
        data o1 = data o ∧
        ∀ bypass' state' offset size,
          fst <$> mem_read2 op_ctx obj bypass' state' offset size false s1
          = fst <$> mem_read2 op_ctx obj bypass' state' offset size false s.
Proof.
  intros Ho Hrun.
  destruct (mem_setattr2_frame s obj o bypass state a r s1 Ho Hrun)
    as [A ->].
  exists (set_attrs A o). split; [apply lookup_insert_eq|].
  repeat split. intros. by apply mem_read2_with_attrs.
Qed.
End methods.

Section reopen_close.
Context {E : fsal_env} {T : fsal_time_env}.

(** X3. [mem_reopen2] on a regular file checks the new flags against the
    share reservations of the file first: on a conflict it returns that
    status and leaves the object and the caller's state as they were.
    Otherwise it moves the share counters from the old flags to the new
    ones and stores the new flags in the caller's descriptor as given
    (write does not add read here), with offset 0; [FSAL_O_TRUNC] zeroes
    the size and space-used attributes, and nothing else: the other
    attributes and the logical length stay. Without a state the call
    faults. *)
Theorem mem_reopen2_conflict_or_swap s obj o my_fd flags :
  heap s !! obj = Some o → obj_type o = REGULAR_FILE →
  let status := check_share_conflict (share (mh_file o)) flags false in
  mem_reopen2 obj None flags s = None ∧
  (FSAL_IS_ERROR status = true →
   mem_reopen2 obj (Some my_fd) flags s = Some ((status, Some my_fd), s)) ∧
  (FSAL_IS_ERROR status = false →
   ∃ o1,
     mem_reopen2 obj (Some my_fd) flags s
     = Some ((status, Some {| openflags := flags; fd_offset := 0 |}),
             set_heap (<[obj := o1]> (heap s)) s) ∧
     share (mh_file o1)
     = update_share_counters (share (mh_file o)) (openflags my_fd) flags ∧
     fd (mh_file o1) = fd (mh_file o) ∧
     file_length (mh_file o1) = file_length (mh_file o) ∧
     data o1 = data o ∧
     attrs o1
     = (if test_mask flags FSAL_O_TRUNC
        then set_filesize 0 (set_spaceused 0 (attrs o)) else attrs o)).
Proof.
  intros Ho _ status. split; [done|]. destruct my_fd as [old off]. split.
  - intros Herr. unfold mem_reopen2. run_load Ho. fold status.
    by rewrite Herr.
  - intros Hok. unfold mem_reopen2. run_load Ho. fold status. rewrite Hok.
    unfold update_share, truncate_attrs. run_modify.
    destruct (test_mask flags FSAL_O_TRUNC).
    + run_modify. simpl. rewrite insert_insert_eq.
      eexists. split; [reflexivity|]. by simpl.
    + simpl. eexists. split; [reflexivity|]. by simpl.
Qed.

(** X4. [mem_close2] on a regular file gives back the share counters taken
    with the flags of the descriptor behind the state, for the three share
    kinds of state only, and then closes the global descriptor of the
    object, not the one behind the state. So after any [mem_close2] on a
    file, [mem_unlink] no longer refuses the file as open, whoever had
    opened the global descriptor. Without a state the call faults. *)
Theorem mem_close2_closes_global_fd s obj o state_type my_fd :
  heap s !! obj = Some o → obj_type o = REGULAR_FILE →
  let is_share := bool_decide (state_type ∈ [STATE_TYPE_SHARE;
                    STATE_TYPE_NLM_SHARE; STATE_TYPE_9P_FID]) in
  mem_close2 obj None s = None ∧
  ∃ o1 s1,
    mem_close2 obj (Some (state_type, my_fd)) s
    = Some (fsalstat ERR_FSAL_NO_ERROR 0, s1) ∧
    s1 = set_heap (<[obj := o1]> (heap s)) s ∧
    openflags (fd (mh_file o1)) = FSAL_O_CLOSED ∧
    fd_offset (fd (mh_file o1)) = fd_offset (fd (mh_file o)) ∧
    share (mh_file o1)
    = (if is_share
       then update_share_counters (share (mh_file o)) (openflags my_fd)
              FSAL_O_CLOSED
       else share (mh_file o)) ∧
    file_length (mh_file o1) = file_length (mh_file o) ∧
    attrs o1 = attrs o ∧ data o1 = data o ∧
    ∀ dir d name,
      heap s !! dir = Some d → dir ≠ obj →
      ∃ s2, mem_unlink dir obj name s1
            = Some (fsalstat ERR_FSAL_NO_ERROR 0, s2).
Proof.
  intros Ho Ht is_share. split; [done|]. unfold mem_close2.
  assert (Hshare : is_share = bool_decide (state_type = STATE_TYPE_SHARE)
                     || bool_decide (state_type = STATE_TYPE_NLM_SHARE)
                     || bool_decide (state_type = STATE_TYPE_9P_FID)).
  { unfold is_share. by destruct state_type; vm_compute. }
  rewrite <- Hshare.
  assert (Hunlink : ∀ o1 dir d name,
    obj_type o1 = REGULAR_FILE →
    openflags (fd (mh_file o1)) = FSAL_O_CLOSED →
    heap s !! dir = Some d → dir ≠ obj →
    ∃ s2, mem_unlink dir obj name (set_heap (<[obj := o1]> (heap s)) s)
          = Some (fsalstat ERR_FSAL_NO_ERROR 0, s2)).
  { intros o1 dir d name Ht1 Hfd Hd Hne. eexists.
    apply (mem_unlink_removes _ dir obj name d o1).
    - simpl. by rewrite lookup_insert_ne.
    - apply lookup_insert_eq.
    - rewrite Ht1. by intros [? _].
    - by intros [_ ?]. }
  destruct is_share; unfold update_share.
  - do 2 run_modify. simpl. rewrite insert_insert_eq.
    eexists _, _. split; [reflexivity|]. split; [reflexivity|].
    repeat (split; [done|]). intros dir d name. by apply Hunlink.
  - rewrite bind_ret. run_modify. simpl.
    eexists _, _. split; [reflexivity|]. split; [reflexivity|].
    repeat (split; [done|]). intros dir d name. by apply Hunlink.
Qed.
End reopen_close.

(** ** Allocation and creation *)

Section alloc.
Context {E : fsal_env}.
Variable op_ctx : op_context.

Lemma fresh_unallocated s : heap s !! fresh (dom (heap s)) = None.
Proof. apply not_elem_of_dom, is_fresh. Qed.

(** [_mem_alloc_handle], run: the object goes to a fresh address; when
    the path does not fit it is freed again, otherwise it is filled in,
    listed and attached. *)
Lemma mem_alloc_handle_run s parent name type attrs_in :
  let hdl := fresh (dom (heap s)) in
  _mem_alloc_handle op_ctx parent name type attrs_in s
  = match new_path s hdl parent name type with
    | None => None
    | Some (pathbuf, rc) =>
        if rc <? 0
        then Some (None, set_freed (freed s ++ [Free_handle hdl]) s)
        else
          (match parent with
           | Some pp => mem_insert_obj pp hdl
           | None => mret tt
           end;; mret (Some hdl))
            (alloc_store s hdl
               (new_object op_ctx parent name type attrs_in
                  (mem_inode_number s) pathbuf))
    end.
Proof.
  intros hdl. unfold _mem_alloc_handle, new_path.
  pose proof (fresh_unallocated s) as Hfresh. fold hdl in Hfresh.
  unfold gsh_calloc. fold hdl.
  rewrite (bind_run _ _ _ hdl
             (set_heap (<[hdl := calloc_handle type]> (heap s)) s))
    by reflexivity.
  run_modify. rewrite bind_get.
  erewrite bind_run by (apply load_run; heap_lookup).
  cbn [heap set_heap]. rewrite !insert_insert_eq.
  destruct (fullpath _ _ _ _) as [[pathbuf rc]|]; [|done].
  destruct (rc <? 0).
  { unfold gsh_free_handle. unfold mbind at 1, M_bind at 1. simpl.
    rewrite lookup_insert_eq. simpl.
    rewrite delete_insert_eq, delete_id by done. by destruct s. }
  rewrite bind_modify_store. do 2 run_modify. rewrite bind_get.
  rewrite bind_modify_store. run_modify.
  unfold fsal_obj_handle_init.
  assert (Hfin : ∀ s0 o0,
    heap s0 = <[hdl := o0]> (heap s) →
    set_obj_type type o0
    = new_object op_ctx parent name type attrs_in (mem_inode_number s)
        pathbuf →
    set_fsal_handles (fsal_handles s0 ++ [hdl])
      (set_heap (<[hdl := set_obj_type type o0]> (heap s0)) s0)
    = alloc_store s hdl
        (new_object op_ctx parent name type attrs_in (mem_inode_number s)
           pathbuf) →
    ((modify hdl (set_obj_type type);;
      modify_store (λ s1, set_fsal_handles (fsal_handles s1 ++ [hdl]) s1));;
     match parent with
     | Some pp => mem_insert_obj pp hdl
     | None => mret tt
     end;; mret (Some hdl)) s0
    = (match parent with
       | Some pp => mem_insert_obj pp hdl
       | None => mret tt
       end;; mret (Some hdl))
        (alloc_store s hdl
           (new_object op_ctx parent name type attrs_in (mem_inode_number s)
              pathbuf))).
  { intros s0 o0 Hh Ho Hs.
    assert (Hl : heap s0 !! hdl = Some o0) by (rewrite Hh; apply lookup_insert_eq).
    rewrite (bind_run _ _ _ tt
               (set_fsal_handles (fsal_handles s0 ++ [hdl])
                  (set_heap (<[hdl := set_obj_type type o0]> (heap s0)) s0))).
    - by rewrite Hs.
    - by rewrite (bind_run _ _ _ _ _ (modify_run _ _ _ _ Hl)). }
  destruct type; simpl;
    try run_modify; try rewrite bind_ret;
    (eapply Hfin;
     [ simpl; rewrite ?insert_insert_eq; reflexivity
     | reflexivity
     | unfold alloc_store; simpl; rewrite ?insert_insert_eq; reflexivity ]).
Qed.
End alloc.

Section create.
Context {E : fsal_env}.
Variable op_ctx : op_context.

Lemma mem_int_lookup_run s dir d path :
  heap s !! dir = Some d →
  mem_int_lookup dir path s
  = Some (if bool_decide (path = "..") then
            match parent d with
            | None => (fsalstat ERR_FSAL_NOENT 0, None)
            | Some pp => (fsalstat ERR_FSAL_NO_ERROR 0, Some pp)
            end
          else if bool_decide (path = ".") then
            (fsalstat ERR_FSAL_NO_ERROR 0, Some dir)
          else
            match avltree_lookup mem_n_cmpf path (avl_name (mh_dir d)) with
            | None => (fsalstat ERR_FSAL_NOENT 0, None)
            | Some node => (fsalstat ERR_FSAL_NO_ERROR 0, Some node)
            end, s).
Proof.
  intros Hd. unfold mem_int_lookup. run_load Hd.
  repeat case_bool_decide; try done.
  - by destruct (parent d).
  - by destruct (avltree_lookup _ _ _).
Qed.

Lemma mem_int_lookup_free s dir d name :
  heap s !! dir = Some d → name_free d name →
  mem_int_lookup dir name s = Some ((fsalstat ERR_FSAL_NOENT 0, None), s).
Proof.
  intros Hd (Hdot & Hdd & Hfree). rewrite (mem_int_lookup_run s dir d) by done.
  case_bool_decide as H1; [by rewrite (Hdd H1)|].
  rewrite bool_decide_eq_false_2 by done. by rewrite Hfree.
Qed.

Lemma created_store_lookup s dir d type name attrs_in pathbuf :
  heap s !! dir = Some d →
  let hdl := fresh (dom (heap s)) in
  let s' := created_store op_ctx s dir d type name attrs_in pathbuf in
  dir ≠ hdl ∧
  heap s' !! hdl
  = Some (set_inavl true
            (set_index (next_i d)
               (new_object op_ctx (Some dir) name type attrs_in
                  (mem_inode_number s) pathbuf))) ∧
  heap s' !! dir = Some (dir_inserted hdl name d) ∧
  ∀ q, q ≠ hdl → q ≠ dir → heap s' !! q = heap s !! q.
Proof.
  intros Hd hdl s'.
  pose proof (fresh_unallocated s) as Hfresh. fold hdl in Hfresh.
  assert (Hne : dir ≠ hdl) by congruence.
  split; [done|]. unfold s', created_store. fold hdl. simpl.
  split; [by rewrite lookup_insert_ne, lookup_insert_eq|].
  split; [apply lookup_insert_eq|].
  intros q Hq1 Hq2. by rewrite !lookup_insert_ne.
Qed.

(** [_mem_alloc_handle] under a directory, when the path fits. *)
Lemma mem_alloc_handle_child s dir d type name attrs_in pathbuf rc :
  heap s !! dir = Some d →
  new_path s (fresh (dom (heap s))) (Some dir) name type
  = Some (pathbuf, rc) →
  0 ≤ rc →
  _mem_alloc_handle op_ctx (Some dir) name type attrs_in s
  = Some (Some (fresh (dom (heap s))),
          created_store op_ctx s dir d type name attrs_in pathbuf).
Proof.
  intros Hd Hpath Hrc.
  pose proof (fresh_unallocated s) as Hfresh.
  assert (Hne : dir ≠ fresh (dom (heap s))) by congruence.
  rewrite mem_alloc_handle_run. cbv zeta. rewrite Hpath.
  destruct (Z.ltb_spec rc 0) as [|_]; [lia|].
  erewrite bind_run.
  2:{ apply (mem_insert_obj_run _ dir _ d); [|apply lookup_insert_eq|done].
      simpl. by rewrite lookup_insert_ne. }
  unfold created_store, heap_inserted. by rewrite decide_False.
Qed.

Lemma mem_create_obj_run s dir d type name attrs_in attrs_out pathbuf rc :
  heap s !! dir = Some d → obj_type d = DIRECTORY → name_free d name →
  new_path s (fresh (dom (heap s))) (Some dir) name type
  = Some (pathbuf, rc) →
  0 ≤ rc →
  mem_create_obj op_ctx dir type name attrs_in attrs_out s
  = Some ((fsalstat ERR_FSAL_NO_ERROR 0, Some (fresh (dom (heap s))),
           copy_out attrs_out
             (alloc_attrs op_ctx type (mem_inode_number s) attrs_in)),
          created_store op_ctx s dir d type name attrs_in pathbuf).
Proof.
  intros Hd Hdir Hfree Hpath Hrc.
  unfold mem_create_obj. run_load Hd.
  rewrite bool_decide_eq_true_2 by done.
  change (negb true) with false. cbv iota.
  rewrite (bind_run _ _ _ _ _ (mem_int_lookup_free s dir d name Hd Hfree)).
  simpl.
  rewrite (bind_run _ _ _ _ _
             (mem_alloc_handle_child s dir d type name attrs_in pathbuf rc
                Hd Hpath Hrc)).
  destruct (created_store_lookup s dir d type name attrs_in pathbuf Hd)
    as (_ & Ho' & _).
  by run_load Ho'.
Qed.

(** X5. Creating a name that is free in a directory, when the path of the
    new object fits the path buffer: the object goes to an address that
    was not allocated, gets the requested type, the current value of the
    inode counter as inode number (the counter moves on), the handle
    packaged from its path, and the directory's next index; it is appended
    to the list of handles, and the directory gains the entry and one
    link. No other object changes. Lookup of the name in the directory
    then returns the new object, unless the name is [..]: that name can be
    created in an export root, where lookup never returns it. *)
Theorem mem_create_obj_creates s dir d type name attrs_in attrs_out
    pathbuf rc :
  let hdl := fresh (dom (heap s)) in
  heap s !! dir = Some d → obj_type d = DIRECTORY → name_free d name →
  new_path s hdl (Some dir) name type = Some (pathbuf, rc) → 0 ≤ rc →
  ∃ s' o' d',
    mem_create_obj op_ctx dir type name attrs_in attrs_out s
    = Some ((fsalstat ERR_FSAL_NO_ERROR 0, Some hdl,
             copy_out attrs_out (attrs o')), s') ∧
    heap s !! hdl = None ∧
    heap s' !! hdl = Some o' ∧ heap s' !! dir = Some d' ∧
    (∀ q, q ≠ hdl → q ≠ dir → heap s' !! q = heap s !! q) ∧
    obj_type o' = type ∧ parent o' = Some dir ∧ m_name o' = name ∧
    inavl o' = true ∧ index o' = next_i d ∧
    obj_fileid o' = mem_inode_number s ∧
    attrs o' = alloc_attrs op_ctx type (mem_inode_number s) attrs_in ∧
    handle o' = package_mem_handle pathbuf ∧
    mem_inode_number s' = u64 (mem_inode_number s + 1) ∧
    fsal_handles s' = fsal_handles s ++ [hdl] ∧
    avl_name (mh_dir d')
    = avltree_insert mem_n_cmpf name hdl (avl_name (mh_dir d)) ∧
    avl_index (mh_dir d')
    = avltree_insert mem_i_cmpf (next_i d) hdl (avl_index (mh_dir d)) ∧
    dir_numlinks (mh_dir d') = u32 (dir_numlinks (mh_dir d) + 1) ∧
    next_i d' = u32 (next_i d + 1) ∧
    (if bool_decide (name = "..")
     then mem_lookup dir name None s'
          = Some ((fsalstat ERR_FSAL_NOENT 0, None, None), s')
     else mem_lookup dir name None s'
          = Some ((fsalstat ERR_FSAL_NO_ERROR 0, Some hdl, None), s')).
Proof.
  intros hdl Hd Hdir Hfree Hpath Hrc.
  destruct (created_store_lookup s dir d type name attrs_in pathbuf Hd)
    as (Hne & Ho' & Hd' & Hframe). fold hdl in Hne, Ho', Hd', Hframe.
  exists (created_store op_ctx s dir d type name attrs_in pathbuf),
    (set_inavl true
       (set_index (next_i d)
          (new_object op_ctx (Some dir) name type attrs_in
             (mem_inode_number s) pathbuf))),
    (dir_inserted hdl name d).
  split.
  { by apply (mem_create_obj_run s dir d type name attrs_in attrs_out
                pathbuf rc). }
  split; [apply fresh_unallocated|]. split; [exact Ho'|].
  split; [exact Hd'|]. split; [exact Hframe|].
  repeat (split; [done|]).
  unfold mem_lookup.
  rewrite (bind_run _ _ _ _ _ (mem_int_lookup_run _ dir _ name Hd')).
  destruct Hfree as (Hdot & Hdd & Hfree).
  case_bool_decide as H1.
  - simpl. by rewrite (Hdd H1).
  - rewrite !bool_decide_eq_false_2 by done. simpl.
    rewrite avltree_lookup_insert by (auto || apply mem_n_cmpf_refl). simpl.
    by run_load Ho'.
Qed.

(** X6. [mem_create_obj] fails without making an entry: with
    [ERR_FSAL_NOTDIR] when the parent is not a directory and with
    [ERR_FSAL_EXIST] when lookup of the name succeeds (an entry of that
    name, [.], or [..] below the root), both leaving the store as it is;
    and, for a free name, with [ERR_FSAL_NOMEM] exactly when [fullpath]
    returns a negative count for the new object: the object that had been
    allocated is then freed again, and nothing else changes. A count of
    zero or more is no failure, also the zero of a path that has used up
    the buffer: the object is created under the path as far as it was
    written. *)
Theorem mem_create_obj_refuses s dir d type name attrs_in attrs_out :
  heap s !! dir = Some d →
  (obj_type d ≠ DIRECTORY →
   mem_create_obj op_ctx dir type name attrs_in attrs_out s
   = Some ((fsalstat ERR_FSAL_NOTDIR 0, None, attrs_out), s)) ∧
  (obj_type d = DIRECTORY →
   name = "." ∨ (name = ".." ∧ parent d ≠ None)
   ∨ (name ≠ ".."
      ∧ avltree_lookup mem_n_cmpf name (avl_name (mh_dir d)) ≠ None) →
   mem_create_obj op_ctx dir type name attrs_in attrs_out s
   = Some ((fsalstat ERR_FSAL_EXIST 0, None, attrs_out), s)) ∧
  (∀ pathbuf rc,
     obj_type d = DIRECTORY → name_free d name →
     new_path s (fresh (dom (heap s))) (Some dir) name type
     = Some (pathbuf, rc) →
     (rc < 0 →
      mem_create_obj op_ctx dir type name attrs_in attrs_out s
      = Some ((fsalstat ERR_FSAL_NOMEM 0, None, attrs_out),
              set_freed (freed s ++ [Free_handle (fresh (dom (heap s)))])
                s)) ∧
     (0 ≤ rc →
      ∃ o',
        mem_create_obj op_ctx dir type name attrs_in attrs_out s
        = Some ((fsalstat ERR_FSAL_NO_ERROR 0, Some (fresh (dom (heap s))),
                 copy_out attrs_out (attrs o')),
                created_store op_ctx s dir d type name attrs_in pathbuf) ∧
        heap (created_store op_ctx s dir d type name attrs_in pathbuf)
          !! fresh (dom (heap s)) = Some o' ∧
        handle o' = package_mem_handle pathbuf)).
Proof.
  intros Hd. split; [|split].
  - intros Hdir. unfold mem_create_obj. run_load Hd.
    by rewrite bool_decide_eq_false_2.
  - intros Hdir Hex. unfold mem_create_obj. run_load Hd.
    rewrite bool_decide_eq_true_2 by done.
    change (negb true) with false. cbv iota.
    rewrite (bind_run _ _ _ _ _ (mem_int_lookup_run s dir d name Hd)).
    destruct Hex as [->|[[-> Hp]|[Hdd Hex]]].
    + done.
    + simpl. by destruct (parent d).
    + rewrite bool_decide_eq_false_2 by done.
      case_bool_decide; [done|].
      by destruct (avltree_lookup _ _ _).
  - intros pathbuf rc Hdir Hfree Hpath. split.
    + intros Hrc. unfold mem_create_obj. run_load Hd.
      rewrite bool_decide_eq_true_2 by done.
      change (negb true) with false. cbv iota.
      rewrite (bind_run _ _ _ _ _
                 (mem_int_lookup_free s dir d name Hd Hfree)).
      simpl. erewrite bind_run.
      2:{ rewrite mem_alloc_handle_run. cbv zeta. rewrite Hpath.
          destruct (Z.ltb_spec rc 0) as [_|]; [reflexivity | lia]. }
      done.
    + intros Hrc.
      destruct (created_store_lookup s dir d type name attrs_in pathbuf Hd)
        as (_ & Ho' & _).
      eexists. split; [|split; [exact Ho'|reflexivity]].
      by rewrite (mem_create_obj_run s dir d type name attrs_in attrs_out
                    pathbuf rc).
Qed.
End create.

(** ** Identities are kept *)

Lemma ident_eq_refl o : ident_eq o o.
Proof. by repeat split. Qed.

Lemma ident_eq_trans o1 o2 o3 :
  ident_eq o1 o2 → ident_eq o2 o3 → ident_eq o1 o3.
Proof. unfold ident_eq. intros. intuition congruence. Qed.

Lemma same_identities_refl s : same_identities s s.
Proof.
  split; [done|]. split; [done|]. split; [done|]. intros q o o' H1 H2.
  assert (o = o') as <- by congruence. apply ident_eq_refl.
Qed.

Lemma same_identities_trans s1 s2 s3 :
  same_identities s1 s2 → same_identities s2 s3 → same_identities s1 s3.
Proof.
  intros (Hn1 & Hr1 & Hd1 & Hi1) (Hn2 & Hr2 & Hd2 & Hi2).
  split; [congruence|]. split; [congruence|]. split.
  - intros q. by rewrite Hd2, Hd1.
  - intros q o o' Ho Ho'.
    destruct (proj2 (Hd1 q) (ex_intro _ o Ho)) as [o2 Ho2].
    eapply ident_eq_trans; [by eapply Hi1 | by eapply Hi2].
Qed.

Lemma keeps_ident_ret {A} (a : A) : keeps_ident (mret a).
Proof. intros s r s' [= <- <-]. apply same_identities_refl. Qed.

Lemma keeps_ident_fault {A} : keeps_ident (@fault A).
Proof. intros s r s' H. discriminate. Qed.

Lemma keeps_ident_bind {A B} (m : M A) (f : A → M B) :
  keeps_ident m → (∀ a, keeps_ident (f a)) → keeps_ident (m ≫= f).
Proof.
  intros Hm Hf s r s' Hrun. apply bind_inv in Hrun as (a & s1 & H1 & H2).
  eapply same_identities_trans; [by eapply Hm | by eapply Hf].
Qed.

Lemma keeps_ident_load p : keeps_ident (load p).
Proof.
  intros s r s' H. apply load_inv in H as [_ ->]. apply same_identities_refl.
Qed.

Lemma keeps_ident_get_store : keeps_ident get_store.
Proof. intros s r s' [= <- <-]. apply same_identities_refl. Qed.

Lemma keeps_ident_modify p f :
  (∀ o, ident_eq o (f o)) → keeps_ident (modify p f).
Proof.
  intros Hf s r s' H. apply modify_inv in H as (o & Ho & ->).
  split; [done|]. split; [done|]. split.
  - intros q. simpl. destruct (decide (q = p)) as [->|Hne].
    + rewrite lookup_insert_eq, Ho. split; eauto.
    + by rewrite lookup_insert_ne.
  - intros q o1 o2 H1. simpl. destruct (decide (q = p)) as [->|Hne].
    + rewrite lookup_insert_eq. intros [= <-].
      assert (o1 = o) as -> by congruence. apply Hf.
    + rewrite lookup_insert_ne by done. intros H2.
      assert (o1 = o2) as -> by congruence. apply ident_eq_refl.
Qed.

Create HintDb ident discriminated.

Ltac ident_go :=
  repeat first
    [ solve [auto with ident]
    | apply keeps_ident_ret | apply keeps_ident_fault | apply keeps_ident_load
    | apply keeps_ident_get_store
    | apply keeps_ident_modify; intros; repeat split; reflexivity
    | apply keeps_ident_bind; [|intros ?]
    | match goal with
      | |- keeps_ident (if ?b then _ else _) => destruct b
      | |- keeps_ident (match ?x with _ => _ end) => destruct x
      end ].

Lemma keeps_ident_mem_insert_obj parent child :
  keeps_ident (mem_insert_obj parent child).
Proof. unfold mem_insert_obj. ident_go. Qed.

Lemma keeps_ident_mem_remove_obj_locked rel parent child b :
  (∀ c, keeps_ident (rel c)) →
  keeps_ident (mem_remove_obj_locked rel parent child b).
Proof. intros Hrel. unfold mem_remove_obj_locked. ident_go. Qed.

Lemma keeps_ident_mem_remove_obj parent child :
  keeps_ident (mem_remove_obj parent child).
Proof.
  apply keeps_ident_mem_remove_obj_locked. intros. apply keeps_ident_ret.
Qed.

Lemma keeps_ident_mem_int_lookup dir path :
  keeps_ident (mem_int_lookup dir path).
Proof. unfold mem_int_lookup. ident_go. Qed.

#[local] Hint Resolve keeps_ident_mem_insert_obj keeps_ident_mem_remove_obj
  keeps_ident_mem_int_lookup : ident.

Lemma keeps_ident_mem_getattrs obj out : keeps_ident (mem_getattrs obj out).
Proof. unfold mem_getattrs. ident_go. Qed.

Lemma keeps_ident_mem_unlink dir obj name :
  keeps_ident (mem_unlink dir obj name).
Proof.
  unfold mem_unlink. cbv zeta. ident_go;
    apply keeps_ident_mem_remove_obj_locked; intros; apply keeps_ident_ret.
Qed.

#[local] Hint Resolve keeps_ident_mem_getattrs keeps_ident_mem_unlink : ident.

Lemma keeps_ident_mem_close obj : keeps_ident (mem_close obj).
Proof. unfold mem_close. ident_go. Qed.

Lemma keeps_ident_mem_rename obj olddir old_name newdir new_name :
  keeps_ident (mem_rename obj olddir old_name newdir new_name).
Proof. unfold mem_rename. cbv zeta. ident_go. Qed.

Section ident_env.
Context {E : fsal_env} {T : fsal_time_env}.
Variable op_ctx : op_context.

Lemma keeps_ident_update_fd r f state : keeps_ident (update_fd r f state).
Proof. unfold update_fd. ident_go. Qed.

Lemma keeps_ident_update_share p old new :
  keeps_ident (update_share p old new).
Proof. unfold update_share. ident_go. Qed.

Lemma keeps_ident_truncate_attrs p : keeps_ident (truncate_attrs p).
Proof. unfold truncate_attrs. ident_go. Qed.

Hint Resolve keeps_ident_update_fd keeps_ident_update_share
  keeps_ident_truncate_attrs : ident.

Lemma keeps_ident_mem_open2_by_handle obj state flags mode verifier out hdl :
  keeps_ident (mem_open2_by_handle obj state flags mode verifier out hdl).
Proof. unfold mem_open2_by_handle. cbv zeta. ident_go. Qed.

Lemma keeps_ident_mem_read2 obj bypass state offset size info :
  keeps_ident (mem_read2 op_ctx obj bypass state offset size info).
Proof. unfold mem_read2. cbv zeta. ident_go. Qed.

Lemma keeps_ident_mem_write2 obj bypass state offset buffer info :
  keeps_ident (mem_write2 op_ctx obj bypass state offset buffer info).
Proof. unfold mem_write2. cbv zeta. ident_go. Qed.

Lemma keeps_ident_mem_setattr2 obj bypass state a :
  keeps_ident (mem_setattr2 op_ctx obj bypass state a).
Proof. unfold mem_setattr2. cbv zeta. ident_go. Qed.

Lemma keeps_ident_mem_reopen2 obj state flags :
  keeps_ident (mem_reopen2 obj state flags).
Proof. unfold mem_reopen2. ident_go. Qed.

Lemma keeps_ident_mem_close2 obj state :
  keeps_ident (mem_close2 obj state).
Proof. unfold mem_close2. ident_go. Qed.
End ident_env.

(** ** Allocation and release against the identities *)

Lemma allocated_one_then_same s s1 s2 hdl :
  allocated_one s s1 hdl → same_identities s1 s2 → allocated_one s s2 hdl.
Proof.
  intros (Hnew & (o & Ho & Hf & Hroot) & Hn & Hd & Hi) (Hn2 & Hr2 & Hd2 & Hi2).
  split; [done|]. split.
  { destruct (proj2 (Hd2 hdl) (ex_intro _ o Ho)) as [o2 Ho2].
    destruct (Hi2 hdl o o2 Ho Ho2) as (_ & Hf2 & _ & Hp2 & _).
    exists o2. split; [done|]. split; [congruence|].
    destruct Hroot as [Hr|(Hr1 & Hr3 & Hp)]; [left; congruence|].
    right. repeat split; congruence. }
  split; [congruence|]. split.
  { intros q Hq. by rewrite Hd2, Hd. }
  intros q o1 o3 H1 H3.
  assert (Hq : q ≠ hdl) by congruence.
  destruct (proj2 (Hd q Hq) (ex_intro _ o1 H1)) as [o2 H2].
  eapply ident_eq_trans; [by eapply Hi | by eapply Hi2].
Qed.

Lemma same_then_allocated_one s s1 s2 hdl :
  same_identities s s1 → allocated_one s1 s2 hdl → allocated_one s s2 hdl.
Proof.
  intros (Hn1 & Hr1 & Hd1 & Hi1) (Hnew & (o & Ho & Hf & Hroot) & Hn & Hd & Hi).
  split.
  { destruct (heap s !! hdl) as [x|] eqn:Hx; [|done].
    destruct (proj2 (Hd1 hdl) (ex_intro _ x Hx)) as [y Hy]. congruence. }
  split.
  { exists o. split; [done|]. split; [congruence|].
    destruct Hroot as [Hr|(Hr2 & Hr3 & Hp)]; [left; congruence|].
    right. repeat split; congruence. }
  split; [congruence|]. split.
  { intros q Hq. by rewrite Hd, Hd1. }
  intros q o1 o3 H1 H3.
  destruct (proj2 (Hd1 q) (ex_intro _ o1 H1)) as [o2 H2].
  eapply ident_eq_trans; [by eapply Hi1 | by eapply Hi].
Qed.

Lemma may_alloc_keeps {A} (m : M A) : keeps_ident m → may_alloc m.
Proof. intros Hm s r s' Hrun. left. by eapply Hm. Qed.

Lemma may_alloc_bind_l {A B} (m : M A) (f : A → M B) :
  keeps_ident m → (∀ a, may_alloc (f a)) → may_alloc (m ≫= f).
Proof.
  intros Hm Hf s r s' Hrun. apply bind_inv in Hrun as (a & s1 & H1 & H2).
  destruct (Hf a s1 r s' H2) as [Hs|[hdl Ha]].
  - left. eapply same_identities_trans; [by eapply Hm | done].
  - right. exists hdl. eapply same_then_allocated_one; [by eapply Hm | done].
Qed.

Lemma may_alloc_bind_r {A B} (m : M A) (f : A → M B) :
  may_alloc m → (∀ a, keeps_ident (f a)) → may_alloc (m ≫= f).
Proof.
  intros Hm Hf s r s' Hrun. apply bind_inv in Hrun as (a & s1 & H1 & H2).
  destruct (Hm s a s1 H1) as [Hs|[hdl Ha]].
  - left. eapply same_identities_trans; [done | by eapply Hf].
  - right. exists hdl. eapply allocated_one_then_same; [done | by eapply Hf].
Qed.

Section alloc_ident.
Context {E : fsal_env}.
Variable op_ctx : op_context.

Lemma alloc_store_allocated_one s o :
  obj_fileid o = mem_inode_number s →
  allocated_one s (alloc_store s (fresh (dom (heap s))) o)
    (fresh (dom (heap s))).
Proof.
  intros Hf. pose proof (fresh_unallocated s) as Hfresh.
  split; [done|]. split.
  { exists o. split; [apply lookup_insert_eq|]. split; [done|]. by left. }
  split; [done|]. split.
  { intros q Hq. simpl. by rewrite lookup_insert_ne. }
  intros q o1 o2 H1. simpl.
  rewrite lookup_insert_ne by congruence. intros H2.
  assert (o1 = o2) as -> by congruence. apply ident_eq_refl.
Qed.

(** What [_mem_alloc_handle] does to the objects there are. *)
Lemma mem_alloc_handle_ident s par name type attrs_in r s' :
  _mem_alloc_handle op_ctx par name type attrs_in s = Some (r, s') →
  r = None ∧ same_identities s s'
  ∨ ∃ hdl o, r = Some hdl ∧ allocated_one s s' hdl ∧
             root_handle s' = root_handle s ∧
             heap s' !! hdl = Some o ∧ parent o = par.
Proof.
  rewrite mem_alloc_handle_run. cbv zeta.
  destruct (new_path _ _ _ _ _) as [[pathbuf rc]|]; [|done].
  destruct (rc <? 0).
  { intros [= <- <-]. left. split; [done|].
    split; [done|]. split; [done|]. split; [done|]. intros q o1 o2 H1 H2.
    simpl in H2. assert (o1 = o2) as -> by congruence.
    apply ident_eq_refl. }
  set (hdl := fresh (dom (heap s))).
  set (o := new_object op_ctx par name type attrs_in (mem_inode_number s)
              pathbuf).
  intros Hrun. apply bind_inv in Hrun as ([] & s2 & Hins & [= <- <-]).
  assert (Hsame : same_identities (alloc_store s hdl o) s2).
  { destruct par as [pp|].
    - by eapply keeps_ident_mem_insert_obj.
    - by eapply (keeps_ident_ret tt). }
  right.
  assert (Ho : heap (alloc_store s hdl o) !! hdl = Some o)
    by apply lookup_insert_eq.
  pose proof Hsame as (Hn & Hr & Hd & Hi).
  destruct (proj2 (Hd hdl) (ex_intro _ o Ho)) as [o2 Ho2].
  exists hdl, o2. split; [done|]. split.
  { eapply allocated_one_then_same; [|exact Hsame].
    apply alloc_store_allocated_one. reflexivity. }
  split; [done|]. split; [done|].
  by destruct (Hi hdl o o2 Ho Ho2) as (_ & _ & _ & -> & _).
Qed.

Lemma may_alloc_mem_alloc_handle par name type attrs_in :
  may_alloc (_mem_alloc_handle op_ctx par name type attrs_in).
Proof.
  intros s r s' Hrun.
  destruct (mem_alloc_handle_ident _ _ _ _ _ _ _ Hrun)
    as [[_ Hs]|(hdl & o & _ & Ha & _)]; [by left | right; eauto].
Qed.

Ltac alloc_go :=
  repeat first
    [ assumption
    | apply may_alloc_mem_alloc_handle
    | apply may_alloc_keeps; solve [ident_go]
    | apply may_alloc_bind_r; [|intros ?; solve [ident_go]]
    | apply may_alloc_bind_l; [solve [ident_go]|intros ?]
    | match goal with
      | |- may_alloc (if ?b then _ else _) => destruct b
      | |- may_alloc (match ?x with _ => _ end) => destruct x
      end ].

Lemma may_alloc_mem_create_obj dir type name attrs_in attrs_out :
  may_alloc (mem_create_obj op_ctx dir type name attrs_in attrs_out).
Proof. unfold mem_create_obj. alloc_go. Qed.

Lemma may_alloc_mem_symlink dir name link a out :
  may_alloc (mem_symlink op_ctx dir name link a out).
Proof.
  unfold mem_symlink. apply may_alloc_bind_r.
  - apply may_alloc_mem_create_obj.
  - intros r. ident_go.
Qed.

Lemma may_alloc_mem_open2 obj state flags mode name a v out :
  may_alloc (mem_open2 op_ctx obj state flags mode name a v out).
Proof.
  unfold mem_open2. cbv zeta. destruct name as [name|].
  2:{ apply may_alloc_keeps, keeps_ident_mem_open2_by_handle. }
  unfold mem_open2_by_name. cbv zeta.
  apply may_alloc_bind_l; [ident_go|]. intros r.
  apply may_alloc_bind_r.
  - destruct (FSAL_IS_ERROR r.1); [|alloc_go].
    destruct (negb _); [alloc_go|].
    apply may_alloc_bind_r; [apply may_alloc_mem_create_obj|].
    intros c. ident_go.
  - intros found. destruct found as [[st out']|[[hdl created] out']].
    + ident_go.
    + apply keeps_ident_bind; [apply keeps_ident_update_fd|]. intros st1.
      apply keeps_ident_bind.
      * destruct created; [ident_go|].
        apply keeps_ident_bind; [ident_go|]. intros _.
        destruct out'; ident_go.
      * intros got. destruct got as [[st o']|o']; [ident_go|].
        apply keeps_ident_bind; [|intros; ident_go].
        destruct state; [apply keeps_ident_update_share | ident_go].
Qed.

Lemma may_alloc_mem_lookup_path path out :
  may_alloc (mem_lookup_path op_ctx path out).
Proof.
  intros s r s' Hrun. unfold mem_lookup_path in Hrun.
  destruct (negb _).
  { inversion Hrun; subst. left. apply same_identities_refl. }
  rewrite bind_get in Hrun.
  apply bind_inv in Hrun as (root & s1 & Hroot & Hrun).
  apply bind_inv in Hrun as (o & s2 & Hl & [= <- <-]).
  apply load_inv in Hl as [Hl ->].
  destruct (root_handle s) as [r0|] eqn:Hr0.
  { inversion Hroot; subst. left. apply same_identities_refl. }
  apply bind_inv in Hroot as (h & s3 & Halloc & Hroot).
  rewrite bind_modify_store in Hroot.
  destruct h as [hdl|]; [|done]. injection Hroot as <- <-.
  destruct (mem_alloc_handle_ident _ _ _ _ _ _ _ Halloc)
    as [[? _]|(hdl' & o' & [= <-] & Ha & Hr & Ho' & Hp)]; [done|].
  right. exists hdl.
  destruct Ha as (Hnew & (o2 & Ho2 & Hf & _) & Hn & Hd & Hi).
  split; [done|]. split.
  { exists o2. split; [done|]. split; [done|]. right.
    split; [done|]. split; [done|]. simpl in Ho2. congruence. }
  done.
Qed.
End alloc_ident.

(** ** Release against the identities *)

Lemma shrinks_same s s' : same_identities s s' → shrinks s s'.
Proof.
  intros (Hn & Hr & Hd & Hi). split; [done|]. split; [done|].
  split; [intros q; apply Hd|]. split; [|done].
  intros q o Ho _. apply Hd. by exists o.
Qed.

Lemma shrinks_trans s1 s2 s3 : shrinks s1 s2 → shrinks s2 s3 → shrinks s1 s3.
Proof.
  intros (Hn1 & Hr1 & Hd1 & Hp1 & Hi1) (Hn2 & Hr2 & Hd2 & Hp2 & Hi2).
  split; [congruence|]. split; [congruence|]. split; [by auto|]. split.
  - intros q o Ho Hpar. destruct (Hp1 q o Ho Hpar) as [o2 Ho2].
    apply (Hp2 q o2 Ho2).
    destruct (Hi1 q o o2 Ho Ho2) as (_ & _ & _ & -> & _). done.
  - intros q o o' Ho Ho'.
    destruct (Hd2 q (ex_intro _ o' Ho')) as [o2 Ho2].
    eapply ident_eq_trans; [by eapply Hi1 | by eapply Hi2].
Qed.

Lemma may_free_keeps {A} (m : M A) : keeps_ident m → may_free m.
Proof. intros Hm s r s' Hrun. apply shrinks_same. by eapply Hm. Qed.

Lemma may_free_bind {A B} (m : M A) (f : A → M B) :
  may_free m → (∀ a, may_free (f a)) → may_free (m ≫= f).
Proof.
  intros Hm Hf s r s' Hrun. apply bind_inv in Hrun as (a & s1 & H1 & H2).
  eapply shrinks_trans; [by eapply Hm | by eapply Hf].
Qed.

Lemma may_free_ret {A} (a : A) : may_free (mret a).
Proof. apply may_free_keeps, keeps_ident_ret. Qed.

Lemma may_free_fault {A} : may_free (@fault A).
Proof. intros s r s' H. discriminate. Qed.

(** A step that leaves the heap, the counter and the root alone. *)
Lemma may_free_modify_store g :
  (∀ s, heap (g s) = heap s ∧ mem_inode_number (g s) = mem_inode_number s
        ∧ root_handle (g s) = root_handle s) →
  may_free (modify_store g).
Proof.
  intros Hg s r s' Hrun. unfold modify_store in Hrun.
  injection Hrun as _ <-. destruct (Hg s) as (Hh & Hn & Hr).
  unfold shrinks, idents_kept. rewrite Hh, Hn, Hr.
  split; [done|]. split; [done|]. split; [done|].
  split; [by eauto|]. intros q o o' H1 H2.
  assert (o = o') as <- by congruence. apply ident_eq_refl.
Qed.

Lemma may_free_mem_remove_obj_locked rel parent child b :
  (∀ c, may_free (rel c)) →
  may_free (mem_remove_obj_locked rel parent child b).
Proof.
  intros Hrel. unfold mem_remove_obj_locked.
  apply may_free_bind; [apply may_free_keeps; ident_go|]. intros c.
  destruct (negb _); [apply may_free_ret|].
  repeat (apply may_free_bind; [apply may_free_keeps; ident_go|]; intros []).
  destruct b; [apply Hrel | apply may_free_ret].
Qed.

Lemma may_free_mem_clean_dir_tree_loop rel :
  (∀ c, may_free (rel c)) →
  ∀ fuel parent, may_free (mem_clean_dir_tree_loop fuel rel parent).
Proof.
  intros Hrel. induction fuel as [|fuel IH]; intros parent; simpl.
  { apply may_free_fault. }
  apply may_free_bind; [apply may_free_keeps; ident_go|]. intros p.
  destruct (avltree_first _); [|apply may_free_ret].
  apply may_free_bind; [|intros; apply IH].
  by apply may_free_mem_remove_obj_locked.
Qed.

(** Freeing an object that had a parent when the release began. *)
Lemma shrinks_free s s2 p o :
  shrinks s s2 → heap s !! p = Some o → parent o ≠ None →
  ∀ r s', mem_free_handle p s2 = Some (r, s') → shrinks s s'.
Proof.
  intros Hs Ho Hpar r s' Hrun. unfold mem_free_handle in Hrun.
  rewrite bind_modify_store in Hrun. unfold gsh_free_handle in Hrun.
  simpl in Hrun. destruct (heap s2 !! p) as [o2|] eqn:Ho2; [|done].
  injection Hrun as _ <-.
  destruct Hs as (Hn & Hr & Hd & Hp & Hi).
  split; [done|]. split; [done|]. split.
  { intros q. simpl. destruct (decide (q = p)) as [->|Hne].
    - rewrite lookup_delete_eq. by intros [? ?].
    - rewrite lookup_delete_ne by done. apply Hd. }
  split.
  { intros q oq Hq Hqp. simpl. destruct (decide (q = p)) as [->|Hne].
    - congruence.
    - rewrite lookup_delete_ne by done. by eapply Hp. }
  intros q o1 o3 H1. simpl. destruct (decide (q = p)) as [->|Hne].
  - by rewrite lookup_delete_eq.
  - rewrite lookup_delete_ne by done. by apply Hi.
Qed.

Lemma may_free_mem_release fuel : ∀ p, may_free (mem_release fuel p).
Proof.
  induction fuel as [|fuel IH]; intros p; simpl; [apply may_free_fault|].
  intros s r s' Hrun.
  apply bind_inv in Hrun as (myself & s0 & Hl & Hrun).
  apply load_inv in Hl as [Ho ->].
  destruct (bool_decide (parent myself = None)) eqn:Hpar; simpl in Hrun.
  { injection Hrun as _ <-. apply shrinks_same, same_identities_refl. }
  apply bool_decide_eq_false in Hpar.
  destruct (inavl myself); simpl in Hrun.
  { injection Hrun as _ <-. apply shrinks_same, same_identities_refl. }
  apply bind_inv in Hrun as ([] & s1 & Hfini & Hrun).
  apply bind_inv in Hrun as ([] & s2 & Hmid & Hfree).
  assert (H1 : shrinks s s1).
  { revert Hfini. apply may_free_modify_store. by intros. }
  assert (H2 : shrinks s1 s2).
  { revert Hmid. destruct (obj_type myself); try apply may_free_ret.
    - unfold free_link_contents. apply may_free_bind.
      + apply may_free_keeps. ident_go.
      + intros _. apply may_free_modify_store. by intros.
    - by apply may_free_mem_clean_dir_tree_loop. }
  eapply shrinks_free; [|exact Ho|exact Hpar|exact Hfree].
  by eapply shrinks_trans.
Qed.

Lemma may_free_mem_clean_dir_tree fuel parent :
  may_free (mem_clean_dir_tree fuel parent).
Proof.
  apply may_free_mem_clean_dir_tree_loop. apply may_free_mem_release.
Qed.

(** ** What the calls keep *)

Section methods_ident.
Context {E : fsal_env} {T : fsal_time_env}.
Variable op_ctx : op_context.

Lemma run_inv {A} (m : M A) s s' :
  run m s = Some s' → ∃ r, m s = Some (r, s').
Proof.
  unfold run. destruct (m s) as [[r s1]|]; [|done].
  intros [= <-]. by exists r.
Qed.

(** Every call either keeps the objects there are, or allocates one, or
    frees some. *)
Lemma run_method_cases c s s' :
  run_method op_ctx c s = Some s' →
  same_identities s s' ∨ (∃ hdl, allocated_one s s' hdl) ∨ shrinks s s'.
Proof.
  intros Hrun.
  assert (Hk : ∀ A (m : M A), keeps_ident m → run m s = Some s' →
            same_identities s s').
  { intros A m Hm Hr. apply run_inv in Hr as [r Hr]. by eapply Hm. }
  assert (Ha : ∀ A (m : M A), may_alloc m → run m s = Some s' →
            same_identities s s' ∨ ∃ hdl, allocated_one s s' hdl).
  { intros A m Hm Hr. apply run_inv in Hr as [r Hr]. by eapply Hm. }
  assert (Hf : ∀ A (m : M A), may_free m → run m s = Some s' →
            shrinks s s').
  { intros A m Hm Hr. apply run_inv in Hr as [r Hr]. by eapply Hm. }
  destruct c as [c| | |]; [destruct c|..]; unfold run_method, exec in Hrun.
  - destruct (Ha _ _ (may_alloc_mem_lookup_path op_ctx _ _) Hrun); auto.
  - destruct (Ha _ _ (may_alloc_mem_create_obj op_ctx _ _ _ _ _) Hrun); auto.
  - destruct (Ha _ _ (may_alloc_mem_symlink op_ctx _ _ _ _ _) Hrun); auto.
  - left. by eapply Hk; [apply keeps_ident_mem_getattrs|].
  - left. by eapply Hk; [apply keeps_ident_mem_unlink|].
  - left. by eapply Hk; [apply keeps_ident_mem_rename|].
  - destruct (Ha _ _ (may_alloc_mem_open2 op_ctx _ _ _ _ _ _ _ _) Hrun); auto.
  - left. by eapply Hk; [apply keeps_ident_mem_close|].
  - left. by eapply Hk; [apply keeps_ident_mem_read2|].
  - left. by eapply Hk; [apply keeps_ident_mem_write2|].
  - right; right. by eapply Hf; [apply may_free_mem_release|].
  - right; right. by eapply Hf; [apply may_free_mem_clean_dir_tree|].
  - left. by eapply Hk; [apply keeps_ident_mem_setattr2|].
  - left. by eapply Hk; [apply keeps_ident_mem_reopen2|].
  - left. by eapply Hk; [apply keeps_ident_mem_close2|].
Qed.

(** X7. No call changes the type, the inode number, the wire handle, the
    parent pointer or the data capacity of an object that stays
    allocated, and no call frees an object that has no parent; a call
    leaves the inode counter alone or advances it by one. *)
Theorem methods_keep_identities c s s' :
  run_method op_ctx c s = Some s' →
  (∀ q o o', heap s !! q = Some o → heap s' !! q = Some o' →
     ident_eq o o') ∧
  (∀ q o, heap s !! q = Some o → parent o = None → is_Some (heap s' !! q)) ∧
  (mem_inode_number s' = mem_inode_number s
   ∨ mem_inode_number s' = u64 (mem_inode_number s + 1)).
Proof.
  intros Hrun.
  destruct (run_method_cases c s s' Hrun)
    as [(Hn & _ & Hd & Hi)|[(hdl & Hnew & _ & Hn & Hd & Hi)
                           |(Hn & _ & _ & Hp & Hi)]].
  - split; [done|]. split; [|by left]. intros q o Ho _. apply Hd. by exists o.
  - split; [done|]. split; [|by right]. intros q o Ho _.
    apply Hd; [congruence | by exists o].
  - split; [done|]. split; [done | by left].
Qed.

Lemma ids_ok_step c s s' :
  ids_ok s → mem_inode_number s + 1 < 2 ^ 64 →
  run_method op_ctx c s = Some s' →
  ids_ok s' ∧ mem_inode_number s ≤ mem_inode_number s' ≤ mem_inode_number s + 1.
Proof.
  intros (Hpos & Hlt & Huniq) Hroom Hrun.
  assert (Hsub : ∀ s1 : store,
    mem_inode_number s1 = mem_inode_number s →
    (∀ q, is_Some (heap s1 !! q) → is_Some (heap s !! q)) →
    idents_kept s s1 → ids_ok s1).
  { intros s1 Hn Hd Hi. split; [lia|]. split.
    - intros q o1 H1. destruct (Hd q (ex_intro _ o1 H1)) as [o Ho].
      destruct (Hi q o o1 Ho H1) as (_ & -> & _). rewrite Hn. by eapply Hlt.
    - intros q q' o1 o1' H1 H1' Heq.
      destruct (Hd q (ex_intro _ o1 H1)) as [o Ho].
      destruct (Hd q' (ex_intro _ o1' H1')) as [o' Ho'].
      destruct (Hi q o o1 Ho H1) as (_ & Hf & _).
      destruct (Hi q' o' o1' Ho' H1') as (_ & Hf' & _).
      apply (Huniq q q' o o' Ho Ho'). congruence. }
  destruct (run_method_cases c s s' Hrun)
    as [(Hn & _ & Hd & Hi)|[(hdl & Hnew & (on & Hon & Hfn & _) & Hn & Hd & Hi)
                           |(Hn & _ & Hd & _ & Hi)]].
  - split; [|lia]. apply Hsub; [done| |done]. intros q. apply Hd.
  - rewrite u64_small in Hn by lia. split; [|lia].
    assert (Hold : ∀ q o1, heap s' !! q = Some o1 → q ≠ hdl →
              ∃ o, heap s !! q = Some o ∧ obj_fileid o1 = obj_fileid o).
    { intros q o1 H1 Hq.
      destruct (proj1 (Hd q Hq) (ex_intro _ o1 H1)) as [o Ho].
      exists o. split; [done|]. by destruct (Hi q o o1 Ho H1) as (_ & -> & _). }
    split; [lia|]. split.
    + intros q o1 H1. destruct (decide (q = hdl)) as [->|Hq].
      * assert (o1 = on) as -> by congruence. lia.
      * destruct (Hold q o1 H1 Hq) as (o & Ho & ->).
        specialize (Hlt q o Ho). lia.
    + intros q q' o1 o1' H1 H1' Heq.
      destruct (decide (q = hdl)) as [->|Hq];
        destruct (decide (q' = hdl)) as [->|Hq']; [done| | |].
      * assert (o1 = on) as -> by congruence.
        destruct (Hold q' o1' H1' Hq') as (o & Ho & Hf).
        specialize (Hlt q' o Ho). lia.
      * assert (o1' = on) as -> by congruence.
        destruct (Hold q o1 H1 Hq) as (o & Ho & Hf).
        specialize (Hlt q o Ho). lia.
      * destruct (Hold q o1 H1 Hq) as (o & Ho & Hf).
        destruct (Hold q' o1' H1' Hq') as (o' & Ho' & Hf').
        apply (Huniq q q' o o' Ho Ho'). congruence.
  - split; [|lia]. by apply Hsub.
Qed.

(** X8. Inode numbers are never handed out twice: starting from a store in
    which the inode numbers of the objects are distinct and below the
    inode counter, they still are after any sequence of calls, as long as
    the 64-bit counter has not wrapped. Each call advances the counter by
    one at most. *)
Theorem inode_numbers_stay_unique cs : ∀ s s',
  ids_ok s →
  mem_inode_number s + Z.of_nat (length cs) < 2 ^ 64 →
  run_methods op_ctx cs s = Some s' →
  ids_ok s' ∧
  mem_inode_number s ≤ mem_inode_number s'
  ≤ mem_inode_number s + Z.of_nat (length cs).
Proof.
  induction cs as [|c cs IH]; intros s s' Hok Hroom Hrun; simpl in *.
  - injection Hrun as <-. split; [done | lia].
  - destruct (run_method op_ctx c s) as [s1|] eqn:Hc; [|done]. simpl in Hrun.
    destruct (ids_ok_step c s s1 Hok) as [Hok1 Hn1]; [lia | done |].
    destruct (IH s1 s' Hok1) as [Hok' Hn']; [lia | done |].
    split; [done | lia].
Qed.

Lemma root_ok_step c s s' :
  root_ok s → run_method op_ctx c s = Some s' →
  root_ok s' ∧ ∀ r, root_handle s = Some r → root_handle s' = Some r.
Proof.
  intros Hok Hrun.
  assert (Hkeep : ∀ r o,
    heap s !! r = Some o → parent o = None → is_Some (heap s' !! r) →
    idents_kept s s' → ∃ o', heap s' !! r = Some o' ∧ parent o' = None).
  { intros r o Ho Hp [o' Ho'] Hi. exists o'. split; [done|].
    destruct (Hi r o o' Ho Ho') as (_ & _ & _ & -> & _). done. }
  destruct (run_method_cases c s s' Hrun)
    as [(Hn & Hr & Hd & Hi)
       |[(hdl & Hnew & (on & Hon & Hfn & Hroot) & Hn & Hd & Hi)
        |(Hn & Hr & Hd & Hp & Hi)]].
  - split; [|by rewrite Hr]. intros r. rewrite Hr. intros Hroot.
    destruct (Hok r Hroot) as (o & Ho & Hpar).
    apply (Hkeep r o Ho Hpar); [|done]. apply Hd. by exists o.
  - destruct Hroot as [Hr|(Hr1 & Hr2 & Hpar)].
    + split; [|by rewrite Hr]. intros r. rewrite Hr. intros Hroot.
      destruct (Hok r Hroot) as (o & Ho & Hpar).
      apply (Hkeep r o Ho Hpar); [|done].
      apply Hd; [congruence | by exists o].
    + split; [|by rewrite Hr1]. intros r. rewrite Hr2. intros [= <-].
      by exists on.
  - split; [|by rewrite Hr]. intros r. rewrite Hr. intros Hroot.
    destruct (Hok r Hroot) as (o & Ho & Hpar).
    apply (Hkeep r o Ho Hpar); [|done]. by eapply Hp.
Qed.

(** X9. The export root, once [mem_lookup_path] has created it, stays the
    root and stays allocated, without parent, through every sequence of
    calls: no release frees it. *)
Theorem export_root_persists cs : ∀ s s',
  root_ok s → run_methods op_ctx cs s = Some s' →
  root_ok s' ∧ ∀ r, root_handle s = Some r → root_handle s' = Some r.
Proof.
  induction cs as [|c cs IH]; intros s s' Hok Hrun; simpl in *.
  - by injection Hrun as <-.
  - destruct (run_method op_ctx c s) as [s1|] eqn:Hc; [|done]. simpl in Hrun.
    destruct (root_ok_step c s s1 Hok Hc) as [Hok1 Hr1].
    destruct (IH s1 s' Hok1 Hrun) as [Hok' Hr']. by auto.
Qed.
End methods_ident.

(** ** The export root, symbolic links and the dot names *)

Section roots_and_links.
Context {E : fsal_env} {T : fsal_time_env}.
Variable op_ctx : op_context.

(** X10. [mem_lookup_path] only knows the path of the export: any other
    path gives [ERR_FSAL_NOENT] with minor [ENOENT] and changes nothing.
    The first lookup of the export path allocates the root: a directory
    without parent, named by the export path, with mode 0755 less the
    umask, two links and next index 2, registered as the root of the
    export. Later lookups return that same object and allocate nothing. *)
Theorem mem_lookup_path_creates_root_once s path attrs_out :
  (path ≠ export_path op_ctx →
   mem_lookup_path op_ctx path attrs_out s
   = Some ((fsalstat ERR_FSAL_NOENT 2, None, attrs_out), s)) ∧
  (∀ r o,
     path = export_path op_ctx →
     root_handle s = Some r → heap s !! r = Some o →
     mem_lookup_path op_ctx path attrs_out s
     = Some ((fsalstat ERR_FSAL_NO_ERROR 0, Some r,
              copy_out attrs_out (attrs o)), s)) ∧
  (∀ pathbuf rc,
     let hdl := fresh (dom (heap s)) in
     path = export_path op_ctx →
     root_handle s = None →
     new_path s hdl None (export_path op_ctx) DIRECTORY
     = Some (pathbuf, rc) →
     0 ≤ rc →
     ∃ s' o,
       mem_lookup_path op_ctx path attrs_out s
       = Some ((fsalstat ERR_FSAL_NO_ERROR 0, Some hdl,
                copy_out attrs_out (attrs o)), s') ∧
       heap s !! hdl = None ∧ heap s' !! hdl = Some o ∧
       root_handle s' = Some hdl ∧
       (∀ q, q ≠ hdl → heap s' !! q = heap s !! q) ∧
       obj_type o = DIRECTORY ∧ parent o = None ∧
       m_name o = export_path op_ctx ∧ inavl o = false ∧
       mode (attrs o) = masked_mode op_ctx 493 ∧
       obj_fileid o = mem_inode_number s ∧
       handle o = package_mem_handle pathbuf ∧
       mh_dir o = {| avl_name := []; avl_index := []; dir_numlinks := 2 |} ∧
       next_i o = 2 ∧
       mem_lookup_path op_ctx path attrs_out s'
       = Some ((fsalstat ERR_FSAL_NO_ERROR 0, Some hdl,
                copy_out attrs_out (attrs o)), s')).
Proof.
  split; [|split].
  - intros Hne. unfold mem_lookup_path.
    by rewrite bool_decide_eq_false_2.
  - intros r o -> Hr Ho. unfold mem_lookup_path.
    rewrite bool_decide_eq_true_2 by done.
    change (negb true) with false. cbv iota.
    rewrite bind_get, Hr, bind_ret. by run_load Ho.
  - intros pathbuf rc hdl -> Hr Hpath Hrc.
    set (o := new_object op_ctx None (export_path op_ctx) DIRECTORY
                (Some (set_mode 493 (set_valid_mask ATTR_MODE zero_attrlist)))
                (mem_inode_number s) pathbuf).
    set (s' := set_root_handle (Some hdl) (alloc_store s hdl o)).
    assert (Ho : heap s' !! hdl = Some o) by apply lookup_insert_eq.
    assert (Hrun : ∀ out, mem_lookup_path op_ctx (export_path op_ctx) out s
              = Some ((fsalstat ERR_FSAL_NO_ERROR 0, Some hdl,
                       copy_out out (attrs o)), s')).
    { intros out. unfold mem_lookup_path.
      rewrite bool_decide_eq_true_2 by done.
      change (negb true) with false. cbv iota.
      rewrite bind_get, Hr.
      erewrite bind_run.
      2:{ erewrite bind_run.
          2:{ rewrite mem_alloc_handle_run. fold hdl. rewrite Hpath.
              destruct (Z.ltb_spec rc 0) as [|_]; [lia|]. reflexivity. }
          rewrite bind_modify_store. reflexivity. }
      by run_load Ho. }
    exists s', o. split; [apply Hrun|].
    split; [apply fresh_unallocated|]. split; [done|]. split; [done|].
    split.
    { intros q Hq. simpl. by rewrite lookup_insert_ne. }
    repeat (split; [done|]).
    unfold mem_lookup_path.
    rewrite bool_decide_eq_true_2 by done.
    change (negb true) with false. cbv iota.
    rewrite bind_get. change (root_handle s') with (Some hdl). cbv iota.
    rewrite bind_ret. by run_load Ho.
Qed.

Lemma mem_symlink_run s dir d name link attrs_in attrs_out pathbuf rc :
  heap s !! dir = Some d → obj_type d = DIRECTORY → name_free d name →
  new_path s (fresh (dom (heap s))) (Some dir) name SYMBOLIC_LINK
  = Some (pathbuf, rc) →
  0 ≤ rc →
  ∃ o s',
    mem_symlink op_ctx dir name link attrs_in attrs_out s
    = Some ((fsalstat ERR_FSAL_NO_ERROR 0, Some (fresh (dom (heap s))),
             copy_out attrs_out (attrs o)), s') ∧
    heap s' !! fresh (dom (heap s)) = Some o ∧
    obj_type o = SYMBOLIC_LINK ∧ link_contents o = Some link ∧
    m_name o = name ∧ parent o = Some dir ∧ inavl o = true.
Proof.
  intros Hd Hdir Hfree Hpath Hrc. unfold mem_symlink.
  rewrite (bind_run _ _ _ _ _
             (mem_create_obj_run op_ctx s dir d SYMBOLIC_LINK name attrs_in
                attrs_out pathbuf rc Hd Hdir Hfree Hpath Hrc)).
  destruct (created_store_lookup op_ctx s dir d SYMBOLIC_LINK name attrs_in
              pathbuf Hd) as (_ & Ho' & _).
  simpl. erewrite bind_run by (apply modify_run; exact Ho').
  exists (set_link_contents (Some link)
            (set_inavl true
               (set_index (next_i d)
                  (new_object op_ctx (Some dir) name SYMBOLIC_LINK attrs_in
                     (mem_inode_number s) pathbuf)))).
  eexists. split; [reflexivity|]. simpl.
  rewrite lookup_insert_eq. split; [reflexivity|]. by simpl.
Qed.

(** X11. [mem_readlink] refuses an object that is not a symbolic link with
    [ERR_FSAL_INVAL]. On the link that [mem_symlink] has just created it
    returns the target given at creation, with a length that counts the
    terminating zero; neither call of [mem_readlink] changes the store. *)
Theorem mem_readlink_returns_target s dir d name link attrs_in attrs_out
    pathbuf rc refresh :
  heap s !! dir = Some d → obj_type d = DIRECTORY → name_free d name →
  new_path s (fresh (dom (heap s))) (Some dir) name SYMBOLIC_LINK
  = Some (pathbuf, rc) →
  0 ≤ rc →
  (∀ q oq, heap s !! q = Some oq → obj_type oq ≠ SYMBOLIC_LINK →
     mem_readlink q refresh s = Some ((fsalstat ERR_FSAL_INVAL 0, None), s)) ∧
  ∃ hdl out s',
    mem_symlink op_ctx dir name link attrs_in attrs_out s
    = Some ((fsalstat ERR_FSAL_NO_ERROR 0, Some hdl, out), s') ∧
    mem_readlink hdl refresh s'
    = Some ((fsalstat ERR_FSAL_NO_ERROR 0,
             Some (Z.of_nat (String.length link) + 1, link)), s').
Proof.
  intros Hd Hdir Hfree Hpath Hrc. split.
  - intros q oq Hq Ht. unfold mem_readlink. run_load Hq.
    by rewrite bool_decide_eq_false_2.
  - destruct (mem_symlink_run s dir d name link attrs_in attrs_out pathbuf rc)
      as (o & s' & Hrun & Ho & Ht & Hl & _); try done.
    eexists _, _, s'. split; [exact Hrun|].
    unfold mem_readlink. run_load Ho.
    rewrite bool_decide_eq_true_2 by done. by rewrite Hl.
Qed.

(** X12. The two dot names. Lookup of [.] returns the directory itself;
    lookup of [..] returns the object the parent pointer names and fails
    with [ERR_FSAL_NOENT] where there is none, at an export root. Neither
    looks at the name tree, and nothing is changed. *)
Theorem mem_lookup_dot_names s dir d attrs_out :
  heap s !! dir = Some d →
  mem_lookup dir "." attrs_out s
  = Some ((fsalstat ERR_FSAL_NO_ERROR 0, Some dir,
           copy_out attrs_out (attrs d)), s) ∧
  (parent d = None →
   mem_lookup dir ".." attrs_out s
   = Some ((fsalstat ERR_FSAL_NOENT 0, None, attrs_out), s)) ∧
  (∀ pp po, parent d = Some pp → heap s !! pp = Some po →
     mem_lookup dir ".." attrs_out s
     = Some ((fsalstat ERR_FSAL_NO_ERROR 0, Some pp,
              copy_out attrs_out (attrs po)), s)).
Proof.
  intros Hd. unfold mem_lookup.
  rewrite !(bind_run _ _ _ _ _ (mem_int_lookup_run s dir d _ Hd)).
  split; [|split].
  - simpl. by run_load Hd.
  - intros Hp. simpl. by rewrite Hp.
  - intros pp po Hp Hpo. simpl. rewrite Hp. simpl. by run_load Hpo.
Qed.
End roots_and_links.

(** ** Rename keeps the object *)

(** C3 (as amended). Whatever the names and directories, a rename that
    returns leaves the object allocated with its type, its inode number
    (also as attribute) and the wire handle bytes it had, which are those
    stored at creation: no step of [mem_rename] writes the handle. When
    the new name is neither [.] nor [..] and the name tree of the new
    directory holds each name once and only indexed objects, the rename
    succeeds if the name is free, and after a rename that succeeds lookup
    of the new name in the new directory finds the object. [mem_rename]
    does not refuse the dot names, which lookup never takes from the name
    tree. *)
Theorem mem_rename_keeps_identity s obj_hdl olddir_hdl old_name newdir_hdl
    new_name o :
  heap s !! obj_hdl = Some o →
  (∀ st s1,
     mem_rename obj_hdl olddir_hdl old_name newdir_hdl new_name s
     = Some (st, s1) →
     ∃ o1, heap s1 !! obj_hdl = Some o1 ∧
           obj_type o1 = obj_type o ∧
           obj_fileid o1 = obj_fileid o ∧
           fileid (attrs o1) = fileid (attrs o) ∧
           handle o1 = handle o) ∧
  (∀ p d,
     heap s !! olddir_hdl = Some p →
     heap s !! newdir_hdl = Some d →
     dir_names_ok (heap s) d →
     new_name ≠ "." → new_name ≠ ".." →
     (avltree_lookup mem_n_cmpf new_name (avl_name (mh_dir d)) = None →
      ∃ s1, mem_rename obj_hdl olddir_hdl old_name newdir_hdl new_name s
            = Some (fsalstat ERR_FSAL_NO_ERROR 0, s1)) ∧
     ∀ st s1,
       mem_rename obj_hdl olddir_hdl old_name newdir_hdl new_name s
       = Some (st, s1) →
       FSAL_IS_ERROR st = false →
       mem_int_lookup newdir_hdl new_name s1
       = Some ((fsalstat ERR_FSAL_NO_ERROR 0, Some obj_hdl), s1)).
Proof.
  intros Ho. split.
  - intros st s1 Hrun.
    destruct (keeps_ident_mem_rename _ _ _ _ _ _ _ _ Hrun)
      as (_ & _ & Hdom & Hkept).
    destruct (proj2 (Hdom obj_hdl)) as [o1 Ho1]; [by exists o|].
    destruct (Hkept _ _ _ Ho Ho1) as (Ht & Hf & Hh & _ & _ & Hfa & _).
    by exists o1.
  - intros p d Hp Hd Hok Hdot Hdotdot.
    destruct (mem_rename_then_lookup s obj_hdl olddir_hdl old_name
                newdir_hdl new_name o p d Ho Hp Hd Hok Hdot Hdotdot)
      as [Hfree Hfound].
    split; [exact Hfree|]. intros st s1 Hrun Herr.
    by destruct (Hfound st s1 Hrun Herr) as (o1 & _ & _ & _ & _ & Hl).
Qed.

Lemma mem_rename_keeps_identity_witness :
  ∃ s1 o1,
    mem_rename 3%positive 2%positive "f" 5%positive "h" tree_store
    = Some (fsalstat ERR_FSAL_NO_ERROR 0, s1) ∧
    heap s1 !! 3%positive = Some o1 ∧
    obj_fileid o1 = obj_fileid (obj_at tree_store 3%positive) ∧
    handle o1 = handle (obj_at tree_store 3%positive) ∧
    mem_int_lookup 5%positive "h" s1
    = Some ((fsalstat ERR_FSAL_NO_ERROR 0, Some 3%positive), s1).
Proof.
  destruct (mem_rename_keeps_identity tree_store 3%positive 2%positive "f"
              5%positive "h" (obj_at tree_store 3%positive))
    as (Hkeeps & Hlookup); [vm_compute; reflexivity|].
  destruct (Hlookup (obj_at tree_store 2%positive)
              (obj_at tree_store 5%positive))
    as (Hruns & Hfound);
    [ vm_compute; reflexivity | vm_compute; reflexivity
    | apply tree_dir_names_ok | discriminate | discriminate |].
  destruct Hruns as (s1 & Hrun); [vm_compute; reflexivity|].
  destruct (Hkeeps _ s1 Hrun) as (o1 & Ho1 & _ & Hf & _ & Hh).
  exists s1, o1. split; [exact Hrun|]. split; [exact Ho1|].
  split; [exact Hf|]. split; [exact Hh|].
  exact (Hfound _ s1 Hrun eq_refl).
Defined.

(** C3, the claim as stated fails for a dot name: renaming "f" into the
    export root under the name [..] succeeds, and lookup of [..] in the
    root then finds nothing, because the root has no parent and the name
    tree is not consulted for that name. *)
Lemma mem_rename_to_dotdot_not_found :
  mem_rename 3%positive 2%positive "f" 1%positive ".." tree_store
  = Some (fsalstat ERR_FSAL_NO_ERROR 0,
          store_after (mem_rename 3%positive 2%positive "f" 1%positive "..")
            tree_store)
  ∧ mem_lookup 1%positive ".." None
      (store_after (mem_rename 3%positive 2%positive "f" 1%positive "..")
         tree_store)
    = Some ((fsalstat ERR_FSAL_NOENT 0, None, None),
            store_after (mem_rename 3%positive 2%positive "f" 1%positive "..")
              tree_store)
  ∧ avltree_lookup mem_n_cmpf ".."
      (avl_name (mh_dir (obj_at
         (store_after (mem_rename 3%positive 2%positive "f" 1%positive "..")
            tree_store) 1%positive)))
    = Some 3%positive.
Proof. split; [|split]; vm_compute; reflexivity. Qed.

(** ** Rename onto a name in use, and stale objects *)

Section rename_unlink.
Context {E : fsal_env}.

(** X13. [mem_rename] moves the object between the trees and changes its
    name, but leaves its parent pointer as it is: after a rename, lookup
    of [..] in the object still returns the directory the object was
    created in (and fails with [ERR_FSAL_NOENT] for an object without
    parent), wherever the object has been moved to. *)
Theorem mem_rename_leaves_parent_pointer s obj olddir old_name newdir
    new_name o st s1 :
  heap s !! obj = Some o →
  mem_rename obj olddir old_name newdir new_name s = Some (st, s1) →
  ∃ o1, heap s1 !! obj = Some o1 ∧ parent o1 = parent o ∧
        mem_int_lookup obj ".." s1
        = Some (match parent o with
                | None => (fsalstat ERR_FSAL_NOENT 0, None)
                | Some pp => (fsalstat ERR_FSAL_NO_ERROR 0, Some pp)
                end, s1).
Proof.
  intros Ho Hrun.
  destruct (keeps_ident_mem_rename _ _ _ _ _ _ _ _ Hrun)
    as (_ & _ & Hd & Hi).
  destruct (proj2 (Hd obj) (ex_intro _ o Ho)) as [o1 Ho1].
  destruct (Hi obj o o1 Ho Ho1) as (_ & _ & _ & Hp & _).
  exists o1. split; [done|]. split; [done|].
  rewrite (mem_int_lookup_run s1 obj o1 ".." Ho1). simpl. by rewrite Hp.
Qed.

(** X14. When the new name already names an object [dst] of the new
    directory, [mem_rename] does nothing and succeeds if [dst] is the
    object itself; it fails with [ERR_FSAL_EXIST] if one of the two is a
    directory and the other is not, or if [dst] is a directory with more
    than two links; it fails with [ERR_FSAL_FILE_OPEN] if [dst] is a
    regular file whose global descriptor is open. In all these cases the
    store is unchanged. *)
Theorem mem_rename_onto_existing_name s obj olddir old_name newdir new_name
    o d dst od :
  heap s !! obj = Some o → heap s !! newdir = Some d →
  heap s !! dst = Some od →
  new_name ≠ "." → new_name ≠ ".." →
  avltree_lookup mem_n_cmpf new_name (avl_name (mh_dir d)) = Some dst →
  let rename := mem_rename obj olddir old_name newdir new_name s in
  (dst = obj → rename = Some (fsalstat ERR_FSAL_NO_ERROR 0, s)) ∧
  (dst ≠ obj →
   (obj_type o = DIRECTORY ∧ obj_type od ≠ DIRECTORY
    ∨ obj_type o ≠ DIRECTORY ∧ obj_type od = DIRECTORY) →
   rename = Some (fsalstat ERR_FSAL_EXIST 0, s)) ∧
  (dst ≠ obj → obj_type o = DIRECTORY → obj_type od = DIRECTORY →
   2 < dir_numlinks (mh_dir od) →
   rename = Some (fsalstat ERR_FSAL_EXIST 0, s)) ∧
  (dst ≠ obj → obj_type o ≠ DIRECTORY → obj_type od = REGULAR_FILE →
   openflags (fd (mh_file od)) ≠ FSAL_O_CLOSED →
   rename = Some (fsalstat ERR_FSAL_FILE_OPEN 0, s)).
Proof.
  intros Ho Hd Hdst Hdot Hdd Hfound rename.
  assert (Hlk : mem_int_lookup newdir new_name s
                = Some ((fsalstat ERR_FSAL_NO_ERROR 0, Some dst), s)).
  { rewrite (mem_int_lookup_name s newdir d) by done. by rewrite Hfound. }
  unfold rename, mem_rename. cbv zeta.
  rewrite (bind_run _ _ _ _ _ Hlk). simpl.
  split; [|split; [|split]].
  - intros ->. by rewrite bool_decide_eq_true_2.
  - intros Hne Hmix. rewrite bool_decide_eq_false_2 by done.
    run_load Ho. run_load Hdst.
    destruct Hmix as [[H1 H2]|[H1 H2]].
    + rewrite (bool_decide_eq_true_2 _ H1), (bool_decide_eq_false_2 _ H2).
      done.
    + rewrite (bool_decide_eq_false_2 _ H1), (bool_decide_eq_true_2 _ H2).
      done.
  - intros Hne H1 H2 Hn. rewrite bool_decide_eq_false_2 by done.
    run_load Ho. run_load Hdst.
    rewrite (bool_decide_eq_true_2 _ H1), (bool_decide_eq_true_2 _ H2).
    simpl. by destruct (Z.ltb_spec 2 (dir_numlinks (mh_dir od))); [|lia].
  - intros Hne H1 H2 Hopen. rewrite bool_decide_eq_false_2 by done.
    run_load Ho. run_load Hdst.
    rewrite (bool_decide_eq_false_2 _ H1).
    rewrite (bool_decide_eq_false_2 (obj_type od = DIRECTORY)) by congruence.
    simpl. erewrite bind_run.
    2:{ unfold mem_unlink. run_load Hd. run_load Hdst. rewrite H2.
        destruct (Z.eqb_spec (openflags (fd (mh_file od))) FSAL_O_CLOSED);
          [done|]. reflexivity. }
    done.
Qed.

Lemma mem_getattrs_run s obj o out :
  heap s !! obj = Some o →
  mem_getattrs obj out s
  = if bool_decide (parent o ≠ None) && negb (inavl o)
    then Some ((fsalstat ERR_FSAL_STALE ESTALE, out), s)
    else
      let a := set_numlinks (dir_numlinks (mh_dir o)) (attrs o) in
      Some ((fsalstat ERR_FSAL_NO_ERROR 0, fsal_copy_attrs out a),
            set_heap (<[obj := set_attrs a o]> (heap s)) s).
Proof.
  intros Ho. unfold mem_getattrs. run_load Ho.
  destruct (_ && _); [done|]. run_modify.
  erewrite bind_run by (apply load_run; simpl; apply lookup_insert_eq). done.
Qed.

(** X15. An object that has been unlinked from its directory is stale for
    [mem_getattrs], although it is still allocated: before the unlink
    the call succeeds, after it the call returns [ERR_FSAL_STALE] with
    minor [ESTALE] and changes nothing. *)
Theorem mem_getattrs_stale_after_unlink s dir obj name d o out s1 :
  heap s !! dir = Some d → heap s !! obj = Some o →
  parent o ≠ None → inavl o = true →
  mem_unlink dir obj name s = Some (fsalstat ERR_FSAL_NO_ERROR 0, s1) →
  (∃ a s0, mem_getattrs obj out s
           = Some ((fsalstat ERR_FSAL_NO_ERROR 0, a), s0)) ∧
  is_Some (heap s1 !! obj) ∧
  mem_getattrs obj out s1 = Some ((fsalstat ERR_FSAL_STALE ESTALE, out), s1).
Proof.
  intros Hd Ho Hpar Hin Hrun. split.
  { rewrite (mem_getattrs_run s obj o) by done. rewrite Hin.
    rewrite andb_false_r. eauto. }
  destruct (keeps_ident_mem_unlink _ _ _ _ _ _ Hrun) as (_ & _ & Hdom & Hi).
  destruct (proj2 (Hdom obj) (ex_intro _ o Ho)) as [o1 Ho1].
  destruct (Hi obj o o1 Ho Ho1) as (_ & _ & _ & Hp & _).
  split; [by exists o1|].
  rewrite (mem_unlink_success s dir obj name d o s1 Hd Ho Hrun) in Ho1.
  rewrite Hin in Ho1. simpl in Ho1.
  destruct (heap_removed_lookup (heap s) dir obj d o obj o Hd Ho Ho)
    as (o1' & Ho1' & _ & _ & Hv & _).
  assert (o1' = o1) as -> by congruence.
  rewrite decide_True in Hv by done.
  rewrite (mem_getattrs_run _ obj o1).
  - rewrite Hv, Hp. by rewrite bool_decide_eq_true_2.
  - rewrite (mem_unlink_success s dir obj name d o s1 Hd Ho Hrun).
    by rewrite Hin.
Qed.
End rename_unlink.

(** ** Open by name *)

Section open_by_name.
Context {E : fsal_env}.
Variable op_ctx : op_context.

(** The attributes [mem_open2] creates with: for an exclusive create the
    verifier is put in them. *)
Lemma mem_open2_by_name_creates s dir d state flags mode name attrs_set
    verifier attrs_out pathbuf rc :
  let hdl := fresh (dom (heap s)) in
  let a := if create_mode_rank FSAL_EXCLUSIVE <=? create_mode_rank mode
           then Some (set_common_verifier (default zero_attrlist attrs_set)
                        verifier)
           else attrs_set in
  let s0 := created_store op_ctx s dir d REGULAR_FILE name a pathbuf in
  heap s !! dir = Some d → obj_type d = DIRECTORY → name_free d name →
  new_path s hdl (Some dir) name REGULAR_FILE = Some (pathbuf, rc) →
  0 ≤ rc →
  ∃ o0,
    heap s0 !! hdl = Some o0 ∧ obj_type o0 = REGULAR_FILE ∧
    inavl o0 = true ∧ fd (mh_file o0) = {| openflags := 0; fd_offset := 0 |} ∧
    mem_open2 op_ctx dir state flags mode (Some name) attrs_set verifier
      attrs_out s
    = Some ({| o2_status := fsalstat ERR_FSAL_NO_ERROR 0;
               o2_state :=
                 (λ f, {| openflags := opened_flags flags;
                          fd_offset := fd_offset f |}) <$> state;
               o2_new_obj := Some hdl;
               o2_attrs_out :=
                 copy_out attrs_out
                   (alloc_attrs op_ctx REGULAR_FILE (mem_inode_number s) a);
               o2_caller_perm_check := Some false |},
            set_heap
              (<[hdl :=
                   match state with
                   | Some _ =>
                       set_mh_file
                         (set_share
                            (update_share_counters (share (mh_file o0))
                               FSAL_O_CLOSED flags) (mh_file o0)) o0
                   | None =>
                       set_mh_file
                         (set_fd {| openflags := opened_flags flags;
                                    fd_offset := 0 |} (mh_file o0)) o0
                   end]> (heap s0)) s0).
Proof.
  intros hdl a s0 Hd Hdir Hfree Hpath Hrc.
  destruct (created_store_lookup op_ctx s dir d REGULAR_FILE name a pathbuf Hd)
    as (Hne & Ho0 & Hd0 & _). fold hdl s0 in Hne, Ho0, Hd0.
  eexists. split; [exact Ho0|]. split; [done|]. split; [done|].
  split; [done|].
  unfold mem_open2. cbv zeta. fold a. unfold mem_open2_by_name. cbv zeta.
  rewrite (bind_run _ _ _ _ _ (mem_int_lookup_free s dir d name Hd Hfree)).
  simpl.
  erewrite bind_run.
  2:{ erewrite bind_run.
      2:{ by apply (mem_create_obj_run op_ctx s dir d REGULAR_FILE name a
                      attrs_out pathbuf rc). }
      simpl. reflexivity. }
  cbv iota beta. fold hdl s0.
  destruct state as [my_fd|].
  - simpl. rewrite !bind_ret. simpl. unfold update_share.
    run_modify. done.
  - simpl. erewrite bind_run.
    2:{ erewrite bind_run by (apply modify_run; exact Ho0). reflexivity. }
    rewrite !bind_ret. done.
Qed.

(** X16. [mem_open2] by name creates the file when the name is free, and
    tells the caller that no permission check is needed. Without a
    state, the flags (write implying read) go to the global descriptor of
    the new file, and [mem_unlink] then refuses the file with
    [ERR_FSAL_FILE_OPEN] until [mem_close] has closed it. With a state,
    the flags go to the descriptor of the state and the global
    descriptor stays closed, so that the file can be unlinked while it is
    open. *)
Theorem mem_open2_by_name_creates_and_opens s dir d flags mode name
    attrs_set verifier pathbuf rc :
  let hdl := fresh (dom (heap s)) in
  heap s !! dir = Some d → obj_type d = DIRECTORY → name_free d name →
  new_path s hdl (Some dir) name REGULAR_FILE = Some (pathbuf, rc) →
  0 ≤ rc →
  opened_flags flags ≠ FSAL_O_CLOSED →
  (∃ r s1 s2 s3,
     mem_open2 op_ctx dir None flags mode (Some name) attrs_set verifier
       None s = Some (r, s1) ∧
     o2_status r = fsalstat ERR_FSAL_NO_ERROR 0 ∧
     o2_new_obj r = Some hdl ∧ o2_caller_perm_check r = Some false ∧
     mem_unlink dir hdl name s1 = Some (fsalstat ERR_FSAL_FILE_OPEN 0, s1) ∧
     mem_close hdl s1 = Some (fsalstat ERR_FSAL_NO_ERROR 0, s2) ∧
     mem_unlink dir hdl name s2 = Some (fsalstat ERR_FSAL_NO_ERROR 0, s3)) ∧
  (∀ my_fd, ∃ r s1 s2,
     mem_open2 op_ctx dir (Some my_fd) flags mode (Some name) attrs_set
       verifier None s = Some (r, s1) ∧
     o2_status r = fsalstat ERR_FSAL_NO_ERROR 0 ∧
     o2_new_obj r = Some hdl ∧ o2_caller_perm_check r = Some false ∧
     o2_state r = Some {| openflags := opened_flags flags;
                          fd_offset := fd_offset my_fd |} ∧
     mem_unlink dir hdl name s1 = Some (fsalstat ERR_FSAL_NO_ERROR 0, s2)).
Proof.
  intros hdl Hd Hdir Hfree Hpath Hrc Hopen.
  set (a := if create_mode_rank FSAL_EXCLUSIVE <=? create_mode_rank mode
            then Some (set_common_verifier (default zero_attrlist attrs_set)
                         verifier)
            else attrs_set).
  destruct (created_store_lookup op_ctx s dir d REGULAR_FILE name a pathbuf Hd)
    as (Hne & _ & Hd0 & _). fold hdl in Hne, Hd0.
  split.
  - destruct (mem_open2_by_name_creates s dir d None flags mode name attrs_set
                verifier None pathbuf rc Hd Hdir Hfree Hpath Hrc)
      as (o0 & Ho0 & Ht & Hin & Hfd & Hrun). fold hdl a in Ho0, Hrun.
    eexists _, _, _, _. split; [exact Hrun|].
    split; [done|]. split; [done|]. split; [done|].
    set (s0 := created_store op_ctx s dir d REGULAR_FILE name a pathbuf) in *.
    set (o1 := set_mh_file (set_fd {| openflags := opened_flags flags;
                                      fd_offset := 0 |} (mh_file o0)) o0).
    set (s1 := set_heap (<[hdl := o1]> (heap s0)) s0).
    assert (Ho1 : heap s1 !! hdl = Some o1) by apply lookup_insert_eq.
    assert (Hd1 : heap s1 !! dir = Some (dir_inserted hdl name d)).
    { simpl. by rewrite lookup_insert_ne. }
    split.
    { unfold mem_unlink. run_load Hd1. run_load Ho1.
      change (obj_type o1) with (obj_type o0). rewrite Ht. simpl.
      by destruct (Z.eqb_spec (opened_flags flags) FSAL_O_CLOSED). }
    split.
    { unfold mem_close. run_load Ho1.
      change (obj_type o1) with (obj_type o0). rewrite Ht.
      rewrite bool_decide_eq_true_2 by done. simpl.
      erewrite bind_run by (apply modify_run; exact Ho1). reflexivity. }
    erewrite mem_unlink_removes; [reflexivity| | | |].
    + simpl. rewrite lookup_insert_ne by done. exact Hd1.
    + simpl. apply lookup_insert_eq.
    + simpl. rewrite Ht. by intros [? _].
    + simpl. by intros [_ ?].
  - intros my_fd.
    destruct (mem_open2_by_name_creates s dir d (Some my_fd) flags mode name
                attrs_set verifier None pathbuf rc Hd Hdir Hfree Hpath Hrc)
      as (o0 & Ho0 & Ht & Hin & Hfd & Hrun). fold hdl a in Ho0, Hrun.
    eexists _, _, _. split; [exact Hrun|].
    split; [done|]. split; [done|]. split; [done|]. split; [done|].
    erewrite mem_unlink_removes; [reflexivity| | | |].
    + simpl. rewrite lookup_insert_ne by done. exact Hd0.
    + simpl. apply lookup_insert_eq.
    + simpl. rewrite Ht. by intros [? _].
    + simpl. rewrite Hfd. by intros [_ ?].
Qed.
End open_by_name.

(** ** Calls that only read *)

Lemma reads_only_ret {A} (a : A) : reads_only (mret a).
Proof. by intros s r s' [= _ <-]. Qed.

Lemma reads_only_fault {A} : reads_only (@fault A).
Proof. intros s r s' H. discriminate. Qed.

Lemma reads_only_load p : reads_only (load p).
Proof. intros s r s' H. by apply load_inv in H as [_ ->]. Qed.

Lemma reads_only_get_store : reads_only get_store.
Proof. by intros s r s' [= _ <-]. Qed.

Lemma reads_only_bind {A B} (m : M A) (f : A → M B) :
  reads_only m → (∀ a, reads_only (f a)) → reads_only (m ≫= f).
Proof.
  intros Hm Hf s r s' Hrun. apply bind_inv in Hrun as (a & s1 & H1 & H2).
  rewrite (Hf a s1 r s' H2). by eapply Hm.
Qed.

Ltac reads_go :=
  repeat first
    [ assumption
    | apply reads_only_ret | apply reads_only_fault | apply reads_only_load
    | apply reads_only_get_store
    | apply reads_only_bind; [|intros ?]
    | match goal with
      | |- reads_only (if ?b then _ else _) => destruct b
      | |- reads_only (match ?x with _ => _ end) => destruct x
      end ].

Lemma reads_only_mem_int_lookup dir path : reads_only (mem_int_lookup dir path).
Proof. unfold mem_int_lookup. reads_go. Qed.

Lemma reads_only_mem_readdir_loop {S : Type}
    (cb : string → ptr → attrlist → S → Z → S * fsal_dir_result)
    attrmask seekloc nodes :
  ∀ st, reads_only (mem_readdir_loop cb attrmask seekloc nodes st).
Proof.
  induction nodes as [|[k c] nodes IH]; intros st; simpl; [reads_go|].
  apply reads_only_bind; [reads_go|]. intros hdl.
  destruct (_ <? _); [apply IH|]. simpl.
  destruct (_ <=? _); [reads_go | apply IH].
Qed.

Lemma reads_only_mem_create_handle_scan `{fsal_env} hdl_desc l :
  reads_only (mem_create_handle_scan hdl_desc l).
Proof.
  induction l as [|q l IH]; simpl; [reads_go|].
  apply reads_only_bind; [reads_go|]. intros o.
  destruct (bool_decide _); [reads_go | apply IH].
Qed.

(** X17. The calls that look things up hand back the store as they found
    it: [mem_lookup], [mem_readdir] with any callback, [mem_readlink],
    [mem_create_handle], [mem_handle_to_wire] for every digest type and
    buffer size, [mem_handle_to_key], [mem_commit2] and [mem_lock_op2].
    ([mem_getattrs] is not one of them: it writes the link count into the
    attributes.) *)
Theorem lookups_change_nothing `{fsal_env} :
  (∀ dir path out, reads_only (mem_lookup dir path out)) ∧
  (∀ (S : Type) dir whence (st : S) cb attrmask,
     reads_only (mem_readdir dir whence st cb attrmask)) ∧
  (∀ obj refresh, reads_only (mem_readlink obj refresh)) ∧
  (∀ hdl_desc out, reads_only (mem_create_handle hdl_desc out)) ∧
  (∀ obj output_type len,
     reads_only (mem_handle_to_wire obj output_type len)) ∧
  (∀ obj, reads_only (mem_handle_to_key obj)) ∧
  (∀ obj offset len, reads_only (mem_commit2 obj offset len)) ∧
  (∀ obj state, reads_only (mem_lock_op2 obj state)).
Proof.
  repeat split.
  - intros dir path out. unfold mem_lookup.
    apply reads_only_bind; [apply reads_only_mem_int_lookup|]. intros r.
    reads_go.
  - intros S dir whence st cb attrmask. unfold mem_readdir.
    apply reads_only_bind; [reads_go|]. intros d.
    apply reads_only_bind; [apply reads_only_mem_readdir_loop|]. intros r.
    reads_go.
  - intros obj refresh. unfold mem_readlink. reads_go.
  - intros hdl_desc out. unfold mem_create_handle.
    destruct (negb _); [reads_go|].
    apply reads_only_bind; [reads_go|]. intros s0.
    apply reads_only_bind; [apply reads_only_mem_create_handle_scan|].
    intros found. reads_go.
  - intros obj output_type len. unfold mem_handle_to_wire. reads_go.
  - intros obj. unfold mem_handle_to_key. reads_go.
  - intros obj offset len. apply reads_only_ret.
  - intros obj state. apply reads_only_ret.
Qed.

(** ** Insertion followed by removal *)

Lemma avltree_remove_insert {K : Type} (cmpf : K → K → comparison) k p
    (t : list (K * ptr)) :
  avltree_lookup cmpf k t = None → p ∉ t.*2 →
  avltree_remove p (avltree_insert cmpf k p t) = t.
Proof.
  induction t as [|[k0 p0] t IH]; simpl.
  - intros _ _. by rewrite bool_decide_eq_true_2.
  - rewrite not_elem_of_cons. destruct (cmpf k k0) eqn:Hc; [done| |].
    + intros _ [Hne Hnin]. simpl.
      rewrite bool_decide_eq_true_2 by done.
      rewrite bool_decide_eq_false_2 by done.
      by rewrite avltree_remove_id.
    + intros Hl [Hne Hnin]. simpl.
      rewrite bool_decide_eq_false_2 by done. by rewrite IH.
Qed.

(** X18. Taking out a child that has just been put into a directory gives
    the directory its name tree, its index tree and its link count back;
    what stays is the advance of the next-index counter, and the index the
    child was given. Nothing else changes. *)
Theorem mem_insert_then_remove s dir child d c :
  heap s !! dir = Some d → heap s !! child = Some c → dir ≠ child →
  inavl c = false →
  avltree_lookup mem_n_cmpf (m_name c) (avl_name (mh_dir d)) = None →
  avltree_lookup mem_i_cmpf (next_i d) (avl_index (mh_dir d)) = None →
  child ∉ (avl_name (mh_dir d)).*2 → child ∉ (avl_index (mh_dir d)).*2 →
  0 ≤ dir_numlinks (mh_dir d) < 2 ^ 32 - 1 →
  ∃ s1 s2 d2 c2,
    mem_insert_obj dir child s = Some (tt, s1) ∧
    mem_remove_obj dir child s1 = Some (tt, s2) ∧
    heap s2 !! dir = Some d2 ∧ heap s2 !! child = Some c2 ∧
    (∀ q, q ≠ dir → q ≠ child → heap s2 !! q = heap s !! q) ∧
    mh_dir d2 = mh_dir d ∧ next_i d2 = u32 (next_i d + 1) ∧
    set_next_i (next_i d) d2 = d ∧
    inavl c2 = false ∧ index c2 = next_i d ∧
    set_index (index c) c2 = c.
Proof.
  intros Hd Hc Hne Hin Hname Hidx Hcn Hci Hlinks.
  set (c1 := set_inavl true (set_index (next_i d) c)).
  set (d1 := dir_inserted child (m_name c) d).
  set (s1 := set_heap (<[dir := d1]> (<[child := c1]> (heap s))) s).
  assert (Hins : mem_insert_obj dir child s = Some (tt, s1)).
  { rewrite (mem_insert_obj_run s dir child d c Hd Hc Hin).
    unfold heap_inserted. by rewrite decide_False. }
  assert (Hd1 : heap s1 !! dir = Some d1) by apply lookup_insert_eq.
  assert (Hc1 : heap s1 !! child = Some c1).
  { simpl. by rewrite lookup_insert_ne, lookup_insert_eq. }
  eexists s1, _, _, _. split; [exact Hins|]. split.
  { unfold mem_remove_obj.
    by apply (mem_remove_obj_locked_run _ s1 dir child d1 c1). }
  unfold heap_removed. rewrite decide_False by done. simpl.
  split; [apply lookup_insert_eq|]. split.
  { by rewrite lookup_insert_ne, lookup_insert_eq. }
  split.
  { intros q Hq1 Hq2. by rewrite !lookup_insert_ne. }
  assert (Hdir : mh_dir (dir_removed child d1) = mh_dir d).
  { unfold dir_removed, d1, dir_inserted. simpl.
    rewrite !avltree_remove_insert by done.
    replace (u32 (u32 (dir_numlinks (mh_dir d) + 1) - 1))
      with (dir_numlinks (mh_dir d)); [by destruct (mh_dir d)|].
    unfold u32, wrap. rewrite (Z.mod_small (_ + 1)) by lia.
    rewrite Z.mod_small by lia. lia. }
  split; [done|]. split; [done|]. split.
  { change (set_next_i (next_i d) (dir_removed child d1))
      with (set_next_i (next_i d)
              (set_mh_dir (mh_dir (dir_removed child d1)) d)).
    rewrite Hdir. by destruct d. }
  split; [done|]. split; [done|]. destruct c. simpl in *. by subst.
Qed.

(** ** End of directory *)

Lemma feed_eof {S : Type}
    (cb : string → ptr → attrlist → S → Z → S * fsal_dir_result) l :
  ∀ st,
    let r := feed cb l st in
    if r.2
    then r.1 = foldl (cb_state cb) st l
    else ∃ pre e rest,
           l = pre ++ e :: rest ∧
           cb_stops cb (foldl (cb_state cb) st pre) e = true ∧
           r.1 = cb_state cb (foldl (cb_state cb) st pre) e.
Proof.
  induction l as [|e l IH]; intros st; simpl; [done|].
  destruct (_ <=? _) eqn:Hstop; simpl.
  - exists [], e, l. by repeat split.
  - specialize (IH (cb (d_name e) (d_obj e) (d_attrs e) st (d_cookie e)).1).
    simpl in IH. destruct (feed cb l _) as [st' []]; simpl in *; [done|].
    destruct IH as (pre & e' & rest & -> & Hs & Hst).
    exists (e :: pre), e', rest. by repeat split.
Qed.

Lemma feed_cons {S : Type}
    (cb : string → ptr → attrlist → S → Z → S * fsal_dir_result) e l st :
  feed cb (e :: l) st
  = if cb_stops cb st e then (cb_state cb st e, false)
    else feed cb l (cb_state cb st e).
Proof. reflexivity. Qed.

(** The callback stops at no entry of [l], each entry seen in the state
    the entries before it have left. *)
Lemma feed_to_the_end {S : Type}
    (cb : string → ptr → attrlist → S → Z → S * fsal_dir_result) l :
  ∀ st,
    (feed cb l st).2 = true ↔
    ∀ pre e rest, l = pre ++ e :: rest →
      cb_stops cb (foldl (cb_state cb) st pre) e = false.
Proof.
  induction l as [|e0 l IH]; intros st.
  - split; [|done]. intros _ pre e rest Hl. by destruct pre.
  - rewrite feed_cons. split.
    + intros Heof pre e rest Hl.
      destruct (cb_stops cb st e0) eqn:Hstop; [done|].
      destruct pre as [|e1 pre]; simpl in Hl.
      * by injection Hl as <- <-.
      * injection Hl as <- ->. cbn [foldl].
        by apply (proj1 (IH (cb_state cb st e0)) Heof pre e rest).
    + intros Hnone.
      pose proof (Hnone [] e0 l eq_refl) as Hstop. cbn [foldl] in Hstop.
      rewrite Hstop. apply IH.
      intros pre e rest ->. apply (Hnone (e0 :: pre) e rest eq_refl).
Qed.

(** The first entry at which the callback stops ends the iteration. *)
Lemma feed_first_stop {S : Type}
    (cb : string → ptr → attrlist → S → Z → S * fsal_dir_result) pre :
  ∀ st e rest,
    (∀ pre' e' rest', pre = pre' ++ e' :: rest' →
       cb_stops cb (foldl (cb_state cb) st pre') e' = false) →
    cb_stops cb (foldl (cb_state cb) st pre) e = true →
    feed cb (pre ++ e :: rest) st
    = (cb_state cb (foldl (cb_state cb) st pre) e, false).
Proof.
  induction pre as [|e0 pre IH]; intros st e rest Hbefore Hstop.
  - cbn [app foldl] in *. by rewrite feed_cons, Hstop.
  - change ((e0 :: pre) ++ e :: rest) with (e0 :: (pre ++ e :: rest)).
    pose proof (Hbefore [] e0 pre eq_refl) as H0. cbn [foldl] in H0, Hstop.
    rewrite feed_cons, H0. cbn [foldl].
    apply IH; [|exact Hstop].
    intros pre' e' rest' ->. apply (Hbefore (e0 :: pre') e' rest' eq_refl).
Qed.

(** X19. The end-of-directory flag of [mem_readdir] says whether the
    callback let the iteration run to the end: it is true exactly when the
    callback asked to stop at none of the entries from the start cookie on
    (so always in an empty directory), and the state returned is then the
    one all these entries have left. At the first entry at which the
    callback asks to stop, also when that is the last entry, the iteration
    ends: the flag is false, the state returned is the one that entry has
    left, and the entries after it are not handed over. The call always
    returns [ERR_FSAL_NO_ERROR] and leaves the store as it is. *)
Theorem mem_readdir_end_of_directory {S : Type}
    (cb : string → ptr → attrlist → S → Z → S * fsal_dir_result)
    s dir d whence (st : S) attrmask :
  heap s !! dir = Some d →
  (∀ n, n ∈ avl_index (mh_dir d) → is_Some (heap s !! n.2)) →
  let l := listing (heap s) attrmask (default 2 whence)
             (avl_index (mh_dir d)) in
  ∃ st' eof,
    mem_readdir dir whence st cb attrmask s
    = Some ((fsalstat ERR_FSAL_NO_ERROR 0, st', eof), s) ∧
    (l = [] → eof = true ∧ st' = st) ∧
    (eof = true ↔
     ∀ pre e rest, l = pre ++ e :: rest →
       cb_stops cb (foldl (cb_state cb) st pre) e = false) ∧
    (eof = true → st' = foldl (cb_state cb) st l) ∧
    (∀ pre e rest,
       l = pre ++ e :: rest →
       (∀ pre' e' rest', pre = pre' ++ e' :: rest' →
          cb_stops cb (foldl (cb_state cb) st pre') e' = false) →
       cb_stops cb (foldl (cb_state cb) st pre) e = true →
       eof = false ∧ st' = cb_state cb (foldl (cb_state cb) st pre) e) ∧
    (eof = false →
     ∃ pre e rest,
       l = pre ++ e :: rest ∧
       cb_stops cb (foldl (cb_state cb) st pre) e = true ∧
       st' = cb_state cb (foldl (cb_state cb) st pre) e) ∧
    (∀ pre e, l = pre ++ [e] →
       cb_stops cb (foldl (cb_state cb) st pre) e = true → eof = false).
Proof.
  intros Hd Hall l.
  rewrite (mem_readdir_feed cb attrmask whence st s dir d Hd Hall).
  cbv zeta. fold l.
  pose proof (feed_eof cb l st) as Hf. cbv zeta in Hf.
  pose proof (feed_to_the_end cb l st) as Hend.
  exists (feed cb l st).1, (feed cb l st).2. split; [done|].
  split; [|split; [|split; [|split; [|split]]]].
  - intros Hl. by rewrite Hl.
  - exact Hend.
  - intros Heof. by rewrite Heof in Hf.
  - intros pre e rest Hl Hbefore Hstop.
    by rewrite Hl, (feed_first_stop cb pre st e rest Hbefore Hstop).
  - intros Heof. by rewrite Heof in Hf.
  - intros pre e Hl Hstop.
    destruct (feed cb l st).2 eqn:Heof; [|done].
    destruct Hend as [Hend _].
    by rewrite (Hend eq_refl pre e [] Hl) in Hstop.
Qed.

(** ** The wire handle *)

Section wire.
Context {E : fsal_env}.

Lemma mem_create_handle_scan_none s hdl_desc l :
  (∀ q, q ∈ l → ∃ oq, heap s !! q = Some oq ∧
     take (Z.to_nat V4_FH_OPAQUE_SIZE) (handle oq)
     ≠ take (Z.to_nat V4_FH_OPAQUE_SIZE) hdl_desc) →
  mem_create_handle_scan hdl_desc l s = Some (None, s).
Proof.
  induction l as [|q l IH]; intros Hall; simpl; [done|].
  destruct (Hall q) as (oq & Hoq & Hne); [left|].
  run_load Hoq. rewrite bool_decide_eq_false_2 by done.
  apply IH. intros q' Hq'. apply Hall. by right.
Qed.

(** X20. [mem_create_handle] refuses a handle that is not
    [V4_FH_OPAQUE_SIZE] bytes long with [ERR_FSAL_BADHANDLE], and returns
    [ERR_FSAL_STALE] with minor [ESTALE] for bytes that no object on the
    list carries. This is what the handle of an object resolves to once
    the object has been released: a removed file or link whose handle no
    other object carries resolves to itself before [mem_release], and to
    [ERR_FSAL_STALE] after it. *)
Theorem mem_create_handle_bad_or_stale s hdl_desc attrs_out :
  (Z.of_nat (length hdl_desc) ≠ V4_FH_OPAQUE_SIZE →
   mem_create_handle hdl_desc attrs_out s
   = Some ((fsalstat ERR_FSAL_BADHANDLE 0, None, attrs_out), s)) ∧
  (Z.of_nat (length hdl_desc) = V4_FH_OPAQUE_SIZE →
   (∀ q, q ∈ fsal_handles s → ∃ oq, heap s !! q = Some oq ∧
      take (Z.to_nat V4_FH_OPAQUE_SIZE) (handle oq)
      ≠ take (Z.to_nat V4_FH_OPAQUE_SIZE) hdl_desc) →
   mem_create_handle hdl_desc attrs_out s
   = Some ((fsalstat ERR_FSAL_STALE ESTALE, None, attrs_out), s)) ∧
  (∀ p o fuel,
     store_ok s → heap s !! p = Some o →
     parent o ≠ None → inavl o = false → obj_type o ≠ DIRECTORY →
     hdl_desc = handle o →
     (∀ q oq, heap s !! q = Some oq → handle oq = handle o → q = p) →
     mem_create_handle hdl_desc attrs_out s
     = Some ((fsalstat ERR_FSAL_NO_ERROR 0, Some p,
              copy_out attrs_out (attrs o)), s) ∧
     ∃ s', mem_release (S fuel) p s = Some (tt, s') ∧
           mem_create_handle hdl_desc attrs_out s'
           = Some ((fsalstat ERR_FSAL_STALE ESTALE, None, attrs_out), s')).
Proof.
  assert (Hstale : ∀ s0,
    Z.of_nat (length hdl_desc) = V4_FH_OPAQUE_SIZE →
    (∀ q, q ∈ fsal_handles s0 → ∃ oq, heap s0 !! q = Some oq ∧
       take (Z.to_nat V4_FH_OPAQUE_SIZE) (handle oq)
       ≠ take (Z.to_nat V4_FH_OPAQUE_SIZE) hdl_desc) →
    mem_create_handle hdl_desc attrs_out s0
    = Some ((fsalstat ERR_FSAL_STALE ESTALE, None, attrs_out), s0)).
  { intros s0 Hlen Hall. unfold mem_create_handle.
    rewrite Hlen, Z.eqb_refl. simpl. rewrite bind_get.
    by rewrite (bind_run _ _ _ _ _
                  (mem_create_handle_scan_none s0 hdl_desc _ Hall)). }
  split; [|split].
  - intros Hlen. unfold mem_create_handle.
    by destruct (Z.eqb_spec (Z.of_nat (length hdl_desc)) V4_FH_OPAQUE_SIZE).
  - apply Hstale.
  - intros p o fuel [Hlist Hlen] Ho Hpar Hv Ht -> Huniq.
    assert (Hfull : ∀ q oq, heap s !! q = Some oq →
              take (Z.to_nat V4_FH_OPAQUE_SIZE) (handle oq) = handle oq).
    { intros q oq Hoq. apply take_ge. specialize (Hlen q oq Hoq). lia. }
    split.
    { unfold mem_create_handle. rewrite (Hlen p o Ho), Z.eqb_refl. simpl.
      rewrite bind_get. erewrite bind_run.
      2:{ apply (mem_create_handle_scan_first s (handle o) (fsal_handles s)
                   p o); try done.
          - intros q Hq. by apply Hlist.
          - apply Hlist. by exists o.
          - intros q oq _ Hoq Heq. apply (Huniq q oq Hoq).
            by rewrite <- (Hfull q oq Hoq), <- (Hfull p o Ho). }
      simpl. by run_load Ho. }
    exists (leaf_released p o s). split; [by apply mem_release_leaf|].
    apply Hstale; [by apply (Hlen p o)|].
    intros q Hq. simpl in Hq. apply list_elem_of_filter in Hq as [Hqp Hq].
    apply Hlist in Hq as [oq Hoq]. exists oq. simpl.
    rewrite lookup_delete_ne by done. split; [done|].
    rewrite (Hfull q oq Hoq), (Hfull p o Ho). intros Heq.
    by apply Hqp, (Huniq q oq).
Qed.

(** X21. [mem_handle_to_wire] serves the two NFS digests only: any other
    digest type gives [ERR_FSAL_SERVERFAULT], whatever the buffer and the
    object. For an NFS digest it needs room for [V4_FH_OPAQUE_SIZE] bytes
    and returns [ERR_FSAL_TOOSMALL] otherwise, without reading the object;
    with room it hands out the stored handle, which is also the key
    [mem_handle_to_key] gives, of that size; and [mem_create_handle] maps
    the bytes back to the object when no other object carries them. *)
Theorem mem_handle_to_wire_and_back s p o output_type len attrs_out :
  store_ok s → heap s !! p = Some o →
  (∀ q len', mem_handle_to_wire q FSAL_DIGEST_OTHER len' s
             = Some ((fsalstat ERR_FSAL_SERVERFAULT 0, None), s)) ∧
  mem_handle_to_key p s = Some ((handle o, V4_FH_OPAQUE_SIZE), s) ∧
  Z.of_nat (length (handle o)) = V4_FH_OPAQUE_SIZE ∧
  (output_type ≠ FSAL_DIGEST_OTHER →
   (len < V4_FH_OPAQUE_SIZE →
    ∀ q, mem_handle_to_wire q output_type len s
         = Some ((fsalstat ERR_FSAL_TOOSMALL 0, None), s)) ∧
   (V4_FH_OPAQUE_SIZE ≤ len →
    mem_handle_to_wire p output_type len s
    = Some ((fsalstat ERR_FSAL_NO_ERROR 0, Some (handle o)), s) ∧
    ((∀ q oq, heap s !! q = Some oq → handle oq = handle o → q = p) →
     ∀ wire,
       mem_handle_to_wire p output_type len s
       = Some ((fsalstat ERR_FSAL_NO_ERROR 0, Some wire), s) →
       mem_create_handle wire attrs_out s
       = Some ((fsalstat ERR_FSAL_NO_ERROR 0, Some p,
                copy_out attrs_out (attrs o)), s)))).
Proof.
  intros [Hlist Hlen] Ho.
  assert (Hfull : ∀ q oq, heap s !! q = Some oq →
            take (Z.to_nat V4_FH_OPAQUE_SIZE) (handle oq) = handle oq).
  { intros q oq Hoq. apply take_ge. specialize (Hlen q oq Hoq). lia. }
  assert (Hwire : output_type ≠ FSAL_DIGEST_OTHER →
            V4_FH_OPAQUE_SIZE ≤ len →
            mem_handle_to_wire p output_type len s
            = Some ((fsalstat ERR_FSAL_NO_ERROR 0, Some (handle o)), s)).
  { intros Hnfs Hroom. unfold mem_handle_to_wire.
    destruct output_type; [| |done];
      (destruct (Z.ltb_spec len V4_FH_OPAQUE_SIZE); [lia|]);
      run_load Ho; by rewrite (Hfull p o Ho). }
  split; [|split; [|split]].
  - done.
  - unfold mem_handle_to_key. by run_load Ho.
  - by apply (Hlen p o).
  - intros Hnfs. split.
    { intros Hsmall q. unfold mem_handle_to_wire.
      destruct output_type; [| |done];
        by destruct (Z.ltb_spec len V4_FH_OPAQUE_SIZE); [|lia]. }
    intros Hroom. split; [by apply Hwire|].
    intros Huniq wire. rewrite (Hwire Hnfs Hroom). intros [= <-].
    unfold mem_create_handle. rewrite (Hlen p o Ho), Z.eqb_refl. simpl.
    rewrite bind_get. erewrite bind_run.
    2:{ apply (mem_create_handle_scan_first s (handle o) (fsal_handles s)
                 p o); try done.
        - intros q Hq. by apply Hlist.
        - apply Hlist. by exists o.
        - intros q oq _ Hoq Heq. apply (Huniq q oq Hoq).
          by rewrite <- (Hfull q oq Hoq), <- (Hfull p o Ho). }
    simpl. by run_load Ho.
Qed.
End wire.

(** ** The packaged handle *)

Lemma byte_of_Z_inj a b :
  0 ≤ a < 256 → 0 ≤ b < 256 → byte_of_Z a = byte_of_Z b → a = b.
Proof.
  intros Ha Hb. unfold byte_of_Z. rewrite !Z.mod_small by lia.
  destruct (Byte.of_N (Z.to_N a)) as [x|] eqn:Hx.
  2:{ apply Byte.of_N_None_iff in Hx. lia. }
  destruct (Byte.of_N (Z.to_N b)) as [y|] eqn:Hy.
  2:{ apply Byte.of_N_None_iff in Hy. lia. }
  simpl. intros ->. apply Byte.to_of_N in Hx, Hy. lia.
Qed.

Lemma le_bytes_inj w : ∀ a b,
  0 ≤ a < 256 ^ Z.of_nat w → 0 ≤ b < 256 ^ Z.of_nat w →
  le_bytes w a = le_bytes w b → a = b.
Proof.
  induction w as [|w IH]; intros a b Ha Hb; simpl.
  { simpl in Ha, Hb. lia. }
  rewrite Nat2Z.inj_succ, Z.pow_succ_r in Ha, Hb by lia.
  intros [= H0 Hrest].
  assert (Hq : a / 256 = b / 256).
  { apply IH; [| |done].
    - split; [apply Z.div_pos; lia | apply Z.div_lt_upper_bound; lia].
    - split; [apply Z.div_pos; lia | apply Z.div_lt_upper_bound; lia]. }
  assert (Hr : a mod 256 = b mod 256).
  { unfold byte_of_Z in H0.
    pose proof (Z.mod_pos_bound a 256 ltac:(lia)).
    pose proof (Z.mod_pos_bound b 256 ltac:(lia)).
    apply (byte_of_Z_inj (a mod 256) (b mod 256)); [lia|lia|].
    unfold byte_of_Z. by rewrite !Z.mod_mod by lia. }
  rewrite (Z.div_mod a 256), (Z.div_mod b 256) by lia. lia.
Qed.

Section package.
Context {E : fsal_env}.

(** X22. The handle packaged from a path is the 64-bit hash of the path,
    its 16-bit length, and its first [V4_FH_OPAQUE_SIZE - 10] bytes, padded
    with zeros. So two paths that fit into those bytes get different
    handles whatever the hash is; a path that does not fit is cut, and the
    handle then only depends on the hash, the length and the bytes
    kept. *)
Theorem package_mem_handle_short_paths_differ b1 b2 :
  let room := V4_FH_OPAQUE_SIZE - 10 in
  let n1 := Z.of_nat (length (b_text b1)) in
  let n2 := Z.of_nat (length (b_text b2)) in
  0 ≤ room → n1 < 2 ^ 16 → n2 < 2 ^ 16 →
  (n1 ≤ room → n2 ≤ room →
   package_mem_handle b1 = package_mem_handle b2 → b_text b1 = b_text b2) ∧
  (room < n1 → n1 = n2 →
   CityHash64 (b_text b1) = CityHash64 (b_text b2) →
   take (Z.to_nat room) (b_text b1) = take (Z.to_nat room) (b_text b2) →
   package_mem_handle b1 = package_mem_handle b2).
Proof.
  intros room n1 n2 Hroom H1 H2.
  assert (Hu : ∀ b, Z.of_nat (length (b_text b)) < 2 ^ 16 →
            u16 (display_buffer_len b) = Z.of_nat (length (b_text b))).
  { intros b Hb. unfold u16, wrap, display_buffer_len.
    apply Z.mod_small. lia. }
  split.
  - intros Hf1 Hf2. unfold package_mem_handle.
    rewrite (Hu b1 H1), (Hu b2 H2). fold n1 n2.
    change (V4_FH_OPAQUE_SIZE - (8 + 2)) with room.
    assert (Hm : ∀ n, n ≤ room → MIN room n = n).
    { intros n Hn. unfold MIN. destruct (Z.ltb_spec room n); lia. }
    rewrite (Hm n1 Hf1), (Hm n2 Hf2).
    intros Heq.
    apply app_inj_1 in Heq as [_ Heq]; [|by rewrite !le_bytes_length].
    apply app_inj_1 in Heq as [Hlen Heq]; [|by rewrite !le_bytes_length].
    apply le_bytes_inj in Hlen; [|simpl; lia|simpl; lia].
    unfold n1, n2 in *.
    rewrite !firstn_all2 in Heq by lia.
    apply app_inj_1 in Heq as [Ht _]; [done | lia].
  - intros Hlong Hn Hhash Htake. unfold package_mem_handle.
    rewrite (Hu b1 H1), (Hu b2 H2). fold n1 n2. rewrite <- Hn.
    change (V4_FH_OPAQUE_SIZE - (8 + 2)) with room.
    unfold MIN. destruct (Z.ltb_spec room n1); [|lia].
    by rewrite Hhash, Htake.
Qed.
End package.

(** ** Open by handle *)

Section open_by_handle.
Context {E : fsal_env}.
Variable op_ctx : op_context.

(** X23. [mem_open2] by handle with a state, on a regular file. A share
    conflict is returned as it is and nothing changes. Otherwise the share
    counters are taken, the flags (write implying read) and offset 0 go to
    the descriptor of the state, and [FSAL_O_TRUNC] zeroes the size and
    space-used attributes; only then is the verifier of an exclusive open
    compared with the (truncated) attributes: on a mismatch the call
    returns [ERR_FSAL_EXIST] with minor [EEXIST], closes the descriptor
    of the state and gives the share counters back, but the attributes
    stay truncated. *)
Theorem mem_open2_by_handle_with_state s obj o my_fd flags mode attrs_set
    verifier attrs_out :
  heap s !! obj = Some o → obj_type o = REGULAR_FILE →
  let conflict := check_share_conflict (share (mh_file o)) flags false in
  let a1 := if test_mask flags FSAL_O_TRUNC
            then set_filesize 0 (set_spaceused 0 (attrs o)) else attrs o in
  let sh1 := update_share_counters (share (mh_file o)) FSAL_O_CLOSED flags in
  let mismatch :=
    (create_mode_rank FSAL_EXCLUSIVE <=? create_mode_rank mode)
    && negb (bool_decide (mode = FSAL_EXCLUSIVE_9P))
    && negb (check_verifier_attrlist a1 verifier) in
  let open2 := mem_open2 op_ctx obj (Some my_fd) flags mode None attrs_set
                 verifier attrs_out s in
  (FSAL_IS_ERROR conflict = true →
   open2 = Some ({| o2_status := conflict; o2_state := Some my_fd;
                    o2_new_obj := None; o2_attrs_out := attrs_out;
                    o2_caller_perm_check := None |}, s)) ∧
  (FSAL_IS_ERROR conflict = false → mismatch = false →
   open2 = Some ({| o2_status := fsalstat ERR_FSAL_NO_ERROR 0;
                    o2_state := Some {| openflags := opened_flags flags;
                                        fd_offset := 0 |};
                    o2_new_obj := None; o2_attrs_out := attrs_out;
                    o2_caller_perm_check := None |},
                 set_heap
                   (<[obj := set_attrs a1
                               (set_mh_file (set_share sh1 (mh_file o)) o)]>
                      (heap s)) s)) ∧
  (FSAL_IS_ERROR conflict = false → mismatch = true →
   open2 = Some ({| o2_status := fsalstat ERR_FSAL_EXIST EEXIST;
                    o2_state := Some {| openflags := FSAL_O_CLOSED;
                                        fd_offset := 0 |};
                    o2_new_obj := None; o2_attrs_out := attrs_out;
                    o2_caller_perm_check := None |},
                 set_heap
                   (<[obj := set_attrs a1
                               (set_mh_file
                                  (set_share
                                     (update_share_counters sh1 flags
                                        FSAL_O_CLOSED) (mh_file o)) o)]>
                      (heap s)) s)).
Proof.
  intros Ho Ht conflict a1 sh1 mismatch open2.
  unfold open2, mem_open2. cbv zeta. unfold mem_open2_by_handle. cbv zeta.
  run_load Ho. fold conflict.
  split; [|split].
  - intros Herr. by rewrite Herr.
  - intros Hok Hmis. rewrite Hok. unfold update_share, truncate_attrs.
    erewrite bind_run.
    2:{ erewrite bind_run by (apply modify_run; exact Ho). reflexivity. }
    simpl. rewrite bind_ret. unfold mismatch, a1 in Hmis.
    change (create_mode_rank FSAL_EXCLUSIVE) with 3 in Hmis.
    destruct (test_mask flags FSAL_O_TRUNC).
    + run_modify. erewrite bind_run by (apply load_run; heap_lookup).
      cbn [attrs set_attrs set_mh_file]. rewrite Hmis. simpl.
      by rewrite !insert_insert_eq.
    + rewrite bind_ret.
      erewrite bind_run by (apply load_run; heap_lookup).
      cbn [attrs set_attrs set_mh_file]. rewrite Hmis. simpl.
      done.
  - intros Hok Hmis. rewrite Hok. unfold update_share, truncate_attrs.
    erewrite bind_run.
    2:{ erewrite bind_run by (apply modify_run; exact Ho). reflexivity. }
    simpl. rewrite bind_ret. unfold mismatch, a1 in Hmis.
    change (create_mode_rank FSAL_EXCLUSIVE) with 3 in Hmis.
    destruct (test_mask flags FSAL_O_TRUNC).
    + run_modify. erewrite bind_run by (apply load_run; heap_lookup).
      cbn [attrs set_attrs set_mh_file]. rewrite Hmis. cbv iota.
      change (FSAL_IS_ERROR (fsalstat ERR_FSAL_EXIST EEXIST)) with true.
      change (negb true) with false. cbv iota.
      rewrite bind_ret. run_modify. simpl.
      by rewrite !insert_insert_eq.
    + rewrite bind_ret.
      erewrite bind_run by (apply load_run; heap_lookup).
      cbn [attrs set_attrs set_mh_file]. rewrite Hmis. cbv iota.
      change (FSAL_IS_ERROR (fsalstat ERR_FSAL_EXIST EEXIST)) with true.
      change (negb true) with false. cbv iota.
      rewrite bind_ret. run_modify. simpl.
      rewrite !insert_insert_eq.
      done.
Qed.
End open_by_handle.
(** ** Instances for the other methods *)

Lemma mem_setattr2_sets_named_attributes_witness :
  ∃ A,
    mem_setattr2 (T := model_time_env) model_ctx 1%positive
      false None (size_attrs 3) (demo_store 10)
    = Some ((fsalstat ERR_FSAL_NO_ERROR EINVAL, size_attrs 3),
            with_attrs (demo_store 10) 1%positive (demo_file 10) A) ∧
    filesize A = 3.
Proof.
  destruct (mem_setattr2_sets_named_attributes
              (T := model_time_env) model_ctx (demo_store 10) 1%positive
              (demo_file 10) false None (size_attrs 3))
    as [_ Hgood]; [vm_compute; reflexivity|].
  destruct Hgood as (A & Hrun & Hsize & _); [right; reflexivity|].
  exists A. split; [exact Hrun | exact Hsize].
Defined.

Lemma mem_setattr2_size_keeps_data_witness :
  ∃ o1,
    heap (store_after (mem_setattr2 (T := model_time_env)
                         model_ctx 1%positive false None (size_attrs 0))
            (demo_store 10)) !! 1%positive = Some o1 ∧
    filesize (attrs o1) = 0 ∧ file_length (mh_file o1) = 10.
Proof.
  destruct (mem_setattr2_size_keeps_data (E := model_env)
              (T := model_time_env) model_ctx (demo_store 10) 1%positive
              (demo_file 10) false None (size_attrs 0)
              (fsalstat ERR_FSAL_NO_ERROR EINVAL, size_attrs 0)
              (store_after (mem_setattr2
                              (T := model_time_env) model_ctx 1%positive
                              false None (size_attrs 0)) (demo_store 10)))
    as (o1 & Ho1 & Hfile & _);
    [vm_compute; reflexivity | vm_compute; reflexivity |].
  exists o1. split; [exact Ho1|]. split.
  - vm_compute in Ho1. injection Ho1 as <-. reflexivity.
  - rewrite Hfile. reflexivity.
Defined.

Lemma mem_reopen2_conflict_or_swap_witness :
  ∃ o1,
    mem_reopen2 (E := model_env) 1%positive
      (Some {| openflags := FSAL_O_READ; fd_offset := 4 |}) FSAL_O_RDWR
      (demo_store 10)
    = Some ((fsalstat ERR_FSAL_NO_ERROR 0,
             Some {| openflags := FSAL_O_RDWR; fd_offset := 0 |}),
            set_heap (<[1%positive := o1]> (heap (demo_store 10)))
              (demo_store 10)) ∧
    file_length (mh_file o1) = 10.
Proof.
  destruct (mem_reopen2_conflict_or_swap (E := model_env) (demo_store 10)
              1%positive (demo_file 10)
              {| openflags := FSAL_O_READ; fd_offset := 4 |} FSAL_O_RDWR)
    as (_ & _ & Hok); [vm_compute; reflexivity | reflexivity |].
  destruct Hok as (o1 & Hrun & _ & _ & Hlen & _); [reflexivity|].
  exists o1. split; [exact Hrun | exact Hlen].
Defined.

Lemma mem_close2_closes_global_fd_witness :
  ∃ o1 s1,
    mem_close2 (E := model_env) 1%positive
      (Some (STATE_TYPE_SHARE, {| openflags := FSAL_O_READ; fd_offset := 0 |}))
      (demo_store 10)
    = Some (fsalstat ERR_FSAL_NO_ERROR 0, s1) ∧
    s1 = set_heap (<[1%positive := o1]> (heap (demo_store 10)))
           (demo_store 10) ∧
    openflags (fd (mh_file o1)) = FSAL_O_CLOSED.
Proof.
  destruct (mem_close2_closes_global_fd (E := model_env) (demo_store 10)
              1%positive (demo_file 10) STATE_TYPE_SHARE
              {| openflags := FSAL_O_READ; fd_offset := 0 |})
    as (_ & o1 & s1 & Hrun & Hs1 & Hfd & _);
    [vm_compute; reflexivity | reflexivity |].
  exists o1, s1. split; [exact Hrun|]. split; [exact Hs1 | exact Hfd].
Defined.

Example example_path_fits :
  new_path (H := model_env) tree_store (fresh (dom (heap tree_store)))
    (Some 2%positive) "h" REGULAR_FILE
  = Some ((example_path 2%positive "h" REGULAR_FILE).1,
          (example_path 2%positive "h" REGULAR_FILE).2)
  ∧ (example_path 2%positive "h" REGULAR_FILE).2 = 4085
  ∧ b_text (example_path 2%positive "h" REGULAR_FILE).1
    = bytes_of_string "/export/d/h"
  ∧ fresh (dom (heap tree_store)) = 7%positive.
Proof. vm_compute. repeat split. Qed.

Lemma tree_name_free (name : string) :
  name ≠ "." → name ≠ ".." →
  avltree_lookup mem_n_cmpf name
    (avl_name (mh_dir (obj_at tree_store 2%positive))) = None →
  name_free (obj_at tree_store 2%positive) name.
Proof.
  intros H1 H2 H3. split; [exact H1|]. split; [intros; contradiction|].
  intros _. exact H3.
Qed.

Lemma mem_create_obj_creates_witness :
  ∃ s',
    mem_create_obj (E := model_env) model_ctx 2%positive REGULAR_FILE "h"
      None None tree_store
    = Some ((fsalstat ERR_FSAL_NO_ERROR 0,
             Some (fresh (dom (heap tree_store))), None), s') ∧
    mem_lookup 2%positive "h" None s'
    = Some ((fsalstat ERR_FSAL_NO_ERROR 0,
             Some (fresh (dom (heap tree_store))), None), s').
Proof.
  destruct (mem_create_obj_creates (E := model_env) model_ctx tree_store
              2%positive (obj_at tree_store 2%positive) REGULAR_FILE "h"
              None None (example_path 2%positive "h" REGULAR_FILE).1
              (example_path 2%positive "h" REGULAR_FILE).2)
    as (s' & o' & d' & Hrun & H);
    [ vm_compute; reflexivity | vm_compute; reflexivity
    | apply tree_name_free; [discriminate | discriminate
                            | vm_compute; reflexivity]
    | vm_compute; reflexivity | vm_compute; discriminate |].
  exists s'. split; [exact Hrun|].
  destruct H as (_ & _ & _ & _ & _ & _ & _ & _ & _ & _ & _ & _ & _ & _ & _
                 & _ & _ & _ & Hlookup).
  rewrite bool_decide_eq_false_2 in Hlookup by discriminate. exact Hlookup.
Defined.

Lemma mem_create_obj_refuses_witness :
  mem_create_obj (E := model_env) model_ctx 3%positive REGULAR_FILE "x"
    None None tree_store
  = Some ((fsalstat ERR_FSAL_NOTDIR 0, None, None), tree_store)
  ∧ mem_create_obj (E := model_env) model_ctx 2%positive REGULAR_FILE "f"
      None None tree_store
    = Some ((fsalstat ERR_FSAL_EXIST 0, None, None), tree_store)
  ∧ mem_create_obj (E := failing_display_env) model_ctx 2%positive
      REGULAR_FILE "h" None None tree_store
    = Some ((fsalstat ERR_FSAL_NOMEM 0, None, None),
            set_freed (freed tree_store
                       ++ [Free_handle (fresh (dom (heap tree_store)))])
              tree_store)
  ∧ (example_path 2%positive long_name REGULAR_FILE).2 = 0
  ∧ ∃ o' s',
      mem_create_obj (E := model_env) model_ctx 2%positive REGULAR_FILE
        long_name None None tree_store
      = Some ((fsalstat ERR_FSAL_NO_ERROR 0,
               Some (fresh (dom (heap tree_store))), None), s') ∧
      heap s' !! fresh (dom (heap tree_store)) = Some o'.
Proof.
  split; [|split; [|split; [|split]]].
  - destruct (mem_create_obj_refuses (E := model_env) model_ctx tree_store
                3%positive (obj_at tree_store 3%positive) REGULAR_FILE "x"
                None None) as (Hnotdir & _); [vm_compute; reflexivity|].
    apply Hnotdir. vm_compute. discriminate.
  - destruct (mem_create_obj_refuses (E := model_env) model_ctx tree_store
                2%positive (obj_at tree_store 2%positive) REGULAR_FILE "f"
                None None) as (_ & Hexist & _); [vm_compute; reflexivity|].
    apply Hexist; [vm_compute; reflexivity|]. right. right.
    split; [discriminate | vm_compute; discriminate].
  - destruct (mem_create_obj_refuses (E := failing_display_env) model_ctx
                tree_store 2%positive (obj_at tree_store 2%positive)
                REGULAR_FILE "h" None None) as (_ & _ & Hpath);
      [vm_compute; reflexivity|].
    destruct (Hpath {| b_size := 4096; b_text := [] |} (-1))
      as (Hnomem & _);
      [ vm_compute; reflexivity
      | apply tree_name_free; [discriminate | discriminate
                              | vm_compute; reflexivity]
      | vm_compute; reflexivity |].
    apply Hnomem. reflexivity.
  - vm_compute. reflexivity.
  - destruct (mem_create_obj_refuses (E := model_env) model_ctx
                tree_store 2%positive (obj_at tree_store 2%positive)
                REGULAR_FILE long_name None None) as (_ & _ & Hpath);
      [vm_compute; reflexivity|].
    destruct (Hpath (example_path 2%positive long_name REGULAR_FILE).1
                (example_path 2%positive long_name REGULAR_FILE).2)
      as (_ & Hfits);
      [ vm_compute; reflexivity
      | apply tree_name_free;
          [ intros H; vm_compute in H; discriminate H
          | intros H; vm_compute in H; discriminate H
          | vm_compute; reflexivity ]
      | vm_compute; reflexivity |].
    destruct Hfits as (o' & Hrun & Ho' & _); [vm_compute; discriminate|].
    exists o'. eexists. split; [exact Hrun | exact Ho'].
Defined.

Example tree_methods_run :
  run_methods (H := model_env) (H0 := model_time_env) model_ctx tree_methods
    empty_store = Some tree_store.
Proof. vm_compute. reflexivity. Qed.

Lemma empty_store_ids_ok : ids_ok empty_store.
Proof.
  split; [reflexivity|]. split.
  - intros q o Ho. simpl in Ho. by rewrite lookup_empty in Ho.
  - intros q q' o o' Ho. simpl in Ho. by rewrite lookup_empty in Ho.
Qed.

Lemma empty_store_root_ok : root_ok empty_store.
Proof. intros r Hr. simpl in Hr. discriminate Hr. Qed.

Lemma inode_numbers_stay_unique_witness :
  ids_ok tree_store ∧ 1 ≤ mem_inode_number tree_store ≤ 7.
Proof.
  destruct (inode_numbers_stay_unique (E := model_env) (T := model_time_env)
              model_ctx tree_methods empty_store tree_store
              empty_store_ids_ok)
    as [Hok Hn]; [vm_compute; reflexivity | exact tree_methods_run |].
  split; [exact Hok | exact Hn].
Defined.

Lemma export_root_persists_witness :
  root_handle tree_store = Some 1%positive
  ∧ ∃ o, heap tree_store !! 1%positive = Some o ∧ parent o = None.
Proof.
  destruct (export_root_persists (E := model_env) (T := model_time_env)
              model_ctx [Method_call (Call_lookup_path "/export")]
              empty_store
              (store_after (mem_lookup_path (E := model_env) model_ctx
                              "/export" None) empty_store)
              empty_store_root_ok) as [Hok1 _]; [vm_compute; reflexivity|].
  destruct (export_root_persists (E := model_env) (T := model_time_env)
              model_ctx (tail tree_methods)
              (store_after (mem_lookup_path (E := model_env) model_ctx
                              "/export" None) empty_store)
              tree_store Hok1) as [Hok Hsame]; [vm_compute; reflexivity|].
  assert (Hroot : root_handle tree_store = Some 1%positive)
    by (apply Hsame; vm_compute; reflexivity).
  split; [exact Hroot | exact (Hok 1%positive Hroot)].
Defined.

Lemma methods_keep_identities_witness :
  ident_eq (obj_at tree_store 5%positive)
    (obj_at (store_after (mem_rename 5%positive 2%positive "e" 1%positive
                            "e2") tree_store) 5%positive).
Proof.
  destruct (methods_keep_identities (E := model_env) (T := model_time_env)
              model_ctx
              (Method_call (Call_rename 5%positive 2%positive "e" 1%positive
                              "e2"))
              tree_store
              (store_after (mem_rename 5%positive 2%positive "e" 1%positive
                              "e2") tree_store))
    as (Hident & _); [vm_compute; reflexivity|].
  apply (Hident 5%positive); vm_compute; reflexivity.
Defined.

Lemma mem_lookup_path_creates_root_once_witness :
  mem_lookup_path (E := model_env) model_ctx "/other" None empty_store
  = Some ((fsalstat ERR_FSAL_NOENT 2, None, None), empty_store)
  ∧ ∃ s' o,
      mem_lookup_path (E := model_env) model_ctx "/export" None empty_store
      = Some ((fsalstat ERR_FSAL_NO_ERROR 0,
               Some (fresh (dom (heap empty_store))),
               copy_out None (attrs o)), s') ∧
      root_handle s' = Some (fresh (dom (heap empty_store))) ∧
      mem_lookup_path (E := model_env) model_ctx "/export" None s'
      = Some ((fsalstat ERR_FSAL_NO_ERROR 0,
               Some (fresh (dom (heap empty_store))),
               copy_out None (attrs o)), s').
Proof.
  split.
  - destruct (mem_lookup_path_creates_root_once (E := model_env) model_ctx
                empty_store "/other" None) as (Hother & _).
    apply Hother. discriminate.
  - destruct (mem_lookup_path_creates_root_once (E := model_env) model_ctx
                empty_store "/export" None) as (_ & _ & Hfirst).
    destruct (Hfirst root_path.1 root_path.2)
      as (s' & o & Hrun & _ & _ & Hroot & H);
      [ reflexivity | reflexivity | vm_compute; reflexivity
      | vm_compute; discriminate |].
    exists s', o. split; [exact Hrun|]. split; [exact Hroot|].
    destruct H as (_ & _ & _ & _ & _ & _ & _ & _ & _ & _ & Hagain).
    exact Hagain.
Defined.

Lemma mem_readlink_returns_target_witness :
  mem_readlink 3%positive false tree_store
  = Some ((fsalstat ERR_FSAL_INVAL 0, None), tree_store)
  ∧ ∃ hdl out s',
      mem_symlink (E := model_env) model_ctx 2%positive "m" "over/there"
        None None tree_store
      = Some ((fsalstat ERR_FSAL_NO_ERROR 0, Some hdl, out), s') ∧
      mem_readlink hdl false s'
      = Some ((fsalstat ERR_FSAL_NO_ERROR 0, Some (11, "over/there")), s').
Proof.
  destruct (mem_readlink_returns_target (E := model_env) model_ctx tree_store
              2%positive (obj_at tree_store 2%positive) "m" "over/there"
              None None (example_path 2%positive "m" SYMBOLIC_LINK).1
              (example_path 2%positive "m" SYMBOLIC_LINK).2 false)
    as (Hinval & Hlink);
    [ vm_compute; reflexivity | vm_compute; reflexivity
    | apply tree_name_free; [discriminate | discriminate
                            | vm_compute; reflexivity]
    | vm_compute; reflexivity | vm_compute; discriminate |].
  split; [|exact Hlink].
  apply (Hinval 3%positive (obj_at tree_store 3%positive));
    [vm_compute; reflexivity | vm_compute; discriminate].
Defined.

Lemma mem_lookup_dot_names_witness :
  mem_lookup 2%positive "." None tree_store
  = Some ((fsalstat ERR_FSAL_NO_ERROR 0, Some 2%positive, None), tree_store)
  ∧ mem_lookup 1%positive ".." None tree_store
    = Some ((fsalstat ERR_FSAL_NOENT 0, None, None), tree_store)
  ∧ mem_lookup 2%positive ".." None tree_store
    = Some ((fsalstat ERR_FSAL_NO_ERROR 0, Some 1%positive, None),
            tree_store).
Proof.
  split; [|split].
  - destruct (mem_lookup_dot_names tree_store 2%positive
                (obj_at tree_store 2%positive) None) as (Hdot & _);
      [vm_compute; reflexivity|].
    exact Hdot.
  - destruct (mem_lookup_dot_names tree_store 1%positive
                (obj_at tree_store 1%positive) None) as (_ & Hroot & _);
      [vm_compute; reflexivity|].
    apply Hroot. vm_compute. reflexivity.
  - destruct (mem_lookup_dot_names tree_store 2%positive
                (obj_at tree_store 2%positive) None) as (_ & _ & Hup);
      [vm_compute; reflexivity|].
    apply (Hup 1%positive (obj_at tree_store 1%positive));
      vm_compute; reflexivity.
Defined.

Lemma mem_rename_leaves_parent_pointer_witness :
  ∃ s1,
    mem_rename 5%positive 2%positive "e" 1%positive "e2" tree_store
    = Some (fsalstat ERR_FSAL_NO_ERROR 0, s1) ∧
    mem_int_lookup 1%positive "e2" s1
    = Some ((fsalstat ERR_FSAL_NO_ERROR 0, Some 5%positive), s1) ∧
    mem_int_lookup 5%positive ".." s1
    = Some ((fsalstat ERR_FSAL_NO_ERROR 0, Some 2%positive), s1).
Proof.
  exists (store_after (mem_rename 5%positive 2%positive "e" 1%positive "e2")
            tree_store).
  assert (Hrun : mem_rename 5%positive 2%positive "e" 1%positive "e2"
                   tree_store
                 = Some (fsalstat ERR_FSAL_NO_ERROR 0,
                         store_after (mem_rename 5%positive 2%positive "e"
                                        1%positive "e2") tree_store))
    by (vm_compute; reflexivity).
  split; [exact Hrun|]. split; [vm_compute; reflexivity|].
  destruct (mem_rename_leaves_parent_pointer tree_store 5%positive 2%positive
              "e" 1%positive "e2" (obj_at tree_store 5%positive)
              (fsalstat ERR_FSAL_NO_ERROR 0)
              (store_after (mem_rename 5%positive 2%positive "e" 1%positive
                              "e2") tree_store))
    as (o1 & _ & _ & Hup); [vm_compute; reflexivity | exact Hrun |].
  replace (parent (obj_at tree_store 5%positive)) with (Some 2%positive)
    in Hup by (vm_compute; reflexivity).
  exact Hup.
Defined.

Lemma mem_rename_onto_existing_name_witness :
  mem_rename 3%positive 2%positive "f" 2%positive "e" tree_store
  = Some (fsalstat ERR_FSAL_EXIST 0, tree_store)
  ∧ mem_rename 3%positive 2%positive "f" 2%positive "f" tree_store
    = Some (fsalstat ERR_FSAL_NO_ERROR 0, tree_store).
Proof.
  split.
  - destruct (mem_rename_onto_existing_name tree_store 3%positive 2%positive
                "f" 2%positive "e" (obj_at tree_store 3%positive)
                (obj_at tree_store 2%positive) 5%positive
                (obj_at tree_store 5%positive))
      as (_ & Hexist & _);
      [ vm_compute; reflexivity | vm_compute; reflexivity
      | vm_compute; reflexivity | discriminate | discriminate
      | vm_compute; reflexivity |].
    apply Hexist; [discriminate|]. right.
    split; [vm_compute; discriminate | vm_compute; reflexivity].
  - destruct (mem_rename_onto_existing_name tree_store 3%positive 2%positive
                "f" 2%positive "f" (obj_at tree_store 3%positive)
                (obj_at tree_store 2%positive) 3%positive
                (obj_at tree_store 3%positive))
      as (Hsame & _);
      [ vm_compute; reflexivity | vm_compute; reflexivity
      | vm_compute; reflexivity | discriminate | discriminate
      | vm_compute; reflexivity |].
    apply Hsame. reflexivity.
Defined.

Lemma mem_getattrs_stale_after_unlink_witness :
  is_Some (heap tree_store_unlinked !! 3%positive)
  ∧ mem_getattrs 3%positive zero_attrlist tree_store_unlinked
    = Some ((fsalstat ERR_FSAL_STALE ESTALE, zero_attrlist),
            tree_store_unlinked).
Proof.
  destruct (mem_getattrs_stale_after_unlink tree_store 2%positive 3%positive
              "f" (obj_at tree_store 2%positive)
              (obj_at tree_store 3%positive) zero_attrlist
              tree_store_unlinked)
    as (_ & Hthere & Hstale);
    [ vm_compute; reflexivity | vm_compute; reflexivity
    | vm_compute; discriminate | vm_compute; reflexivity
    | vm_compute; reflexivity |].
  split; [exact Hthere | exact Hstale].
Defined.

Lemma mem_open2_by_name_creates_and_opens_witness :
  ∃ r s1,
    mem_open2 (E := model_env) model_ctx 2%positive None FSAL_O_WRITE
      FSAL_UNCHECKED (Some "h") None [] None tree_store = Some (r, s1) ∧
    o2_new_obj r = Some (fresh (dom (heap tree_store))) ∧
    mem_unlink 2%positive (fresh (dom (heap tree_store))) "h" s1
    = Some (fsalstat ERR_FSAL_FILE_OPEN 0, s1).
Proof.
  destruct (mem_open2_by_name_creates_and_opens (E := model_env) model_ctx
              tree_store 2%positive (obj_at tree_store 2%positive)
              FSAL_O_WRITE FSAL_UNCHECKED "h" None []
              (example_path 2%positive "h" REGULAR_FILE).1
              (example_path 2%positive "h" REGULAR_FILE).2)
    as ((r & s1 & s2 & s3 & Hrun & _ & Hnew & _ & Hbusy & _) & _);
    [ vm_compute; reflexivity | vm_compute; reflexivity
    | apply tree_name_free; [discriminate | discriminate
                            | vm_compute; reflexivity]
    | vm_compute; reflexivity | vm_compute; discriminate
    | vm_compute; discriminate |].
  exists r, s1. split; [exact Hrun|]. split; [exact Hnew | exact Hbusy].
Defined.

Lemma mem_insert_then_remove_witness :
  ∃ s1 s2 d2,
    mem_insert_obj 5%positive 3%positive tree_store_unlinked = Some (tt, s1) ∧
    mem_remove_obj 5%positive 3%positive s1 = Some (tt, s2) ∧
    heap s2 !! 5%positive = Some d2 ∧
    mh_dir d2 = mh_dir (obj_at tree_store_unlinked 5%positive) ∧
    next_i d2 = u32 (next_i (obj_at tree_store_unlinked 5%positive) + 1).
Proof.
  destruct (mem_insert_then_remove tree_store_unlinked 5%positive 3%positive
              (obj_at tree_store_unlinked 5%positive)
              (obj_at tree_store_unlinked 3%positive))
    as (s1 & s2 & d2 & c2 & Hin & Hout & Hd2 & _ & _ & Hdir & Hnext & _);
    [ vm_compute; reflexivity | vm_compute; reflexivity | discriminate
    | vm_compute; reflexivity | vm_compute; reflexivity
    | vm_compute; reflexivity
    | apply (bool_decide_unpack _); vm_compute; exact I
    | apply (bool_decide_unpack _); vm_compute; exact I
    | vm_compute; split; [discriminate | reflexivity] |].
  exists s1, s2, d2. split; [exact Hin|]. split; [exact Hout|].
  split; [exact Hd2|]. split; [exact Hdir | exact Hnext].
Defined.

Lemma tree_entries_allocated n :
  n ∈ avl_index (mh_dir (obj_at tree_store 2%positive)) →
  is_Some (heap tree_store !! n.2).
Proof.
  intros Hin.
  replace (avl_index (mh_dir (obj_at tree_store 2%positive)))
    with [(2, 3%positive); (3, 4%positive); (4, 5%positive)] in Hin
    by (vm_compute; reflexivity).
  repeat (apply elem_of_cons in Hin as [->|Hin];
          [eexists; vm_compute; reflexivity|]).
  inversion Hin.
Qed.

Lemma mem_readdir_end_of_directory_witness :
  mem_readdir 2%positive None [] (stop_at 3) 0 tree_store
  = Some ((fsalstat ERR_FSAL_NO_ERROR 0, [3], false), tree_store)
  ∧ ∃ st',
      mem_readdir 2%positive None [] (stop_at 5) 0 tree_store
      = Some ((fsalstat ERR_FSAL_NO_ERROR 0, st', false), tree_store).
Proof.
  split.
  - destruct (mem_readdir_end_of_directory (stop_at 3) tree_store 2%positive
                (obj_at tree_store 2%positive) None [] 0)
      as (st' & eof & Hrun & _ & _ & _ & Hfirst & _);
      [vm_compute; reflexivity | apply tree_entries_allocated |].
    destruct (Hfirst [] (default zero_dirent (head tree_listing))
                (tail tree_listing)) as [-> ->];
      [ vm_compute; reflexivity | intros [|? ?] ? ? Hnil; discriminate Hnil
      | vm_compute; reflexivity |].
    rewrite Hrun. vm_compute. reflexivity.
  - destruct (mem_readdir_end_of_directory (stop_at 5) tree_store 2%positive
                (obj_at tree_store 2%positive) None [] 0)
      as (st' & eof & Hrun & _ & _ & _ & _ & _ & Hlast);
      [vm_compute; reflexivity | apply tree_entries_allocated |].
    exists st'.
    rewrite <- (Hlast (take 2 tree_listing)
                  (default zero_dirent (last tree_listing)));
      [exact Hrun | vm_compute; reflexivity | vm_compute; reflexivity].
Defined.

Lemma tree_handle_unique q oq :
  heap tree_store !! q = Some oq →
  handle oq = handle (obj_at tree_store 3%positive) → q = 3%positive.
Proof.
  intros Hq Hh.
  assert (Hin : q ∈ fsal_handles tree_store).
  { apply tree_store_ok. by exists oq. }
  vm_compute in Hin.
  repeat (apply elem_of_cons in Hin as [->|Hin];
          [vm_compute in Hq; inversion Hq; subst oq; vm_compute in Hh;
           first [reflexivity | discriminate]|]).
  inversion Hin.
Qed.

Lemma mem_handle_to_wire_and_back_witness :
  mem_handle_to_wire (E := model_env) 3%positive FSAL_DIGEST_OTHER 128
    tree_store
  = Some ((fsalstat ERR_FSAL_SERVERFAULT 0, None), tree_store)
  ∧ mem_handle_to_wire (E := model_env) 3%positive FSAL_DIGEST_NFSV4 8
      tree_store
    = Some ((fsalstat ERR_FSAL_TOOSMALL 0, None), tree_store)
  ∧ mem_handle_to_wire (E := model_env) 3%positive FSAL_DIGEST_NFSV3 128
      tree_store
    = Some ((fsalstat ERR_FSAL_NO_ERROR 0,
             Some (handle (obj_at tree_store 3%positive))), tree_store)
  ∧ mem_create_handle (E := model_env)
      (handle (obj_at tree_store 3%positive)) None tree_store
    = Some ((fsalstat ERR_FSAL_NO_ERROR 0, Some 3%positive,
             copy_out None (attrs (obj_at tree_store 3%positive))),
            tree_store).
Proof.
  split; [|split].
  - destruct (mem_handle_to_wire_and_back (E := model_env) tree_store
                3%positive (obj_at tree_store 3%positive) FSAL_DIGEST_OTHER
                128 None tree_store_ok) as (Hother & _);
      [vm_compute; reflexivity|].
    apply Hother.
  - destruct (mem_handle_to_wire_and_back (E := model_env) tree_store
                3%positive (obj_at tree_store 3%positive) FSAL_DIGEST_NFSV4
                8 None tree_store_ok) as (_ & _ & _ & Hnfs);
      [vm_compute; reflexivity|].
    destruct Hnfs as (Hsmall & _); [discriminate|].
    apply Hsmall. vm_compute. reflexivity.
  - destruct (mem_handle_to_wire_and_back (E := model_env) tree_store
                3%positive (obj_at tree_store 3%positive) FSAL_DIGEST_NFSV3
                128 None tree_store_ok) as (_ & _ & _ & Hnfs);
      [vm_compute; reflexivity|].
    destruct Hnfs as (_ & Hroom); [discriminate|].
    destruct Hroom as (Hwire & Hback); [vm_compute; discriminate|].
    split; [exact Hwire|].
    apply (Hback tree_handle_unique). exact Hwire.
Defined.

Lemma tree_store_unlinked_ok : store_ok (H := model_env) tree_store_unlinked.
Proof.
  apply reachable_store_ok; [vm_compute; discriminate|].
  apply (reachable_step model_ctx (Call_unlink 2%positive 3%positive "f")
           tree_store); [apply tree_store_reachable | vm_compute; reflexivity].
Qed.

Lemma tree_unlinked_handle_unique q oq :
  heap tree_store_unlinked !! q = Some oq →
  handle oq = handle (obj_at tree_store_unlinked 3%positive) → q = 3%positive.
Proof.
  intros Hq Hh.
  assert (Hin : q ∈ fsal_handles tree_store_unlinked).
  { apply tree_store_unlinked_ok. by exists oq. }
  vm_compute in Hin.
  repeat (apply elem_of_cons in Hin as [->|Hin];
          [vm_compute in Hq; inversion Hq; subst oq; vm_compute in Hh;
           first [reflexivity | discriminate]|]).
  inversion Hin.
Qed.

Lemma mem_create_handle_bad_or_stale_witness :
  mem_create_handle (E := model_env) [x00; x01] None tree_store_unlinked
  = Some ((fsalstat ERR_FSAL_BADHANDLE 0, None, None), tree_store_unlinked)
  ∧ ∃ s',
      mem_release 1 3%positive tree_store_unlinked = Some (tt, s') ∧
      mem_create_handle (E := model_env)
        (handle (obj_at tree_store_unlinked 3%positive)) None s'
      = Some ((fsalstat ERR_FSAL_STALE ESTALE, None, None), s').
Proof.
  split.
  - destruct (mem_create_handle_bad_or_stale (E := model_env)
                tree_store_unlinked [x00; x01] None) as (Hbad & _).
    apply Hbad. vm_compute. discriminate.
  - destruct (mem_create_handle_bad_or_stale (E := model_env)
                tree_store_unlinked
                (handle (obj_at tree_store_unlinked 3%positive)) None)
      as (_ & _ & Hgone).
    destruct (Hgone 3%positive (obj_at tree_store_unlinked 3%positive) 0%nat)
      as (_ & s' & Hrel & Hstale);
      [ apply tree_store_unlinked_ok | vm_compute; reflexivity
      | vm_compute; discriminate | vm_compute; reflexivity
      | vm_compute; discriminate | reflexivity
      | apply tree_unlinked_handle_unique |].
    exists s'. split; [exact Hrel | exact Hstale].
Defined.

Lemma package_mem_handle_short_paths_differ_witness :
  bool_decide
    (package_mem_handle (E := model_env)
       {| b_size := 16; b_text := bytes_of_string "/export/a" |}
     = package_mem_handle (E := model_env)
         {| b_size := 16; b_text := bytes_of_string "/export/b" |})
  = false.
Proof.
  destruct (package_mem_handle_short_paths_differ (E := model_env)
              {| b_size := 16; b_text := bytes_of_string "/export/a" |}
              {| b_size := 16; b_text := bytes_of_string "/export/b" |})
    as (Hshort & _);
    [ vm_compute; discriminate | vm_compute; reflexivity
    | vm_compute; reflexivity |].
  apply bool_decide_eq_false_2.
  intros Heq. apply Hshort in Heq;
    [vm_compute in Heq; discriminate Heq
    | vm_compute; discriminate | vm_compute; discriminate].
Defined.

Lemma mem_open2_by_handle_with_state_witness :
  ∃ s1,
    mem_open2 (E := model_env) model_ctx 1%positive
      (Some {| openflags := FSAL_O_CLOSED; fd_offset := 7 |})
      (Z.lor FSAL_O_WRITE FSAL_O_TRUNC) FSAL_NO_CREATE None None [] None
      (demo_store 10)
    = Some ({| o2_status := fsalstat ERR_FSAL_NO_ERROR 0;
               o2_state := Some {| openflags :=
                                     opened_flags
                                       (Z.lor FSAL_O_WRITE FSAL_O_TRUNC);
                                   fd_offset := 0 |};
               o2_new_obj := None; o2_attrs_out := None;
               o2_caller_perm_check := None |}, s1) ∧
    filesize (attrs (obj_at s1 1%positive)) = 0.
Proof.
  destruct (mem_open2_by_handle_with_state (E := model_env) model_ctx
              (demo_store 10) 1%positive (demo_file 10)
              {| openflags := FSAL_O_CLOSED; fd_offset := 7 |}
              (Z.lor FSAL_O_WRITE FSAL_O_TRUNC) FSAL_NO_CREATE None [] None)
    as (_ & Hok & _); [vm_compute; reflexivity | reflexivity |].
  eexists. split; [apply Hok; vm_compute; reflexivity|].
  vm_compute. reflexivity.
Defined.

Lemma lookups_change_nothing_witness :
  snd <$> mem_handle_to_wire (E := model_env) 3%positive FSAL_DIGEST_NFSV4 64
            tree_store = Some tree_store
  ∧ snd <$> mem_readdir 2%positive None [] (stop_at 3) 0 tree_store
    = Some tree_store.
Proof.
  destruct (lookups_change_nothing (H := model_env))
    as (_ & Hreaddir & _ & _ & Hwire & _).
  split.
  - destruct (mem_handle_to_wire (E := model_env) 3%positive
                FSAL_DIGEST_NFSV4 64 tree_store) as [[r s']|] eqn:Hrun;
      [|vm_compute in Hrun; discriminate Hrun].
    change (Some s' = Some tree_store). apply f_equal.
    exact (Hwire _ _ _ _ _ _ Hrun).
  - destruct (mem_readdir 2%positive None [] (stop_at 3) 0 tree_store)
      as [[r s']|] eqn:Hrun; [|vm_compute in Hrun; discriminate Hrun].
    change (Some s' = Some tree_store). apply f_equal.
    exact (Hreaddir _ _ _ _ _ _ _ _ _ Hrun).
Defined.
